(** * handoverAgent: knowledge store, file lock, relevance ranker, gap
    engine, feedback analyzer and Q&A response parser

    A shallow embedding of the TypeScript sources into Rocq, followed by
    the properties of the specification that were checked against it.

    Conventions of the embedding.
    - A JavaScript string is a [string] whose characters are the code
      units below 256 (Latin-1); text outside that range is not modelled.
    - A JavaScript number that holds a count is a [nat] or a [Z]; a
      number that holds a confidence, a score or a rate is a rational
      [Q].  The score of the ranker and the percentage printed for the
      satisfaction rate are rounded as the double-precision arithmetic
      of JavaScript rounds them ([Js.double], which stands for the
      finite doubles: a value of 2^1024 or more, [Infinity] in the
      program, is outside it); the other rates and coverages are exact
      rationals.
    - [new Date().toISOString()], [Date.now()] and [randomUUID()] are
      inputs of the functions that call them.
    - A directory of JSON record files is a finite map from the file
      name without its [.json] suffix to the file's content.  The file
      of an id is found with [path.join]: it is the file named by the id
      when the id is a plain file name ([StoreSpec.plainId]), and the
      statements about ids say so; [Store.target] follows the path of
      any id.  [readdirSync] lists the map in some order, for which the
      order of [map_to_list] stands. *)

From Stdlib Require Import ZArith QArith Ascii String List Permutation Sorted Lia Bool.
From Stdlib Require Import DecimalString Lqa Qround Qpower.
From stdpp Require Import gmap strings list fin_maps.

Local Open Scope Z_scope.

(* ================================================================== *)
(** * Part I: the embedding                                            *)
(* ================================================================== *)

(** ** JavaScript string and array primitives used by the sources *)

Module Js.

Definition code (c : ascii) : N := N_of_ascii c.

(** [/\s/] restricted to code units below 256. *)
Definition isSpace (c : ascii) : bool :=
  let n := code c in
  ((9 <=? n) && (n <=? 13) || (n =? 32) || (n =? 160))%N.

(** Line terminators, the characters [.] does not match. *)
Definition isLineTerminator (c : ascii) : bool :=
  let n := code c in ((n =? 10) || (n =? 13))%N.

Definition lowerChar (c : ascii) : ascii :=
  let n := code c in
  if ((65 <=? n) && (n <=? 90)
      || (192 <=? n) && (n <=? 222) && negb (n =? 215))%N
  then ascii_of_N (n + 32) else c.

(** [String.prototype.toLowerCase] *)
Fixpoint toLowerCase (s : string) : string :=
  match s with
  | EmptyString => EmptyString
  | String c s' => String (lowerChar c) (toLowerCase s')
  end.

Fixpoint startsWith (s p : string) : bool :=
  match p, s with
  | EmptyString, _ => true
  | String a p', String b s' => Ascii.eqb a b && startsWith s' p'
  | String _ _, EmptyString => false
  end.

(** [String.prototype.includes] *)
Fixpoint includes (s sub : string) : bool :=
  startsWith s sub
  || match s with
     | EmptyString => false
     | String _ s' => includes s' sub
     end.

(** [Array.prototype.includes] on an array of strings *)
Definition arrayIncludes (l : list string) (x : string) : bool :=
  existsb (String.eqb x) l.

(** [s.split(/\s+/)]: [cur] is the piece being read, [inSep] tells that
    the previous character was white space. *)
Fixpoint splitSpaces (inSep : bool) (cur : string) (s : string) : list string :=
  match s with
  | EmptyString => [cur]
  | String c s' =>
      if isSpace c then
        if inSep then splitSpaces true cur s'
        else cur :: splitSpaces true EmptyString s'
      else splitSpaces false (cur +:+ String c EmptyString) s'
  end.

Definition splitWhitespace (s : string) : list string :=
  splitSpaces false EmptyString s.

(** [s.split(sep)] for a one-character separator *)
Fixpoint splitChar (sep : ascii) (cur : string) (s : string) : list string :=
  match s with
  | EmptyString => [cur]
  | String c s' =>
      if Ascii.eqb c sep then cur :: splitChar sep EmptyString s'
      else splitChar sep (cur +:+ String c EmptyString) s'
  end.

Fixpoint trimStart (s : string) : string :=
  match s with
  | String c s' => if isSpace c then trimStart s' else s
  | EmptyString => EmptyString
  end.

Fixpoint revString (acc s : string) : string :=
  match s with
  | EmptyString => acc
  | String c s' => revString (String c acc) s'
  end.

(** [String.prototype.trim] *)
Definition trim (s : string) : string :=
  revString EmptyString (trimStart (revString EmptyString (trimStart s))).

(** Some character of [s] satisfies [p]. *)
Fixpoint anyChar (p : ascii -> bool) (s : string) : bool :=
  match s with
  | EmptyString => false
  | String c s' => p c || anyChar p s'
  end.

(** [arr.slice(0, n)] for a length [n] that is a natural number. *)
Definition slice0 {A} (l : list A) (n : nat) : list A := firstn n l.

(** [Array.prototype.sort] is stable.  [before y x] tells that the
    comparator, called on [(y, x)], is negative: [y] must come first.
    Insertion from the right end keeps equal elements in their
    original order. *)
Section Sort.
Context {A : Type} (before : A -> A -> bool).

Fixpoint insertSorted (x : A) (l : list A) : list A :=
  match l with
  | [] => [x]
  | y :: l' => if before y x then y :: insertSorted x l' else x :: l
  end.

Definition sort (l : list A) : list A := fold_right insertSorted [] l.

(** [ordered a b]: the comparator lets [a] stand before [b]. *)
Definition ordered (a b : A) : Prop := before b a = false.

(** [tied a b]: the comparator puts neither before the other. *)
Definition tied (a b : A) : bool := negb (before a b) && negb (before b a).
End Sort.

(** [Map] and [Set] keep insertion order: an association list whose
    [set] replaces in place, and a list without repetition. *)
Section Collections.
Context {K V : Type} (eqb : K -> K -> bool).

Fixpoint mapGet (m : list (K * V)) (k : K) : option V :=
  match m with
  | [] => None
  | (k', v) :: m' => if eqb k' k then Some v else mapGet m' k
  end.

Fixpoint mapSet (m : list (K * V)) (k : K) (v : V) : list (K * V) :=
  match m with
  | [] => [(k, v)]
  | (k', v') :: m' =>
      if eqb k' k then (k', v) :: m' else (k', v') :: mapSet m' k v
  end.

Definition setHas (l : list K) (k : K) : bool := existsb (eqb k) l.

Definition setAdd (l : list K) (k : K) : list K :=
  if setHas l k then l else l ++ [k].
End Collections.

(** [Math.round]: the nearest integer, a half going up. *)
Definition round (x : Q) : Z := Qfloor (x + (1 # 2)).

(** The exponent of a positive number: the [k] with [2^k <= x < 2^(k+1)]. *)
Definition exponent (x : Q) : Z :=
  let k := Z.log2 (Qnum x) - Z.log2 (Z.pos (Qden x)) in
  if Qle_bool (2 ^ k) x then k else k - 1.

(** The nearest integer, a half going to the even neighbour. *)
Definition roundHalfEven (y : Q) : Z :=
  let f := Qfloor y in
  match (y - inject_Z f ?= 1 # 2)%Q with
  | Lt => f
  | Eq => if Z.even f then f else f + 1
  | Gt => f + 1
  end.

(** A positive number rounded to 53 significant bits. *)
Definition nearest53 (x : Q) : Q :=
  let e := exponent x - 52 in
  (inject_Z (roundHalfEven (x / 2 ^ e)) * 2 ^ e)%Q.

(** The double nearest to [x] (round to nearest, ties to even), as the
    arithmetic of JavaScript numbers gives it; the exponent range is not
    bounded, so that overflow to [Infinity] and underflow are not
    modelled. *)
Definition double (x : Q) : Q :=
  let x := Qred x in
  match (0 ?= x)%Q with
  | Lt => Qred (nearest53 x)
  | Eq => 0%Q
  | Gt => Qred (- nearest53 (- x))
  end.

End Js.

(** ** The data model ([types.ts]) *)

Inductive KnowledgeCategory :=
| architecture | codebase | process | people | decision
| tool | convention | domain | other.

Definition categoryName (c : KnowledgeCategory) : string :=
  match c with
  | architecture => "architecture" | codebase => "codebase"
  | process => "process" | people => "people" | decision => "decision"
  | tool => "tool" | convention => "convention" | domain => "domain"
  | other => "other"
  end.

Inductive SourceType := src_file | src_git | src_doc | src_manual | src_qa.

Record KnowledgeSource := {
  src_type : SourceType;
  src_path : option string;
  src_ref : option string
}.

Record KnowledgeEntry := {
  id : string;
  title : string;
  content : string;
  category : KnowledgeCategory;
  tags : list string;
  source : KnowledgeSource;
  confidence : Q;
  createdAt : string;
  updatedAt : string
}.

Record KnowledgeIndexEntry := {
  ix_id : string;
  ix_title : string;
  ix_category : KnowledgeCategory;
  ix_tags : list string;
  ix_confidence : Q
}.

Record KnowledgeIndex := {
  ix_entries : list KnowledgeIndexEntry;
  lastUpdated : string;
  totalEntries : nat
}.

Inductive Rating := positive | negative.

Record Feedback := {
  rating : Rating;
  comment : option string;
  fb_timestamp : string;
  messageId : option string
}.

Inductive Role := user | assistant.

Record Citation := {
  entryId : string;
  c_title : string;
  excerpt : string;
  c_source : KnowledgeSource
}.

Record QAMessage := {
  role : Role;
  msg_content : string;
  msg_timestamp : string;
  citations : option (list Citation);
  msg_confidence : option Q;
  feedback : option Feedback
}.

Record Session := {
  session_id : string;
  handoverId : string;
  startedAt : string;
  endedAt : option string;
  messages : list QAMessage;
  topicsCovered : list string
}.

Inductive HandoverType := project | role_ | team.

(** ** Relevance ranker ([findRelevantEntries], knowledge indexer) *)

Module Ranker.

Definition queryTerms (queryLower : string) : list string :=
  List.filter (fun t => (2 <? String.length t)%nat) (Js.splitWhitespace queryLower).

(** One turn of the [for (const term of queryTerms)] loop. *)
Definition termStep (entry : KnowledgeEntry) (score : Z) (term : string) : Z :=
  let titleLower := Js.toLowerCase (title entry) in
  let contentLower := Js.toLowerCase (content entry) in
  let tagsLower := map Js.toLowerCase (tags entry) in
  let score := if Js.includes titleLower term then score + 3 else score in
  let score := if Js.includes contentLower term then score + 1 else score in
  let score := if Js.arrayIncludes tagsLower term then score + 4 else score in
  let score :=
    if Js.includes (Js.toLowerCase (categoryName (category entry))) term
    then score + 2 else score in
  score.

(** The value of [score] after the loop. *)
Definition rawScore (queryLower : string) (terms : list string)
    (entry : KnowledgeEntry) : Z :=
  let titleLower := Js.toLowerCase (title entry) in
  let contentLower := Js.toLowerCase (content entry) in
  let score := 0 in
  let score := if Js.includes titleLower queryLower then score + 10 else score in
  let score := if Js.includes contentLower queryLower then score + 5 else score in
  fold_left (termStep entry) terms score.

Record Scored := { s_entry : KnowledgeEntry; s_score : Q }.

(** [{ entry, score: score * entry.confidence }]: the confidence is the
    double that the number of the record parses to, and the product is
    rounded to a double. *)
Definition scoreEntry (queryLower : string) (terms : list string)
    (entry : KnowledgeEntry) : Scored :=
  {| s_entry := entry;
     s_score :=
       Js.double (inject_Z (rawScore queryLower terms entry)
                  * Js.double (confidence entry)) |}.

Definition positive (s : Scored) : bool :=
  match 0 ?= s_score s with Lt => true | _ => false end%Q.

(** The comparator [(a, b) => b.score - a.score] is negative on [(y, x)]
    when [x.score < y.score]. *)
Definition before (y x : Scored) : bool :=
  match s_score x - s_score y ?= 0 with Lt => true | _ => false end%Q.

Definition findRelevantEntries (query : string) (entries : list KnowledgeEntry)
    (limit : nat) : list KnowledgeEntry :=
  let queryLower := Js.toLowerCase query in
  let terms := queryTerms queryLower in
  if (List.length terms =? 0)%nat then Js.slice0 entries limit
  else
    let scored := map (scoreEntry queryLower terms) entries in
    map s_entry
      (Js.slice0 (Js.sort before (List.filter positive scored)) limit).

End Ranker.

(** ** Mutual-exclusion file lock ([FileLock], lock.ts) *)

Module FileLock.

Definition LOCK_TIMEOUT_MS : Z := 5000.
Definition LOCK_RETRY_MS : Z := 50.

(** What one turn of the loop in [acquire] finds at [lockPath]. *)
Inductive Marker :=
| Absent                       (* [existsSync] is false *)
| Unparseable                  (* reading or [JSON.parse] throws *)
| Parsed (time : option Z).    (* [lockData.time] as the subtraction converts it
                                  (null is 0); [None] when that is NaN *)

(** The answers of the clock and of the file system during one turn:
    [Date.now()] in the loop condition, the marker found, whether the
    exclusive write (flag [wx]) succeeds, the [Date.now()] of the loop
    body (written into the new marker, or used by the staleness test),
    and whether the first [unlinkSync] succeeds. *)
Record Turn := {
  t_loop : Z;
  found : Marker;
  wx_ok : bool;
  t_body : Z;
  unlink_ok : bool
}.

Inductive Action :=
| WriteMarker (pid_time : Z)   (* the marker was created, recording this time *)
| WriteFailed                  (* another process created it first *)
| Unlink
| Sleep (ms : Z).

Inductive Outcome :=
| Acquired                     (* [acquire] returned *)
| Timeout                      (* [acquire] threw 'Failed to acquire file lock: timeout' *)
| Pending.                     (* the loop is still running when the answers end *)

(** [Date.now() - lockData.time > LOCK_TIMEOUT_MS]; a comparison with
    NaN is false. *)
Definition stale (now : Z) (time : option Z) : bool :=
  match time with
  | Some t => LOCK_TIMEOUT_MS <? now - t
  | None => false
  end.

(** [acquire]: [start] is the first [Date.now()], [env] gives the
    answers turn by turn; the result is the outcome and the actions
    performed, in order. *)
Fixpoint acquire (start : Z) (env : list Turn) : Outcome * list Action :=
  match env with
  | [] => (Pending, [])
  | o :: env' =>
      if t_loop o - start <? LOCK_TIMEOUT_MS then
        match found o with
        | Absent =>
            if wx_ok o then (Acquired, [WriteMarker (t_body o)])
            else
              let '(r, tr) := acquire start env' in
              (r, WriteFailed :: Sleep LOCK_RETRY_MS :: tr)
        | Parsed time =>
            if stale (t_body o) time then
              let '(r, tr) := acquire start env' in
              if unlink_ok o then (r, Unlink :: tr)
              else (r, Unlink :: Unlink :: tr)
            else
              let '(r, tr) := acquire start env' in
              (r, Sleep LOCK_RETRY_MS :: tr)
        | Unparseable =>
            let '(r, tr) := acquire start env' in
            (r, Unlink :: tr)
        end
      else (Timeout, [])
  end.

End FileLock.

(** ** Knowledge store ([KnowledgeStore], knowledge-store.ts) *)

Module Store.

(** Content of a file of the entries directory: [readJSON] gives [null]
    for a file that does not parse. *)
Inductive File :=
| Corrupt
| Readable (e : KnowledgeEntry).

Inductive IndexFile :=
| Missing
| Garbled
| Stored (ix : KnowledgeIndex).

(** The persisted state: what the entries directory holds under each
    name [k.json], keyed by [k], and the index file.  The operations
    below take the key of the file they work on.  The source builds the
    path of an id with [path.join]: the key is the id itself when the id
    is a plain file name ([StoreSpec.plainId]); [target] tells where the
    path of any other id leads. *)
Record State := {
  entryFiles : gmap string File;
  indexFile : IndexFile
}.

Definition readEntry (f : option File) : option KnowledgeEntry :=
  match f with
  | Some (Readable e) => Some e
  | _ => None
  end.

Definition writeEntry (name : string) (e : KnowledgeEntry) (s : State) : State :=
  {| entryFiles := <[name := Readable e]> (entryFiles s); indexFile := indexFile s |}.

Definition unlinkEntry (name : string) (s : State) : State :=
  {| entryFiles := delete name (entryFiles s); indexFile := indexFile s |}.

Definition writeIndex (ix : KnowledgeIndex) (s : State) : State :=
  {| entryFiles := entryFiles s; indexFile := Stored ix |}.

Definition emptyIndex (now : string) : KnowledgeIndex :=
  {| ix_entries := []; lastUpdated := now; totalEntries := 0 |}.

(** [init()]: the index file is written only when none exists. *)
Definition init (now : string) (s : State) : State :=
  match indexFile s with
  | Missing => writeIndex (emptyIndex now) s
  | _ => s
  end.

Definition toIndexEntry (entry : KnowledgeEntry) : KnowledgeIndexEntry :=
  {| ix_id := id entry; ix_title := title entry; ix_category := category entry;
     ix_tags := tags entry; ix_confidence := confidence entry |}.

(** [getAllEntries]: the directory listing with the unreadable files
    skipped; the order of [map_to_list] stands for the order in which
    [readdirSync] lists the files. *)
Definition getAllEntries (s : State) : list KnowledgeEntry :=
  omap (fun kf => readEntry (Some (snd kf))) (map_to_list (entryFiles s)).

Definition sourceTypeEqb (a b : SourceType) : bool :=
  match a, b with
  | src_file, src_file | src_git, src_git | src_doc, src_doc
  | src_manual, src_manual | src_qa, src_qa => true
  | _, _ => false
  end.

(** [===] on [string | undefined] *)
Definition optStringEqb (a b : option string) : bool :=
  match a, b with
  | None, None => true
  | Some x, Some y => String.eqb x y
  | _, _ => false
  end.

Definition sameKey (entry e : KnowledgeEntry) : bool :=
  String.eqb (Js.toLowerCase (title e)) (Js.toLowerCase (title entry))
  && sourceTypeEqb (src_type (source e)) (src_type (source entry))
  && optStringEqb (src_path (source e)) (src_path (source entry)).

Definition findDuplicate (entry : KnowledgeEntry) (s : State) : option KnowledgeEntry :=
  List.find (sameKey entry) (getAllEntries s).

Definition getIndex (now : string) (s : State) : KnowledgeIndex :=
  match indexFile s with
  | Stored ix => ix
  | _ => emptyIndex now
  end.

Definition getEntry (name : string) (s : State) : option KnowledgeEntry :=
  readEntry (entryFiles s !! name).

(** [!x] on a string: the empty string is falsy. *)
Definition orElse (x dflt : string) : string :=
  if String.eqb x "" then dflt else x.







Record AddResult := { r_id : string; deduplicated : bool }.

(** How a locked operation ends. *)
Inductive Completion (A : Type) :=
| Returned (a : A)
| LockTimeout
| Blocked.
Arguments Returned {A} a.
Arguments LockTimeout {A}.
Arguments Blocked {A}.

(** [await this.lock.acquire(); try { body } finally { this.lock.release() }]:
    the marker file lives beside the entries directory, so acquiring and
    releasing leave [State] as it is. *)
Definition withLock {A} (lock : FileLock.Outcome) (body : State -> A * State)
    (s : State) : Completion A * State :=
  match lock with
  | FileLock.Acquired => let '(a, s') := body s in (Returned a, s')
  | FileLock.Timeout => (LockTimeout, s)
  | FileLock.Pending => (Blocked, s)
  end.

(** [if (!entry.id) entry.id = randomUUID(); if (!entry.createdAt)
    entry.createdAt = now; if (!entry.updatedAt) entry.updatedAt = now] *)
Definition stamped (now uuid : string) (entry : KnowledgeEntry) : KnowledgeEntry :=
  {| id := orElse (id entry) uuid;
     title := title entry; content := content entry;
     category := category entry; tags := tags entry;
     source := source entry; confidence := confidence entry;
     createdAt := orElse (createdAt entry) now;
     updatedAt := orElse (updatedAt entry) now |}.

Definition addEntryBody (now uuid : string) (entry : KnowledgeEntry)
    (s : State) : AddResult * State :=
  match findDuplicate entry s with
  | Some existing => ({| r_id := id existing; deduplicated := true |}, s)
  | None =>
      let entry := stamped now uuid entry in
      let s := writeEntry (id entry) entry s in
      let index := getIndex now s in
      let entries := ix_entries index ++ [toIndexEntry entry] in
      let index :=
        {| ix_entries := entries; lastUpdated := now;
           totalEntries := List.length entries |} in
      ({| r_id := id entry; deduplicated := false |}, writeIndex index s)
  end.

Definition addEntry (lock : FileLock.Outcome) (now uuid : string)
    (entry : KnowledgeEntry) : State -> Completion AddResult * State :=
  withLock lock (addEntryBody now uuid entry).

(** [Partial<KnowledgeEntry>] *)
Record Updates := {
  u_id : option string;
  u_title : option string;
  u_content : option string;
  u_category : option KnowledgeCategory;
  u_tags : option (list string);
  u_source : option KnowledgeSource;
  u_confidence : option Q;
  u_createdAt : option string;
  u_updatedAt : option string
}.

(** [{ ...existing, ...updates, id, updatedAt: now }] *)
Definition merge (name now : string) (existing : KnowledgeEntry)
    (updates : Updates) : KnowledgeEntry :=
  {| id := name;
     title := default (title existing) (u_title updates);
     content := default (content existing) (u_content updates);
     category := default (category existing) (u_category updates);
     tags := default (tags existing) (u_tags updates);
     source := default (source existing) (u_source updates);
     confidence := default (confidence existing) (u_confidence updates);
     createdAt := default (createdAt existing) (u_createdAt updates);
     updatedAt := now |}.

(** [index.entries[idx] = x] with [idx = findIndex(e => e.id === id)] *)
Fixpoint replaceFirst (name : string) (x : KnowledgeIndexEntry)
    (l : list KnowledgeIndexEntry) : list KnowledgeIndexEntry :=
  match l with
  | [] => []
  | y :: l' => if String.eqb (ix_id y) name then x :: l' else y :: replaceFirst name x l'
  end.

Definition updateEntryBody (now : string) (name : string) (updates : Updates)
    (s : State) : option KnowledgeEntry * State :=
  match getEntry name s with
  | None => (None, s)
  | Some existing =>
      let updated := merge name now existing updates in
      let s := writeEntry name updated s in
      let index := getIndex now s in
      let index :=
        {| ix_entries := replaceFirst name (toIndexEntry updated) (ix_entries index);
           lastUpdated := updatedAt updated;
           totalEntries := totalEntries index |} in
      (Some updated, writeIndex index s)
  end.

Definition updateEntry (lock : FileLock.Outcome) (now : string) (name : string)
    (updates : Updates) : State -> Completion (option KnowledgeEntry) * State :=
  withLock lock (updateEntryBody now name updates).

Definition deleteEntryBody (now : string) (name : string)
    (s : State) : bool * State :=
  match entryFiles s !! name with
  | None => (false, s)
  | Some _ =>
      let s := unlinkEntry name s in
      let index := getIndex now s in
      let entries :=
        List.filter (fun e => negb (String.eqb (ix_id e) name)) (ix_entries index) in
      let index :=
        {| ix_entries := entries; lastUpdated := now;
           totalEntries := List.length entries |} in
      (true, writeIndex index s)
  end.

Definition deleteEntry (lock : FileLock.Outcome) (now : string) (name : string)
    : State -> Completion bool * State :=
  withLock lock (deleteEntryBody now name).



Definition rebuildIndexBody (now : string) (s : State) : KnowledgeIndex * State :=
  let all := getAllEntries s in
  let index :=
    {| ix_entries := map toIndexEntry all; lastUpdated := now;
       totalEntries := List.length all |} in
  (index, writeIndex index s).

Definition rebuildIndex (lock : FileLock.Outcome) (now : string)
    : State -> Completion KnowledgeIndex * State :=
  withLock lock (rebuildIndexBody now).

(** The argument of [searchEntries]: each field may be absent. *)
Record Query := {
  q_category : option KnowledgeCategory;
  q_tags : option (list string);
  q_text : option string
}.

(** The predicate of the [filter] in [searchEntries]; an empty list of
    tags and an empty text are falsy and select nothing. *)
Definition matchesQuery (query : Query) (entry : KnowledgeEntry) : bool :=
  if match q_category query with
     | Some c => negb (String.eqb (categoryName (category entry)) (categoryName c))
     | None => false
     end
  then false
  else if match q_tags query with
          | Some wanted =>
              (0 <? List.length wanted)%nat
              && (let entryTagsLower := map Js.toLowerCase (tags entry) in
                  negb (existsb
                          (fun t => Js.arrayIncludes entryTagsLower (Js.toLowerCase t))
                          wanted))
          | None => false
          end
  then false
  else if match q_text query with
          | Some text =>
              negb (String.eqb text "")
              && (let s := Js.toLowerCase text in
                  negb (Js.includes (Js.toLowerCase (title entry)) s)
                  && negb (Js.includes (Js.toLowerCase (content entry)) s))
          | None => false
          end
  then false
  else true.

Definition searchEntries (query : Query) (s : State) : list KnowledgeEntry :=
  List.filter (matchesQuery query) (getAllEntries s).


End Store.

(** ** The store of the command-line tool (knowledge/store.ts)

    It keeps the same files; its [addEntry] takes no lock, makes no
    duplicate check and returns nothing. *)

Module CliStore.

Definition addEntry (now uuid : string) (entry : KnowledgeEntry)
    (s : Store.State) : Store.State :=
  let entry := Store.stamped now uuid entry in
  let s := Store.writeEntry (id entry) entry s in
  let index := Store.getIndex now s in
  let entries := ix_entries index ++ [Store.toIndexEntry entry] in
  let index :=
    {| ix_entries := entries; lastUpdated := now;
       totalEntries := List.length entries |} in
  Store.writeIndex index s.

End CliStore.

(** ** The migration tool ([handover_migrate], tools/migrate.ts) *)

Module Migrate.

Record MigrationReport := {
  entriesMigrated : nat;
  entriesSkipped : nat;
  profileMigrated : bool;
  feedbackMigrated : bool;
  errors : list string
}.

Definition emptyReport : MigrationReport :=
  {| entriesMigrated := 0; entriesSkipped := 0; profileMigrated := false;
     feedbackMigrated := false; errors := [] |}.

(** [report.entriesMigrated++] *)
Definition incMigrated (r : MigrationReport) : MigrationReport :=
  {| entriesMigrated := entriesMigrated r + 1; entriesSkipped := entriesSkipped r;
     profileMigrated := profileMigrated r; feedbackMigrated := feedbackMigrated r;
     errors := errors r |}.

(** [report.entriesSkipped++] *)
Definition incSkipped (r : MigrationReport) : MigrationReport :=
  {| entriesMigrated := entriesMigrated r; entriesSkipped := entriesSkipped r + 1;
     profileMigrated := profileMigrated r; feedbackMigrated := feedbackMigrated r;
     errors := errors r |}.

(** [report.errors.push(msg)] *)
Definition pushError (msg : string) (r : MigrationReport) : MigrationReport :=
  {| entriesMigrated := entriesMigrated r; entriesSkipped := entriesSkipped r;
     profileMigrated := profileMigrated r; feedbackMigrated := feedbackMigrated r;
     errors := errors r ++ [msg] |}.

Definition setProfileMigrated (r : MigrationReport) : MigrationReport :=
  {| entriesMigrated := entriesMigrated r; entriesSkipped := entriesSkipped r;
     profileMigrated := true; feedbackMigrated := feedbackMigrated r;
     errors := errors r |}.

Definition setFeedbackMigrated (r : MigrationReport) : MigrationReport :=
  {| entriesMigrated := entriesMigrated r; entriesSkipped := entriesSkipped r;
     profileMigrated := profileMigrated r; feedbackMigrated := true;
     errors := errors r |}.

(** What one call of a locked store operation is answered: how [acquire]
    ends, [new Date().toISOString()], [randomUUID()], and whether the
    operation, once it holds the lock, throws: [c_fault] is then
    [String(error)] and the state of the store that the operation leaves
    behind. *)
Record Call := {
  c_lock : FileLock.Outcome;
  c_now : string;
  c_uuid : string;
  c_fault : option (string * Store.State)
}.

(** [String(error)] for the error that [acquire] throws. *)
Definition lockError : string := "Error: Failed to acquire file lock: timeout".

(** How an awaited store call ends for the handler. *)
Inductive Answer (A : Type) : Type :=
| Completed (a : A)
| Threw (message : string)
| Hangs.
Arguments Completed {A} a.
Arguments Threw {A} message.
Arguments Hangs {A}.

Definition answered {A} (c : Call) (r : Store.Completion A * Store.State)
    : Answer A * Store.State :=
  match r with
  | (Store.Blocked, s) => (Hangs, s)
  | (Store.LockTimeout, s) => (Threw lockError, s)
  | (Store.Returned a, s) =>
      match c_fault c with
      | Some (message, behind) => (Threw message, behind)
      | None => (Completed a, s)
      end
  end.

(** The loop over the files of the old entries directory, in the order
    of the listing; a file is named without its [.json].  [calls n]
    answers the store call number [n]; the result holds the number of
    calls made.  [None]: a call does not return. *)
Fixpoint migrateEntries (calls : nat -> Call) (n : nat)
    (files : list (string * Store.File)) (report : MigrationReport)
    (s : Store.State) : option (MigrationReport * Store.State * nat) :=
  match files with
  | [] => Some (report, s, n)
  | (name, f) :: files' =>
      match Store.readEntry (Some f) with
      | None => migrateEntries calls n files' report s
      | Some entry =>
          match
            answered (calls n)
              (Store.addEntry (c_lock (calls n)) (c_now (calls n)) (c_uuid (calls n))
                 entry s)
          with
          | (Completed result, s') =>
              let report :=
                if Store.deduplicated result then incSkipped report
                else incMigrated report in
              migrateEntries calls (S n) files' report s'
          | (Threw message, s') =>
              let report :=
                pushError
                  ("Failed to migrate entry " +:+ name +:+ ".json: " +:+ message)
                  report in
              migrateEntries calls (S n) files' report s'
          | (Hangs, _) => None
          end
      end
  end.

(** The old entries directory: missing, listed by [readdirSync] (the
    files that end in [.json], in the order of the listing), or there
    but not listable, [readdirSync] throwing. *)
Inductive OldEntries :=
| NoDirectory
| Listed (files : list (string * Store.File))
| NotListable (message : string).

(** The data of the command-line tool: its entries directory, its
    [profile.json] ([None]: missing; [Some parses]: there, and [readJSON]
    gives a truthy value or not), and whether its feedback history
    exists. *)
Record OldData := {
  oldEntries : OldEntries;
  oldProfile : option bool;
  oldFeedback : bool
}.

Definition listed (old : OldData) : list (string * Store.File) :=
  match oldEntries old with
  | Listed files => files
  | _ => []
  end.

(** What the data directory of the plugin answers: whether it holds
    [profile.json] and [feedback/history.jsonl] already, and what
    [copyFileSync] and [ensureDir] throw ([None]: nothing, [Some message]:
    an error with that [String(error)]). *)
Record NewData := {
  newProfile : bool;
  copyProfile : option string;
  ensureFeedbackDir : option string;
  newFeedback : bool;
  copyFeedback : option string
}.

(** The block "Migrate profile". *)
Definition migrateProfile (old : OldData) (new : NewData)
    (report : MigrationReport) : MigrationReport :=
  match oldProfile old with
  | Some parses =>
      if parses && negb (newProfile new) then
        match copyProfile new with
        | None => setProfileMigrated report
        | Some message => pushError ("Failed to migrate profile: " +:+ message) report
        end
      else report
  | None => report
  end.

(** The block "Migrate feedback history". *)
Definition migrateFeedback (old : OldData) (new : NewData)
    (report : MigrationReport) : MigrationReport :=
  if oldFeedback old then
    match ensureFeedbackDir new with
    | Some message => pushError ("Failed to migrate feedback: " +:+ message) report
    | None =>
        if negb (newFeedback new) then
          match copyFeedback new with
          | None => setFeedbackMigrated report
          | Some message =>
              pushError ("Failed to migrate feedback: " +:+ message) report
          end
        else report
    end
  else report.

(** The handler of [handover_migrate].  The result is the report that is
    returned and the state of the plugin's knowledge store. *)
Definition handover_migrate (calls : nat -> Call) (old : OldData) (new : NewData)
    (s : Store.State) : option (MigrationReport * Store.State) :=
  match oldEntries old with
  | NotListable message =>
      Some (pushError ("Migration failed: " +:+ message) emptyReport, s)
  | _ =>
      match migrateEntries calls 0 (listed old) emptyReport s with
      | None => None
      | Some (report, s, n) =>
          let report := migrateProfile old new report in
          let report := migrateFeedback old new report in
          if (0 <? entriesMigrated report)%nat then
            match
              answered (calls n)
                (Store.rebuildIndex (c_lock (calls n)) (c_now (calls n)) s)
            with
            | (Completed _, s') => Some (report, s')
            | (Threw message, s') =>
                Some (pushError ("Migration failed: " +:+ message) report, s')
            | (Hangs, _) => None
            end
          else Some (report, s)
      end
  end.

End Migrate.


(** ** Gap and coverage engine (gap analyzer sub-agent) *)

Module Gap.

Definition categoryEqb (a b : KnowledgeCategory) : bool :=
  String.eqb (categoryName a) (categoryName b).

Definition REQUIRED_CATEGORIES (t : HandoverType) : list KnowledgeCategory :=
  match t with
  | project => [architecture; codebase; tool; convention; process; decision]
  | role_ => [process; people; tool; domain]
  | team => [people; process; convention; tool]
  end.

Definition NICE_TO_HAVE_CATEGORIES (t : HandoverType) : list KnowledgeCategory :=
  match t with
  | project => [people; domain]
  | role_ => [decision; convention]
  | team => [architecture; domain]
  end.

Definition ALL_CATEGORIES : list KnowledgeCategory :=
  [architecture; codebase; process; people; decision; tool; convention;
   domain; other].

Definition userQuestions (sessions : list Session) : list string :=
  flat_map
    (fun session =>
       map msg_content
         (List.filter (fun msg => match role msg with user => true | _ => false end)
            (messages session)))
    sessions.

(** The categories one question is attributed to. *)
Definition matchedCategories (entries : list KnowledgeEntry) (question : string)
    : list KnowledgeCategory :=
  let qLower := Js.toLowerCase question in
  let byEntries :=
    fold_left
      (fun matched entry =>
         let titleLower := Js.toLowerCase (title entry) in
         let tagsLower := map Js.toLowerCase (tags entry) in
         let titleTerms := Js.splitWhitespace titleLower in
         let qTerms :=
           List.filter (fun t => (2 <? String.length t)%nat)
             (Js.splitWhitespace qLower) in
         let hasOverlap :=
           existsb
             (fun term =>
                Js.arrayIncludes titleTerms term || Js.arrayIncludes tagsLower term)
             qTerms in
         if hasOverlap then Js.setAdd categoryEqb matched (category entry)
         else matched)
      entries [] in
  if (List.length byEntries =? 0)%nat then
    fold_left
      (fun matched cat =>
         if Js.includes qLower (categoryName cat)
         then Js.setAdd categoryEqb matched cat else matched)
      ALL_CATEGORIES byEntries
  else byEntries.

Definition bump {K} (eqb : K -> K -> bool) (m : list (K * nat)) (k : K)
    : list (K * nat) :=
  Js.mapSet eqb m k (default 0%nat (Js.mapGet eqb m k) + 1)%nat.

Definition countQuestionsByCategory (sessions : list Session)
    (entries : list KnowledgeEntry) : list (KnowledgeCategory * nat) :=
  fold_left
    (fun counts question =>
       fold_left (bump categoryEqb) (matchedCategories entries question) counts)
    (userQuestions sessions) [].

Record KnowledgeMapItem := {
  km_category : KnowledgeCategory;
  topics : list string;
  entryCount : nat;
  questionsAsked : nat;
  coverage : nat
}.

(** The coverage calculation in the body of the loop of
    [buildKnowledgeMap]. *)
Definition categoryCoverage (entryCount questions : nat) : nat :=
  let coverage := 0%nat in
  let coverage :=
    if (0 <? entryCount)%nat then
      let coverage := Nat.min 80 (entryCount * 20) in
      if (0 <? questions)%nat then (coverage + Nat.min 20 (questions * 10))%nat
      else coverage
    else coverage in
  Nat.min 100 coverage.

Definition buildKnowledgeMap (entries : list KnowledgeEntry)
    (sessions : list Session) (handoverType : HandoverType)
    : list KnowledgeMapItem :=
  let questionCounts := countQuestionsByCategory sessions entries in
  let required := REQUIRED_CATEGORIES handoverType in
  let niceToHave := NICE_TO_HAVE_CATEGORIES handoverType in
  let relevantCategories := required ++ niceToHave in
  let entryCounts :=
    fold_left (fun m entry => bump categoryEqb m (category entry)) entries [] in
  let topicsByCategory :=
    fold_left
      (fun m entry =>
         let old := default [] (Js.mapGet categoryEqb m (category entry)) in
         Js.mapSet categoryEqb m (category entry)
           (Js.setAdd String.eqb old (title entry)))
      entries [] in
  let allCategoriesPresent :=
    fold_left (Js.setAdd categoryEqb)
      (relevantCategories ++ map fst entryCounts) [] in
  map
    (fun category =>
       let entryCount := default 0%nat (Js.mapGet categoryEqb entryCounts category) in
       let questions := default 0%nat (Js.mapGet categoryEqb questionCounts category) in
       let topics := default [] (Js.mapGet categoryEqb topicsByCategory category) in
       {| km_category := category; topics := topics; entryCount := entryCount;
          questionsAsked := questions;
          coverage := categoryCoverage entryCount questions |})
    allCategoriesPresent.

(** [calculateOverallCoverage]: the share of the required categories
    that have an entry, as a rounded percentage. *)
Definition calculateOverallCoverage (mapItems : list KnowledgeMapItem)
    (handoverType : HandoverType) : Z :=
  let required := REQUIRED_CATEGORIES handoverType in
  if (List.length required =? 0)%nat then 100
  else
    let coveredCount :=
      fold_left
        (fun coveredCount cat =>
           match List.find (fun m => categoryEqb (km_category m) cat) mapItems with
           | Some item =>
               if (0 <? entryCount item)%nat then (coveredCount + 1)%nat
               else coveredCount
           | None => coveredCount
           end)
        required 0%nat in
    Js.round
      (inject_Z (Z.of_nat coveredCount) / inject_Z (Z.of_nat (List.length required))
       * 100).




End Gap.

(** ** The search tools of the plugin (tools/search.ts) *)

Module SearchTools.

(** [getTopicSummary] of the knowledge indexer. *)
Definition getTopicSummary (entries : list KnowledgeEntry)
    : list (KnowledgeCategory * nat) :=
  fold_left (fun summary entry => Gap.bump Gap.categoryEqb summary (category entry))
    entries [].

Record SearchResult := {
  r_id : string;
  r_title : string;
  r_category : KnowledgeCategory;
  r_confidence : Q;
  snippet : string;
  r_tags : list string
}.

(** [content.substring(0, 200) + (content.length > 200 ? '...' : '')] *)
Definition snippetOf (text : string) : string :=
  substring 0 200 text +:+ (if (200 <? String.length text)%nat then "..." else "").

Definition format (entry : KnowledgeEntry) : SearchResult :=
  {| r_id := id entry; r_title := title entry; r_category := category entry;
     r_confidence := confidence entry; snippet := snippetOf (content entry);
     r_tags := tags entry |}.

(** [handover_search]: the [results] and the [count] of the answer. *)
Definition handover_search (query : string) (limit : nat) (s : Store.State)
    : list SearchResult * nat :=
  let allEntries := Store.getAllEntries s in
  let results := Ranker.findRelevantEntries query allEntries limit in
  let formatted := map format results in
  (formatted, List.length formatted).

(** [handover_topic_summary]: the [summary] and the [totalEntries] of
    the answer. *)
Definition handover_topic_summary (s : Store.State)
    : list (KnowledgeCategory * nat) * nat :=
  let allEntries := Store.getAllEntries s in
  let summary := getTopicSummary allEntries in
  (summary, List.length allEntries).

End SearchTools.


(** ** Feedback and pattern analyzer (feedback/analyzer.ts) *)

Module Analyzer.

Definition stopWords : list string :=
  ["the"; "a"; "an"; "is"; "are"; "was"; "were"; "be"; "been";
   "being"; "have"; "has"; "had"; "do"; "does"; "did"; "will";
   "would"; "could"; "should"; "may"; "might"; "can"; "shall";
   "to"; "of"; "in"; "for"; "on"; "with"; "at"; "by"; "from";
   "as"; "into"; "through"; "during"; "before"; "after"; "and";
   "but"; "or"; "nor"; "not"; "so"; "yet"; "both"; "either";
   "neither"; "each"; "every"; "all"; "any"; "few"; "more";
   "most"; "other"; "some"; "such"; "no"; "only"; "own"; "same";
   "than"; "too"; "very"; "just"; "about"; "what"; "how"; "why";
   "when"; "where"; "who"; "which"; "this"; "that"; "these";
   "those"; "it"; "its"; "i"; "me"; "my"; "we"; "our"; "you";
   "your"; "he"; "she"; "they"; "them"; "their"].

(** [/[^a-z0-9\s]/g] replaced by a space *)
Definition keepChar (c : ascii) : ascii :=
  let n := Js.code c in
  if ((97 <=? n) && (n <=? 122) || (48 <=? n) && (n <=? 57))%N || Js.isSpace c
  then c else " "%char.

Fixpoint stripPunctuation (s : string) : string :=
  match s with
  | EmptyString => EmptyString
  | String c s' => String (keepChar c) (stripPunctuation s')
  end.

Definition tokenize (text : string) : list string :=
  List.filter
    (fun t => (2 <? String.length t)%nat && negb (Js.arrayIncludes stopWords t))
    (Js.splitWhitespace (stripPunctuation (Js.toLowerCase text))).

Definition isUser (m : QAMessage) : bool :=
  match role m with user => true | assistant => false end.

(** The loop runs from [assistantIndex - 1] down to 0. *)
Definition findPrecedingUserMessage (messages : list QAMessage)
    (assistantIndex : nat) : option string :=
  option_map msg_content (List.find isUser (rev (firstn assistantIndex messages))).

(** [if (userMsg) { existing = get(userMsg) ?? []; existing.push(...fbs);
    set(userMsg, existing) }]; the empty string is falsy. *)
Definition attach (m : list (string * list Feedback)) (userMsg : option string)
    (fbs : list Feedback) : list (string * list Feedback) :=
  match userMsg with
  | Some q =>
      if String.eqb q "" then m
      else Js.mapSet String.eqb m q (default [] (Js.mapGet String.eqb m q) ++ fbs)
  | None => m
  end.

(** [`${i}`] *)
Definition indexString (i : nat) : string := NilEmpty.string_of_uint (Nat.to_uint i).

Definition messageIdIs (s : string) (f : Feedback) : bool :=
  match messageId f with
  | Some x => String.eqb x s
  | None => false
  end.

Record Stats := {
  st_negative : nat;
  st_total : nat;
  st_questions : list string
}.

Record WeakArea := {
  topic : string;
  negativeCount : nat;
  totalCount : nat;
  sampleQuestions : list string
}.

(** [Math.abs(msgTime - fbTime) < 60_000], false on NaN *)
Definition near (msgTime fbTime : option Z) : bool :=
  match msgTime, fbTime with
  | Some a, Some b => Z.abs (a - b) <? 60000
  | _, _ => false
  end.

(** [{ negative: 0, total: 0, questions: [] }] *)
Definition noStats : Stats :=
  {| st_negative := 0; st_total := 0; st_questions := [] |}.

(** The inner [for (const fb of feedbacks)] loop. *)
Definition rate (stats : Stats) (fb : Feedback) : Stats :=
  {| st_total := st_total stats + 1;
     st_negative :=
       match rating fb with
       | negative => st_negative stats + 1
       | positive => st_negative stats
       end;
     st_questions := st_questions stats |}.

(** The body of [for (const term of topTerms)]. *)
Definition recordTerm (question : string) (feedbacks : list Feedback)
    (topicStats : list (string * Stats)) (term : string)
    : list (string * Stats) :=
  let stats := default noStats (Js.mapGet String.eqb topicStats term) in
  let stats := fold_left rate feedbacks stats in
  let stats :=
    if negb (Js.arrayIncludes (st_questions stats) question)
       && (List.length (st_questions stats) <? 5)%nat
    then {| st_negative := st_negative stats; st_total := st_total stats;
            st_questions := st_questions stats ++ [question] |}
    else stats in
  Js.mapSet String.eqb topicStats term stats.

(** [stats.total >= 2 && stats.negative / stats.total >= 0.4] *)
Definition isWeak (stats : Stats) : bool :=
  (2 <=? st_total stats)%nat
  && Qle_bool (4 # 10)
       (inject_Z (Z.of_nat (st_negative stats))
        / inject_Z (Z.of_nat (st_total stats))).

(** [(a, b) => b.negativeCount - a.negativeCount] is negative on
    [(y, x)] when [x.negativeCount < y.negativeCount]. *)
Definition moreNegative (y x : WeakArea) : bool :=
  (negativeCount x <? negativeCount y)%nat.

Section WithDates.
(** [new Date(s).getTime()]; [None] stands for NaN. *)
Variable getTime : string -> option Z.

(** The body of the loop over the messages of one session, for the
    message [msg] at index [i]. *)
Definition matchMessage (feedbackHistory : list Feedback)
    (sessionMessages : list QAMessage)
    (questionFeedback : list (string * list Feedback))
    (i : nat) (msg : QAMessage) : list (string * list Feedback) :=
  if isUser msg then questionFeedback
  else
    match feedback msg with
    | Some fb =>
        attach questionFeedback (findPrecedingUserMessage sessionMessages i) [fb]
    | None =>
        let matched := List.filter (messageIdIs (indexString i)) feedbackHistory in
        if (0 <? List.length matched)%nat then
          attach questionFeedback
            (findPrecedingUserMessage sessionMessages i) matched
        else
          let msgTime := getTime (msg_timestamp msg) in
          fold_left
            (fun qf fb =>
               if near msgTime (getTime (fb_timestamp fb)) then
                 attach qf (findPrecedingUserMessage sessionMessages i) [fb]
               else qf)
            feedbackHistory questionFeedback
    end.

Fixpoint matchMessages (feedbackHistory : list Feedback)
    (sessionMessages : list QAMessage)
    (questionFeedback : list (string * list Feedback))
    (i : nat) (rest : list QAMessage) : list (string * list Feedback) :=
  match rest with
  | [] => questionFeedback
  | msg :: rest' =>
      matchMessages feedbackHistory sessionMessages
        (matchMessage feedbackHistory sessionMessages questionFeedback i msg)
        (S i) rest'
  end.

Definition matchFeedbackToQuestions (feedbackHistory : list Feedback)
    (sessions : list Session) : list (string * list Feedback) :=
  fold_left
    (fun qf session =>
       matchMessages feedbackHistory (messages session) qf 0%nat (messages session))
    sessions [].

Definition topicStatistics (feedbackHistory : list Feedback)
    (sessions : list Session) : list (string * Stats) :=
  fold_left
    (fun topicStats qf =>
       let terms := tokenize (fst qf) in
       let topTerms := Js.slice0 terms 3 in
       fold_left (recordTerm (fst qf) (snd qf)) topTerms topicStats)
    (matchFeedbackToQuestions feedbackHistory sessions) [].

Definition toWeakArea (ts : string * Stats) : WeakArea :=
  {| topic := fst ts; negativeCount := st_negative (snd ts);
     totalCount := st_total (snd ts);
     sampleQuestions := st_questions (snd ts) |}.

Definition identifyWeakAreas (feedbackHistory : list Feedback)
    (sessions : list Session) : list WeakArea :=
  let topicStats := topicStatistics feedbackHistory sessions in
  let weakAreas :=
    map toWeakArea (List.filter (fun ts => isWeak (snd ts)) topicStats) in
  Js.sort moreNegative weakAreas.
End WithDates.

(** [extractUserQuestions] *)
Definition extractUserQuestions (sessions : list Session) : list string :=
  flat_map
    (fun session => map msg_content (List.filter isUser (messages session)))
    sessions.

(** [new Set(terms)], iterated in insertion order *)
Definition unique (terms : list string) : list string :=
  fold_left (Js.setAdd String.eqb) terms [].

(** [buildTermFrequency]: for each term the number of questions that
    hold it. *)
Definition buildTermFrequency (questions : list string) : list (string * nat) :=
  fold_left
    (fun freq q => fold_left (Gap.bump String.eqb) (unique (tokenize q)) freq)
    questions [].

(** [(a, b) => b[1] - a[1]] is negative on [(y, x)] when [x[1] < y[1]]. *)
Definition moreFrequent (y x : string * nat) : bool := (snd x <? snd y)%nat.

Definition groupQuestionsByTheme (questions : list string)
    (termFrequency : list (string * nat)) (minFrequency : nat)
    : list (string * list string) :=
  let frequentTerms :=
    map fst
      (Js.sort moreFrequent
         (List.filter (fun tc => (minFrequency <=? snd tc)%nat) termFrequency)) in
  fold_left
    (fun themes term =>
       let matching :=
         List.filter (fun q => Js.arrayIncludes (tokenize q) term) questions in
       if (minFrequency <=? List.length matching)%nat
       then Js.mapSet String.eqb themes term matching
       else themes)
    frequentTerms [].

Record QuestionPattern := {
  qp_pattern : string;
  frequency : nat;
  qp_categories : list string;
  exampleQuestions : list string;
  averageRating : Q
}.

(** [(a, b) => b.frequency - a.frequency] is negative on [(y, x)] when
    [x.frequency < y.frequency]. *)
Definition morePopular (y x : QuestionPattern) : bool :=
  (frequency x <? frequency y)%nat.

(** [Math.max(2, Math.floor(questions.length * 0.1))] *)
Definition minFrequencyOf (questions : list string) : nat :=
  Nat.max 2 (List.length questions / 10).

Definition detectQuestionPatterns (sessions : list Session) : list QuestionPattern :=
  let questions := extractUserQuestions sessions in
  if (List.length questions =? 0)%nat then []
  else
    let termFreq := buildTermFrequency questions in
    let minFrequency := minFrequencyOf questions in
    let themes := groupQuestionsByTheme questions termFreq minFrequency in
    let patterns :=
      map
        (fun tm =>
           let theme := fst tm in
           let matchingQuestions := snd tm in
           let allTerms := flat_map tokenize matchingQuestions in
           let termCounts := fold_left (Gap.bump String.eqb) allTerms [] in
           let topTerms := map fst (Js.slice0 (Js.sort moreFrequent termCounts) 3) in
           {| qp_pattern := theme;
              frequency := List.length matchingQuestions;
              qp_categories := topTerms;
              exampleQuestions := Js.slice0 matchingQuestions 5;
              averageRating := 0 |})
        themes in
    Js.sort morePopular patterns.

(** The pairs [`${terms[i]} ${terms[i + 1]}`] for [i] from 0 to
    [terms.length - 2]. *)
Fixpoint bigrams (terms : list string) : list string :=
  match terms with
  | a :: (b :: _) as rest => (a +:+ " " +:+ b) :: bigrams rest
  | _ => []
  end.

Definition findCommonPhrases (comments : list string) : list string :=
  if (List.length comments =? 0)%nat then []
  else
    let phraseCount :=
      fold_left
        (fun phraseCount comment =>
           let terms := tokenize comment in
           let phraseCount := fold_left (Gap.bump String.eqb) (bigrams terms) phraseCount in
           fold_left (Gap.bump String.eqb) terms phraseCount)
        comments [] in
    map fst
      (Js.slice0
         (Js.sort moreFrequent
            (List.filter (fun pc => (2 <=? snd pc)%nat) phraseCount))
         10).

Record FeedbackSummary := {
  totalInteractions : nat;
  positiveCount : nat;
  fs_negativeCount : nat;
  satisfactionRate : Q;
  commonIssues : list string;
  topPatterns : list string
}.

Definition ratedPositive (f : Feedback) : bool :=
  match rating f with positive => true | negative => false end.

Definition ratedNegative (f : Feedback) : bool :=
  match rating f with negative => true | positive => false end.

(** [f.comment] as a condition: an absent or empty comment is falsy. *)
Definition hasComment (f : Feedback) : bool :=
  match comment f with
  | Some c => negb (String.eqb c "")
  | None => false
  end.

Definition analyzeFeedback (feedbackHistory : list Feedback)
    (sessions : list Session) : FeedbackSummary :=
  let totalInteractions := List.length feedbackHistory in
  let positiveCount := List.length (List.filter ratedPositive feedbackHistory) in
  let negativeCount := List.length (List.filter ratedNegative feedbackHistory) in
  let satisfactionRate :=
    if (0 <? totalInteractions)%nat
    then (inject_Z (Z.of_nat positiveCount) / inject_Z (Z.of_nat totalInteractions))%Q
    else 0%Q in
  let negativeComments :=
    map (fun f => default "" (comment f))
      (List.filter (fun f => ratedNegative f && hasComment f) feedbackHistory) in
  let commonIssues := findCommonPhrases negativeComments in
  let questions := extractUserQuestions sessions in
  let termFreq := buildTermFrequency questions in
  let topPatterns :=
    map (fun tc => fst tc +:+ " (" +:+ indexString (snd tc) +:+ "x)")
      (Js.slice0 (Js.sort moreFrequent termFreq) 10) in
  {| totalInteractions := totalInteractions;
     positiveCount := positiveCount;
     fs_negativeCount := negativeCount;
     satisfactionRate := satisfactionRate;
     commonIssues := commonIssues;
     topPatterns := topPatterns |}.


End Analyzer.

(** ** Feedback collector (feedback/collector.ts) *)

Module Collector.

Record FeedbackStats := {
  gs_total : nat;
  gs_positive : nat;
  gs_negative : nat;
  gs_rate : Q
}.

(** [getFeedbackStats], as a function of the history that
    [loadFeedbackHistory] returns. *)
Definition getFeedbackStats (history : list Feedback) : FeedbackStats :=
  let total := List.length history in
  let positive := List.length (List.filter Analyzer.ratedPositive history) in
  let negative := List.length (List.filter Analyzer.ratedNegative history) in
  let rate :=
    if (0 <? total)%nat
    then (inject_Z (Z.of_nat positive) / inject_Z (Z.of_nat total))%Q
    else 0%Q in
  {| gs_total := total; gs_positive := positive; gs_negative := negative;
     gs_rate := rate |}.

(** [getFeedbackForMessage], on the same history. *)
Definition getFeedbackForMessage (history : list Feedback) (messageId : string)
    : option Feedback :=
  List.find (Analyzer.messageIdIs messageId) history.

(** [Math.round(stats.rate * 100)], the percentage that the [status] and
    [feedback] commands print; the rate that the program holds is the
    double nearest to the share, and the product is a double. *)
Definition ratePercent (stats : FeedbackStats) : Z :=
  Js.round (Js.double (Js.double (gs_rate stats) * 100)).

End Collector.


(** ** File utilities of the command-line tool (utils/files.ts) *)

Module Files.

(** A path as its components, the innermost first; the root is the
    empty list, and [dirname] of the root is the root. *)
Definition Path := list string.

Definition dirname (p : Path) : Path := tl p.

(** [getProjectRoot]: [hasHandover p] is [existsSync(join(p, '.handover'))],
    [current] starts as [process.cwd()].  [None] stands for [null]. *)
Fixpoint getProjectRoot (hasHandover : Path -> bool) (current : Path) : option Path :=
  if hasHandover current then Some current
  else
    match current with
    | [] => None
    | _ :: parent => getProjectRoot hasHandover parent
    end.

(** What is found at a directory entry: a file, a directory with what
    [readdirSync] lists in it, or something that cannot be examined
    ([statSync] throws, or [readdirSync] throws on it).  Directories
    form a finite tree. *)
#[warnings="-register-all"]
Inductive Node :=
| File
| Dir (entries : list (string * Node))
| Failing.

(** [!entry.startsWith('.') && entry !== 'node_modules'], negated *)
Definition skipped (entry : string) : bool :=
  Js.startsWith entry "." || String.eqb entry "node_modules".

(** [prefix ? join(prefix, entry) : entry], for POSIX paths and an
    [entry] as [readdirSync] gives it. *)
Definition relativePath (prefix entry : string) : string :=
  if String.eqb prefix "" then entry else prefix +:+ "/" +:+ entry.

(** One turn of the loop of [walk] for the entry [entry] of the
    directory reached under [prefix]; [results] is the array the walk
    fills.  An exception thrown while a subdirectory is listed is caught
    by the turn that called [walk] on it. *)
Fixpoint visit (prefix : string) (results : list string) (entry : string)
    (node : Node) {struct node} : list string :=
  match node with
  | File => results ++ [relativePath prefix entry]
  | Dir entries =>
      if skipped entry then results
      else
        fold_left (fun results '(e, n) => visit (relativePath prefix entry) results e n)
          entries results
  | Failing => results
  end.

Definition walk (entries : list (string * Node)) (prefix : string)
    (results : list string) : list string :=
  fold_left (fun results '(e, n) => visit prefix results e n) entries results.

(** [listFiles(dir)] without a pattern: [dir] is what is found at the
    path, if anything; [None] when the call throws.  The default [sort]
    compares strings by their code units. *)
Definition listFiles (dir : option Node) : option (list string) :=
  match dir with
  | None => Some []
  | Some (Dir entries) => Some (Js.sort String.ltb (walk entries "" []))
  | Some _ => None
  end.

End Files.

(** ** Vocabulary of the file listing *)

Module FilesSpec.

(** The names lead from the entries of a directory to a file, through
    directories that are not skipped. *)
Inductive reaches : list (string * Files.Node) -> list string -> Prop :=
| reaches_file entries e :
    In (e, Files.File) entries -> reaches entries [e]
| reaches_dir entries e sub names :
    In (e, Files.Dir sub) entries -> Files.skipped e = false ->
    reaches sub names -> reaches entries (e :: names).

(** [root] is [p] or lies above it. *)
Definition encloses (root p : Files.Path) : Prop := exists below, p = below ++ root.

End FilesSpec.


(** ** Line files ([appendLine] and [readLines], lib/file-utils.ts) *)

Module FileUtils.

(** The character of ['\n']. *)
Definition LF : ascii := ascii_of_N 10.

(** [appendLine]: the content of the file after the call; [None] is a
    file that does not exist, which [appendFileSync] creates. *)
Definition appendLine (file : option string) (line : string) : option string :=
  Some (default "" file +:+ (line +:+ String LF "")).

(** [readLines]: [split('\n')] and [filter(Boolean)], which drops the
    empty pieces. *)
Definition readLines (file : option string) : list string :=
  match file with
  | None => []
  | Some raw =>
      List.filter (fun piece => negb (String.eqb piece "")) (Js.splitChar LF "" raw)
  end.

(** [lines.length] in [handover_get_status]. *)
Definition interactionCount (log : option string) : nat :=
  List.length (readLines log).

End FileUtils.

(** ** Vocabulary of line files *)

Module FileSpec.

(** A text that fits on one line: not empty and without a line feed. *)
Definition singleLine (line : string) : Prop :=
  line <> "" /\ Js.anyChar (Ascii.eqb FileUtils.LF) line = false.

(** The file that [appendLine] builds from nothing, line by line. *)
Definition written (lines : list string) : option string :=
  fold_left FileUtils.appendLine lines None.

End FileSpec.


(** ** Q&A response parser (qa-responder sub-agent) *)

Module QA.

(** A literal of the pattern matched under the [i] flag at the head of
    [s]: the text matched and what follows it. *)
Fixpoint literalCI (lit s : string) : option (string * string) :=
  match lit, s with
  | EmptyString, _ => Some (EmptyString, s)
  | String a lit', String b s' =>
      if Ascii.eqb (Js.lowerChar a) (Js.lowerChar b) then
        match literalCI lit' s' with
        | Some (m, rest) => Some (String b m, rest)
        | None => None
        end
      else None
  | String _ _, EmptyString => None
  end.

(** Greedy [\s*] followed by the rest of the pattern [k]: the longest
    run of white space is tried first, then shorter ones. *)
Fixpoint spacesThen {A} (s : string) (k : string -> option A) : option A :=
  match s with
  | String c s' =>
      if Js.isSpace c then
        match spacesThen s' k with
        | Some r => Some r
        | None => k s
        end
      else k s
  | EmptyString => k s
  end.

(** [RegExp.prototype.exec] without the [g] flag: the match at the
    leftmost position where the pattern matches. *)
Fixpoint exec {A} (matchHere : string -> option A) (s : string) : option A :=
  match matchHere s with
  | Some r => Some r
  | None =>
      match s with
      | EmptyString => None
      | String _ s' => exec matchHere s'
      end
  end.

(** The group [(low|medium|high)]: the alternatives in order. *)
Definition levelGroup (s : string) : option string :=
  match literalCI "low" s with
  | Some (m, _) => Some m
  | None =>
      match literalCI "medium" s with
      | Some (m, _) => Some m
      | None => option_map fst (literalCI "high" s)
      end
  end.

(** [/CONFIDENCE:\s*(low|medium|high)/i] at the head of [s]: the group. *)
Definition confidencePattern (s : string) : option string :=
  match literalCI "CONFIDENCE:" s with
  | Some (_, rest) => spacesThen rest levelGroup
  | None => None
  end.

Definition parseConfidence (response : string) : Q :=
  match exec confidencePattern response with
  | None => 5 # 10
  | Some group =>
      let level := Js.toLowerCase group in
      if String.eqb level "high" then 9 # 10
      else if String.eqb level "medium" then 6 # 10
      else if String.eqb level "low" then 3 # 10
      else 5 # 10
  end.

(** The longest prefix without a line terminator. *)
Fixpoint lineHead (s : string) : string :=
  match s with
  | String c s' =>
      if Js.isLineTerminator c then EmptyString else String c (lineHead s')
  | EmptyString => EmptyString
  end.

(** The group [(.+)] at the end of the pattern. *)
Definition restOfLine (s : string) : option string :=
  match lineHead s with
  | EmptyString => None
  | m => Some m
  end.

(** [/FOLLOW_UPS:\s*(.+)/i] at the head of [s]: the group. *)
Definition followUpsPattern (s : string) : option string :=
  match literalCI "FOLLOW_UPS:" s with
  | Some (_, rest) => spacesThen rest restOfLine
  | None => None
  end.

Definition parseFollowUps (response : string) : list string :=
  match exec followUpsPattern response with
  | None => []
  | Some group =>
      List.filter (fun q => (0 <? String.length q)%nat)
        (map Js.trim (Js.splitChar "|"%char EmptyString group))
  end.

(** [[^\]]+\]] at the head of [s]: the characters before the first
    closing bracket. *)
Fixpoint citedId (s : string) : option string :=
  match s with
  | EmptyString => None
  | String c s' =>
      if Ascii.eqb c "]" then Some EmptyString
      else option_map (String c) (citedId s')
  end.

(** [/\[([^\]]+)\]/] at the head of [s]: the group. *)
Definition citationPattern (s : string) : option string :=
  match s with
  | String c s' =>
      if Ascii.eqb c "[" then
        match citedId s' with
        | Some group => if String.eqb group "" then None else Some group
        | None => None
        end
      else None
  | EmptyString => None
  end.

(** The loop [while ((match = citationPattern.exec(answer)) !== null)]
    with the [g] flag: the groups of the successive matches.  [skip]
    counts the characters of the last match that are still to pass
    before [lastIndex]. *)
Fixpoint citedIds (skip : nat) (s : string) : list string :=
  match s with
  | EmptyString => []
  | String _ s' =>
      match skip with
      | S skip' => citedIds skip' s'
      | O =>
          match citationPattern s with
          | Some group => group :: citedIds (String.length group + 1) s'
          | None => citedIds 0 s'
          end
      end
  end.

(** [content.length > 200 ? content.slice(0, 200) + '...' : content] *)
Definition excerptOf (text : string) : string :=
  if (200 <? String.length text)%nat then substring 0 200 text +:+ "..." else text.

Definition parseCitations (answer : string) (entries : list KnowledgeEntry)
    : list Citation :=
  let cited := fold_left (Js.setAdd String.eqb) (citedIds 0 answer) [] in
  flat_map
    (fun entryId =>
       match List.find (fun e => String.eqb (id e) entryId) entries with
       | Some entry =>
           [ {| entryId := id entry; c_title := title entry;
                excerpt := excerptOf (content entry); c_source := source entry |} ]
       | None => []
       end)
    cited.

(** [messages.slice(-10)], the role and the content of each message. *)
Definition formatConversationHistory (messages : list QAMessage)
    : list (Role * string) :=
  map (fun msg => (role msg, msg_content msg))
    (skipn (List.length messages - 10) messages).

(** What follows the alternation [(low|medium|high)] at the head of [s]. *)
Definition afterLevel (s : string) : option string :=
  match literalCI "low" s with
  | Some (_, rest) => Some rest
  | None =>
      match literalCI "medium" s with
      | Some (_, rest) => Some rest
      | None => option_map snd (literalCI "high" s)
      end
  end.

(** [\n] of a pattern: the line feed. *)
Definition newline : ascii := ascii_of_N 10.

(** [/\nCONFIDENCE:\s*(low|medium|high)/i] at the head of [s]: what
    follows the match. *)
Definition confidenceLine (s : string) : option string :=
  match s with
  | String c s' =>
      if Ascii.eqb c newline then
        match literalCI "CONFIDENCE:" s' with
        | Some (_, rest) => spacesThen rest afterLevel
        | None => None
        end
      else None
  | EmptyString => None
  end.

(** From the first line terminator of [s] on. *)
Fixpoint lineTail (s : string) : string :=
  match s with
  | String c s' => if Js.isLineTerminator c then s else lineTail s'
  | EmptyString => EmptyString
  end.

(** [.+] at the end of a pattern: what follows the match. *)
Definition afterLine (s : string) : option string :=
  match lineHead s with
  | EmptyString => None
  | _ => Some (lineTail s)
  end.

(** [/\nFOLLOW_UPS:\s*.+/i] at the head of [s]: what follows the match. *)
Definition followUpsLine (s : string) : option string :=
  match s with
  | String c s' =>
      if Ascii.eqb c newline then
        match literalCI "FOLLOW_UPS:" s' with
        | Some (_, rest) => spacesThen rest afterLine
        | None => None
        end
      else None
  | EmptyString => None
  end.

(** [s.replace(pattern, '')] for a pattern without the [g] flag: the
    leftmost match is removed. *)
Fixpoint removeFirst (matchHere : string -> option string) (s : string) : string :=
  match matchHere s with
  | Some rest => rest
  | None =>
      match s with
      | EmptyString => EmptyString
      | String c s' => String c (removeFirst matchHere s')
      end
  end.

Definition cleanAnswer (response : string) : string :=
  Js.trim (removeFirst followUpsLine (removeFirst confidenceLine response)).

Record QAResult := {
  answer : string;
  qa_citations : list Citation;
  qa_confidence : Q;
  suggestedFollowUps : list string
}.

(** The [data] that [QAResponderAgent.execute] builds from the response
    of the model. *)
Definition resultOf (response : string) (knowledgeEntries : list KnowledgeEntry)
    : QAResult :=
  let answer := cleanAnswer response in
  let citations := parseCitations answer knowledgeEntries in
  let confidence := parseConfidence response in
  let suggestedFollowUps := parseFollowUps response in
  {| answer := answer; qa_citations := citations; qa_confidence := confidence;
     suggestedFollowUps := suggestedFollowUps |}.

End QA.

(** ** How the interactive session shows a confidence (cli/interactive.ts) *)

Module Interactive.

Inductive Color := green | yellow | red.

(** [Math.round(confidence * 100)] *)
Definition percent (confidence : Q) : Z := Qfloor (confidence * 100 + (1 # 2)).

(** [pct >= 70 ? chalk.green : pct >= 40 ? chalk.yellow : chalk.red] *)
Definition confidenceColor (confidence : Q) : Color :=
  let pct := percent confidence in
  if 70 <=? pct then green else if 40 <=? pct then yellow else red.

End Interactive.

(** ** The [map] command of the command-line tool (index.ts) *)

Module MapCommand.

(** The two characters of a coverage bar. *)
Inductive Cell := FullBlock | LightShade.

(** [String.prototype.repeat]: a negative count throws a RangeError. *)
Definition repeatCell (c : Cell) (count : Z) : option (list Cell) :=
  if count <? 0 then None else Some (List.repeat c (Z.to_nat count)).

Definition BAR_WIDTH : Z := 20.

(** [Math.round((item.coverage / 100) * BAR_WIDTH)] *)
Definition filled (coverage : nat) : Z :=
  Js.round (inject_Z (Z.of_nat coverage) / 100 * inject_Z BAR_WIDTH).

Definition empty (coverage : nat) : Z := BAR_WIDTH - filled coverage.

(** The bar, without its colours; [None] when [repeat] throws. *)
Definition bar (coverage : nat) : option (list Cell) :=
  match repeatCell FullBlock (filled coverage), repeatCell LightShade (empty coverage) with
  | Some full, Some light => Some (full ++ light)
  | _, _ => None
  end.

(** [(a, b) => b.coverage - a.coverage] is negative on [(y, x)] when
    [x.coverage < y.coverage]. *)
Definition moreCovered (y x : Gap.KnowledgeMapItem) : bool :=
  (Gap.coverage x <? Gap.coverage y)%nat.

(** The bars in the order they are printed. *)
Definition bars (knowledgeMap : list Gap.KnowledgeMapItem)
    : list (KnowledgeCategory * option (list Cell)) :=
  map (fun item => (Gap.km_category item, bar (Gap.coverage item)))
    (Js.sort moreCovered knowledgeMap).

End MapCommand.


(** ** The contract of [acquire], stated on the answers of the environment *)

Module LockContract.

Import FileLock.

Definition inTime (start : Z) (o : Turn) : Prop :=
  t_loop o - start < LOCK_TIMEOUT_MS.

(** [Runs start env outcome actions]: what the lock contract allows for
    the answers [env], turn by turn. *)
Inductive Runs (start : Z) : list Turn -> Outcome -> list Action -> Prop :=
| run_timeout o env :
    (* the ceiling has elapsed: the lock-timeout error is thrown *)
    LOCK_TIMEOUT_MS <= t_loop o - start ->
    Runs start (o :: env) Timeout []
| run_acquired o env :
    (* no marker: it is created exclusively and [acquire] returns *)
    inTime start o -> found o = Absent -> wx_ok o = true ->
    Runs start (o :: env) Acquired [WriteMarker (t_body o)]
| run_lost_race o env r tr :
    (* another process created the marker first: wait, then retry *)
    inTime start o -> found o = Absent -> wx_ok o = false ->
    Runs start env r tr ->
    Runs start (o :: env) r (WriteFailed :: Sleep 50 :: tr)
| run_stale o env r tr t :
    (* the marker is older than the ceiling: removed, retried at once *)
    inTime start o -> found o = Parsed (Some t) ->
    LOCK_TIMEOUT_MS < t_body o - t ->
    Runs start env r tr ->
    Runs start (o :: env) r
      (if unlink_ok o then Unlink :: tr else Unlink :: Unlink :: tr)
| run_unparseable o env r tr :
    (* the marker cannot be parsed: removed, retried at once *)
    inTime start o -> found o = Unparseable ->
    Runs start env r tr ->
    Runs start (o :: env) r (Unlink :: tr)
| run_held o env r tr time :
    (* the marker is held: wait the retry interval, then retry *)
    inTime start o -> found o = Parsed time ->
    (forall t, time = Some t -> t_body o - t <= LOCK_TIMEOUT_MS) ->
    Runs start env r tr ->
    Runs start (o :: env) r (Sleep 50 :: tr)
| run_pending :
    Runs start [] Pending [].

(** The turn ends in the sleep of the retry interval. *)
Definition sleeps (start : Z) (o : Turn) : bool :=
  (t_loop o - start <? LOCK_TIMEOUT_MS)
  && match found o with
     | Absent => negb (wx_ok o)
     | Unparseable => false
     | Parsed time => negb (stale (t_body o) time)
     end.

(** The clock never runs backwards, and a sleep lasts at least the retry
    interval: [prev] is the earliest time the next turn can read. *)
Fixpoint clockAdvances (start prev : Z) (env : list Turn) : Prop :=
  match env with
  | [] => True
  | o :: env' =>
      prev <= t_loop o /\
      clockAdvances start
        (if sleeps start o then t_loop o + LOCK_RETRY_MS else t_loop o) env'
  end.

Definition isSleep (a : Action) : bool :=
  match a with Sleep _ => true | _ => false end.

Definition countSleeps (tr : list Action) : nat :=
  List.length (List.filter isSleep tr).

End LockContract.

(** ** Vocabulary of the store's specification *)

Module StoreSpec.

Import Store.

(** The deduplication key: lower-cased title, source type, source path. *)
Definition dedupKey (e : KnowledgeEntry)
    : string * SourceType * option string :=
  (Js.toLowerCase (title e), src_type (source e), src_path (source e)).

(** The index entries derived by scanning all entry records directly. *)
Definition scannedEntries (s : State) : list KnowledgeIndexEntry :=
  map toIndexEntry (getAllEntries s).

(** The index file is in correspondence with the entry records. *)
Definition inCorrespondence (s : State) : Prop :=
  exists ix,
    indexFile s = Stored ix /\
    ix_entries ix ≡ₚ scannedEntries s /\
    totalEntries ix = List.length (getAllEntries s).

(** An id that is a plain file name: at most 100 characters, none of
    them a path separator or the character 0.  The path of such an id is
    the file [id.json] of the entries directory. *)
Definition plainId (id : string) : bool :=
  negb (Js.anyChar (fun c => Ascii.eqb c "/" || Ascii.eqb c "000") id)
  && (String.length id <=? 100)%nat.

(** Every record is stored under its own id. *)
Definition wellNamed (s : State) : Prop :=
  forall name e, entryFiles s !! name = Some (Readable e) -> id e = name.

Definition invariant (s : State) : Prop := wellNamed s /\ inCorrespondence s.

Definition emptyDirectory : State :=
  {| entryFiles := ∅; indexFile := Missing |}.

(** States reached from an initialized store by [addEntry], [updateEntry]
    and [deleteEntry] called with ids that are plain file names, where no
    [addEntry] that stores a record does so under a name that already
    holds one. *)
Inductive Reached : State -> Prop :=
| reached_init now :
    Reached (init now emptyDirectory)
| reached_add s lock now uuid entry :
    Reached s ->
    plainId (orElse (id entry) uuid) = true ->
    (findDuplicate entry s = None ->
     getEntry (orElse (id entry) uuid) s = None) ->
    Reached (snd (addEntry lock now uuid entry s))
| reached_update s lock now name updates :
    Reached s ->
    plainId name = true ->
    Reached (snd (updateEntry lock now name updates s))
| reached_delete s lock now name :
    Reached s ->
    plainId name = true ->
    Reached (snd (deleteEntry lock now name s)).

End StoreSpec.

(** ** Vocabulary of the migration report *)

Module MigrateSpec.

(** The number of files of a directory listing that [readJSON] reads. *)
Definition readable (files : list (string * Store.File)) : nat :=
  List.length (omap (fun kf => Store.readEntry (Some (snd kf))) files).

(** The ids under which the entries of [files] are stored, their own or
    a generated one, are plain file names. *)
Definition plainIds (calls : nat -> Migrate.Call) (files : list (string * Store.File))
    : Prop :=
  forall k name f e,
    In (name, f) files -> Store.readEntry (Some f) = Some e ->
    StoreSpec.plainId (Store.orElse (id e) (Migrate.c_uuid (calls k))) = true.

(** The error that the report holds for a file whose [addEntry] threw. *)
Definition entryError (e : string) : Prop :=
  exists name message,
    e = "Failed to migrate entry " +:+ name +:+ ".json: " +:+ message.

(** The error of a profile copy that threw. *)
Definition profileError (old : Migrate.OldData) (new : Migrate.NewData) (e : string)
    : Prop :=
  Migrate.oldProfile old = Some true /\ Migrate.newProfile new = false /\
  exists message,
    Migrate.copyProfile new = Some message /\
    e = "Failed to migrate profile: " +:+ message.

(** The error of a feedback copy that threw, in [ensureDir] or in
    [copyFileSync]. *)
Definition feedbackError (old : Migrate.OldData) (new : Migrate.NewData) (e : string)
    : Prop :=
  Migrate.oldFeedback old = true /\
  exists message,
    e = "Failed to migrate feedback: " +:+ message /\
    (Migrate.ensureFeedbackDir new = Some message \/
     Migrate.ensureFeedbackDir new = None /\ Migrate.newFeedback new = false /\
     Migrate.copyFeedback new = Some message).

(** The error of a final [rebuildIndex] that threw. *)
Definition rebuildError (report : Migrate.MigrationReport) (e : string) : Prop :=
  (0 < Migrate.entriesMigrated report)%nat /\
  exists message, e = "Migration failed: " +:+ message.

End MigrateSpec.


(** ** Vocabulary of the gap report *)

Module GapSpec.

(** Some entry has the category [c]. *)
Definition hasEntry (entries : list KnowledgeEntry) (c : KnowledgeCategory) : bool :=
  existsb (fun e => Gap.categoryEqb (category e) c) entries.

(** The number of required categories that have an entry. *)
Definition coveredRequired (entries : list KnowledgeEntry)
    (handoverType : HandoverType) : nat :=
  List.length (List.filter (hasEntry entries) (Gap.REQUIRED_CATEGORIES handoverType)).

End GapSpec.


(** ** Vocabulary of the question patterns *)

Module PatternSpec.

(** A lower-case letter or a digit. *)
Definition isTokenChar (c : ascii) : bool :=
  let n := Js.code c in
  ((97 <=? n) && (n <=? 122) || (48 <=? n) && (n <=? 57))%N.

(** Every character of [t] is a lower-case letter or a digit. *)
Definition plainWord (t : string) : Prop :=
  Js.anyChar (fun c => negb (isTokenChar c)) t = false.

(** The questions whose tokens hold the term [t]. *)
Definition questionsAbout (questions : list string) (t : string) : list string :=
  List.filter (fun q => Js.arrayIncludes (Analyzer.tokenize q) t) questions.

(** The number of questions whose tokens hold the term [t]. *)
Definition documentFrequency (questions : list string) (t : string) : nat :=
  List.length (questionsAbout questions t).

Definition isPattern (patterns : list Analyzer.QuestionPattern) (t : string) : Prop :=
  exists p, In p patterns /\ Analyzer.qp_pattern p = t.

End PatternSpec.


(** ** Vocabulary of the statistics kept per topic *)

Module WeakAreaSpec.

(** What the statistics kept for the topic [t] satisfy; [allowed] holds
    of the questions that may be recorded. *)
Definition kept (allowed : string -> Prop) (t : string) (st : Analyzer.Stats) : Prop :=
  (Analyzer.st_negative st <= Analyzer.st_total st)%nat /\
  (1 <= List.length (Analyzer.st_questions st) <= 5)%nat /\
  NoDup (Analyzer.st_questions st) /\
  forall q, In q (Analyzer.st_questions st) ->
            allowed q /\ In t (firstn 3 (Analyzer.tokenize q)).

Definition allKept (allowed : string -> Prop)
    (topicStats : list (string * Analyzer.Stats)) : Prop :=
  forall t st, Js.mapGet String.eqb topicStats t = Some st -> kept allowed t st.

End WeakAreaSpec.


(** ** Sample data *)

Module Sample.

Definition fileSource (path : string) : KnowledgeSource :=
  {| src_type := src_file; src_path := Some path; src_ref := None |}.

Definition entry (i t c : string) (cat : KnowledgeCategory) (tg : list string)
    (src : KnowledgeSource) (cf : Q) : KnowledgeEntry :=
  {| id := i; title := t; content := c; category := cat; tags := tg;
     source := src; confidence := cf; createdAt := ""; updatedAt := "" |}.

Definition authDesign (i c : string) : KnowledgeEntry :=
  entry i "Auth design" c architecture [] (fileSource "src/auth.ts") (8 # 10).

Definition fresh : Store.State := Store.init "t0" StoreSpec.emptyDirectory.


Definition retitle (t : string) : Store.Updates :=
  {| Store.u_id := None; Store.u_title := Some t; Store.u_content := None;
     Store.u_category := None; Store.u_tags := None; Store.u_source := None;
     Store.u_confidence := None; Store.u_createdAt := None;
     Store.u_updatedAt := None |}.

Definition addedOnce : Store.State :=
  snd (Store.addEntry FileLock.Acquired "t1" "u1" (authDesign "" "first") fresh).

(** Two records end up with one deduplication key: "a" is added, "b" is
    added under another title, then "b" is given the title of "a". *)
Definition twoAlike : Store.State :=
  let s := snd (Store.addEntry FileLock.Acquired "t1" "u1" (authDesign "a" "first") fresh) in
  let s :=
    snd (Store.addEntry FileLock.Acquired "t2" "u2"
           (entry "b" "Auth plan" "second" architecture [] (fileSource "src/auth.ts") (8 # 10)) s) in
  snd (Store.updateEntry FileLock.Acquired "t3" "b" (retitle "AUTH DESIGN") s).

(** The same id is added twice under two titles. *)
Definition sameIdTwice : Store.State :=
  let s := snd (Store.addEntry FileLock.Acquired "t1" "u1"
                  (entry "a" "Auth design" "" architecture [] (fileSource "src/auth.ts") 1) fresh) in
  snd (Store.addEntry FileLock.Acquired "t2" "u2"
         (entry "a" "Auth plan" "" architecture [] (fileSource "src/auth.ts") 1) s).

Definition userMessage (text : string) : QAMessage :=
  {| role := user; msg_content := text; msg_timestamp := "";
     citations := None; msg_confidence := None; feedback := None |}.

Definition ratedAnswer (r : Rating) : QAMessage :=
  {| role := assistant; msg_content := "answer"; msg_timestamp := "";
     citations := None; msg_confidence := None;
     feedback :=
       Some {| rating := r; comment := None; fb_timestamp := ""; messageId := None |} |}.

(** "deployment" is rated twice, once negatively; "testing" is rated
    once, negatively. *)
Definition ratedSession : Session :=
  {| session_id := "s1"; handoverId := "h1"; startedAt := ""; endedAt := None;
     messages :=
       [userMessage "How does deployment work?"; ratedAnswer negative;
        userMessage "Deployment rollback"; ratedAnswer positive;
        userMessage "What about testing?"; ratedAnswer negative];
     topicsCovered := [] |}.

(** One question, rated once, negatively; its first two tokens are the
    same word. *)
Definition repeatedTerm : Session :=
  {| session_id := "s3"; handoverId := "h1"; startedAt := ""; endedAt := None;
     messages := [userMessage "cache cache invalidation"; ratedAnswer negative];
     topicsCovered := [] |}.

(** A sentence that mentions a confidence, then a marker line. *)
Definition overridden : string :=
  "my confidence: low at first" +:+ String (ascii_of_N 10) "CONFIDENCE: high".

Definition deploySession : Session :=
  {| session_id := "s2"; handoverId := "h1"; startedAt := ""; endedAt := None;
     messages := [userMessage "When does deploy run"];
     topicsCovered := [] |}.

(** A live marker is found at 0 ms and at 50 ms; at 5000 ms the loop
    condition fails. *)
Definition heldTurns : list FileLock.Turn :=
  [ {| FileLock.t_loop := 0; FileLock.found := FileLock.Parsed (Some 0);
       FileLock.wx_ok := false; FileLock.t_body := 0; FileLock.unlink_ok := true |};
    {| FileLock.t_loop := 50; FileLock.found := FileLock.Parsed (Some 0);
       FileLock.wx_ok := false; FileLock.t_body := 50; FileLock.unlink_ok := true |};
    {| FileLock.t_loop := 5000; FileLock.found := FileLock.Parsed (Some 0);
       FileLock.wx_ok := false; FileLock.t_body := 5000; FileLock.unlink_ok := true |} ].

Definition flowSure : KnowledgeEntry :=
  entry "h" "Authentication Flow" "" process [] (fileSource "docs/auth.md") 1.

Definition flowHalf : KnowledgeEntry :=
  entry "h" "Authentication Flow" "" process [] (fileSource "docs/auth.md") (1 # 2).

(** The data of the command-line tool holds one entry, under an id that
    [addedOnce] uses for another title. *)
Definition oldData : Migrate.OldData :=
  {| Migrate.oldEntries :=
       Migrate.Listed
         [ ("u1",
            Store.Readable
              (entry "u1" "Auth plan" "" architecture [] (fileSource "src/auth.ts") 1)) ];
     Migrate.oldProfile := Some true;
     Migrate.oldFeedback := false |}.

(** A data directory of the plugin that holds neither file yet and where
    every copy succeeds. *)
Definition newData : Migrate.NewData :=
  {| Migrate.newProfile := false; Migrate.copyProfile := None;
     Migrate.ensureFeedbackDir := None; Migrate.newFeedback := false;
     Migrate.copyFeedback := None |}.

(** The data directory of the plugin does not exist yet: [copyFileSync]
    throws. *)
Definition noDataDir : Migrate.NewData :=
  {| Migrate.newProfile := false;
     Migrate.copyProfile := Some "Error: ENOENT: no such file or directory";
     Migrate.ensureFeedbackDir := None; Migrate.newFeedback := false;
     Migrate.copyFeedback := None |}.

Definition alwaysAcquired (k : nat) : Migrate.Call :=
  {| Migrate.c_lock := FileLock.Acquired; Migrate.c_now := "t5"; Migrate.c_uuid := "u5";
     Migrate.c_fault := None |}.

Definition neverAcquired (k : nat) : Migrate.Call :=
  {| Migrate.c_lock := FileLock.Timeout; Migrate.c_now := "t5"; Migrate.c_uuid := "u5";
     Migrate.c_fault := None |}.


End Sample.

(** ** Vocabulary of the ranker's specification *)

Module RankerSpec.

(** [sub] occurs in [s]. *)
Definition contains (s sub : string) : Prop :=
  exists pre post, s = pre +:+ sub +:+ post.

Definition weight (hit : bool) (w : Z) : Z := if hit then w else 0.

(** The points one query term earns on an entry: 3 in the title, 1 in the
    content, 4 for a tag equal to it, 2 inside the category name. *)
Definition termPoints (entry : KnowledgeEntry) (term : string) : Z :=
  weight (Js.includes (Js.toLowerCase (title entry)) term) 3
  + weight (Js.includes (Js.toLowerCase (content entry)) term) 1
  + weight (Js.arrayIncludes (map Js.toLowerCase (tags entry)) term) 4
  + weight (Js.includes (categoryName (category entry)) term) 2.

(** The raw score: 10 and 5 for the whole lower-cased query in title and
    content, plus the points of every term. *)
Definition rawPoints (queryLower : string) (terms : list string)
    (entry : KnowledgeEntry) : Z :=
  weight (Js.includes (Js.toLowerCase (title entry)) queryLower) 10
  + weight (Js.includes (Js.toLowerCase (content entry)) queryLower) 5
  + fold_right (fun term acc => termPoints entry term + acc) 0 terms.

(** The final score: raw score times confidence, both doubles, and so
    is their product. *)
Definition finalScore (query : string) (entry : KnowledgeEntry) : Q :=
  let queryLower := Js.toLowerCase query in
  Js.double
    (inject_Z (rawPoints queryLower (Ranker.queryTerms queryLower) entry)
     * Js.double (confidence entry)).

Definition scoresPositive (query : string) (entry : KnowledgeEntry) : bool :=
  match (0 ?= finalScore query entry)%Q with Lt => true | _ => false end.

Definition sameScore (query : string) (a b : KnowledgeEntry) : bool :=
  Qeq_bool (finalScore query a) (finalScore query b).

(** Every score is a finite double: none reaches 2^1024, which the
    program would hold as [Infinity].  Confidences between 0 and 1, as
    the tools store them, give finite scores. *)
Definition finiteScores (query : string) (entries : list KnowledgeEntry) : Prop :=
  Forall (fun e => (- (2 ^ 1024) < finalScore query e < 2 ^ 1024)%Q) entries.

End RankerSpec.

(** ** Vocabulary of the search results *)

Module SearchSpec.

(** The lower-cased query occurs in the title or the content of the
    entry, or one of its terms occurs in the title, the content or the
    category name, or equals a tag; case is ignored. *)
Definition hits (query : string) (e : KnowledgeEntry) : Prop :=
  RankerSpec.contains (Js.toLowerCase (title e)) (Js.toLowerCase query) \/
  RankerSpec.contains (Js.toLowerCase (content e)) (Js.toLowerCase query) \/
  exists term,
    In term (Ranker.queryTerms (Js.toLowerCase query)) /\
    (RankerSpec.contains (Js.toLowerCase (title e)) term \/
     RankerSpec.contains (Js.toLowerCase (content e)) term \/
     In term (map Js.toLowerCase (tags e)) \/
     RankerSpec.contains (categoryName (category e)) term).

End SearchSpec.


(** ** Entries that differ in confidence only *)

Definition sameButConfidence (a b : KnowledgeEntry) : Prop :=
  id a = id b /\ title a = title b /\ content a = content b /\
  category a = category b /\ tags a = tags b /\ source a = source b /\
  createdAt a = createdAt b /\ updatedAt a = updatedAt b.

(** ** Vocabulary of the analyzer's specification *)

Module AnalyzerSpec.

Definition isNegative (fb : Feedback) : bool :=
  match rating fb with negative => true | positive => false end.

(** How often [t] occurs among the first three tokens of [question]. *)
Definition occurrences (t question : string) : nat :=
  List.length (List.filter (String.eqb t) (firstn 3 (Analyzer.tokenize question))).

(** What [identifyWeakAreas] accumulates for a topic: every feedback
    attached to a question is counted once per occurrence of the topic
    among the first three tokens of the question. *)
Definition countedTotal (questionFeedback : list (string * list Feedback))
    (t : string) : nat :=
  fold_right
    (fun qf acc => (occurrences t (fst qf) * List.length (snd qf) + acc)%nat)
    0%nat questionFeedback.

Definition countedNegative (questionFeedback : list (string * list Feedback))
    (t : string) : nat :=
  fold_right
    (fun qf acc =>
       (occurrences t (fst qf) * List.length (List.filter isNegative (snd qf)) + acc)%nat)
    0%nat questionFeedback.

(** The ratings of a topic in the words of the specification: the
    feedback attached to the questions that have the topic among their
    first three tokens, each feedback once per question. *)
Definition hasTopic (t question : string) : bool :=
  existsb (String.eqb t) (firstn 3 (Analyzer.tokenize question)).

Definition ratingsOf (questionFeedback : list (string * list Feedback))
    (t : string) : list Feedback :=
  flat_map (fun qf => if hasTopic t (fst qf) then snd qf else []) questionFeedback.

Definition totalRatings (questionFeedback : list (string * list Feedback))
    (t : string) : nat :=
  List.length (ratingsOf questionFeedback t).

Definition negativeRatings (questionFeedback : list (string * list Feedback))
    (t : string) : nat :=
  List.length (List.filter isNegative (ratingsOf questionFeedback t)).

Definition ratio (negatives total : nat) : Q :=
  inject_Z (Z.of_nat negatives) / inject_Z (Z.of_nat total).

Definition reported (areas : list Analyzer.WeakArea) (t : string) : Prop :=
  exists area, In area areas /\ Analyzer.topic area = t.

End AnalyzerSpec.

(** ** Vocabulary of the cleaned answer *)

Module AnswerSpec.

(** Some line of [s] other than the first starts with the letters of
    [lit], in whatever case. *)
Fixpoint hasLineStarting (lit s : string) : bool :=
  match s with
  | EmptyString => false
  | String c s' =>
      Ascii.eqb c QA.newline
      && match QA.literalCI lit s' with Some _ => true | None => false end
      || hasLineStarting lit s'
  end.

(** The letters of [lit] occur somewhere in [s], in whatever case. *)
Fixpoint mentions (lit s : string) : bool :=
  match QA.literalCI lit s with
  | Some _ => true
  | None =>
      match s with
      | EmptyString => false
      | String _ s' => mentions lit s'
      end
  end.

(** The line the responder is asked to end its answer with: a line
    feed, [CONFIDENCE:], white space and a level. *)
Definition confidenceLineOf (m w level : string) : string :=
  String QA.newline (m +:+ w +:+ level).

(** A line feed, [FOLLOW_UPS:], white space and the questions. *)
Definition followUpsLineOf (m w questions : string) : string :=
  String QA.newline (m +:+ w +:+ questions).

End AnswerSpec.


(** ** Vocabulary of the matching of feedback to questions *)

Module MatchSpec.

Section WithDates.
Variable getTime : string -> option Z.
Variable feedbackHistory : list Feedback.
Variable sessions : list Session.

(** The user message at index [j] is the nearest one before index [i]. *)
Definition nearestUserMessage (messages : list QAMessage) (i j : nat)
    (m : QAMessage) : Prop :=
  (j < i)%nat /\ nth_error messages j = Some m /\ role m = user /\
  forall k m', (j < k < i)%nat -> nth_error messages k = Some m' -> role m' = assistant.

(** The assistant message [msg] at index [i] of its session brings the
    feedback [fb]: its own feedback when it has one; otherwise the
    recorded feedback whose message id is the index; and, when no
    recorded feedback has that message id, the recorded feedback given
    within a minute of the message. *)
Definition brings (i : nat) (msg : QAMessage) (fb : Feedback) : Prop :=
  match feedback msg with
  | Some inline => fb = inline
  | None =>
      In fb feedbackHistory /\
      (messageId fb = Some (Analyzer.indexString i) \/
       (forall f, In f feedbackHistory -> messageId f <> Some (Analyzer.indexString i)) /\
       Analyzer.near (getTime (msg_timestamp msg)) (getTime (fb_timestamp fb)) = true)
  end.

(** [fb] is brought by an assistant message of some session whose
    nearest preceding user message reads [q]. *)
Definition attributed (q : string) (fb : Feedback) : Prop :=
  exists session i msg j m,
    In session sessions /\
    nth_error (messages session) i = Some msg /\ role msg = assistant /\
    nearestUserMessage (messages session) i j m /\ msg_content m = q /\
    brings i msg fb.
End WithDates.

End MatchSpec.


(** ** Vocabulary of the Q&A response format *)

Module QASpec.

(** Equal when case is ignored. *)
Definition sameLetters (a b : string) : Prop :=
  Js.toLowerCase a = Js.toLowerCase b.

Fixpoint allSpaces (s : string) : bool :=
  match s with
  | EmptyString => true
  | String c s' => Js.isSpace c && allSpaces s'
  end.

Fixpoint oneLine (s : string) : bool :=
  match s with
  | EmptyString => true
  | String c s' => negb (Js.isLineTerminator c) && oneLine s'
  end.

(** Nothing, or a line break, follows. *)
Definition lineEnds (s : string) : bool :=
  match s with
  | EmptyString => true
  | String c _ => Js.isLineTerminator c
  end.

Definition startsBlank (s : string) : bool :=
  match s with
  | EmptyString => false
  | String c _ => Js.isSpace c
  end.

Definition isLevel (group : string) : Prop :=
  sameLetters group "low" \/ sameLetters group "medium" \/ sameLetters group "high".

(** [response] holds, after [pre], the marker [CONFIDENCE:], white space
    and the level [group]. *)
Definition confidenceMarkerAt (response pre group : string) : Prop :=
  exists m w post,
    response = pre +:+ m +:+ w +:+ group +:+ post /\
    sameLetters m "CONFIDENCE:" /\ allSpaces w = true /\ isLevel group.

Definition hasConfidenceMarker (response : string) : Prop :=
  exists pre group, confidenceMarkerAt response pre group.

(** [response] holds, after [pre], the text [FOLLOW_UPS:]. *)
Definition followUpsAt (response pre : string) : Prop :=
  exists m post, response = pre +:+ m +:+ post /\ sameLetters m "FOLLOW_UPS:".

(** [response] holds, after [pre], the marker [FOLLOW_UPS:], white space
    and the rest of the line [group], which starts with a visible
    character. *)
Definition followUpsMarkerAt (response pre group : string) : Prop :=
  exists m w post,
    response = pre +:+ m +:+ w +:+ group +:+ post /\
    sameLetters m "FOLLOW_UPS:" /\ allSpaces w = true /\
    group <> "" /\ startsBlank group = false /\ oneLine group = true /\
    lineEnds post = true.

(** [pre] ends where a line starts: it is empty or ends in a line
    terminator. *)
Fixpoint atLineStart (pre : string) : bool :=
  match pre with
  | EmptyString => true
  | String c pre' =>
      match pre' with
      | EmptyString => Js.isLineTerminator c
      | String _ _ => atLineStart pre'
      end
  end.

(** A marker line: a line of [response] that starts with the marker
    [CONFIDENCE:], white space and a level, whatever follows. *)
Definition hasConfidenceLine (response : string) : Prop :=
  exists pre group, confidenceMarkerAt response pre group /\ atLineStart pre = true.

(** A line of [response] that starts with the text [FOLLOW_UPS:]. *)
Definition hasFollowUpsLine (response : string) : Prop :=
  exists pre, followUpsAt response pre /\ atLineStart pre = true.

(** The suffixes of [s] that start a line; [start] tells whether [s]
    itself does. *)
Fixpoint lineStarts (start : bool) (s : string) : list string :=
  (if start then [s] else []) ++
  match s with
  | EmptyString => []
  | String c s' => lineStarts (Js.isLineTerminator c) s'
  end.

(** The questions of a pipe-separated list. *)
Definition questionsOf (group : string) : list string :=
  List.filter (fun q => negb (String.eqb q ""))
    (map Js.trim (Js.splitChar "|"%char "" group)).

End QASpec.

(* ================================================================== *)
(** * Part II: properties                                              *)
(* ================================================================== *)

(** ** Insertion-ordered maps and sets *)

Section CollectionFacts.
Context {K V : Type} (eqb : K -> K -> bool).
Hypothesis eqb_spec : forall a b, eqb a b = true <-> a = b.

Lemma eqb_refl_true a : eqb a a = true.
Proof. by apply eqb_spec. Qed.

Lemma eqb_false_ne a b : eqb a b = false <-> a <> b.
Proof.
  split.
  - intros E ->. rewrite eqb_refl_true in E. discriminate.
  - intros N. destruct (eqb a b) eqn:E; [|done]. apply eqb_spec in E. done.
Qed.

Lemma mapGet_mapSet (m : list (K * V)) k v k' :
  Js.mapGet eqb (Js.mapSet eqb m k v) k' =
  if eqb k k' then Some v else Js.mapGet eqb m k'.
Proof.
  induction m as [|[k0 v0] m IH]; simpl.
  - destruct (eqb k k'); reflexivity.
  - destruct (eqb k0 k) eqn:E0; simpl.
    + apply eqb_spec in E0. subst k0.
      destruct (eqb k k'); reflexivity.
    + destruct (eqb k0 k') eqn:E1.
      * apply eqb_spec in E1. subst k0.
        destruct (eqb k k') eqn:E2; [|reflexivity].
        apply eqb_spec in E2. subst k'. rewrite eqb_refl_true in E0. discriminate.
      * exact IH.
Qed.

Lemma mapGet_In (m : list (K * V)) k v :
  Js.mapGet eqb m k = Some v -> In (k, v) m.
Proof.
  induction m as [|[k0 v0] m IH]; simpl; [discriminate|].
  destruct (eqb k0 k) eqn:E.
  - apply eqb_spec in E. intros [= ->]. left. congruence.
  - intros H. right. auto.
Qed.

Lemma mapGet_None_notin (m : list (K * V)) k :
  Js.mapGet eqb m k = None <-> ~ In k (map fst m).
Proof.
  induction m as [|[k0 v0] m IH]; simpl; [tauto|].
  destruct (eqb k0 k) eqn:E.
  - apply eqb_spec in E. split; [discriminate|]. intros N. exfalso. auto.
  - apply eqb_false_ne in E. rewrite IH. tauto.
Qed.

Lemma mapSet_keys_fresh (m : list (K * V)) k v :
  Js.mapGet eqb m k = None -> map fst (Js.mapSet eqb m k v) = map fst m ++ [k].
Proof.
  induction m as [|[k0 v0] m IH]; simpl; [reflexivity|].
  destruct (eqb k0 k); [discriminate|]. intros H. simpl. by rewrite IH.
Qed.

Lemma mapSet_keys_present (m : list (K * V)) k v :
  Js.mapGet eqb m k <> None -> map fst (Js.mapSet eqb m k v) = map fst m.
Proof.
  induction m as [|[k0 v0] m IH]; simpl; [congruence|].
  destruct (eqb k0 k) eqn:E; simpl; [reflexivity|].
  intros H. by rewrite IH.
Qed.

Lemma mapSet_NoDup (m : list (K * V)) k v :
  NoDup (map fst m) -> NoDup (map fst (Js.mapSet eqb m k v)).
Proof.
  intros ND. destruct (Js.mapGet eqb m k) eqn:G.
  - rewrite mapSet_keys_present; [done | congruence].
  - rewrite (mapSet_keys_fresh _ _ _ G).
    apply NoDup_app. split; [done|]. split; [|apply NoDup_singleton].
    intros x Hx Hk. apply list_elem_of_singleton in Hk. subst x.
    apply mapGet_None_notin in G. apply G. by apply list_elem_of_In.
Qed.

Lemma In_mapGet (m : list (K * V)) k v :
  NoDup (map fst m) -> In (k, v) m -> Js.mapGet eqb m k = Some v.
Proof.
  induction m as [|[k0 v0] m IH]; simpl; [tauto|].
  intros ND [E|H].
  - injection E as -> ->. by rewrite eqb_refl_true.
  - apply NoDup_cons in ND as [N1 N2].
    destruct (eqb k0 k) eqn:E.
    + apply eqb_spec in E. subst k0. exfalso. apply N1.
      apply list_elem_of_In. apply (in_map fst) in H. exact H.
    + auto.
Qed.

Lemma setAdd_In (l : list K) k x : In x (Js.setAdd eqb l k) <-> In x l \/ x = k.
Proof.
  unfold Js.setAdd, Js.setHas. destruct (existsb (eqb k) l) eqn:E.
  - split; [tauto|]. intros [H| ->]; [done|].
    apply existsb_exists in E as (y & Hy & Ey). apply eqb_spec in Ey. by subst.
  - rewrite in_app_iff. simpl. intuition.
Qed.
End CollectionFacts.

Lemma string_eqb_spec (a b : string) : String.eqb a b = true <-> a = b.
Proof. apply String.eqb_eq. Qed.

Lemma categoryName_inj a b : categoryName a = categoryName b -> a = b.
Proof. destruct a, b; simpl; intros H; try reflexivity; discriminate H. Qed.

Lemma categoryEqb_spec a b : Gap.categoryEqb a b = true <-> a = b.
Proof.
  unfold Gap.categoryEqb. rewrite String.eqb_eq. split.
  - apply categoryName_inj.
  - by intros ->.
Qed.

(** ** Gap engine: per-category coverage *)

Lemma bump_count (entries : list KnowledgeEntry) (m0 : list (KnowledgeCategory * nat)) c :
  default 0%nat
    (Js.mapGet Gap.categoryEqb
       (fold_left (fun m entry => Gap.bump Gap.categoryEqb m (category entry)) entries m0) c)
  = (default 0%nat (Js.mapGet Gap.categoryEqb m0 c)
     + List.length (List.filter (fun e => Gap.categoryEqb (category e) c) entries))%nat.
Proof.
  revert m0. induction entries as [|e entries IH]; intros m0; simpl.
  - lia.
  - rewrite IH. unfold Gap.bump at 1.
    rewrite (mapGet_mapSet _ categoryEqb_spec).
    destruct (Gap.categoryEqb (category e) c) eqn:E; simpl.
    + apply categoryEqb_spec in E. rewrite E. lia.
    + lia.
Qed.

(** C7. For all entry and question counts the per-category coverage lies
    in [0,100]; with a positive entry count it is
    min(100, min(80, entryCount * 20) + (questions > 0 ? min(20, questions * 10) : 0)),
    and it is 0 when the entry count is 0, whatever the question count.
    Every row of the knowledge map carries this value for its own counts,
    the entry count being the number of entries of the row's category. *)
Theorem C7_category_coverage :
  (forall entryCount questions : nat,
      (Gap.categoryCoverage entryCount questions <= 100)%nat /\
      Gap.categoryCoverage entryCount questions =
        (if (0 <? entryCount)%nat
         then Nat.min 100
                (Nat.min 80 (entryCount * 20)
                 + (if (0 <? questions)%nat then Nat.min 20 (questions * 10) else 0))
         else 0)%nat /\
      Gap.categoryCoverage 0 questions = 0%nat) /\
  (forall entries sessions handoverType item,
      In item (Gap.buildKnowledgeMap entries sessions handoverType) ->
      Gap.entryCount item =
        List.length
          (List.filter (fun e => Gap.categoryEqb (category e) (Gap.km_category item))
             entries) /\
      Gap.coverage item =
        Gap.categoryCoverage (Gap.entryCount item) (Gap.questionsAsked item)).
Proof.
  split.
  - intros ec qc. unfold Gap.categoryCoverage.
    repeat split.
    + destruct (0 <? ec)%nat; [destruct (0 <? qc)%nat|]; lia.
    + destruct (0 <? ec)%nat; [destruct (0 <? qc)%nat|]; lia.
  - intros entries sessions ty item Hin. unfold Gap.buildKnowledgeMap in Hin.
    apply in_map_iff in Hin as (c & <- & _). simpl. split; [|reflexivity].
    rewrite bump_count. reflexivity.
Qed.

(** Three entries on deployment and one question about it: the "process"
    row of a project handover has coverage 70. *)
Lemma C7_category_coverage_witness :
  Gap.categoryCoverage 3 1 = 70%nat /\
  Gap.coverage
    {| Gap.km_category := process; Gap.topics := ["Deploy"];
       Gap.entryCount := 3; Gap.questionsAsked := 1; Gap.coverage := 70 |}
  = Gap.categoryCoverage 3 1.
Proof.
  split; [reflexivity|].
  destruct C7_category_coverage as [_ H].
  refine (proj2 (H (repeat (Sample.entry "" "Deploy" "" process []
                              (Sample.fileSource "ci.yml") 1) 3)
                   [Sample.deploySession] project
                   {| Gap.km_category := process; Gap.topics := ["Deploy"];
                      Gap.entryCount := 3; Gap.questionsAsked := 1;
                      Gap.coverage := 70 |} _)).
  vm_compute. tauto.
Defined.

(** ** File lock *)

Lemma acquire_runs start env :
  LockContract.Runs start env
    (fst (FileLock.acquire start env)) (snd (FileLock.acquire start env)).
Proof.
  induction env as [|o env IH]; simpl.
  - constructor.
  - destruct (FileLock.t_loop o - start <? FileLock.LOCK_TIMEOUT_MS) eqn:Ht.
    + apply Z.ltb_lt in Ht.
      destruct (FileLock.acquire start env) as [r tr]. simpl in IH.
      destruct (FileLock.found o) as [| |time] eqn:Hf.
      * destruct (FileLock.wx_ok o) eqn:Hw; simpl.
        -- by apply LockContract.run_acquired.
        -- by apply LockContract.run_lost_race.
      * simpl. by apply LockContract.run_unparseable.
      * destruct (FileLock.stale (FileLock.t_body o) time) eqn:Hs.
        -- destruct time as [t|]; [|discriminate]. simpl in Hs.
           apply Z.ltb_lt in Hs.
           pose proof (LockContract.run_stale start o env r tr t Ht Hf Hs IH) as R.
           destruct (FileLock.unlink_ok o); exact R.
        -- simpl. apply LockContract.run_held with (time := time); try done.
           intros t ->. simpl in Hs. apply Z.ltb_ge in Hs. exact Hs.
    + apply Z.ltb_ge in Ht. simpl. by apply LockContract.run_timeout.
Qed.

Lemma acquire_finishes start env o :
  In o env -> FileLock.LOCK_TIMEOUT_MS <= FileLock.t_loop o - start ->
  fst (FileLock.acquire start env) <> FileLock.Pending.
Proof.
  induction env as [|o' env IH]; simpl; [tauto|].
  intros Hin Hlate.
  destruct (FileLock.t_loop o' - start <? FileLock.LOCK_TIMEOUT_MS) eqn:Ht;
    [|simpl; discriminate].
  destruct Hin as [->|Hin]; [apply Z.ltb_lt in Ht; lia|].
  specialize (IH Hin Hlate).
  destruct (FileLock.acquire start env) as [r tr]. simpl in IH.
  destruct (FileLock.found o') as [| |time].
  - destruct (FileLock.wx_ok o'); simpl; [discriminate | exact IH].
  - exact IH.
  - destruct (FileLock.stale _ time); [destruct (FileLock.unlink_ok o')|]; exact IH.
Qed.

(** C4. Every execution of [acquire] follows the lock contract: a turn
    that finds no marker creates it and returns; a turn that finds a marker
    older than the 5000 ms ceiling, or one that cannot be parsed, removes
    it and retries; any other turn waits the fixed 50 ms and retries; once
    the ceiling has elapsed the lock-timeout error is thrown.  If the clock
    reaches the ceiling at some turn, [acquire] has returned or thrown by
    then. *)
Theorem C4_acquire_contract (start : Z) (env : list FileLock.Turn) :
  FileLock.LOCK_TIMEOUT_MS = 5000 /\ FileLock.LOCK_RETRY_MS = 50 /\
  LockContract.Runs start env
    (fst (FileLock.acquire start env)) (snd (FileLock.acquire start env)) /\
  ((exists o, In o env /\ 5000 <= FileLock.t_loop o - start) ->
   fst (FileLock.acquire start env) = FileLock.Acquired \/
   fst (FileLock.acquire start env) = FileLock.Timeout).
Proof.
  split; [reflexivity|]. split; [reflexivity|]. split.
  - apply acquire_runs.
  - intros (o & Hin & Hlate).
    pose proof (acquire_finishes start env o Hin Hlate) as H.
    destruct (fst (FileLock.acquire start env)); tauto.
Qed.

(** A marker held by another process for the whole wait: two sleeps, then
    the timeout. *)
Lemma C4_acquire_contract_witness :
  FileLock.acquire 0 Sample.heldTurns
    = (FileLock.Timeout, [FileLock.Sleep 50; FileLock.Sleep 50]) /\
  (fst (FileLock.acquire 0 Sample.heldTurns) = FileLock.Acquired \/
   fst (FileLock.acquire 0 Sample.heldTurns) = FileLock.Timeout).
Proof.
  split; [reflexivity|].
  destruct (C4_acquire_contract 0 Sample.heldTurns) as (_ & _ & _ & H).
  apply H.
  exists {| FileLock.t_loop := 5000; FileLock.found := FileLock.Parsed (Some 0);
            FileLock.wx_ok := false; FileLock.t_body := 5000;
            FileLock.unlink_ok := true |}.
  split; [simpl; tauto | simpl; lia].
Defined.

(** ** Knowledge store: scanning the entries directory *)

Section StoreFacts.
Import Store StoreSpec.

Lemma sameKey_iff entry e :
  sameKey entry e = true <-> dedupKey e = dedupKey entry.
Proof.
  unfold sameKey, dedupKey. rewrite !andb_true_iff, String.eqb_eq. split.
  - intros [[Ht Hs] Hp]. f_equal; [f_equal; [done|]|].
    + destruct (src_type (source e)), (src_type (source entry)); done.
    + destruct (src_path (source e)), (src_path (source entry)); try done.
      simpl in Hp. apply String.eqb_eq in Hp. by subst.
  - intros [= -> -> ->]. repeat split.
    + destruct (src_type (source entry)); done.
    + destruct (src_path (source entry)); [|done]. simpl. apply String.eqb_refl.
Qed.

Lemma sameKey_ext entry entry' :
  dedupKey entry' = dedupKey entry -> forall x, sameKey entry' x = sameKey entry x.
Proof.
  intros K x. destruct (sameKey entry x) eqn:E.
  - apply sameKey_iff. apply sameKey_iff in E. congruence.
  - destruct (sameKey entry' x) eqn:E'; [|done].
    apply sameKey_iff in E'. rewrite K in E'. apply sameKey_iff in E'. congruence.
Qed.

Lemma scan_split s name :
  getAllEntries s ≡ₚ
  option_list (getEntry name s) ++ getAllEntries (unlinkEntry name s).
Proof.
  unfold getAllEntries, getEntry, unlinkEntry. simpl.
  destruct (entryFiles s !! name) as [f|] eqn:L.
  - rewrite <- (map_to_list_delete _ _ _ L). simpl.
    destruct f; reflexivity.
  - rewrite delete_id by done. reflexivity.
Qed.

Lemma scan_write s name e :
  getAllEntries (writeEntry name e s) ≡ₚ e :: getAllEntries (unlinkEntry name s).
Proof.
  unfold getAllEntries, writeEntry, unlinkEntry. simpl.
  rewrite <- insert_delete_eq.
  rewrite map_to_list_insert by apply lookup_delete_eq. reflexivity.
Qed.

Lemma scan_write_fresh s name e :
  getEntry name s = None ->
  getAllEntries (writeEntry name e s) ≡ₚ e :: getAllEntries s.
Proof.
  intros G. rewrite scan_write. rewrite (scan_split s name), G. reflexivity.
Qed.

Lemma scan_unlink_subset s name x :
  In x (getAllEntries (unlinkEntry name s)) -> In x (getAllEntries s).
Proof.
  intros H. eapply Permutation_in; [symmetry; apply (scan_split s name)|].
  apply in_or_app. by right.
Qed.

Lemma scan_writeIndex ix s : getAllEntries (writeIndex ix s) = getAllEntries s.
Proof. reflexivity. Qed.

Lemma find_first {A} (f : A -> bool) pre d post :
  Forall (fun x => f x = false) pre -> f d = true ->
  List.find f (pre ++ d :: post) = Some d.
Proof.
  induction 1 as [|x pre Hx _ IH]; intros Hd; simpl.
  - by rewrite Hd.
  - rewrite Hx. auto.
Qed.

Lemma addEntryBody_duplicate now uuid entry s d :
  findDuplicate entry s = Some d ->
  addEntryBody now uuid entry s = ({| r_id := id d; deduplicated := true |}, s).
Proof. intros F. unfold addEntryBody. by rewrite F. Qed.

Lemma addEntryBody_new now uuid entry s :
  findDuplicate entry s = None ->
  fst (addEntryBody now uuid entry s)
    = {| r_id := orElse (id entry) uuid; deduplicated := false |} /\
  getAllEntries (snd (addEntryBody now uuid entry s)) ≡ₚ
    stamped now uuid entry
      :: getAllEntries (unlinkEntry (orElse (id entry) uuid) s).
Proof.
  intros F. unfold addEntryBody. rewrite F. simpl. split; [reflexivity|].
  rewrite scan_writeIndex. apply scan_write.
Qed.

Lemma addEntryBody_then_duplicate now uuid entry entry' s :
  dedupKey entry' = dedupKey entry ->
  exists d,
    findDuplicate entry' (snd (addEntryBody now uuid entry s)) = Some d /\
    id d = r_id (fst (addEntryBody now uuid entry s)).
Proof.
  intros K. destruct (findDuplicate entry s) as [d|] eqn:F.
  - rewrite (addEntryBody_duplicate _ _ _ _ _ F). simpl. exists d. split; [|done].
    unfold findDuplicate in *. rewrite <- F.
    clear F. induction (getAllEntries s) as [|x l IH]; simpl; [done|].
    rewrite (sameKey_ext _ _ K). by rewrite IH.
  - destruct (addEntryBody_new now uuid entry s F) as [R P]. rewrite R. simpl.
    unfold findDuplicate at 1.
    destruct (List.find (sameKey entry') (getAllEntries (snd (addEntryBody now uuid entry s))))
      as [x|] eqn:F'.
    + exists x. split; [done|].
      apply find_some in F' as [Hin Hk].
      apply (Permutation_in _ P) in Hin. destruct Hin as [<-|Hin]; [reflexivity|].
      apply scan_unlink_subset in Hin.
      rewrite (sameKey_ext _ _ K) in Hk.
      pose proof (find_none _ _ F x Hin) as N. congruence.
    + exfalso.
      assert (In (stamped now uuid entry) (getAllEntries (snd (addEntryBody now uuid entry s)))) as Hin.
      { apply (Permutation_in _ (Permutation_sym P)). by left. }
      pose proof (find_none _ _ F' _ Hin) as N.
      assert (sameKey entry' (stamped now uuid entry) = true) as T.
      { apply sameKey_iff. rewrite K. reflexivity. }
      congruence.
Qed.

End StoreFacts.

(** ** Knowledge store: not-found and deduplication *)

(** C1 (as amended).  When the scan of the entries directory meets [d] as
    the first entry with the key of [e], [addEntry e] returns the id of
    [d] with the deduplicated flag and writes nothing.  Two calls with one
    key, the first with an id that is a plain file name (its own, or the
    generated one when it has none), return the same id, the second with
    the deduplicated flag and without a write; when no entry had that key
    and no record was stored under the id of the first call,
    [getAllEntries] grows by exactly 1. *)
Theorem C1_add_entry_dedup (now uuid now' uuid' : string)
    (e e' : KnowledgeEntry) (s s1 s2 : Store.State) (a1 a2 : Store.AddResult) :
  StoreSpec.dedupKey e' = StoreSpec.dedupKey e ->
  StoreSpec.plainId (Store.orElse (id e) uuid) = true ->
  Store.addEntry FileLock.Acquired now uuid e s = (Store.Returned a1, s1) ->
  Store.addEntry FileLock.Acquired now' uuid' e' s1 = (Store.Returned a2, s2) ->
  (forall pre d post,
      Store.getAllEntries s = pre ++ d :: post ->
      Forall (fun x => StoreSpec.dedupKey x <> StoreSpec.dedupKey e) pre ->
      StoreSpec.dedupKey d = StoreSpec.dedupKey e ->
      a1 = {| Store.r_id := id d; Store.deduplicated := true |} /\ s1 = s) /\
  Store.r_id a2 = Store.r_id a1 /\
  Store.deduplicated a2 = true /\
  s2 = s1 /\
  ((forall x, In x (Store.getAllEntries s) ->
              StoreSpec.dedupKey x <> StoreSpec.dedupKey e) ->
   Store.getEntry (Store.r_id a1) s = None ->
   List.length (Store.getAllEntries s2) = S (List.length (Store.getAllEntries s))).
Proof.
  intros K _ H1 H2.
  unfold Store.addEntry, Store.withLock in H1, H2.
  destruct (Store.addEntryBody now uuid e s) as [b1 t1] eqn:B1.
  destruct (Store.addEntryBody now' uuid' e' s1) as [b2 t2] eqn:B2.
  injection H1 as -> ->. injection H2 as -> ->.
  destruct (addEntryBody_then_duplicate now uuid e e' s K) as (d & F & Hid).
  rewrite B1 in F, Hid. simpl in F, Hid.
  rewrite (addEntryBody_duplicate _ _ _ _ _ F) in B2. injection B2 as <- <-.
  split; [|repeat split; try done].
  - intros pre d0 post Hscan Hpre Hd.
    assert (Store.findDuplicate e s = Some d0) as F0.
    { unfold Store.findDuplicate. rewrite Hscan. apply find_first.
      - eapply Forall_impl; [exact Hpre|]. intros x Hx. simpl in Hx.
        destruct (Store.sameKey e x) eqn:E; [|done].
        apply sameKey_iff in E. done.
      - by apply sameKey_iff. }
    rewrite (addEntryBody_duplicate _ _ _ _ _ F0) in B1. by injection B1 as <- <-.
  - intros Hnone Hfree.
    assert (Store.findDuplicate e s = None) as F0.
    { unfold Store.findDuplicate.
      destruct (List.find (Store.sameKey e) (Store.getAllEntries s)) as [x|] eqn:E;
        [|done].
      apply find_some in E as [Hin Hk]. apply sameKey_iff in Hk.
      by destruct (Hnone x Hin). }
    destruct (addEntryBody_new now uuid e s F0) as [R P].
    rewrite B1 in R, P. simpl in R, P. subst a1. simpl in Hfree.
    rewrite (Permutation_length P). simpl. f_equal.
    apply Permutation_length.
    rewrite (scan_split s (Store.orElse (id e) uuid)), Hfree. reflexivity.
Qed.

(** On a fresh store "Auth design" from src/auth.ts is added twice, with
    different contents: both calls return "u1", the second is
    deduplicated, and one entry is stored. *)
Lemma C1_add_entry_dedup_witness :
  Store.addEntry FileLock.Acquired "t1" "u1" (Sample.authDesign "" "first") Sample.fresh
    = (Store.Returned {| Store.r_id := "u1"; Store.deduplicated := false |},
       Sample.addedOnce) /\
  Store.addEntry FileLock.Acquired "t2" "u2" (Sample.authDesign "" "second")
      Sample.addedOnce
    = (Store.Returned {| Store.r_id := "u1"; Store.deduplicated := true |},
       Sample.addedOnce) /\
  List.length (Store.getAllEntries Sample.addedOnce)
    = S (List.length (Store.getAllEntries Sample.fresh)).
Proof.
  assert (StoreSpec.dedupKey (Sample.authDesign "" "second")
          = StoreSpec.dedupKey (Sample.authDesign "" "first")) as K by reflexivity.
  assert (Store.addEntry FileLock.Acquired "t1" "u1" (Sample.authDesign "" "first")
            Sample.fresh
          = (Store.Returned {| Store.r_id := "u1"; Store.deduplicated := false |},
             Sample.addedOnce)) as H1
    by (vm_compute; reflexivity).
  assert (Store.addEntry FileLock.Acquired "t2" "u2" (Sample.authDesign "" "second")
            Sample.addedOnce
          = (Store.Returned {| Store.r_id := "u1"; Store.deduplicated := true |},
             Sample.addedOnce)) as H2
    by (vm_compute; reflexivity).
  destruct (C1_add_entry_dedup _ "u1" _ _ _ _ _ _ _ _ _ K eq_refl H1 H2)
    as (_ & _ & _ & _ & Hlen).
  split; [exact H1|]. split; [exact H2|].
  apply Hlen.
  - intros x Hx. vm_compute in Hx. destruct Hx.
  - vm_compute. reflexivity.
Defined.

(** C1 as stated fails.  The store [Sample.twoAlike] holds the records "a"
    and "b", whose titles are equal once lower-cased and whose sources are
    equal.  [addEntry] of an entry with that title and source returns one
    id, "a", so it does not return the id of every stored entry [d] that
    has the title and source of the entry: not that of "b". *)
Lemma C1_counterexample :
  ~ (forall d,
        In d (Store.getAllEntries Sample.twoAlike) ->
        Js.toLowerCase (title d) = Js.toLowerCase (title (Sample.authDesign "" "third")) ->
        src_type (source d) = src_type (source (Sample.authDesign "" "third")) ->
        src_path (source d) = src_path (source (Sample.authDesign "" "third")) ->
        Store.addEntry FileLock.Acquired "t4" "u4" (Sample.authDesign "" "third")
          Sample.twoAlike
        = (Store.Returned {| Store.r_id := id d; Store.deduplicated := true |},
           Sample.twoAlike)).
Proof.
  intros H.
  specialize (H {| id := "b"; title := "AUTH DESIGN"; content := "second";
                   category := architecture; tags := [];
                   source := Sample.fileSource "src/auth.ts"; confidence := 8 # 10;
                   createdAt := "t2"; updatedAt := "t3" |}).
  assert (Store.addEntry FileLock.Acquired "t4" "u4" (Sample.authDesign "" "third")
            Sample.twoAlike
          = (Store.Returned {| Store.r_id := "a"; Store.deduplicated := true |},
             Sample.twoAlike)) as R by (vm_compute; reflexivity).
  rewrite R in H.
  assert (Store.Returned {| Store.r_id := "a"; Store.deduplicated := true |}
          = Store.Returned {| Store.r_id := "b"; Store.deduplicated := true |}) as E.
  { refine (f_equal fst (H _ _ _ _)).
    - vm_compute. tauto.
    - reflexivity.
    - reflexivity.
    - reflexivity. }
  discriminate E.
Qed.

(** ** Knowledge store: the index and the entry records *)

Section IndexFacts.
Import Store StoreSpec.

Lemma filter_perm {A} (f : A -> bool) (l l' : list A) :
  l ≡ₚ l' -> List.filter f l ≡ₚ List.filter f l'.
Proof.
  induction 1 as [|x l l' _ IH|x y l|l1 l2 l3 _ IH1 _ IH2]; simpl.
  - reflexivity.
  - destruct (f x); [by constructor | done].
  - destruct (f x), (f y); try reflexivity. apply perm_swap.
  - by transitivity (List.filter f l2).
Qed.

Lemma scan_In s e :
  In e (getAllEntries s) <-> exists name, entryFiles s !! name = Some (Readable e).
Proof.
  unfold getAllEntries. rewrite <- list_elem_of_In, list_elem_of_omap. split.
  - intros ([name f] & Hin & Hr). apply elem_of_map_to_list in Hin.
    destruct f; simpl in Hr; [discriminate|]. injection Hr as ->. eauto.
  - intros (name & L). exists (name, Readable e). split; [|done].
    by apply elem_of_map_to_list.
Qed.

Lemma scan_unlink_ids s name e :
  wellNamed s -> In e (getAllEntries (unlinkEntry name s)) -> id e <> name.
Proof.
  intros W Hin. apply scan_In in Hin as (k & L). simpl in L.
  apply lookup_delete_Some in L as [Hne L]. rewrite (W _ _ L). congruence.
Qed.

Lemma replaceFirst_perm name x x' (l r : list KnowledgeIndexEntry) :
  l ≡ₚ x :: r -> ix_id x = name ->
  (forall y, In y r -> ix_id y <> name) ->
  replaceFirst name x' l ≡ₚ x' :: r.
Proof.
  revert r. induction l as [|y l IH]; intros r P Hx Hr.
  - apply Permutation_nil in P. discriminate.
  - simpl. destruct (String.eqb (ix_id y) name) eqn:E.
    + apply String.eqb_eq in E.
      assert (In y (x :: r)) as Hy by (apply (Permutation_in _ P); by left).
      destruct Hy as [<-|Hy]; [|by destruct (Hr y Hy)].
      apply Permutation_cons_inv in P. by constructor.
    + apply String.eqb_neq in E.
      assert (In y (x :: r)) as Hy by (apply (Permutation_in _ P); by left).
      destruct Hy as [->|Hy]; [done|].
      apply in_split in Hy as (r1 & r2 & ->).
      assert (l ≡ₚ x :: r1 ++ r2) as P'.
      { apply (Permutation_cons_inv (a := y)).
        rewrite P. rewrite (Permutation_middle (x :: r1) r2 y). reflexivity. }
      rewrite (IH (r1 ++ r2) P' Hx).
      * rewrite perm_swap. constructor. apply Permutation_middle.
      * intros z Hz. apply Hr. rewrite in_app_iff in *. simpl. tauto.
Qed.

Lemma filter_all {A} (f : A -> bool) (l : list A) :
  (forall x, In x l -> f x = true) -> List.filter f l = l.
Proof.
  induction l as [|x l IH]; simpl; intros H; [done|].
  rewrite (H x) by auto. f_equal. auto.
Qed.

Lemma invariant_add now uuid entry s :
  invariant s ->
  (findDuplicate entry s = None -> getEntry (orElse (id entry) uuid) s = None) ->
  invariant (snd (addEntryBody now uuid entry s)).
Proof.
  intros [W (ix & Hix & P & T)] Hfresh. unfold addEntryBody.
  destruct (findDuplicate entry s) as [d|] eqn:F.
  - simpl. split; [done|]. by exists ix.
  - specialize (Hfresh eq_refl). simpl. split.
    + intros name e L. simpl in L.
      destruct (decide (orElse (id entry) uuid = name)) as [<-|N].
      * rewrite lookup_insert_eq in L. by injection L as <-.
      * rewrite lookup_insert_ne in L by done. by apply W.
    + eexists. split; [reflexivity|]. simpl.
      unfold getIndex. simpl. rewrite Hix.
      assert (getAllEntries
                (writeIndex
                   {| ix_entries := ix_entries ix ++ [toIndexEntry (stamped now uuid entry)];
                      lastUpdated := now;
                      totalEntries :=
                        List.length (ix_entries ix ++ [toIndexEntry (stamped now uuid entry)]) |}
                   (writeEntry (orElse (id entry) uuid) (stamped now uuid entry) s))
              ≡ₚ stamped now uuid entry :: getAllEntries s) as Q.
      { rewrite scan_writeIndex. by apply scan_write_fresh. }
      split.
      * unfold scannedEntries. rewrite Q. simpl.
        rewrite <- Permutation_cons_append. constructor. exact P.
      * rewrite (Permutation_length Q). rewrite length_app. simpl.
        rewrite (Permutation_length P). unfold scannedEntries.
        rewrite length_map. lia.
Qed.

Lemma invariant_update now name updates s :
  invariant s -> invariant (snd (updateEntryBody now name updates s)).
Proof.
  intros [W (ix & Hix & P & T)]. unfold updateEntryBody.
  destruct (getEntry name s) as [existing|] eqn:G.
  2:{ simpl. split; [done|]. by exists ix. }
  simpl. split.
  - intros k e L. simpl in L.
    destruct (decide (name = k)) as [<-|N].
    + rewrite lookup_insert_eq in L. by injection L as <-.
    + rewrite lookup_insert_ne in L by done. by apply W.
  - eexists. split; [reflexivity|]. simpl.
    unfold getIndex. simpl. rewrite Hix.
    set (updated := merge name now existing updates).
    pose proof (scan_split s name) as S0. rewrite G in S0. simpl in S0.
    pose proof (scan_write s name updated) as S1.
    assert (id existing = name) as Hid.
    { unfold getEntry in G. destruct (entryFiles s !! name) as [[|e0]|] eqn:L;
        try discriminate. injection G as ->. by apply W. }
    split.
    + unfold scannedEntries. rewrite scan_writeIndex, S1. simpl.
      apply replaceFirst_perm with (x := toIndexEntry existing).
      * rewrite P. unfold scannedEntries. rewrite S0. reflexivity.
      * exact Hid.
      * intros y Hy. apply in_map_iff in Hy as (e0 & <- & He0). simpl.
        by apply (scan_unlink_ids s name).
    + rewrite scan_writeIndex, (Permutation_length S1), T, (Permutation_length S0).
      reflexivity.
Qed.

Lemma invariant_delete now name s :
  invariant s -> invariant (snd (deleteEntryBody now name s)).
Proof.
  intros [W (ix & Hix & P & T)]. unfold deleteEntryBody.
  destruct (entryFiles s !! name) as [f|] eqn:L.
  2:{ simpl. split; [done|]. by exists ix. }
  simpl. split.
  - intros k e Lk. simpl in Lk. apply lookup_delete_Some in Lk as [_ Lk]. by apply W.
  - eexists. split; [reflexivity|]. simpl.
    unfold getIndex. simpl. rewrite Hix.
    set (keep := fun e : KnowledgeIndexEntry => negb (String.eqb (ix_id e) name)).
    assert (forall y, In y (scannedEntries (unlinkEntry name s)) -> keep y = true) as Hrest.
    { intros y Hy. apply in_map_iff in Hy as (e0 & <- & He0). unfold keep. simpl.
      apply negb_true_iff, String.eqb_neq. by apply (scan_unlink_ids s name). }
    assert (List.filter keep (ix_entries ix) ≡ₚ scannedEntries (unlinkEntry name s)) as Q.
    { rewrite (filter_perm keep _ _ P). unfold scannedEntries.
      rewrite (filter_perm keep _ _ (Permutation_map toIndexEntry (scan_split s name))).
      rewrite map_app, List.filter_app.
      rewrite (filter_all keep (map toIndexEntry (getAllEntries (unlinkEntry name s))))
        by exact Hrest.
      unfold getEntry. rewrite L. destruct f as [|e0]; simpl; [reflexivity|].
      unfold keep at 1. simpl. rewrite (W _ _ L), String.eqb_refl. reflexivity. }
    split.
    + exact Q.
    + rewrite (Permutation_length Q). unfold scannedEntries. by rewrite length_map.
Qed.

End IndexFacts.

(** Index consistency holds as long as the ids are plain file names and
    [addEntry] never stores a record under a name that already holds
    one: the index entries are those of a scan of the records, and
    [totalEntries] is the number of records. *)
Theorem index_in_correspondence (s : Store.State) :
  StoreSpec.Reached s -> StoreSpec.wellNamed s /\ StoreSpec.inCorrespondence s.
Proof.
  induction 1 as [now|s lock now uuid entry _ IH _ Hfresh
                  |s lock now name updates _ IH _|s lock now name _ IH _].
  - split.
    + intros name e L. simpl in L. by rewrite lookup_empty in L.
    + eexists. split; [reflexivity|]. split; [|reflexivity].
      unfold StoreSpec.scannedEntries, Store.getAllEntries. simpl.
      rewrite map_to_list_empty. reflexivity.
  - destruct lock; simpl; [|exact IH|exact IH].
    pose proof (invariant_add now uuid entry s IH Hfresh) as I.
    destruct (Store.addEntryBody now uuid entry s). exact I.
  - destruct lock; simpl; [|exact IH|exact IH].
    pose proof (invariant_update now name updates s IH) as I.
    destruct (Store.updateEntryBody now name updates s). exact I.
  - destruct lock; simpl; [|exact IH|exact IH].
    pose proof (invariant_delete now name s IH) as I.
    destruct (Store.deleteEntryBody now name s). exact I.
Qed.

(** C2 at the failing input.  On a fresh store the id "a" is added under
    the title "Auth design" and again under the title "Auth plan".  One
    record is on disk, the index holds two entries for "a" and
    [totalEntries] is 2; [rebuildIndex] gives the single entry of the
    scan, so the index is not in correspondence with the records. *)
Theorem C2_index_diverges_on_reused_id :
  map title (Store.getAllEntries Sample.sameIdTwice) = ["Auth plan"] /\
  (exists ix, Store.indexFile Sample.sameIdTwice = Store.Stored ix /\
     map ix_title (ix_entries ix) = ["Auth design"; "Auth plan"] /\
     map ix_id (ix_entries ix) = ["a"; "a"] /\
     totalEntries ix = 2%nat) /\
  map ix_title (ix_entries (fst (Store.rebuildIndexBody "t3" Sample.sameIdTwice)))
    = ["Auth plan"] /\
  ~ StoreSpec.inCorrespondence Sample.sameIdTwice.
Proof.
  split; [vm_compute; reflexivity|]. split.
  - eexists. split; [vm_compute; reflexivity|]. repeat split.
  - split; [vm_compute; reflexivity|].
    intros (ix & Hix & P & T).
    assert (totalEntries ix = 2%nat) as T2.
    { vm_compute in Hix. injection Hix as <-. reflexivity. }
    rewrite T2 in T. vm_compute in T. discriminate.
Qed.

(** ** The stable sort *)

Section SortFacts.
Context {A : Type} (before : A -> A -> bool).

Hypothesis before_asym : forall a b, before a b = true -> before b a = false.
Hypothesis ordered_trans :
  forall a b c, Js.ordered before a b -> Js.ordered before b c -> Js.ordered before a c.

Lemma insertSorted_perm x l : Js.insertSorted before x l ≡ₚ x :: l.
Proof.
  induction l as [|y l IH]; simpl; [reflexivity|].
  destruct (before y x); [|reflexivity].
  rewrite IH. apply perm_swap.
Qed.

Lemma sort_perm l : Js.sort before l ≡ₚ l.
Proof.
  induction l as [|x l IH]; simpl; [reflexivity|].
  rewrite insertSorted_perm. by constructor.
Qed.

Lemma insertSorted_sorted x l :
  StronglySorted (Js.ordered before) l ->
  StronglySorted (Js.ordered before) (Js.insertSorted before x l).
Proof.
  induction 1 as [|y l Hl IH Hy]; simpl.
  - repeat constructor.
  - destruct (before y x) eqn:E.
    + constructor; [exact IH|].
      apply Forall_forall. intros z Hz. apply list_elem_of_In in Hz.
      apply (Permutation_in _ (insertSorted_perm x l)) in Hz.
      destruct Hz as [<-|Hz].
      * by apply before_asym.
      * rewrite Forall_forall in Hy. apply Hy. by apply list_elem_of_In.
    + constructor; [by constructor|].
      constructor; [exact E|].
      eapply Forall_impl; [exact Hy|]. intros z Hz.
      by apply (ordered_trans x y z).
Qed.

Lemma sort_sorted l : StronglySorted (Js.ordered before) (Js.sort before l).
Proof.
  induction l as [|x l IH]; simpl; [constructor | by apply insertSorted_sorted].
Qed.

Lemma before_tied y a x :
  before y a = true -> Js.tied before x a = true -> Js.tied before x y = false.
Proof.
  unfold Js.tied. intros Hya T. apply andb_true_iff in T as [T1 T2].
  apply negb_true_iff in T1, T2.
  destruct (before x y) eqn:Exy; [reflexivity|].
  destruct (before y x) eqn:Eyx; [by rewrite andb_false_r|].
  exfalso. pose proof (ordered_trans a x y T1 Eyx) as H.
  unfold Js.ordered in H. congruence.
Qed.

Lemma insertSorted_tied x a l :
  List.filter (Js.tied before x) (Js.insertSorted before a l)
  = if Js.tied before x a then a :: List.filter (Js.tied before x) l
    else List.filter (Js.tied before x) l.
Proof.
  induction l as [|y l IH]; cbn [Js.insertSorted List.filter].
  - by destruct (Js.tied before x a).
  - destruct (before y a) eqn:Hya; cbn [List.filter]; [|reflexivity].
    rewrite IH. destruct (Js.tied before x a) eqn:T; [|reflexivity].
    by rewrite (before_tied y a x Hya T).
Qed.

(** Elements that the comparator ties keep their order. *)
Lemma sort_stable x l :
  List.filter (Js.tied before x) (Js.sort before l) = List.filter (Js.tied before x) l.
Proof.
  induction l as [|a l IH]; [reflexivity|].
  cbn [Js.sort fold_right List.filter]. fold (Js.sort before l).
  rewrite insertSorted_tied, IH. reflexivity.
Qed.

End SortFacts.

Lemma sorted_map {A B} (f : A -> B) (P : A -> Prop)
    (R1 : A -> A -> Prop) (R2 : B -> B -> Prop) (l : list A) :
  Forall P l ->
  (forall x y, P x -> P y -> R1 x y -> R2 (f x) (f y)) ->
  StronglySorted R1 l -> StronglySorted R2 (map f l).
Proof.
  intros HP HR S. induction S as [|x l _ IH Hx]; simpl; [constructor|].
  apply Forall_cons in HP as [Px Pl]. constructor; [by apply IH|].
  apply Forall_forall. intros y Hy. apply list_elem_of_In in Hy.
  apply in_map_iff in Hy as (z & <- & Hz).
  rewrite Forall_forall in Hx, Pl. apply list_elem_of_In in Hz.
  apply HR; auto.
Qed.

Lemma sorted_weaken {A} (P : A -> Prop) (R1 R2 : A -> A -> Prop) (l : list A) :
  Forall P l ->
  (forall x y, P x -> P y -> R1 x y -> R2 x y) ->
  StronglySorted R1 l -> StronglySorted R2 l.
Proof.
  intros HP HR S. rewrite <- (map_id l). by apply (sorted_map (fun x => x) P R1).
Qed.

Lemma sorted_nth {A} (R : A -> A -> Prop) (l : list A) i j a b :
  StronglySorted R l -> (i < j)%nat ->
  nth_error l i = Some a -> nth_error l j = Some b -> R a b.
Proof.
  intros S. revert i j. induction S as [|x l _ IH Hx]; intros i j Hij Ha Hb.
  - destruct i; discriminate.
  - destruct j as [|j]; [lia|]. simpl in Hb. destruct i as [|i]; simpl in Ha.
    + injection Ha as ->. rewrite Forall_forall in Hx. apply Hx.
      apply list_elem_of_In. eapply nth_error_In. exact Hb.
    + apply (IH i j); [lia|done|done].
Qed.

(** ** Strings *)

Lemma append_nil (b : string) : "" +:+ b = b.
Proof. reflexivity. Qed.

Lemma append_cons c (a b : string) : String c a +:+ b = String c (a +:+ b).
Proof. reflexivity. Qed.

Lemma append_assoc (a b c : string) : (a +:+ b) +:+ c = a +:+ b +:+ c.
Proof.
  induction a as [|x a IH]; [reflexivity|]. rewrite !append_cons. by rewrite IH.
Qed.

Lemma append_empty_r (a : string) : a +:+ "" = a.
Proof.
  induction a as [|x a IH]; [reflexivity|]. rewrite append_cons. by rewrite IH.
Qed.

Lemma startsWith_prefix s p :
  Js.startsWith s p = true <-> exists post, s = p +:+ post.
Proof.
  revert s. induction p as [|a p IH]; intros s; simpl.
  - split; [eauto | by destruct s].
  - destruct s as [|b s]; simpl.
    + split; [discriminate | intros (post & H); discriminate].
    + rewrite andb_true_iff, Ascii.eqb_eq, IH. split.
      * intros [-> (post & ->)]. eauto.
      * intros (post & H). rewrite append_cons in H. injection H as -> ->. eauto.
Qed.

Lemma includes_contains s sub :
  Js.includes s sub = true <-> RankerSpec.contains s sub.
Proof.
  unfold RankerSpec.contains. induction s as [|c s IH].
  - cbn [Js.includes]. rewrite orb_false_r, startsWith_prefix. split.
    + intros (post & ->). by exists "", post.
    + intros (pre & post & H). destruct pre; [by exists post|discriminate].
  - cbn [Js.includes]. rewrite orb_true_iff, startsWith_prefix, IH. split.
    + intros [(post & ->)|(pre & post & ->)].
      * by exists "", post.
      * by exists (String c pre), post.
    + intros (pre & post & H). destruct pre as [|c' pre].
      * left. eauto.
      * rewrite append_cons in H. injection H as -> ->. right. eauto.
Qed.

Lemma arrayIncludes_In l x : Js.arrayIncludes l x = true <-> In x l.
Proof.
  unfold Js.arrayIncludes. rewrite existsb_exists. split.
  - intros (y & Hy & E). apply String.eqb_eq in E. by subst.
  - intros H. exists x. split; [done | apply String.eqb_refl].
Qed.

Lemma categoryName_lower c : Js.toLowerCase (categoryName c) = categoryName c.
Proof. destruct c; reflexivity. Qed.

(** ** Double-precision rounding *)

Section DoubleFacts.
Local Open Scope Q_scope.

Lemma pow2_pos k : 0 < 2 ^ k.
Proof. by apply Qpower_0_lt. Qed.

Lemma pow2_succ k : 2 ^ (k + 1) == 2 * 2 ^ k.
Proof. rewrite Qpower_plus by done. rewrite Qpower_1_r. ring. Qed.

Lemma pow2_of_Z (a : Z) : (0 <= a)%Z -> inject_Z (2 ^ a) == 2 ^ a.
Proof. intros H. by rewrite Zpower_Qpower. Qed.

Lemma log2_bounds (n : Z) :
  (0 < n)%Z -> 2 ^ Z.log2 n <= inject_Z n /\ inject_Z n < 2 ^ (Z.log2 n + 1).
Proof.
  intros H. destruct (Z.log2_spec n H) as [L U].
  pose proof (Z.log2_nonneg n) as N. split.
  - rewrite <- pow2_of_Z by done. by rewrite <- Zle_Qle.
  - rewrite <- pow2_of_Z by lia. rewrite <- Zlt_Qlt. by rewrite <- Z.add_1_r in U.
Qed.

Lemma exponent_spec x :
  0 < x -> 2 ^ Js.exponent x <= x /\ x < 2 ^ (Js.exponent x + 1).
Proof.
  intros Hx. unfold Js.exponent.
  destruct x as [n d]. cbn [Qnum Qden].
  assert (0 < n)%Z as Hn by (unfold Qlt in Hx; simpl in Hx; lia).
  destruct (log2_bounds n Hn) as [Ln Un].
  destruct (log2_bounds (Z.pos d) eq_refl) as [Ld Ud].
  set (a := Z.log2 n) in *. set (b := Z.log2 (Z.pos d)) in *.
  assert (n # d == inject_Z n / inject_Z (Z.pos d)) as E by apply Qmake_Qdiv.
  assert (0 < inject_Z (Z.pos d)) as Dpos by (unfold Qlt; simpl; lia).
  assert ((n # d) * inject_Z (Z.pos d) == inject_Z n) as M.
  { rewrite E. field. lra. }
  pose proof (pow2_pos b) as Pb. pose proof (pow2_pos (a - b)) as Pk.
  pose proof (pow2_pos (a - b - 1)) as Pk'.
  assert (2 ^ (a - b + 1) * 2 ^ b == 2 ^ (a + 1)) as E1.
  { rewrite <- Qpower_plus by done. by replace (a - b + 1 + b)%Z with (a + 1)%Z by lia. }
  assert (2 ^ (a - b - 1) * 2 ^ (b + 1) == 2 ^ a) as E2.
  { rewrite <- Qpower_plus by done. by replace (a - b - 1 + (b + 1))%Z with a by lia. }
  pose proof (pow2_pos (a - b + 1)) as Pk1.
  destruct (Qle_bool (2 ^ (a - b)) (n # d)) eqn:C.
  - apply Qle_bool_iff in C. split; [exact C|].
    revert E1 M Un Ld Dpos Pb Pk1.
    generalize (inject_Z n) (inject_Z (Z.pos d)) (2 ^ (a + 1)) (2 ^ b)
      (2 ^ (a - b + 1)) (n # d).
    intros N D Pa1 Pb0 P1 x E1 M Un Ld Dpos Pb Pk1.
    destruct (Qlt_le_dec x P1) as [H|H]; [exact H|]. exfalso. nra.
  - assert (~ 2 ^ (a - b) <= n # d) as C'.
    { intros H. apply Qle_bool_iff in H. congruence. }
    apply Qnot_le_lt in C'. replace (a - b - 1 + 1)%Z with (a - b)%Z by lia.
    split; [|exact C'].
    revert E2 M Ln Ud Dpos Pk'.
    generalize (inject_Z n) (inject_Z (Z.pos d)) (2 ^ a) (2 ^ (b + 1))
      (2 ^ (a - b - 1)) (n # d).
    intros N D Pa Pb1 P' x E2 M Ln Ud Dpos Pk'.
    destruct (Qlt_le_dec x P') as [H|H]; [|exact H]. exfalso. nra.
Qed.

Lemma exponent_unique x k :
  0 < x -> 2 ^ k <= x -> x < 2 ^ (k + 1) -> Js.exponent x = k.
Proof.
  intros Hx L U. destruct (exponent_spec x Hx) as [L' U'].
  assert (1 < 2) as T by reflexivity.
  assert (k < Js.exponent x + 1)%Z.
  { apply (Qpower_lt_compat_l_inv 2); [|exact T]. lra. }
  assert (Js.exponent x < k + 1)%Z.
  { apply (Qpower_lt_compat_l_inv 2); [|exact T]. lra. }
  lia.
Qed.

Lemma roundHalfEven_comp y y' : y == y' -> Js.roundHalfEven y = Js.roundHalfEven y'.
Proof.
  intros E. unfold Js.roundHalfEven. rewrite (Qfloor_comp _ _ E).
  assert ((y - inject_Z (Qfloor y') ?= 1 # 2) = (y' - inject_Z (Qfloor y') ?= 1 # 2)) as ->.
  { apply Qcompare_comp; [by rewrite E | reflexivity]. }
  reflexivity.
Qed.

Lemma roundHalfEven_floor y : (Qfloor y <= Js.roundHalfEven y)%Z.
Proof.
  unfold Js.roundHalfEven. destruct (_ ?= _); [destruct (Z.even _)| |]; lia.
Qed.

Lemma nearest53_pos x : 0 < x -> 0 < Js.nearest53 x.
Proof.
  intros Hx. unfold Js.nearest53. destruct (exponent_spec x Hx) as [L _].
  set (e := (Js.exponent x - 52)%Z).
  pose proof (pow2_pos e) as Pe.
  assert (2 ^ e <= 2 ^ Js.exponent x) as Le.
  { apply Qpower_le_compat_l; [unfold e; lia | done]. }
  assert (1 <= x / 2 ^ e) as One.
  { apply Qle_shift_div_l; [exact Pe|]. lra. }
  assert (1 <= Js.roundHalfEven (x / 2 ^ e))%Z as R.
  { etransitivity; [|apply roundHalfEven_floor].
    change 1%Z with (Qfloor 1). by apply Qfloor_resp_le. }
  apply Qmult_lt_0_compat; [|exact Pe].
  change 0 with (inject_Z 0). rewrite <- Zlt_Qlt. lia.
Qed.

Lemma nearest53_comp x y : x == y -> 0 < x -> Js.nearest53 x == Js.nearest53 y.
Proof.
  intros E Hx. unfold Js.nearest53.
  assert (Js.exponent y = Js.exponent x) as ->.
  { destruct (exponent_spec x Hx) as [L U].
    apply exponent_unique; [lra | lra | lra]. }
  rewrite (roundHalfEven_comp (y / _) (x / 2 ^ (Js.exponent x - 52))); [reflexivity|].
  apply Qdiv_comp; [symmetry; exact E | reflexivity].
Qed.

Lemma nearest53_half x : 0 < x -> Js.nearest53 (x * (1 # 2)) == Js.nearest53 x * (1 # 2).
Proof.
  intros Hx. unfold Js.nearest53. destruct (exponent_spec x Hx) as [L U].
  set (E := Js.exponent x) in *.
  assert (2 ^ E == 2 * 2 ^ (E - 1)) as P1.
  { rewrite <- pow2_succ. by replace (E - 1 + 1)%Z with E by lia. }
  assert (Js.exponent (x * (1 # 2)) = (E - 1)%Z) as ->.
  { apply exponent_unique; [lra| |].
    - lra.
    - replace (E - 1 + 1)%Z with E by lia. rewrite pow2_succ in U. lra. }
  assert (2 ^ (E - 52) == 2 * 2 ^ (E - 1 - 52)) as P2.
  { rewrite <- pow2_succ. by replace (E - 1 - 52 + 1)%Z with (E - 52)%Z by lia. }
  pose proof (pow2_pos (E - 1 - 52)) as Pe.
  rewrite (roundHalfEven_comp (x * (1 # 2) / 2 ^ (E - 1 - 52)) (x / 2 ^ (E - 52))).
  - generalize (inject_Z (Js.roundHalfEven (x / 2 ^ (E - 52)))). intros m.
    rewrite P2. ring.
  - rewrite P2. field. lra.
Qed.

Lemma double_comp x y : x == y -> Js.double x = Js.double y.
Proof. intros E. unfold Js.double. by rewrite (Qred_complete _ _ E). Qed.

Lemma double_positive x : 0 < x -> Js.double x == Js.nearest53 x /\ 0 < Js.double x.
Proof.
  intros Hx. unfold Js.double.
  assert (0 < Qred x) as Hr by (by rewrite Qred_correct).
  rewrite (proj1 (Qlt_alt 0 (Qred x)) Hr). rewrite Qred_correct.
  split.
  - apply nearest53_comp; [apply Qred_correct | exact Hr].
  - by apply nearest53_pos.
Qed.

Lemma double_sign x : 0 < Js.double x <-> 0 < x.
Proof.
  split; [|intros H; by apply double_positive].
  unfold Js.double. destruct (0 ?= Qred x) eqn:C.
  - intros H. by apply Qlt_irrefl in H.
  - intros _. apply Qlt_alt in C. by rewrite Qred_correct in C.
  - apply Qgt_alt in C. rewrite Qred_correct. intros H.
    assert (0 < Js.nearest53 (- Qred x)) by (apply nearest53_pos; lra). lra.
Qed.

Lemma double_half x : 0 < x -> Js.double (x * (1 # 2)) == Js.double x * (1 # 2).
Proof.
  intros Hx. destruct (double_positive x Hx) as [-> _].
  destruct (double_positive (x * (1 # 2))) as [-> _]; [lra|].
  by apply nearest53_half.
Qed.

Lemma roundHalfEven_ceil y : (Js.roundHalfEven y <= Qfloor y + 1)%Z.
Proof.
  unfold Js.roundHalfEven. destruct (_ ?= _); [destruct (Z.even _)| |]; lia.
Qed.

Lemma roundHalfEven_mono y1 y2 : y1 <= y2 -> (Js.roundHalfEven y1 <= Js.roundHalfEven y2)%Z.
Proof.
  intros H. pose proof (Qfloor_resp_le _ _ H) as F.
  destruct (Z.eq_dec (Qfloor y1) (Qfloor y2)) as [E|N].
  - unfold Js.roundHalfEven. rewrite E.
    destruct (Qcompare_spec (y1 - inject_Z (Qfloor y2)) (1 # 2)) as [C1|C1|C1];
      destruct (Qcompare_spec (y2 - inject_Z (Qfloor y2)) (1 # 2)) as [C2|C2|C2];
      try (destruct (Z.even (Qfloor y2)); lia); try lia; exfalso; lra.
  - pose proof (roundHalfEven_ceil y1). pose proof (roundHalfEven_floor y2). lia.
Qed.

Lemma scaled_bounds x :
  0 < x ->
  2 ^ 52 <= x / 2 ^ (Js.exponent x - 52) /\ x / 2 ^ (Js.exponent x - 52) < 2 ^ 53.
Proof.
  intros Hx. destruct (exponent_spec x Hx) as [L U].
  pose proof (pow2_pos (Js.exponent x - 52)) as Pe.
  assert (2 ^ 52 * 2 ^ (Js.exponent x - 52) == 2 ^ Js.exponent x) as E1.
  { rewrite <- Qpower_plus by done.
    by replace (52 + (Js.exponent x - 52))%Z with (Js.exponent x) by lia. }
  assert (2 ^ 53 * 2 ^ (Js.exponent x - 52) == 2 ^ (Js.exponent x + 1)) as E2.
  { rewrite <- Qpower_plus by done.
    by replace (53 + (Js.exponent x - 52))%Z with (Js.exponent x + 1)%Z by lia. }
  split.
  - apply Qle_shift_div_l; [exact Pe|]. rewrite E1. exact L.
  - apply Qlt_shift_div_r; [exact Pe|]. rewrite E2. exact U.
Qed.

(** A positive number is rounded within its binade. *)
Lemma nearest53_binade x :
  0 < x -> 2 ^ Js.exponent x <= Js.nearest53 x /\ Js.nearest53 x <= 2 ^ (Js.exponent x + 1).
Proof.
  intros Hx. destruct (scaled_bounds x Hx) as [L U]. unfold Js.nearest53.
  set (e := (Js.exponent x - 52)%Z) in *. set (y := x / 2 ^ e) in *.
  pose proof (pow2_pos e) as Pe.
  assert (2 ^ 52 * 2 ^ e == 2 ^ Js.exponent x) as E1.
  { rewrite <- Qpower_plus by done. unfold e.
    by replace (52 + (Js.exponent x - 52))%Z with (Js.exponent x) by lia. }
  assert (2 ^ 53 * 2 ^ e == 2 ^ (Js.exponent x + 1)) as E2.
  { rewrite <- Qpower_plus by done. unfold e.
    by replace (53 + (Js.exponent x - 52))%Z with (Js.exponent x + 1)%Z by lia. }
  assert (2 ^ 52 <= Js.roundHalfEven y)%Z as Lo.
  { etransitivity; [|apply roundHalfEven_floor].
    change (2 ^ 52)%Z with (Qfloor (inject_Z (2 ^ 52))).
    apply Qfloor_resp_le. exact L. }
  assert (Js.roundHalfEven y <= 2 ^ 53)%Z as Hi.
  { etransitivity; [apply roundHalfEven_ceil|].
    assert (Qfloor y < 2 ^ 53)%Z; [|lia].
    destruct (Z.lt_ge_cases (Qfloor y) (2 ^ 53)) as [l|g]; [exact l|exfalso].
    assert (inject_Z (2 ^ 53) <= y) as C.
    { apply Qle_trans with (inject_Z (Qfloor y)); [|apply Qfloor_le].
      by rewrite <- Zle_Qle. }
    change (inject_Z (2 ^ 53)) with (2 ^ 53) in C. lra. }
  rewrite Zle_Qle in Lo, Hi.
  change (inject_Z (2 ^ 52)) with (2 ^ 52) in Lo.
  change (inject_Z (2 ^ 53)) with (2 ^ 53) in Hi.
  revert Lo Hi E1 E2 Pe.
  generalize (inject_Z (Js.roundHalfEven y)) (2 ^ e) (2 ^ Js.exponent x)
    (2 ^ (Js.exponent x + 1)) (2 ^ 52) (2 ^ 53).
  intros m p a b c d Lo Hi E1 E2 Pe. split; nra.
Qed.

Lemma nearest53_mono x y : 0 < x -> x <= y -> Js.nearest53 x <= Js.nearest53 y.
Proof.
  intros Hx H. assert (0 < y) as Hy by lra.
  destruct (exponent_spec x Hx) as [Lx Ux]. destruct (exponent_spec y Hy) as [Ly Uy].
  assert (1 < 2) as T by reflexivity.
  assert (Js.exponent x < Js.exponent y + 1)%Z as Le.
  { apply (Qpower_lt_compat_l_inv 2); [|exact T]. lra. }
  destruct (Z.eq_dec (Js.exponent x) (Js.exponent y)) as [E|N].
  - unfold Js.nearest53. rewrite E.
    pose proof (pow2_pos (Js.exponent y - 52)) as Pe.
    apply Qmult_le_compat_r; [|lra].
    rewrite <- Zle_Qle. apply roundHalfEven_mono.
    apply Qmult_le_compat_r; [exact H|]. apply Qinv_le_0_compat. lra.
  - destruct (nearest53_binade x Hx) as [_ Bx]. destruct (nearest53_binade y Hy) as [By _].
    assert (2 ^ (Js.exponent x + 1) <= 2 ^ Js.exponent y) as P.
    { apply Qpower_le_compat_l; [lia|done]. }
    lra.
Qed.

Lemma double_zero x : x == 0 -> Js.double x = 0.
Proof. intros E. by rewrite (double_comp x 0 E). Qed.

(** Rounding to a double keeps the order of non-negative numbers. *)
Lemma double_mono x y : 0 <= x -> x <= y -> Js.double x <= Js.double y.
Proof.
  intros Hx H. destruct (Qlt_le_dec 0 x) as [Px|Zx].
  - destruct (double_positive x Px) as [-> _].
    destruct (double_positive y) as [-> _]; [lra|]. by apply nearest53_mono.
  - rewrite (double_zero x) by lra. destruct (Qlt_le_dec 0 y) as [Py|Zy].
    + apply Qlt_le_weak. by apply double_sign.
    + rewrite (double_zero y) by lra. lra.
Qed.

End DoubleFacts.

(** ** Relevance ranker *)

Section RankerFacts.
Import Ranker RankerSpec.

Lemma termStep_points entry score term :
  termStep entry score term = score + termPoints entry term.
Proof.
  unfold termStep, termPoints, weight. rewrite categoryName_lower.
  destruct (Js.includes _ term), (Js.includes _ term), (Js.arrayIncludes _ term),
    (Js.includes _ term); lia.
Qed.

Lemma rawScore_points queryLower terms entry :
  rawScore queryLower terms entry = rawPoints queryLower terms entry.
Proof.
  unfold rawScore, rawPoints.
  set (start := if Js.includes _ queryLower then _ else _).
  assert (start = weight (Js.includes (Js.toLowerCase (title entry)) queryLower) 10
                  + weight (Js.includes (Js.toLowerCase (content entry)) queryLower) 5)
    as ->.
  { unfold start, weight. destruct (Js.includes _ queryLower), (Js.includes _ queryLower); lia. }
  generalize (weight (Js.includes (Js.toLowerCase (title entry)) queryLower) 10
              + weight (Js.includes (Js.toLowerCase (content entry)) queryLower) 5).
  induction terms as [|t terms IH]; intros acc; simpl; [lia|].
  rewrite IH, termStep_points. lia.
Qed.

Lemma scoreEntry_final query entry :
  s_score (scoreEntry (Js.toLowerCase query) (queryTerms (Js.toLowerCase query)) entry)
  = finalScore query entry.
Proof. unfold scoreEntry, finalScore. simpl. by rewrite rawScore_points. Qed.

Lemma before_lt y x : before y x = true <-> (s_score x < s_score y)%Q.
Proof.
  unfold before. destruct (s_score x - s_score y ?= 0)%Q eqn:E.
  - apply Qeq_alt in E. split; [discriminate | intros H; lra].
  - apply Qlt_alt in E. split; [intros _; lra | done].
  - apply Qgt_alt in E. split; [discriminate | intros H; lra].
Qed.

Lemma ordered_ge a b : Js.ordered before a b <-> (s_score b <= s_score a)%Q.
Proof.
  unfold Js.ordered. destruct (before b a) eqn:E.
  - apply before_lt in E. split; [discriminate | intros H; lra].
  - split; [|done]. intros _.
    destruct (Qlt_le_dec (s_score a) (s_score b)) as [H|H]; [|done].
    apply before_lt in H. congruence.
Qed.

Lemma before_asym a b : before a b = true -> before b a = false.
Proof.
  intros H. apply before_lt in H. destruct (before b a) eqn:E; [|done].
  apply before_lt in E. lra.
Qed.

Lemma ordered_trans a b c :
  Js.ordered before a b -> Js.ordered before b c -> Js.ordered before a c.
Proof. rewrite !ordered_ge. intros. lra. Qed.

Lemma positive_lt s : positive s = true <-> (0 < s_score s)%Q.
Proof.
  unfold positive. destruct (0 ?= s_score s)%Q eqn:E.
  - apply Qeq_alt in E. split; [discriminate | intros H; lra].
  - by apply Qlt_alt in E.
  - apply Qgt_alt in E. split; [discriminate | intros H; lra].
Qed.

Lemma filter_map_swap {X Y} (f : X -> Y) (p : Y -> bool) (l : list X) :
  List.filter p (map f l) = map f (List.filter (fun x => p (f x)) l).
Proof.
  induction l as [|x l IH]; simpl; [reflexivity|].
  destruct (p (f x)); simpl; by rewrite IH.
Qed.

End RankerFacts.

Section RankerOutput.
Import Ranker RankerSpec.

Lemma isSpace_lowerChar c : Js.isSpace (Js.lowerChar c) = Js.isSpace c.
Proof. destruct c as [[] [] [] [] [] [] [] []]; reflexivity. Qed.

Lemma toLowerCase_append a b :
  Js.toLowerCase (a +:+ b) = Js.toLowerCase a +:+ Js.toLowerCase b.
Proof.
  induction a as [|c a IH]; [reflexivity|].
  rewrite append_cons. simpl. rewrite append_cons. by rewrite IH.
Qed.

Lemma toLowerCase_length s : String.length (Js.toLowerCase s) = String.length s.
Proof. induction s as [|c s IH]; simpl; [reflexivity | by rewrite IH]. Qed.

Lemma splitSpaces_lower inSep cur s :
  Js.splitSpaces inSep (Js.toLowerCase cur) (Js.toLowerCase s)
  = map Js.toLowerCase (Js.splitSpaces inSep cur s).
Proof.
  revert inSep cur. induction s as [|c s IH]; intros inSep cur; simpl; [reflexivity|].
  rewrite isSpace_lowerChar. destruct (Js.isSpace c).
  - destruct inSep; simpl.
    + apply IH.
    + f_equal. apply (IH true "").
  - rewrite <- IH. by rewrite toLowerCase_append.
Qed.

(** Lower-casing the query and splitting it commute: the terms of the
    lower-cased query are the lower-cased terms of the query. *)
Lemma queryTerms_lower query :
  queryTerms (Js.toLowerCase query) = map Js.toLowerCase (queryTerms query).
Proof.
  unfold queryTerms, Js.splitWhitespace.
  change (Js.splitSpaces false "" (Js.toLowerCase query))
    with (Js.splitSpaces false (Js.toLowerCase "") (Js.toLowerCase query)).
  rewrite (splitSpaces_lower false "" query), filter_map_swap.
  f_equal. apply filter_ext. intros t. by rewrite toLowerCase_length.
Qed.

Lemma scored_positive query entries :
  map s_entry
    (List.filter positive
       (map (scoreEntry (Js.toLowerCase query) (queryTerms (Js.toLowerCase query)))
          entries))
  = List.filter (scoresPositive query) entries.
Proof.
  rewrite filter_map_swap, map_map. simpl. rewrite map_id.
  apply filter_ext. intros e. unfold positive, scoresPositive.
  by rewrite scoreEntry_final.
Qed.

Lemma tied_sameScore a b :
  Js.tied before a b = Qeq_bool (s_score a) (s_score b).
Proof.
  unfold Js.tied.
  destruct (before a b) eqn:E1; simpl.
  - apply before_lt in E1. symmetry. apply not_true_is_false. intros H.
    apply Qeq_bool_iff in H. lra.
  - destruct (before b a) eqn:E2; simpl.
    + apply before_lt in E2. symmetry. apply not_true_is_false. intros H.
      apply Qeq_bool_iff in H. lra.
    + symmetry. apply Qeq_bool_iff.
      assert (~ (s_score b < s_score a)%Q) as N1.
      { intros H. apply before_lt in H. congruence. }
      assert (~ (s_score a < s_score b)%Q) as N2.
      { intros H. apply before_lt in H. congruence. }
      lra.
Qed.

Lemma scored_stable query entries e :
  List.filter (sameScore query e)
    (map s_entry
       (Js.sort before
          (List.filter positive
             (map (scoreEntry (Js.toLowerCase query) (queryTerms (Js.toLowerCase query)))
                entries))))
  = List.filter (sameScore query e) (List.filter (scoresPositive query) entries).
Proof.
  set (score := scoreEntry (Js.toLowerCase query) (queryTerms (Js.toLowerCase query))).
  rewrite <- scored_positive. fold score.
  rewrite !(filter_map_swap s_entry). f_equal.
  assert (forall s, In s (List.filter positive (map score entries)) ->
                    sameScore query e (s_entry s) = Js.tied before (score e) s) as T.
  { intros s Hs. apply filter_In in Hs as [Hs _].
    apply in_map_iff in Hs as (e' & <- & _).
    rewrite tied_sameScore. unfold sameScore, score.
    by rewrite !scoreEntry_final. }
  transitivity
    (List.filter (Js.tied before (score e))
       (Js.sort before (List.filter positive (map score entries)))).
  - apply filter_ext_in. intros s Hs. apply T.
    by apply (Permutation_in _ (sort_perm before _)) in Hs.
  - rewrite (sort_stable before ordered_trans (score e)).
    apply filter_ext_in. intros s Hs. symmetry. by apply T.
Qed.

Lemma scored_sorted query entries :
  let ranked :=
    Js.sort before
      (List.filter positive
         (map (scoreEntry (Js.toLowerCase query) (queryTerms (Js.toLowerCase query)))
            entries)) in
  Forall (fun s => s_score s = finalScore query (s_entry s)) ranked /\
  StronglySorted (fun a b => (s_score b <= s_score a)%Q) ranked.
Proof.
  intros ranked. split.
  - apply Forall_forall. intros s Hs. apply list_elem_of_In in Hs.
    apply (Permutation_in _ (sort_perm before _)) in Hs.
    apply filter_In in Hs as [Hs _]. apply in_map_iff in Hs as (e & <- & _).
    apply scoreEntry_final.
  - apply (sorted_weaken (fun _ => True) (Js.ordered before)).
    + apply Forall_forall. done.
    + intros a b _ _ H. by apply ordered_ge.
    + apply (sort_sorted before before_asym ordered_trans).
Qed.

End RankerOutput.

(** C5. A query without a term longer than 2 characters gives the first
    [limit] entries in their order, unscored.  Otherwise the raw score of
    an entry is 10 and 5 for the whole lower-cased query in title and
    content plus, per term, 3 (title), 1 (content), 4 (equals a tag,
    ignoring case) and 2 (inside the category name); the final score is the
    raw score times the confidence, the product of two doubles; the result
    is the first [limit] items of the entries with a positive final score,
    sorted by descending final score, entries of equal score in their
    input order; this is stated for scores that are finite doubles.
    [includes] is the substring test. *)
Theorem C5_find_relevant_entries (query : string)
    (entries : list KnowledgeEntry) (limit : nat) :
  let queryLower := Js.toLowerCase query in
  let terms := Ranker.queryTerms queryLower in
  terms = map Js.toLowerCase
            (List.filter (fun t => (2 <? String.length t)%nat)
               (Js.splitWhitespace query)) /\
  (forall s sub, Js.includes s sub = true <-> RankerSpec.contains s sub) /\
  (forall e, Ranker.rawScore queryLower terms e
             = RankerSpec.rawPoints queryLower terms e) /\
  (terms = [] ->
   Ranker.findRelevantEntries query entries limit = firstn limit entries) /\
  (terms <> [] ->
   RankerSpec.finiteScores query entries ->
   exists ranked,
     Ranker.findRelevantEntries query entries limit = firstn limit ranked /\
     ranked ≡ₚ List.filter (RankerSpec.scoresPositive query) entries /\
     StronglySorted
       (fun a b => (RankerSpec.finalScore query b <= RankerSpec.finalScore query a)%Q)
       ranked /\
     (forall e,
         List.filter (RankerSpec.sameScore query e) ranked
         = List.filter (RankerSpec.sameScore query e)
             (List.filter (RankerSpec.scoresPositive query) entries))).
Proof.
  intros queryLower terms.
  split; [apply queryTerms_lower|].
  split; [apply includes_contains|].
  split; [intros e; apply rawScore_points|].
  unfold Ranker.findRelevantEntries. fold queryLower. fold terms. split.
  - intros ->. reflexivity.
  - intros Hne _. destruct terms as [|t terms'] eqn:E; [done|]. simpl Nat.eqb. cbv iota.
    rewrite <- E. unfold terms, queryLower.
    eexists. split.
    + unfold Js.slice0. rewrite <- firstn_map. reflexivity.
    + split; [|split].
      3:{ intros e. apply scored_stable. }
      * rewrite (Permutation_map _ (sort_perm Ranker.before _)).
        by rewrite scored_positive.
      * destruct (scored_sorted query entries) as [Hs Hsorted].
        apply (sorted_map Ranker.s_entry
                 (fun s => Ranker.s_score s
                           = RankerSpec.finalScore query (Ranker.s_entry s))
                 (fun a b => (Ranker.s_score b <= Ranker.s_score a)%Q));
          [exact Hs | | exact Hsorted].
        intros a b Ha Hb H. by rewrite <- Ha, <- Hb.
Qed.

(** C6. For a query with at least one term (so that entries are scored),
    take two entries that differ in confidence only, one with confidence
    1.0 and one with confidence 0.5, both with the positive raw score [S]:
    wherever both occur in the result, the one with confidence 1.0 stands
    before the one with confidence 0.5; and when the latter occurs in the
    result and the former is among the entries, the former occurs too. *)
Theorem C6_confidence_monotone (query : string)
    (entries : list KnowledgeEntry) (limit : nat)
    (hi lo : KnowledgeEntry) (S : Z) :
  let queryLower := Js.toLowerCase query in
  let terms := Ranker.queryTerms queryLower in
  let result := Ranker.findRelevantEntries query entries limit in
  terms <> [] ->
  sameButConfidence hi lo ->
  (confidence hi == 1)%Q -> (confidence lo == 1 # 2)%Q ->
  Ranker.rawScore queryLower terms hi = S ->
  Ranker.rawScore queryLower terms lo = S ->
  0 < S ->
  (forall i j,
      nth_error result i = Some hi -> nth_error result j = Some lo -> (i < j)%nat) /\
  (In hi entries ->
   forall j, nth_error result j = Some lo ->
             exists i, (i < j)%nat /\ nth_error result i = Some hi).
Proof.
  intros queryLower terms result Hne _ Chi Clo Shi Slo Spos.
  unfold result, Ranker.findRelevantEntries.
  fold queryLower. fold terms.
  destruct terms as [|t terms'] eqn:E; [done|]. simpl Nat.eqb. cbv iota.
  rewrite <- E in *. clear E. unfold terms, queryLower.
  destruct (scored_sorted query entries) as [Hs Hsorted].
  set (score := Ranker.scoreEntry (Js.toLowerCase query)
                  (Ranker.queryTerms (Js.toLowerCase query))) in *.
  set (ranked := Js.sort Ranker.before _) in *.
  rewrite Forall_forall in Hs.
  assert (0 < inject_Z S)%Q as SposQ.
  { change 0%Q with (inject_Z 0). by rewrite <- Zlt_Qlt. }
  assert (0 < Js.double (inject_Z S))%Q as Dpos by (by apply double_sign).
  assert (RankerSpec.finalScore query hi = Js.double (inject_Z S)) as Fhi.
  { unfold RankerSpec.finalScore. cbv zeta. rewrite <- rawScore_points.
    fold queryLower. fold terms. rewrite Shi.
    rewrite (double_comp (confidence hi) 1 Chi).
    change (Js.double 1) with 1%Q. apply double_comp. ring. }
  assert (RankerSpec.finalScore query lo == Js.double (inject_Z S) * (1 # 2))%Q as Flo.
  { unfold RankerSpec.finalScore. cbv zeta. rewrite <- rawScore_points.
    fold queryLower. fold terms. rewrite Slo.
    rewrite (double_comp (confidence lo) (1 # 2) Clo).
    change (Js.double (1 # 2)) with (1 # 2)%Q. by apply double_half. }
  assert (forall s, In s ranked -> Ranker.s_entry s = hi ->
                    (Ranker.s_score s == Js.double (inject_Z S))%Q) as Vhi.
  { intros s Hin Hentry. rewrite (Hs s) by (by apply list_elem_of_In).
    by rewrite Hentry, Fhi. }
  assert (forall s, In s ranked -> Ranker.s_entry s = lo ->
                    (Ranker.s_score s == Js.double (inject_Z S) * (1 # 2))%Q) as Vlo.
  { intros s Hin Hentry. rewrite (Hs s) by (by apply list_elem_of_In).
    by rewrite Hentry. }
  assert (forall k e,
             nth_error (map Ranker.s_entry (Js.slice0 ranked limit)) k = Some e <->
             (k < limit)%nat /\
             exists s, nth_error ranked k = Some s /\ Ranker.s_entry s = e) as Hout.
  { intros k e. rewrite nth_error_map. unfold Js.slice0. rewrite nth_error_firstn.
    destruct (k <? limit)%nat eqn:L.
    - apply Nat.ltb_lt in L. destruct (nth_error ranked k) as [s|]; simpl.
      + split.
        * intros [= <-]. eauto.
        * intros (_ & s' & [= <-] & <-). reflexivity.
      + split; [discriminate | intros (_ & s' & H & _); discriminate].
    - apply Nat.ltb_ge in L. simpl. split; [discriminate | intros [H _]; lia]. }
  assert (forall i j si sj,
             nth_error ranked i = Some si -> Ranker.s_entry si = hi ->
             nth_error ranked j = Some sj -> Ranker.s_entry sj = lo ->
             (i < j)%nat) as Horder.
  { intros i j si sj Ni Ei Nj Ej.
    pose proof (Vhi si (nth_error_In _ _ Ni) Ei) as Vi.
    pose proof (Vlo sj (nth_error_In _ _ Nj) Ej) as Vj.
    destruct (Nat.lt_trichotomy i j) as [Hlt|[Heq|Hgt]]; [exact Hlt| |].
    - exfalso. subst j. rewrite Ni in Nj. injection Nj as ->.
      rewrite Vi in Vj. lra.
    - exfalso. pose proof (sorted_nth _ _ _ _ _ _ Hsorted Hgt Nj Ni) as H.
      simpl in H. rewrite Vi, Vj in H. lra. }
  split.
  - intros i j Hi Hj.
    apply Hout in Hi as (_ & si & Ni & Ei). apply Hout in Hj as (_ & sj & Nj & Ej).
    by apply (Horder i j si sj).
  - intros Hin j Hj. apply Hout in Hj as (Lj & sj & Nj & Ej).
    assert (In (score hi) ranked) as Hranked.
    { apply (Permutation_in _ (Permutation_sym (sort_perm Ranker.before _))).
      apply filter_In. split; [by apply in_map|].
      apply positive_lt. unfold score. by rewrite scoreEntry_final, Fhi. }
    apply In_nth_error in Hranked as (i & Ni).
    pose proof (Horder i j (score hi) sj Ni eq_refl Nj Ej) as Hij.
    exists i. split; [exact Hij|]. apply Hout. split; [lia|]. eauto.
Qed.

(** "authentication" against two entries titled "Authentication Flow":
    the raw score is 13 for both; the one with confidence 1 comes first. *)
Lemma C6_confidence_monotone_witness :
  Ranker.findRelevantEntries "authentication" [Sample.flowHalf; Sample.flowSure] 10
    = [Sample.flowSure; Sample.flowHalf] /\
  (exists i, (i < 1)%nat /\
     nth_error
       (Ranker.findRelevantEntries "authentication" [Sample.flowHalf; Sample.flowSure] 10)
       i = Some Sample.flowSure).
Proof.
  split; [vm_compute; reflexivity|].
  assert (Ranker.queryTerms (Js.toLowerCase "authentication") <> []) as Hne
    by (vm_compute; discriminate).
  assert (sameButConfidence Sample.flowSure Sample.flowHalf) as Hsame
    by (repeat split).
  assert (confidence Sample.flowSure == 1)%Q as Chi by reflexivity.
  assert (confidence Sample.flowHalf == 1 # 2)%Q as Clo by reflexivity.
  assert (Ranker.rawScore (Js.toLowerCase "authentication")
            (Ranker.queryTerms (Js.toLowerCase "authentication")) Sample.flowSure = 13)
    as Shi by (vm_compute; reflexivity).
  assert (Ranker.rawScore (Js.toLowerCase "authentication")
            (Ranker.queryTerms (Js.toLowerCase "authentication")) Sample.flowHalf = 13)
    as Slo by (vm_compute; reflexivity).
  assert (0 < 13) as Spos by lia.
  destruct (C6_confidence_monotone "authentication" [Sample.flowHalf; Sample.flowSure] 10
              Sample.flowSure Sample.flowHalf 13 Hne Hsame Chi Clo Shi Slo Spos)
    as [_ H].
  apply H.
  - simpl. tauto.
  - vm_compute. reflexivity.
Defined.

(** ** Feedback analyzer: weak areas *)

Section AnalyzerFacts.
Import Analyzer AnalyzerSpec.

Lemma rate_fold fbs stats :
  st_total (fold_left rate fbs stats) = (st_total stats + List.length fbs)%nat /\
  st_negative (fold_left rate fbs stats)
    = (st_negative stats + List.length (List.filter isNegative fbs))%nat.
Proof.
  revert stats. induction fbs as [|fb fbs IH]; intros stats; simpl; [lia|].
  destruct (IH (rate stats fb)) as [-> ->]. unfold rate, isNegative. simpl.
  destruct (rating fb); simpl; lia.
Qed.

Lemma recordTerm_counts question fbs topicStats term t :
  let before := default noStats (Js.mapGet String.eqb topicStats t) in
  let after :=
    default noStats (Js.mapGet String.eqb (recordTerm question fbs topicStats term) t) in
  let n := if String.eqb t term then 1%nat else 0%nat in
  st_total after = (st_total before + n * List.length fbs)%nat /\
  st_negative after
    = (st_negative before + n * List.length (List.filter isNegative fbs))%nat.
Proof.
  intros before after n. unfold after, recordTerm.
  rewrite (mapGet_mapSet _ string_eqb_spec). unfold n.
  rewrite (String.eqb_sym t term).
  destruct (String.eqb term t) eqn:E.
  - apply String.eqb_eq in E. subst term. fold before.
    destruct (rate_fold fbs before) as [T N].
    destruct (negb _ && _); simpl; rewrite T, N; lia.
  - fold before. lia.
Qed.

Lemma recordTerms_counts question fbs terms topicStats t :
  let before := default noStats (Js.mapGet String.eqb topicStats t) in
  let after :=
    default noStats
      (Js.mapGet String.eqb (fold_left (recordTerm question fbs) terms topicStats) t) in
  let n := List.length (List.filter (String.eqb t) terms) in
  st_total after = (st_total before + n * List.length fbs)%nat /\
  st_negative after
    = (st_negative before + n * List.length (List.filter isNegative fbs))%nat.
Proof.
  revert topicStats. induction terms as [|term terms IH]; intros topicStats; simpl.
  - lia.
  - destruct (IH (recordTerm question fbs topicStats term)) as [T N].
    destruct (recordTerm_counts question fbs topicStats term t) as [T0 N0].
    rewrite T, N, T0, N0. destruct (String.eqb t term); simpl; lia.
Qed.

Lemma topic_counts (questionFeedback : list (string * list Feedback)) topicStats t :
  let before := default noStats (Js.mapGet String.eqb topicStats t) in
  let after :=
    default noStats
      (Js.mapGet String.eqb
         (fold_left
            (fun topicStats qf =>
               fold_left (recordTerm (fst qf) (snd qf))
                 (Js.slice0 (tokenize (fst qf)) 3) topicStats)
            questionFeedback topicStats) t) in
  st_total after = (st_total before + countedTotal questionFeedback t)%nat /\
  st_negative after = (st_negative before + countedNegative questionFeedback t)%nat.
Proof.
  revert topicStats.
  induction questionFeedback as [|qf rest IH]; intros topicStats; [simpl; lia|].
  cbn [fold_left]. cbv zeta.
  unfold countedTotal, countedNegative. cbn [fold_right].
  fold (countedTotal rest t). fold (countedNegative rest t).
  destruct (IH (fold_left (recordTerm (fst qf) (snd qf))
                  (Js.slice0 (tokenize (fst qf)) 3) topicStats)) as [T N].
  destruct (recordTerms_counts (fst qf) (snd qf) (Js.slice0 (tokenize (fst qf)) 3)
              topicStats t) as [T0 N0].
  rewrite T, N, T0, N0. unfold occurrences, Js.slice0. lia.
Qed.

Lemma recordTerm_NoDup question fbs topicStats term :
  NoDup (map fst topicStats) ->
  NoDup (map fst (recordTerm question fbs topicStats term)).
Proof. intros ND. unfold recordTerm. by apply (mapSet_NoDup _ string_eqb_spec). Qed.

Lemma topicStatistics_NoDup getTime feedbackHistory sessions :
  NoDup (map fst (topicStatistics getTime feedbackHistory sessions)).
Proof.
  unfold topicStatistics.
  generalize (matchFeedbackToQuestions getTime feedbackHistory sessions).
  intros qfs.
  assert (NoDup (map fst ([] : list (string * Stats)))) as ND by constructor.
  revert ND. generalize ([] : list (string * Stats)).
  induction qfs as [|qf qfs IH]; intros ts ND; cbn [fold_left]; [done|].
  apply IH. clear IH.
  generalize (Js.slice0 (tokenize (fst qf)) 3). intros terms. revert ts ND.
  induction terms as [|term terms IH]; intros ts ND; cbn [fold_left]; [done|].
  apply IH. by apply recordTerm_NoDup.
Qed.

Lemma isWeak_spec stats :
  isWeak stats = true <->
  (2 <= st_total stats)%nat /\
  (4 # 10 <= ratio (st_negative stats) (st_total stats))%Q.
Proof.
  unfold isWeak, ratio. rewrite andb_true_iff, Nat.leb_le, Qle_bool_iff. tauto.
Qed.

Lemma moreNegative_asym a b : moreNegative a b = true -> moreNegative b a = false.
Proof.
  unfold moreNegative. rewrite Nat.ltb_lt, Nat.ltb_ge. lia.
Qed.

Lemma moreNegative_trans a b c :
  Js.ordered moreNegative a b -> Js.ordered moreNegative b c ->
  Js.ordered moreNegative a c.
Proof.
  unfold Js.ordered, moreNegative. rewrite !Nat.ltb_ge. lia.
Qed.

End AnalyzerFacts.

(** What [identifyWeakAreas] reports, in terms of the counts it
    accumulates: a topic is reported if and only if its accumulated total
    is at least 2 and its accumulated negatives divided by that total are
    at least 0.4; the reported counts are the accumulated ones; the areas
    are sorted by descending negative count. *)
Theorem weak_areas_by_counted_ratings (getTime : string -> option Z)
    (feedbackHistory : list Feedback) (sessions : list Session) :
  let questionFeedback :=
    Analyzer.matchFeedbackToQuestions getTime feedbackHistory sessions in
  let total := AnalyzerSpec.countedTotal questionFeedback in
  let negatives := AnalyzerSpec.countedNegative questionFeedback in
  let areas := Analyzer.identifyWeakAreas getTime feedbackHistory sessions in
  (forall t,
      AnalyzerSpec.reported areas t <->
      (2 <= total t)%nat /\
      (4 # 10 <= AnalyzerSpec.ratio (negatives t) (total t))%Q) /\
  (forall area,
      In area areas ->
      Analyzer.negativeCount area = negatives (Analyzer.topic area) /\
      Analyzer.totalCount area = total (Analyzer.topic area)) /\
  StronglySorted
    (fun a b => (Analyzer.negativeCount b <= Analyzer.negativeCount a)%nat) areas /\
  (forall t, negatives t = 1%nat -> total t = 2%nat -> AnalyzerSpec.reported areas t) /\
  (forall t, negatives t = 1%nat -> total t = 1%nat -> ~ AnalyzerSpec.reported areas t).
Proof.
  intros questionFeedback total negatives areas.
  set (stats := Analyzer.topicStatistics getTime feedbackHistory sessions).
  assert (forall t,
             Analyzer.st_total (default Analyzer.noStats (Js.mapGet String.eqb stats t))
               = total t /\
             Analyzer.st_negative (default Analyzer.noStats (Js.mapGet String.eqb stats t))
               = negatives t) as Hcounts.
  { intros t. exact (topic_counts questionFeedback [] t). }
  assert (forall area,
             In area areas <->
             exists st, Js.mapGet String.eqb stats (Analyzer.topic area) = Some st /\
                        Analyzer.isWeak st = true /\
                        area = Analyzer.toWeakArea (Analyzer.topic area, st)) as Hin.
  { intros area. unfold areas, Analyzer.identifyWeakAreas. fold stats. split.
    - intros H. apply (Permutation_in _ (sort_perm Analyzer.moreNegative _)) in H.
      apply in_map_iff in H as ([t st] & <- & H). apply filter_In in H as [H W].
      simpl in *. exists st. split; [|done].
      apply (In_mapGet _ string_eqb_spec); [apply topicStatistics_NoDup | exact H].
    - intros (st & G & W & ->).
      apply (Permutation_in _ (Permutation_sym (sort_perm Analyzer.moreNegative _))).
      apply in_map_iff. exists (Analyzer.topic area, st). split; [done|].
      apply filter_In. split; [|done]. by apply (mapGet_In _ string_eqb_spec). }
  assert (forall t,
             AnalyzerSpec.reported areas t <->
             (2 <= total t)%nat /\
             (4 # 10 <= AnalyzerSpec.ratio (negatives t) (total t))%Q) as Hiff.
  { intros t. destruct (Hcounts t) as [T N]. rewrite <- T, <- N, <- isWeak_spec. split.
    - intros (area & Ha & <-). apply Hin in Ha as (st & G & W & _). by rewrite G.
    - intros W. destruct (Js.mapGet String.eqb stats t) as [st|] eqn:G;
        [|discriminate W].
      exists (Analyzer.toWeakArea (t, st)). split; [|reflexivity].
      apply Hin. simpl. by exists st. }
  split; [exact Hiff|]. split; [|split; [|split]].
  - intros area Ha. apply Hin in Ha as (st & G & _ & E).
    destruct (Hcounts (Analyzer.topic area)) as [T N]. rewrite G in T, N. simpl in T, N.
    rewrite E. simpl. by rewrite T, N.
  - apply (sorted_weaken (fun _ => True) (Js.ordered Analyzer.moreNegative)).
    + apply Forall_forall. done.
    + intros a b _ _ H. unfold Js.ordered, Analyzer.moreNegative in H.
      by apply Nat.ltb_ge in H.
    + apply (sort_sorted _ moreNegative_asym moreNegative_trans).
  - intros t N T. apply Hiff. rewrite N, T. split; [lia|]. vm_compute. discriminate.
  - intros t N T R. apply Hiff in R. lia.
Qed.

(** In [Sample.ratedSession] the topic "deployment" has 1 negative out of
    2 ratings and is reported. *)
Lemma weak_areas_by_counted_ratings_witness :
  AnalyzerSpec.reported
    (Analyzer.identifyWeakAreas (fun _ => None) [] [Sample.ratedSession]) "deployment".
Proof.
  destruct (weak_areas_by_counted_ratings (fun _ => None) [] [Sample.ratedSession])
    as (_ & _ & _ & H & _).
  apply H; vm_compute; reflexivity.
Defined.

Section RatingsFacts.
Import Analyzer AnalyzerSpec.

Lemma occurrences_distinct t question :
  NoDup (firstn 3 (tokenize question)) ->
  occurrences t question = if hasTopic t question then 1%nat else 0%nat.
Proof.
  unfold occurrences, hasTopic. generalize (firstn 3 (tokenize question)).
  intros l. induction l as [|x l IH]; intros ND; [reflexivity|].
  apply NoDup_cons in ND as [Nx ND]. cbn [List.filter existsb].
  destruct (String.eqb_spec t x) as [->|Ne]; cbn [orb length].
  - rewrite (IH ND). destruct (existsb (String.eqb x) l) eqn:E; [|reflexivity].
    apply existsb_exists in E as (y & Hy & E). apply String.eqb_eq in E. subst y.
    destruct Nx. by apply list_elem_of_In.
  - by apply IH.
Qed.

(** When no question repeats a word among its first three tokens, the
    accumulated counts are the ratings. *)
Lemma counted_ratings_distinct (questionFeedback : list (string * list Feedback)) t :
  Forall (fun qf => NoDup (firstn 3 (tokenize (fst qf)))) questionFeedback ->
  countedTotal questionFeedback t = totalRatings questionFeedback t /\
  countedNegative questionFeedback t = negativeRatings questionFeedback t.
Proof.
  unfold totalRatings, negativeRatings, ratingsOf.
  induction 1 as [|qf rest ND _ [IHt IHn]]; [done|].
  cbn [countedTotal countedNegative fold_right flat_map].
  fold (countedTotal rest t). fold (countedNegative rest t).
  rewrite List.filter_app, !length_app, IHt, IHn, (occurrences_distinct _ _ ND).
  destruct (hasTopic t (fst qf)); simpl; lia.
Qed.

End RatingsFacts.

(** C8 (failing input).  One question, "cache cache invalidation", with one
    negative rating: the topic "cache" has 1 negative out of 1 rating, too
    few for a weak area; [identifyWeakAreas] counts the rating once for
    each of the two occurrences of the word among the first three tokens
    and reports "cache" with 2 negatives out of 2.  The sibling
    [buildTermFrequency] counts a term once per question. *)
Theorem C8_repeated_term_counted_twice :
  let questionFeedback :=
    Analyzer.matchFeedbackToQuestions (fun _ => None) [] [Sample.repeatedTerm] in
  questionFeedback
  = [("cache cache invalidation",
      [{| rating := negative; comment := None; fb_timestamp := ""; messageId := None |}])] /\
  AnalyzerSpec.totalRatings questionFeedback "cache" = 1%nat /\
  AnalyzerSpec.negativeRatings questionFeedback "cache" = 1%nat /\
  Analyzer.identifyWeakAreas (fun _ => None) [] [Sample.repeatedTerm]
  = [ {| Analyzer.topic := "cache"; Analyzer.negativeCount := 2;
         Analyzer.totalCount := 2;
         Analyzer.sampleQuestions := ["cache cache invalidation"] |} ].
Proof. vm_compute. repeat split. Qed.

(** ** Q&A response parser *)

Section ParserFacts.
Import QA QASpec.

Lemma length_append (a b : string) :
  String.length (a +:+ b) = (String.length a + String.length b)%nat.
Proof.
  induction a as [|c a IH]; [reflexivity|]. rewrite append_cons. simpl. by rewrite IH.
Qed.

Lemma exec_none {A} (f : string -> option A) s :
  exec f s = None <-> forall pre suf, s = pre +:+ suf -> f suf = None.
Proof.
  induction s as [|c s IH]; cbn [exec].
  - split.
    + intros H pre suf E. destruct pre; [|discriminate].
      rewrite append_nil in E. subst suf. by destruct (f "").
    + intros H. by rewrite (H "" "" eq_refl).
  - split.
    + intros H pre suf E. destruct (f (String c s)) eqn:F; [discriminate|].
      destruct pre as [|c' pre].
      * rewrite append_nil in E. by subst suf.
      * rewrite append_cons in E. injection E as -> ->.
        apply (proj1 IH H pre suf eq_refl).
    + intros H. rewrite (H "" (String c s) eq_refl).
      apply IH. intros pre suf ->. apply (H (String c pre) suf). by rewrite append_cons.
Qed.

Lemma exec_first {A} (f : string -> option A) pre suf r :
  f suf = Some r ->
  (forall p1 p2, pre = p1 +:+ p2 -> p2 <> "" -> f (p2 +:+ suf) = None) ->
  exec f (pre +:+ suf) = Some r.
Proof.
  induction pre as [|c pre IH]; intros F H.
  - rewrite append_nil. destruct suf; cbn [exec]; by rewrite F.
  - rewrite append_cons. cbn [exec]. rewrite <- append_cons.
    rewrite (H "" (String c pre) eq_refl) by discriminate.
    apply IH; [exact F|]. intros p1 p2 -> N. apply (H (String c p1) p2); [|exact N].
    by rewrite append_cons.
Qed.

Lemma toLowerCase_nil s : Js.toLowerCase s = "" -> s = "".
Proof. destruct s; [done | discriminate]. Qed.

Lemma literalCI_sound lit s m rest :
  literalCI lit s = Some (m, rest) -> s = m +:+ rest /\ sameLetters m lit.
Proof.
  revert s m rest. induction lit as [|a lit IH]; intros s m rest; cbn [literalCI].
  - intros [= <- <-]. done.
  - destruct s as [|b s]; [discriminate|].
    destruct (Ascii.eqb (Js.lowerChar a) (Js.lowerChar b)) eqn:E; [|discriminate].
    destruct (literalCI lit s) as [[m' rest']|] eqn:L; [|discriminate].
    intros [= <- <-]. destruct (IH _ _ _ L) as [-> S]. split; [reflexivity|].
    unfold sameLetters in *. simpl. apply Ascii.eqb_eq in E. by rewrite S, E.
Qed.

Lemma literalCI_complete lit m rest :
  sameLetters m lit -> literalCI lit (m +:+ rest) = Some (m, rest).
Proof.
  revert m. induction lit as [|a lit IH]; intros m S; unfold sameLetters in S.
  - apply toLowerCase_nil in S. subst m. reflexivity.
  - destruct m as [|b m]; [discriminate|]. simpl in S. injection S as Hc Hs.
    rewrite append_cons. cbn [literalCI]. rewrite Hc, Ascii.eqb_refl.
    by rewrite (IH m Hs).
Qed.

Lemma spacesThen_sound {A} (k : string -> option A) s r :
  spacesThen s k = Some r ->
  exists w rest, s = w +:+ rest /\ allSpaces w = true /\ k rest = Some r.
Proof.
  induction s as [|c s IH]; cbn [spacesThen]; intros H.
  - by exists "", "".
  - destruct (Js.isSpace c) eqn:Sp; [|by exists "", (String c s)].
    destruct (spacesThen s k) as [r'|] eqn:E.
    + injection H as ->. destruct (IH eq_refl) as (w & rest & -> & W & K).
      exists (String c w), rest. rewrite append_cons. simpl. by rewrite Sp, W.
    + by exists "", (String c s).
Qed.

Lemma spacesThen_greedy {A} (k : string -> option A) w rest r :
  allSpaces w = true -> startsBlank rest = false -> k rest = Some r ->
  spacesThen (w +:+ rest) k = Some r.
Proof.
  intros W B K. induction w as [|c w IH].
  - rewrite append_nil. destruct rest as [|c rest]; cbn [spacesThen]; [done|].
    simpl in B. by rewrite B.
  - simpl in W. apply andb_true_iff in W as [Sp W].
    rewrite append_cons. cbn [spacesThen]. by rewrite Sp, (IH W).
Qed.

Lemma letter_not_space (c : ascii) (l : ascii) :
  In l ["l"; "m"; "h"]%char -> Js.lowerChar c = l -> Js.isSpace c = false.
Proof.
  intros Hl E. destruct (Js.isSpace c) eqn:Sp; [|done]. exfalso.
  assert (Js.lowerChar c = c) as Hc.
  { revert Sp. clear. destruct c as [[] [] [] [] [] [] [] []]; vm_compute; congruence. }
  rewrite Hc in E. subst c. simpl in Hl.
  destruct Hl as [<-|[<-|[<-|[]]]]; vm_compute in Sp; discriminate.
Qed.

Lemma isLevel_shape group :
  isLevel group -> group <> "" /\ startsBlank group = false.
Proof.
  intros L. destruct group as [|c group].
  - destruct L as [L|[L|L]]; discriminate L.
  - split; [discriminate|]. simpl.
    destruct L as [L|[L|L]]; unfold sameLetters in L; simpl in L; injection L as Hc _.
    + apply (letter_not_space c "l"); simpl; auto.
    + apply (letter_not_space c "m"); simpl; auto.
    + apply (letter_not_space c "h"); simpl; auto.
Qed.

Lemma levelGroup_sound s group :
  levelGroup s = Some group -> exists post, s = group +:+ post /\ isLevel group.
Proof.
  unfold levelGroup, isLevel.
  destruct (literalCI "low" s) as [[m rest]|] eqn:L1.
  { intros [= <-]. apply literalCI_sound in L1 as [-> S]. eauto. }
  destruct (literalCI "medium" s) as [[m rest]|] eqn:L2.
  { intros [= <-]. apply literalCI_sound in L2 as [-> S]. eauto. }
  destruct (literalCI "high" s) as [[m rest]|] eqn:L3; [|discriminate].
  intros [= <-]. apply literalCI_sound in L3 as [-> S]. eauto.
Qed.

Lemma literalCI_head_mismatch a lit b s :
  Js.lowerChar a <> Js.lowerChar b -> literalCI (String a lit) (String b s) = None.
Proof.
  intros N. cbn [literalCI].
  destruct (Ascii.eqb (Js.lowerChar a) (Js.lowerChar b)) eqn:E; [|done].
  apply Ascii.eqb_eq in E. done.
Qed.

(** A level whose first letter is [l] does not match a literal that
    starts with another letter. *)
Ltac other_letter L post :=
  match type of L with
  | sameLetters ?group _ =>
      destruct group as [|? ?]; [discriminate L|];
      unfold sameLetters in L; simpl in L;
      let Hc := fresh "Hc" in
      injection L as Hc _;
      rewrite append_cons; apply literalCI_head_mismatch; rewrite Hc;
      vm_compute; discriminate
  end.

Lemma levelGroup_complete group post :
  isLevel group -> levelGroup (group +:+ post) = Some group.
Proof.
  intros L. unfold levelGroup. destruct L as [L|[L|L]].
  - by rewrite (literalCI_complete _ _ post L).
  - assert (literalCI "low" (group +:+ post) = None) as -> by other_letter L post.
    by rewrite (literalCI_complete _ _ post L).
  - assert (literalCI "low" (group +:+ post) = None) as -> by other_letter L post.
    assert (literalCI "medium" (group +:+ post) = None) as -> by other_letter L post.
    by rewrite (literalCI_complete _ _ post L).
Qed.

Lemma confidencePattern_sound s group :
  confidencePattern s = Some group -> confidenceMarkerAt s "" group.
Proof.
  unfold confidencePattern, confidenceMarkerAt.
  destruct (literalCI "CONFIDENCE:" s) as [[m rest]|] eqn:L; [|discriminate].
  intros H. apply literalCI_sound in L as [-> S].
  apply spacesThen_sound in H as (w & rest' & -> & W & K).
  apply levelGroup_sound in K as (post & -> & Lv).
  exists m, w, post. by rewrite append_nil.
Qed.

Lemma confidencePattern_complete m w group post :
  sameLetters m "CONFIDENCE:" -> allSpaces w = true -> isLevel group ->
  confidencePattern (m +:+ w +:+ group +:+ post) = Some group.
Proof.
  intros S W L. unfold confidencePattern. rewrite (literalCI_complete _ _ _ S).
  apply spacesThen_greedy; [exact W| |by apply levelGroup_complete].
  destruct (isLevel_shape group L) as [N B].
  destruct group; [done|]. by rewrite append_cons.
Qed.

End ParserFacts.

Section FollowUpFacts.
Import QA QASpec.

Lemma lineHead_line group post :
  oneLine group = true -> lineEnds post = true -> lineHead (group +:+ post) = group.
Proof.
  intros O E. induction group as [|c group IH].
  - rewrite append_nil. destruct post as [|c post]; [reflexivity|].
    simpl in E. simpl. by rewrite E.
  - simpl in O. apply andb_true_iff in O as [T O]. apply negb_true_iff in T.
    rewrite append_cons. simpl. by rewrite T, (IH O).
Qed.

Lemma followUpsPattern_mention s group :
  followUpsPattern s = Some group -> followUpsAt s "".
Proof.
  unfold followUpsPattern, followUpsAt.
  destruct (literalCI "FOLLOW_UPS:" s) as [[m rest]|] eqn:L; [|discriminate].
  intros _. apply literalCI_sound in L as [-> S]. exists m, rest.
  by rewrite append_nil.
Qed.

Lemma followUpsPattern_complete m w group post :
  sameLetters m "FOLLOW_UPS:" -> allSpaces w = true ->
  group <> "" -> startsBlank group = false -> oneLine group = true ->
  lineEnds post = true ->
  followUpsPattern (m +:+ w +:+ group +:+ post) = Some group.
Proof.
  intros S W N B O E. unfold followUpsPattern. rewrite (literalCI_complete _ _ _ S).
  apply spacesThen_greedy; [exact W| |].
  - destruct group; [done|]. by rewrite append_cons.
  - unfold restOfLine. rewrite (lineHead_line _ _ O E). by destruct group.
Qed.

Lemma nonempty_filter (l : list string) :
  List.filter (fun q => (0 <? String.length q)%nat) l
  = List.filter (fun q => negb (String.eqb q "")) l.
Proof. apply filter_ext. intros q. by destruct q. Qed.

End FollowUpFacts.

(** C9 (as amended).  When the text CONFIDENCE: followed by optional white
    space and low, medium or high occurs nowhere in the response (letter
    case ignored), the parser gives the default confidence 0.5; when the
    text FOLLOW_UPS: occurs nowhere, it gives no follow-up questions.
    When the first occurrence of the CONFIDENCE marker starts a line, its
    level decides the confidence (low 0.3, medium 0.6, high 0.9); when
    the first occurrence of FOLLOW_UPS: starts a line, the text that
    follows it after optional white space, up to the end of its line,
    split at the pipes, trimmed and without the empty pieces, gives the
    follow-up questions. *)
Theorem C9_marker_fallbacks (response : string) :
  (~ QASpec.hasConfidenceMarker response ->
   QA.parseConfidence response = 5 # 10) /\
  (forall pre group,
      QASpec.confidenceMarkerAt response pre group ->
      QASpec.atLineStart pre = true ->
      (forall pre' group',
          QASpec.confidenceMarkerAt response pre' group' ->
          (String.length pre <= String.length pre')%nat) ->
      (QASpec.sameLetters group "low" -> QA.parseConfidence response = 3 # 10) /\
      (QASpec.sameLetters group "medium" -> QA.parseConfidence response = 6 # 10) /\
      (QASpec.sameLetters group "high" -> QA.parseConfidence response = 9 # 10)) /\
  (~ (exists pre, QASpec.followUpsAt response pre) ->
   QA.parseFollowUps response = []) /\
  (forall pre group,
      QASpec.followUpsMarkerAt response pre group ->
      QASpec.atLineStart pre = true ->
      (forall pre', QASpec.followUpsAt response pre' ->
                    (String.length pre <= String.length pre')%nat) ->
      QA.parseFollowUps response = QASpec.questionsOf group).
Proof.
  split; [|split; [|split]].
  - intros N. unfold QA.parseConfidence.
    destruct (QA.exec QA.confidencePattern response) as [g|] eqn:E; [|reflexivity].
    exfalso.
    assert (~ (forall pre suf, response = pre +:+ suf -> QA.confidencePattern suf = None))
      as NN.
    { intros H. apply exec_none in H. congruence. }
    apply NN. intros pre suf ->.
    destruct (QA.confidencePattern suf) as [g'|] eqn:P; [|reflexivity].
    exfalso. apply N. exists pre, g'.
    apply confidencePattern_sound in P as (m & w & post & -> & S & W & L).
    exists m, w, post. by rewrite append_nil.
  - intros pre group (m & w & post & -> & S & W & L) _ Hfirst.
    assert (QA.exec QA.confidencePattern (pre +:+ m +:+ w +:+ group +:+ post)
            = Some group) as E.
    { apply exec_first; [by apply confidencePattern_complete|].
      intros p1 p2 -> N2.
      destruct (QA.confidencePattern (p2 +:+ m +:+ w +:+ group +:+ post))
        as [g'|] eqn:P; [|reflexivity].
      exfalso.
      apply confidencePattern_sound in P as (m' & w' & post' & P & S' & W' & L').
      rewrite append_nil in P.
      assert (QASpec.confidenceMarkerAt
                ((p1 +:+ p2) +:+ m +:+ w +:+ group +:+ post) p1 g') as M.
      { exists m', w', post'. rewrite append_assoc, P. done. }
      apply Hfirst in M. rewrite length_append in M.
      destruct p2; [done|]. simpl in M. lia. }
    unfold QA.parseConfidence. rewrite E.
    unfold QASpec.sameLetters. repeat split; intros ->; reflexivity.
  - intros N. unfold QA.parseFollowUps.
    destruct (QA.exec QA.followUpsPattern response) as [g|] eqn:E; [|reflexivity].
    exfalso.
    assert (~ (forall pre suf, response = pre +:+ suf -> QA.followUpsPattern suf = None))
      as NN.
    { intros H. apply exec_none in H. congruence. }
    apply NN. intros pre suf ->.
    destruct (QA.followUpsPattern suf) as [g'|] eqn:P; [|reflexivity].
    exfalso. apply N. exists pre.
    apply followUpsPattern_mention in P as (m & post & -> & S).
    exists m, post. by rewrite append_nil.
  - intros pre group (m & w & post & -> & S & W & N & B & O & E) _ Hfirst.
    assert (QA.exec QA.followUpsPattern (pre +:+ m +:+ w +:+ group +:+ post)
            = Some group) as X.
    { apply exec_first; [by apply followUpsPattern_complete|].
      intros p1 p2 -> N2.
      destruct (QA.followUpsPattern (p2 +:+ m +:+ w +:+ group +:+ post))
        as [g'|] eqn:P; [|reflexivity].
      exfalso.
      apply followUpsPattern_mention in P as (m' & post' & P & S').
      rewrite append_nil in P.
      assert (QASpec.followUpsAt
                ((p1 +:+ p2) +:+ m +:+ w +:+ group +:+ post) p1) as M.
      { exists m', post'. rewrite append_assoc, P. done. }
      apply Hfirst in M. rewrite length_append in M.
      destruct p2; [done|]. simpl in M. lia. }
    unfold QA.parseFollowUps, QASpec.questionsOf. rewrite X.
    apply nonempty_filter.
Qed.

(** ** Further properties and the scenarios of the specification *)

(** With a clock that does not run backwards and sleeps that last at
    least the 50 ms asked for, [acquire] sleeps at most 100 times
    (5000 ms / 50 ms) before it returns or throws. *)
Lemma acquire_sleeps_bounded start prev env :
  LockContract.clockAdvances start prev env ->
  Z.of_nat (LockContract.countSleeps (snd (FileLock.acquire start env))) * 50
  <= Z.max 0 (start + 5049 - prev).
Proof.
  revert prev. induction env as [|o env IH]; intros prev; cbn [LockContract.clockAdvances].
  - intros _. change (0 * 50 <= Z.max 0 (start + 5049 - prev)). lia.
  - intros [Hprev Hrest]. specialize (IH _ Hrest). revert IH.
    unfold LockContract.sleeps. cbn [FileLock.acquire].
    unfold FileLock.LOCK_TIMEOUT_MS, FileLock.LOCK_RETRY_MS in *.
    destruct (FileLock.t_loop o - start <? 5000) eqn:Ht.
    2:{ intros _. change (0 * 50 <= Z.max 0 (start + 5049 - prev)). lia. }
    apply Z.ltb_lt in Ht.
    destruct (FileLock.acquire start env) as [r tr].
    unfold LockContract.countSleeps. cbn [snd andb].
    destruct (FileLock.found o) as [| |time].
    + destruct (FileLock.wx_ok o);
        cbn [negb snd List.filter List.length LockContract.isSleep]; lia.
    + cbn [negb snd List.filter List.length LockContract.isSleep]. lia.
    + destruct (FileLock.stale (FileLock.t_body o) time);
        [destruct (FileLock.unlink_ok o)|];
        cbn [negb snd List.filter List.length LockContract.isSleep]; lia.
Qed.

Lemma acquire_sleeps_at_most_100 start env :
  LockContract.clockAdvances start start env ->
  (LockContract.countSleeps (snd (FileLock.acquire start env)) <= 100)%nat.
Proof. intros H. apply acquire_sleeps_bounded in H. lia. Qed.

(** Scenario "fresh store": after [init] there is no entry and the index
    counts 0. *)
Example fresh_store :
  Store.getAllEntries Sample.fresh = [] /\
  totalEntries (Store.getIndex "t1" Sample.fresh) = 0%nat.
Proof. split; reflexivity. Qed.

(** The store of the command-line tool keeps both entries when the same
    title and source are added twice. *)
Example cli_addEntry_keeps_duplicates :
  List.length
    (Store.getAllEntries
       (CliStore.addEntry "t2" "u2" (Sample.authDesign "" "second")
          (CliStore.addEntry "t1" "u1" (Sample.authDesign "" "first") Sample.fresh)))
  = 2%nat.
Proof. vm_compute. reflexivity. Qed.

(** Scenario "search ranking": for "authentication" the entry titled
    "Authentication Flow" ranks before "Auth Flow" tagged authentication. *)
Example search_ranking :
  map title
    (Ranker.findRelevantEntries "authentication"
       [Sample.entry "2" "Auth Flow" "" process ["authentication"]
          (Sample.fileSource "b") (9 # 10);
        Sample.entry "1" "Authentication Flow" "" process []
          (Sample.fileSource "a") (9 # 10)]
       10)
  = ["Authentication Flow"; "Auth Flow"].
Proof. vm_compute. reflexivity. Qed.

(** The scores are doubles: 2 * 0.3 is 0.6 and 6 * 0.1 is
    0.6000000000000001, so the second entry is ranked first. *)
Example search_rounds_scores :
  map id
    (Ranker.findRelevantEntries "tool xyz"
       [Sample.entry "A" "a" "" tool [] (Sample.fileSource "a") (3 # 10);
        Sample.entry "B" "tool" "tool" tool [] (Sample.fileSource "b") (1 # 10)]
       10)
  = ["B"; "A"] /\
  Js.double (2 * Js.double (3 # 10)) = 5404319552844595 # 9007199254740992 /\
  Js.double (6 * Js.double (1 # 10)) = 1351079888211149 # 2251799813685248.
Proof. repeat split; vm_compute; reflexivity. Qed.

(** Scenario "weak area threshold": "deployment" (1 negative of 2) is
    reported; "work" and "testing" (1 negative of 1) are not. *)
Example weak_area_threshold :
  map (fun a => (Analyzer.topic a, Analyzer.negativeCount a, Analyzer.totalCount a))
    (Analyzer.identifyWeakAreas (fun _ => None) [] [Sample.ratedSession])
  = [("deployment", 1%nat, 2%nat)].
Proof. vm_compute. reflexivity. Qed.

(** A response in the requested format, and one without marker lines. *)
Example parse_markers :
  QA.parseConfidence "Use JWT [e1].
CONFIDENCE: High
FOLLOW_UPS: How are tokens rotated? | Who owns auth?" = 9 # 10 /\
  QA.parseFollowUps "Use JWT [e1].
CONFIDENCE: High
FOLLOW_UPS: How are tokens rotated? | Who owns auth?"
    = ["How are tokens rotated?"; "Who owns auth?"] /\
  QA.parseConfidence "Use JWT." = 5 # 10 /\
  QA.parseFollowUps "Use JWT." = [].
Proof. repeat split; vm_compute; reflexivity. Qed.

(** The string primitives behave as their JavaScript counterparts. *)
Example split_whitespace_samples :
  Js.splitWhitespace " how  does
auth work " = [""; "how"; "does"; "auth"; "work"; ""] /\
  Js.splitWhitespace "" = [""] /\
  Js.splitWhitespace "   " = [""; ""] /\
  Ranker.queryTerms "is it on a VPN" = ["VPN"].
Proof. repeat split; reflexivity. Qed.

Example string_samples :
  Js.toLowerCase "Auth DESIGN v2" = "auth design v2" /\
  Js.includes "authentication flow" "cation f" = true /\
  Js.includes "auth" "" = true /\
  Js.includes "auth" "auth flow" = false /\
  Js.trim "  who owns auth? 
" = "who owns auth?" /\
  Js.splitChar "|" "" "a|b||" = ["a"; "b"; ""; ""].
Proof. repeat split; reflexivity. Qed.

Lemma anyChar_append p a b :
  Js.anyChar p (a +:+ b) = Js.anyChar p a || Js.anyChar p b.
Proof.
  induction a as [|c a IH]; [reflexivity|].
  rewrite append_cons. simpl. by rewrite IH, orb_assoc.
Qed.

Lemma splitSpaces_no_space inSep cur s t :
  Js.anyChar Js.isSpace cur = false ->
  In t (Js.splitSpaces inSep cur s) -> Js.anyChar Js.isSpace t = false.
Proof.
  revert inSep cur. induction s as [|c s IH]; intros inSep cur Hcur; simpl.
  - intros [<-|[]]. exact Hcur.
  - destruct (Js.isSpace c) eqn:Sp.
    + destruct inSep.
      * by apply IH.
      * intros [<-|H]; [exact Hcur|]. by apply (IH true "").
    + apply IH. rewrite anyChar_append. simpl. by rewrite Hcur, Sp.
Qed.

(** No piece of [split(/\s+/)] holds white space. *)
Lemma splitWhitespace_no_space s t :
  In t (Js.splitWhitespace s) -> Js.anyChar Js.isSpace t = false.
Proof. by apply splitSpaces_no_space. Qed.

(** A response that starts with a marker line: the level and the
    questions are taken from it. *)
Lemma C9_marker_fallbacks_witness :
  QA.parseConfidence "Confidence:  HIGH" = 9 # 10 /\
  QA.parseFollowUps "FOLLOW_UPS: who owns auth? | how is it deployed?"
    = ["who owns auth?"; "how is it deployed?"].
Proof.
  split.
  - destruct (C9_marker_fallbacks "Confidence:  HIGH") as (_ & H & _).
    refine (proj2 (proj2 (H "" "HIGH" _ eq_refl _)) _).
    + exists "Confidence:", "  ", "". repeat split. right. right. reflexivity.
    + intros pre' group' _. simpl. lia.
    + reflexivity.
  - destruct (C9_marker_fallbacks "FOLLOW_UPS: who owns auth? | how is it deployed?")
      as (_ & _ & _ & H).
    refine (H "" "who owns auth? | how is it deployed?" _ eq_refl _).
    + exists "FOLLOW_UPS:", " ", "". repeat split. discriminate.
    + intros pre' _. simpl. lia.
Defined.

Section MarkerLineFacts.
Import QA QASpec.

Lemma lineStarts_In pre suf start :
  (if String.eqb pre "" then start else atLineStart pre) = true ->
  In suf (lineStarts start (pre +:+ suf)).
Proof.
  revert start. induction pre as [|c pre IH]; intros start H.
  - rewrite append_nil. cbn in H. subst start.
    destruct suf; cbn [lineStarts]; by left.
  - rewrite append_cons. cbn [lineStarts]. apply in_or_app. right. apply IH.
    destruct pre as [|c' pre]; exact H.
Qed.

Lemma confidenceLine_pattern response :
  hasConfidenceLine response ->
  exists suf group, In suf (lineStarts true response) /\ confidencePattern suf = Some group.
Proof.
  intros (pre & group & (m & w & post & -> & S & W & L) & A).
  exists (m +:+ w +:+ group +:+ post), group. split.
  - apply lineStarts_In. by destruct pre.
  - by apply confidencePattern_complete.
Qed.

Lemma followUpsLine_literal response :
  hasFollowUpsLine response ->
  exists suf, In suf (lineStarts true response) /\ literalCI "FOLLOW_UPS:" suf <> None.
Proof.
  intros (pre & (m & post & -> & S) & A).
  exists (m +:+ post). split.
  - apply lineStarts_In. by destruct pre.
  - by rewrite (literalCI_complete _ _ _ S).
Qed.

End MarkerLineFacts.

(** C9 (counterexample).  "Use JWT." has no marker line and gets 0.5, not
    the 0.6 that the marker line "CONFIDENCE: medium" gets.  "my
    confidence: low" has no line that starts with the marker and yet gets
    0.3; "see follow_ups: a|b" has no line that starts with FOLLOW_UPS: and
    yet gives two follow-up questions.  In [Sample.overridden] the only
    marker line says high, and the confidence is the 0.3 of the earlier
    mention. *)
Lemma C9_counterexample :
  (~ QASpec.hasConfidenceLine "Use JWT." /\
   QA.parseConfidence "Use JWT." = 5 # 10 /\
   QA.parseConfidence "CONFIDENCE: medium" = 6 # 10 /\
   QA.parseConfidence "Use JWT." <> QA.parseConfidence "CONFIDENCE: medium") /\
  (~ QASpec.hasConfidenceLine "my confidence: low" /\
   QA.parseConfidence "my confidence: low" = 3 # 10) /\
  (~ QASpec.hasFollowUpsLine "see follow_ups: a|b" /\
   QA.parseFollowUps "see follow_ups: a|b" = ["a"; "b"]) /\
  (QASpec.hasConfidenceLine Sample.overridden /\
   (forall pre group,
       QASpec.confidenceMarkerAt Sample.overridden pre group ->
       QASpec.atLineStart pre = true -> group = "high") /\
   QA.parseConfidence Sample.overridden = 3 # 10).
Proof.
  split; [|split; [|split]].
  - split; [|repeat split; [vm_compute; discriminate]].
    intros H. apply confidenceLine_pattern in H as (suf & group & Hin & P).
    vm_compute in Hin. destruct Hin as [<-|[]]. vm_compute in P. discriminate.
  - split; [|reflexivity].
    intros H. apply confidenceLine_pattern in H as (suf & group & Hin & P).
    vm_compute in Hin. destruct Hin as [<-|[]]. vm_compute in P. discriminate.
  - split; [|reflexivity].
    intros H. apply followUpsLine_literal in H as (suf & Hin & P).
    vm_compute in Hin. destruct Hin as [<-|[]]. by apply P.
  - split; [|split; [|reflexivity]].
    + exists ("my confidence: low at first" +:+ String (ascii_of_N 10) ""), "high".
      split; [|reflexivity].
      exists "CONFIDENCE:", " ", "". repeat split. right. right. reflexivity.
    + intros pre group M A.
      assert (QASpec.hasConfidenceLine Sample.overridden) as H by (by exists pre, group).
      destruct M as (m & w & post & E & S & W & L).
      pose proof (confidencePattern_complete m w group post S W L) as P.
      assert (In (m +:+ w +:+ group +:+ post)
                (QASpec.lineStarts true Sample.overridden)) as Hin.
      { rewrite E. apply lineStarts_In. by destruct pre. }
      revert P Hin. generalize (m +:+ w +:+ group +:+ post). intros suf P Hin.
      vm_compute in Hin. destruct Hin as [<-|[<-|[]]]; vm_compute in P.
      * discriminate.
      * by injection P as <-.
Qed.

(** "authentication" has one term: the result is a sorted selection. *)
Lemma C5_find_relevant_entries_witness :
  exists ranked,
    Ranker.findRelevantEntries "authentication" [Sample.flowHalf; Sample.flowSure] 1
      = firstn 1 ranked /\
    ranked ≡ₚ
      List.filter (RankerSpec.scoresPositive "authentication")
        [Sample.flowHalf; Sample.flowSure].
Proof.
  destruct (C5_find_relevant_entries "authentication"
              [Sample.flowHalf; Sample.flowSure] 1) as (_ & _ & _ & _ & H).
  destruct H as (ranked & E & P & _);
    [vm_compute; discriminate | repeat constructor |].
  exists ranked. split; [exact E | exact P].
Defined.

(** ** Knowledge store: the path of an id *)

Section PathFacts.
Import Store StoreSpec.






End PathFacts.




(* ================================================================== *)
(** * Part III: further properties of the code                         *)
(* ================================================================== *)

(** ** Knowledge store: reading back what was written *)

Section StoreRoundTrips.
Import Store StoreSpec.

Lemma getEntry_writeEntry name e s : getEntry name (writeEntry name e s) = Some e.
Proof. unfold getEntry, writeEntry. simpl. by rewrite lookup_insert_eq. Qed.

Lemma getEntry_writeIndex name ix s : getEntry name (writeIndex ix s) = getEntry name s.
Proof. reflexivity. Qed.

Lemma findDuplicate_stored entry s d :
  wellNamed s -> findDuplicate entry s = Some d ->
  getEntry (id d) s = Some d /\ dedupKey d = dedupKey entry.
Proof.
  intros W F. apply find_some in F as [Hin K]. apply sameKey_iff in K.
  split; [|exact K]. apply scan_In in Hin as (name & L).
  unfold getEntry. rewrite (W _ _ L), L. reflexivity.
Qed.

End StoreRoundTrips.

(** X1.  After [addEntry] has returned an id, [getEntry] of that id gives
    an entry stored under that id with the title (case ignored), source
    type and source path of the argument: the argument itself, with the
    missing id and dates filled in, when it was stored; the entry that
    was already there, and an unchanged store, when it was a duplicate. *)
Theorem addEntry_then_getEntry (now uuid : string) (entry : KnowledgeEntry)
    (s s' : Store.State) (a : Store.AddResult) :
  StoreSpec.wellNamed s ->
  Store.addEntry FileLock.Acquired now uuid entry s = (Store.Returned a, s') ->
  exists d,
    Store.getEntry (Store.r_id a) s' = Some d /\
    id d = Store.r_id a /\
    StoreSpec.dedupKey d = StoreSpec.dedupKey entry /\
    (Store.deduplicated a = false ->
       d = Store.stamped now uuid entry /\
       Store.r_id a = Store.orElse (id entry) uuid) /\
    (Store.deduplicated a = true -> s' = s /\ In d (Store.getAllEntries s)).
Proof.
  intros W. unfold Store.addEntry, Store.withLock, Store.addEntryBody.
  destruct (Store.findDuplicate entry s) as [d|] eqn:F.
  - intros [= <- <-]. simpl.
    destruct (findDuplicate_stored entry s d W F) as [G K].
    exists d. repeat split; try done.
    by apply find_some in F as [Hin _].
  - intros [= <- <-]. simpl. exists (Store.stamped now uuid entry).
    rewrite getEntry_writeIndex, getEntry_writeEntry. repeat split; done.
Qed.

Lemma addEntry_then_getEntry_witness :
  exists d,
    Store.getEntry "u1" Sample.addedOnce = Some d /\ title d = "Auth design".
Proof.
  assert (StoreSpec.wellNamed Sample.fresh) as W.
  { intros name e L. vm_compute in L. discriminate. }
  destruct (addEntry_then_getEntry "t1" "u1" (Sample.authDesign "" "first")
              Sample.fresh Sample.addedOnce
              {| Store.r_id := "u1"; Store.deduplicated := false |} W)
    as (d & G & _ & _ & Hnew & _); [vm_compute; reflexivity|].
  exists d. split; [exact G|].
  destruct (Hnew eq_refl) as [-> _]. reflexivity.
Defined.

(** X2.  [updateEntry] of an id whose record is readable returns the
    merged entry and stores it under that id: the id is the one asked
    for and [updatedAt] is the time of the call whatever the updates
    say, every other field is the update's when it gives one and the old
    one otherwise; [getEntry] then returns that entry, and no other file
    of the entries directory is touched. *)
Theorem updateEntry_then_getEntry (now name : string) (updates : Store.Updates)
    (s : Store.State) (existing : KnowledgeEntry) :
  Store.getEntry name s = Some existing ->
  exists updated s',
    Store.updateEntry FileLock.Acquired now name updates s
      = (Store.Returned (Some updated), s') /\
    Store.getEntry name s' = Some updated /\
    id updated = name /\ updatedAt updated = now /\
    title updated = default (title existing) (Store.u_title updates) /\
    content updated = default (content existing) (Store.u_content updates) /\
    category updated = default (category existing) (Store.u_category updates) /\
    tags updated = default (tags existing) (Store.u_tags updates) /\
    source updated = default (source existing) (Store.u_source updates) /\
    confidence updated = default (confidence existing) (Store.u_confidence updates) /\
    createdAt updated = default (createdAt existing) (Store.u_createdAt updates) /\
    (forall other, other <> name ->
       Store.entryFiles s' !! other = Store.entryFiles s !! other).
Proof.
  intros G. unfold Store.updateEntry, Store.withLock, Store.updateEntryBody.
  rewrite G. eexists _, _. split; [reflexivity|].
  split; [by rewrite getEntry_writeIndex, getEntry_writeEntry|].
  repeat split. intros other N. simpl. by rewrite lookup_insert_ne.
Qed.

Lemma updateEntry_then_getEntry_witness :
  exists updated,
    Store.getEntry "b" Sample.twoAlike = Some updated /\
    title updated = "AUTH DESIGN" /\ content updated = "second" /\
    updatedAt updated = "t3".
Proof.
  set (s := snd (Store.addEntry FileLock.Acquired "t2" "u2"
                   (Sample.entry "b" "Auth plan" "second" architecture []
                      (Sample.fileSource "src/auth.ts") (8 # 10))
                   (snd (Store.addEntry FileLock.Acquired "t1" "u1"
                           (Sample.authDesign "a" "first") Sample.fresh)))).
  destruct (updateEntry_then_getEntry "t3" "b" (Sample.retitle "AUTH DESIGN") s
              (Store.stamped "t2" "u2"
                 (Sample.entry "b" "Auth plan" "second" architecture []
                    (Sample.fileSource "src/auth.ts") (8 # 10))))
    as (updated & s' & U & G & _ & Ht & Hti & Hc & _); [vm_compute; reflexivity|].
  exists updated. replace Sample.twoAlike with s'.
  - repeat split; done.
  - change Sample.twoAlike
      with (snd (Store.updateEntry FileLock.Acquired "t3" "b"
                   (Sample.retitle "AUTH DESIGN") s)).
    by rewrite U.
Defined.

(** X3.  [deleteEntry] of an id whose file exists, readable or not,
    returns true and removes that file and no other; afterwards
    [getEntry] of the id gives null and a second [deleteEntry] of it
    returns false and changes nothing. *)
Theorem deleteEntry_then_gone (now now' name : string) (s : Store.State) :
  Store.entryFiles s !! name <> None ->
  exists s',
    Store.deleteEntry FileLock.Acquired now name s = (Store.Returned true, s') /\
    Store.getEntry name s' = None /\
    (forall other, other <> name ->
       Store.entryFiles s' !! other = Store.entryFiles s !! other) /\
    (forall e, In e (Store.getAllEntries s') -> In e (Store.getAllEntries s)) /\
    Store.deleteEntry FileLock.Acquired now' name s' = (Store.Returned false, s').
Proof.
  intros L. unfold Store.deleteEntry, Store.withLock, Store.deleteEntryBody.
  destruct (Store.entryFiles s !! name) as [f|] eqn:E; [|done].
  eexists. split; [reflexivity|]. simpl.
  assert (delete name (Store.entryFiles s) !! name = None) as D
    by apply lookup_delete_eq.
  split; [unfold Store.getEntry; simpl; by rewrite D|].
  split; [intros other N; by rewrite lookup_delete_ne|].
  split; [intros e; apply scan_unlink_subset|].
  by rewrite D.
Qed.

Lemma deleteEntry_then_gone_witness :
  exists s',
    Store.deleteEntry FileLock.Acquired "t4" "a" Sample.twoAlike
      = (Store.Returned true, s') /\
    Store.getEntry "a" s' = None /\
    Store.deleteEntry FileLock.Acquired "t5" "a" s' = (Store.Returned false, s').
Proof.
  destruct (deleteEntry_then_gone "t4" "t5" "a" Sample.twoAlike)
    as (s' & D & G & _ & _ & D'); [vm_compute; discriminate|].
  exists s'. repeat split; done.
Defined.


(** ** Knowledge store: rebuilding and searching *)

(** X4.  From any state of the files, whether the index file is missing,
    unreadable or out of step with the records, [rebuildIndex] leaves
    the records as they are and writes the index of a scan of them: the
    index file then lists the records in scan order with [totalEntries]
    their number, [getIndex] returns what [rebuildIndex] returned, and
    rebuilding again gives the same entries. *)
Theorem rebuildIndex_restores (now now' : string) (s : Store.State) :
  exists ix s',
    Store.rebuildIndex FileLock.Acquired now s = (Store.Returned ix, s') /\
    Store.entryFiles s' = Store.entryFiles s /\
    Store.getIndex now' s' = ix /\
    ix_entries ix = StoreSpec.scannedEntries s' /\
    totalEntries ix = List.length (Store.getAllEntries s') /\
    StoreSpec.inCorrespondence s' /\
    ix_entries (fst (Store.rebuildIndexBody now' s')) = ix_entries ix /\
    totalEntries (fst (Store.rebuildIndexBody now' s')) = totalEntries ix.
Proof.
  eexists _, _. split; [reflexivity|]. simpl. repeat split.
  eexists. split; [reflexivity|]. split; reflexivity.
Qed.

Section SearchFacts.
Import Store.

Lemma filter_sublist {A} (f : A -> bool) (l : list A) :
  List.filter f l `sublist_of` l.
Proof.
  induction l as [|x l IH]; simpl; [constructor|].
  destruct (f x); by constructor.
Qed.

Lemma categoryName_eqb a b :
  String.eqb (categoryName a) (categoryName b) = true <-> a = b.
Proof.
  rewrite String.eqb_eq. split; [apply categoryName_inj | by intros ->].
Qed.

Lemma tagsOverlap_spec (entryTags wanted : list string) :
  existsb (fun t => Js.arrayIncludes (map Js.toLowerCase entryTags) (Js.toLowerCase t))
    wanted = true
  <-> exists t tag, In t wanted /\ In tag entryTags /\ QASpec.sameLetters tag t.
Proof.
  rewrite existsb_exists. split.
  - intros (t & Ht & I). apply arrayIncludes_In, in_map_iff in I as (tag & E & Htag).
    by exists t, tag.
  - intros (t & tag & Ht & Htag & E). exists t. split; [done|].
    apply arrayIncludes_In, in_map_iff. by exists tag.
Qed.

End SearchFacts.

(** X5.  [searchEntries] returns, in scan order, the stored entries that
    pass every criterion the query gives: the category is the one asked
    for; one of the tags asked for equals a tag of the entry when case is
    ignored; the text, lower-cased, occurs in the lower-cased title or
    content.  An absent criterion, an empty list of tags and an empty
    text exclude nothing, so a query without criteria returns every
    entry. *)
Theorem searchEntries_spec (query : Store.Query) (s : Store.State) :
  (forall e,
     In e (Store.searchEntries query s) <->
     In e (Store.getAllEntries s) /\
     (forall c, Store.q_category query = Some c -> category e = c) /\
     (forall wanted, Store.q_tags query = Some wanted -> wanted <> [] ->
        exists t tag, In t wanted /\ In tag (tags e) /\ QASpec.sameLetters tag t) /\
     (forall text, Store.q_text query = Some text -> text <> "" ->
        RankerSpec.contains (Js.toLowerCase (title e)) (Js.toLowerCase text) \/
        RankerSpec.contains (Js.toLowerCase (content e)) (Js.toLowerCase text))) /\
  Store.searchEntries query s `sublist_of` Store.getAllEntries s /\
  (Store.q_category query = None ->
   (Store.q_tags query = None \/ Store.q_tags query = Some []) ->
   (Store.q_text query = None \/ Store.q_text query = Some "") ->
   Store.searchEntries query s = Store.getAllEntries s).
Proof.
  split; [|split].
  - intros e. unfold Store.searchEntries. rewrite filter_In.
    apply and_iff_compat_l. unfold Store.matchesQuery.
    destruct query as [qc qt qx]. simpl. split.
    + intros M. repeat split.
      * intros c ->. destruct (String.eqb _ _) eqn:E; [|discriminate].
        by apply categoryName_eqb in E.
      * intros wanted -> N.
        destruct (match qc with Some c => _ | None => false end); [discriminate|].
        destruct wanted as [|w wanted]; [done|]. cbn [List.length Nat.ltb Nat.leb andb] in M.
        apply tagsOverlap_spec.
        destruct (existsb _ (w :: wanted)); [reflexivity|discriminate].
      * intros text -> N.
        destruct (match qc with Some c => _ | None => false end); [discriminate|].
        destruct (match qt with Some c => _ | None => false end); [discriminate|].
        apply String.eqb_neq in N. rewrite N in M. cbn [negb andb] in M.
        rewrite <- !includes_contains.
        destruct (Js.includes (Js.toLowerCase (title e)) _); [by left|].
        destruct (Js.includes (Js.toLowerCase (content e)) _); [by right|discriminate].
    + intros (Hc & Ht & Hx).
      assert (match qc with
              | Some c => negb (String.eqb (categoryName (category e)) (categoryName c))
              | None => false
              end = false) as ->.
      { destruct qc as [c|]; [|done]. rewrite (Hc c eq_refl).
        by rewrite String.eqb_refl. }
      assert (match qt with
              | Some wanted =>
                  (0 <? List.length wanted)%nat
                  && negb (existsb
                             (fun t => Js.arrayIncludes (map Js.toLowerCase (tags e))
                                         (Js.toLowerCase t)) wanted)
              | None => false
              end = false) as ->.
      { destruct qt as [wanted|]; [|done]. destruct wanted as [|w wanted]; [done|].
        cbn [List.length Nat.ltb Nat.leb andb].
        apply negb_false_iff, tagsOverlap_spec. by apply Ht. }
      destruct qx as [text|]; [|done].
      destruct (String.eqb text "") eqn:E; [done|]. apply String.eqb_neq in E.
      cbn [negb andb].
      destruct (Hx text eq_refl E) as [H|H]; apply includes_contains in H; rewrite H;
        [done|]. by rewrite andb_false_r.
  - unfold Store.searchEntries. apply filter_sublist.
  - intros Hc Ht Hx. unfold Store.searchEntries. apply filter_all.
    intros e _. unfold Store.matchesQuery. rewrite Hc.
    destruct Ht as [-> | ->], Hx as [-> | ->]; reflexivity.
Qed.


(** ** Knowledge store: ids are unique *)

Section UniqueIds.
Import Store StoreSpec.

Lemma scan_ids_NoDup (l : list (string * File)) :
  NoDup (map fst l) ->
  (forall name e, In (name, Readable e) l -> id e = name) ->
  NoDup (map id (omap (fun kf => readEntry (Some (snd kf))) l)).
Proof.
  induction l as [|[k f] l IH]; intros ND W; simpl; [constructor|].
  apply NoDup_cons in ND as [Hk ND].
  assert (NoDup (map id (omap (fun kf => readEntry (Some (snd kf))) l))) as R.
  { apply IH; [done|]. intros name e H. apply W. by right. }
  destruct f as [|e]; simpl; [exact R|].
  apply NoDup_cons. split; [|exact R].
  intros Hin. apply Hk. rewrite (W k e) in Hin by (by left).
  apply list_elem_of_In in Hin. apply list_elem_of_In.
  apply in_map_iff in Hin as (e' & E & Hin).
  apply list_elem_of_In, list_elem_of_omap in Hin as ([k' f'] & Hin & Hr).
  destruct f' as [|e'']; simpl in Hr; [discriminate|]. injection Hr as ->.
  apply list_elem_of_In in Hin. rewrite <- E, (W k' e') by (by right).
  apply in_map_iff. by exists (k', Readable e').
Qed.

Lemma wellNamed_ids_NoDup s : wellNamed s -> NoDup (map id (getAllEntries s)).
Proof.
  intros W. unfold getAllEntries. apply scan_ids_NoDup.
  - apply NoDup_fst_map_to_list.
  - intros name e H. apply W. apply elem_of_map_to_list. by apply list_elem_of_In.
Qed.

Lemma wellNamed_getEntry s e :
  wellNamed s -> In e (getAllEntries s) -> getEntry (id e) s = Some e.
Proof.
  intros W Hin. apply scan_In in Hin as (name & L).
  unfold getEntry. by rewrite (W _ _ L), L.
Qed.

Lemma getEntry_scan s name e : getEntry name s = Some e -> In e (getAllEntries s).
Proof.
  unfold getEntry. intros G. apply scan_In. exists name.
  destruct (entryFiles s !! name) as [[|e0]|]; try discriminate.
  by injection G as ->.
Qed.

End UniqueIds.

(** X6.  In a store that was initialized empty and then changed by
    [addEntry], [updateEntry] and [deleteEntry] only, with no [addEntry]
    storing a record under an id already in use, and every id passed to
    them a plain file name (no slash, no NUL, at most 100 characters):
    every record is stored under its own id, no two records and no two
    index entries share an id, a plain file name is listed by the index
    exactly when [getEntry] of it returns a record, and [totalEntries] is
    both the length of the index and the number of records. *)
Theorem reached_store_consistent (now : string) (s : Store.State) :
  StoreSpec.Reached s ->
  NoDup (map id (Store.getAllEntries s)) /\
  NoDup (map ix_id (ix_entries (Store.getIndex now s))) /\
  (forall name, StoreSpec.plainId name = true ->
     (In name (map ix_id (ix_entries (Store.getIndex now s))) <->
      exists e, Store.getEntry name s = Some e)) /\
  (forall e, In e (Store.getAllEntries s) ->
     Store.getEntry (id e) s = Some e /\
     In (Store.toIndexEntry e) (ix_entries (Store.getIndex now s))) /\
  totalEntries (Store.getIndex now s)
    = List.length (ix_entries (Store.getIndex now s)) /\
  totalEntries (Store.getIndex now s) = List.length (Store.getAllEntries s).
Proof.
  intros R. destruct (index_in_correspondence s R) as [W (ix & Hix & P & T)].
  unfold Store.getIndex. rewrite Hix.
  assert (map ix_id (ix_entries ix) ≡ₚ map id (Store.getAllEntries s)) as Pid.
  { rewrite P. unfold StoreSpec.scannedEntries. rewrite map_map. reflexivity. }
  pose proof (wellNamed_ids_NoDup s W) as ND.
  split; [exact ND|]. split; [by rewrite Pid|]. split; [|split; [|split]].
  - intros name _. rewrite Pid, in_map_iff. split.
    + intros (e & <- & Hin). exists e. by apply wellNamed_getEntry.
    + intros (e & G). exists e. split; [|by apply (getEntry_scan s name)].
      unfold Store.getEntry in G.
      destruct (Store.entryFiles s !! name) as [[|e0]|] eqn:L; try discriminate.
      injection G as ->. by apply W.
  - intros e Hin. split; [by apply wellNamed_getEntry|].
    apply (Permutation_in _ (Permutation_sym P)). by apply in_map.
  - rewrite T, (Permutation_length P). unfold StoreSpec.scannedEntries.
    by rewrite length_map.
  - exact T.
Qed.

Lemma reached_store_consistent_witness :
  NoDup (map id (Store.getAllEntries Sample.twoAlike)) /\
  totalEntries (Store.getIndex "t9" Sample.twoAlike) = 2%nat.
Proof.
  assert (StoreSpec.Reached Sample.twoAlike) as R.
  { apply StoreSpec.reached_update; [|reflexivity].
    apply StoreSpec.reached_add; [|reflexivity|].
    - apply StoreSpec.reached_add; [apply StoreSpec.reached_init|reflexivity|].
      intros _. vm_compute. reflexivity.
    - intros _. vm_compute. reflexivity. }
  destruct (reached_store_consistent "t9" Sample.twoAlike R) as (N & _ & _ & _ & _ & T).
  split; [exact N|]. rewrite T. vm_compute. reflexivity.
Defined.


(** ** The migration tool *)

Section MigrateFacts.
Import Store StoreSpec Migrate MigrateSpec.

Lemma readable_cons name f files :
  readable ((name, f) :: files)
  = (match readEntry (Some f) with Some _ => 1 | None => 0 end + readable files)%nat.
Proof. unfold readable. by destruct f. Qed.

Lemma scan_unlink_length s name :
  (List.length (getAllEntries (unlinkEntry name s)) <= List.length (getAllEntries s))%nat.
Proof.
  rewrite (Permutation_length (scan_split s name)), length_app. lia.
Qed.

Lemma addEntryBody_length now uuid entry s :
  (List.length (getAllEntries (snd (addEntryBody now uuid entry s)))
   <= List.length (getAllEntries s)
      + (if deduplicated (fst (addEntryBody now uuid entry s)) then 0 else 1))%nat.
Proof.
  destruct (findDuplicate entry s) as [d|] eqn:F.
  - rewrite (addEntryBody_duplicate _ _ _ _ _ F). simpl. lia.
  - destruct (addEntryBody_new now uuid entry s F) as [R P].
    rewrite R, (Permutation_length P). simpl.
    pose proof (scan_unlink_length s (orElse (id entry) uuid)). lia.
Qed.

Lemma addEntryBody_skip now uuid entry s :
  deduplicated (fst (addEntryBody now uuid entry s)) = true ->
  snd (addEntryBody now uuid entry s) = s.
Proof.
  unfold addEntryBody. destruct (findDuplicate entry s); [done|discriminate].
Qed.

(** Every readable file is counted once, whatever the store calls do:
    as migrated, as skipped, or by an error of its own. *)
Lemma migrateEntries_accounts calls n files report s report' s' n' :
  migrateEntries calls n files report s = Some (report', s', n') ->
  exists entryErrors,
    errors report' = errors report ++ entryErrors /\
    Forall entryError entryErrors /\
    (entriesMigrated report' + entriesSkipped report' + List.length entryErrors
     = entriesMigrated report + entriesSkipped report + readable files)%nat /\
    profileMigrated report' = profileMigrated report /\
    feedbackMigrated report' = feedbackMigrated report /\
    (entriesMigrated report <= entriesMigrated report')%nat.
Proof.
  revert n report s. induction files as [|[name f] files IH]; intros n report s.
  - intros [= <- <- <-]. exists []. rewrite app_nil_r. unfold readable. simpl.
    repeat split; try lia. constructor.
  - cbn [migrateEntries]. rewrite readable_cons.
    destruct (readEntry (Some f)) as [entry|] eqn:Rd.
    2:{ intros M. apply IH in M. exact M. }
    destruct (answered _ _) as [[result|message|] s1].
    + intros M. apply IH in M as (errs & E & F & A & Pm & Fm & Le). exists errs.
      destruct (deduplicated result); cbn [incSkipped incMigrated errors entriesMigrated
        entriesSkipped profileMigrated feedbackMigrated] in *;
        repeat split; try done; lia.
    + intros M. apply IH in M as (errs & E & F & A & Pm & Fm & Le).
      exists (("Failed to migrate entry " +:+ name +:+ ".json: " +:+ message) :: errs).
      cbn [pushError errors entriesMigrated entriesSkipped profileMigrated
             feedbackMigrated] in *.
      rewrite E, <- app_assoc. repeat split; try done.
      * constructor; [by exists name, message|done].
      * cbn [length]. lia.
    + discriminate.
Qed.

(** Without a fault the loop changes the store only by the entries it
    counts as migrated. *)
Lemma migrateEntries_state calls n files report s report' s' n' :
  (forall k, c_fault (calls k) = None) ->
  migrateEntries calls n files report s = Some (report', s', n') ->
  (entriesMigrated report' = entriesMigrated report -> s' = s) /\
  (List.length (getAllEntries s') + entriesMigrated report
   <= List.length (getAllEntries s) + entriesMigrated report')%nat.
Proof.
  intros Hfault. revert n report s.
  induction files as [|[name f] files IH]; intros n report s.
  - intros [= <- <- <-]. split; [done|lia].
  - cbn [migrateEntries].
    destruct (readEntry (Some f)) as [entry|] eqn:Rd; [|apply IH].
    unfold answered, addEntry, withLock. rewrite Hfault. destruct (c_lock (calls n)).
    + pose proof (addEntryBody_length (c_now (calls n)) (c_uuid (calls n)) entry s) as Len.
      pose proof (addEntryBody_skip (c_now (calls n)) (c_uuid (calls n)) entry s) as Skip.
      destruct (addEntryBody (c_now (calls n)) (c_uuid (calls n)) entry s) as [a s1].
      cbn [fst snd] in Len, Skip.
      intros M. destruct (migrateEntries_accounts _ _ _ _ _ _ _ _ M) as (_ & _ & _ & _ & _ & _ & Le).
      apply IH in M as [Same Len'].
      destruct (deduplicated a);
        cbn [incSkipped incMigrated entriesMigrated] in *.
      * rewrite Skip in * by done. split; [exact Same|lia].
      * split; [lia|lia].
    + intros M. apply IH in M as [Same Len']. cbn [pushError entriesMigrated] in *.
      by split.
    + discriminate.
Qed.

(** With every lock acquired and no fault the loop ends without an
    error. *)
Lemma migrateEntries_acquired calls n files report s :
  (forall k, c_lock (calls k) = FileLock.Acquired) ->
  (forall k, c_fault (calls k) = None) ->
  exists report' s' n',
    migrateEntries calls n files report s = Some (report', s', n') /\
    errors report' = errors report /\
    (entriesMigrated report' + entriesSkipped report'
     = entriesMigrated report + entriesSkipped report + readable files)%nat.
Proof.
  intros Hlock Hfault. revert n report s.
  induction files as [|[name f] files IH]; intros n report s.
  - eexists _, _, _. split; [reflexivity|]. unfold readable. simpl. split; [done|lia].
  - cbn [migrateEntries]. rewrite readable_cons.
    destruct (readEntry (Some f)) as [entry|]; [|apply IH].
    unfold answered, addEntry, withLock. rewrite Hlock, Hfault.
    destruct (addEntryBody (c_now (calls n)) (c_uuid (calls n)) entry s) as [a s1].
    destruct (IH (S n) (if deduplicated a then incSkipped report else incMigrated report) s1)
      as (r' & s' & n' & M & E & A).
    exists r', s', n'. split; [exact M|].
    destruct (deduplicated a);
      cbn [incSkipped incMigrated errors entriesMigrated entriesSkipped] in *;
      split; [done|lia|done|lia].
Qed.

(** The profile block leaves the counts alone, reports the profile as
    migrated when the copy was made, and adds at most the error of a copy
    that threw. *)
Lemma migrateProfile_spec old new r :
  entriesMigrated (migrateProfile old new r) = entriesMigrated r /\
  entriesSkipped (migrateProfile old new r) = entriesSkipped r /\
  feedbackMigrated (migrateProfile old new r) = feedbackMigrated r /\
  (profileMigrated (migrateProfile old new r) = true <->
   profileMigrated r = true \/
   oldProfile old = Some true /\ newProfile new = false /\ copyProfile new = None) /\
  exists errs,
    errors (migrateProfile old new r) = errors r ++ errs /\
    (List.length errs <= 1)%nat /\
    forall e, In e errs <-> profileError old new e.
Proof.
  unfold migrateProfile, profileError.
  destruct (oldProfile old) as [[|]|], (newProfile new), (copyProfile new) as [m|];
    cbn [andb negb setProfileMigrated pushError entriesMigrated entriesSkipped
           feedbackMigrated profileMigrated errors];
    (split; [reflexivity|]); (split; [reflexivity|]); (split; [reflexivity|]);
    (split; [intuition congruence|]).
  all: try (exists []; rewrite app_nil_r; split; [reflexivity|]; split; [simpl; lia|];
            intros e; split; [intros []|];
            intros (H1 & H2 & m' & H3 & _); congruence).
  exists ["Failed to migrate profile: " +:+ m]. split; [reflexivity|].
  split; [simpl; lia|]. intros e. split.
  - intros [<-|[]]. repeat split. by exists m.
  - intros (_ & _ & m' & [= <-] & ->). by left.
Qed.

Lemma migrateFeedback_spec old new r :
  entriesMigrated (migrateFeedback old new r) = entriesMigrated r /\
  entriesSkipped (migrateFeedback old new r) = entriesSkipped r /\
  profileMigrated (migrateFeedback old new r) = profileMigrated r /\
  (feedbackMigrated (migrateFeedback old new r) = true <->
   feedbackMigrated r = true \/
   oldFeedback old = true /\ ensureFeedbackDir new = None /\ newFeedback new = false /\
   copyFeedback new = None) /\
  exists errs,
    errors (migrateFeedback old new r) = errors r ++ errs /\
    (List.length errs <= 1)%nat /\
    forall e, In e errs <-> feedbackError old new e.
Proof.
  unfold migrateFeedback, feedbackError.
  destruct (oldFeedback old), (ensureFeedbackDir new) as [m1|], (newFeedback new),
    (copyFeedback new) as [m2|];
    cbn [andb negb setFeedbackMigrated pushError entriesMigrated entriesSkipped
           feedbackMigrated profileMigrated errors];
    (split; [reflexivity|]); (split; [reflexivity|]); (split; [reflexivity|]);
    (split; [intuition congruence|]).
  all: try (exists []; rewrite app_nil_r; split; [reflexivity|]; split; [simpl; lia|];
            intros e; split; [intros []|];
            intros (H1 & m' & _ & [H2|(H2 & H3 & H4)]); congruence).
  all: try (exists ["Failed to migrate feedback: " +:+ m1]; split; [reflexivity|];
            split; [simpl; lia|]; intros e; split;
            [intros [<-|[]]; split; [reflexivity|]; exists m1; split; [reflexivity|by left]
            |intros (_ & m' & -> & [[= <-]|(H2 & _)]); [by left|congruence]]).
  exists ["Failed to migrate feedback: " +:+ m2]. split; [reflexivity|].
  split; [simpl; lia|]. intros e. split.
  - intros [<-|[]]. split; [reflexivity|]. exists m2. split; [reflexivity|]. by right.
  - intros (_ & m' & -> & [H|(_ & _ & [= <-])]); [congruence|by left].
Qed.

End MigrateFacts.

(** X7.  When the old entries directory is missing or can be listed, the
    ids of its entries are plain file names, every lock is acquired and
    no store call throws, [handover_migrate] returns a report in which
    the migrated and the skipped entries add up to the readable files of
    the old entries directory.  The profile is reported as migrated
    exactly when the old file is there and parses, the new one is not
    there and the copy succeeds; the feedback history exactly when the
    old file is there, the new directory can be made, the new file is not
    there and the copy succeeds.  The errors of the report are those of a
    profile or feedback copy that threw, and there are none when no copy
    throws.  If no entry was migrated the store is untouched; otherwise
    the store has at most that many entries more than before and its
    index has been rebuilt: the index file lists the records of a scan,
    also when old entries reuse ids that the store already held. *)
Theorem migrate_report_and_index (calls : nat -> Migrate.Call)
    (old : Migrate.OldData) (new : Migrate.NewData) (s : Store.State) :
  (forall message, Migrate.oldEntries old <> Migrate.NotListable message) ->
  MigrateSpec.plainIds calls (Migrate.listed old) ->
  (forall k, Migrate.c_lock (calls k) = FileLock.Acquired) ->
  (forall k, Migrate.c_fault (calls k) = None) ->
  exists report s',
    Migrate.handover_migrate calls old new s = Some (report, s') /\
    (Migrate.entriesMigrated report + Migrate.entriesSkipped report)%nat
      = MigrateSpec.readable (Migrate.listed old) /\
    (Migrate.profileMigrated report = true <->
     Migrate.oldProfile old = Some true /\ Migrate.newProfile new = false /\
     Migrate.copyProfile new = None) /\
    (Migrate.feedbackMigrated report = true <->
     Migrate.oldFeedback old = true /\ Migrate.ensureFeedbackDir new = None /\
     Migrate.newFeedback new = false /\ Migrate.copyFeedback new = None) /\
    (forall e, In e (Migrate.errors report) <->
               MigrateSpec.profileError old new e \/ MigrateSpec.feedbackError old new e) /\
    (Migrate.copyProfile new = None -> Migrate.ensureFeedbackDir new = None ->
     Migrate.copyFeedback new = None -> Migrate.errors report = []) /\
    (Migrate.entriesMigrated report = 0%nat -> s' = s) /\
    ((0 < Migrate.entriesMigrated report)%nat -> StoreSpec.inCorrespondence s') /\
    (List.length (Store.getAllEntries s')
     <= List.length (Store.getAllEntries s) + Migrate.entriesMigrated report)%nat.
Proof.
  intros Hlist _ Hlock Hfault.
  destruct (migrateEntries_acquired calls 0 (Migrate.listed old) Migrate.emptyReport s
              Hlock Hfault) as (r & s1 & n & M & E & A).
  destruct (migrateEntries_accounts _ _ _ _ _ _ _ _ M) as (_ & _ & _ & _ & Pm & Fm & _).
  destruct (migrateEntries_state _ _ _ _ _ _ _ _ Hfault M) as (Same & Len).
  cbn in E, A, Pm, Fm, Same, Len.
  destruct (migrateProfile_spec old new r) as (Em1 & Es1 & Ef1 & Ep1 & errs1 & Ee1 & L1 & I1).
  destruct (migrateFeedback_spec old new (Migrate.migrateProfile old new r))
    as (Em2 & Es2 & Ep2 & Ef2 & errs2 & Ee2 & L2 & I2).
  set (r2 := Migrate.migrateFeedback old new (Migrate.migrateProfile old new r)) in *.
  assert (Migrate.errors r2 = errs1 ++ errs2) as Ee.
  { rewrite Ee2, Ee1, E. reflexivity. }
  assert (exists s',
             Migrate.handover_migrate calls old new s = Some (r2, s') /\
             (Migrate.entriesMigrated r2 = 0%nat -> s' = s) /\
             ((0 < Migrate.entriesMigrated r2)%nat -> StoreSpec.inCorrespondence s') /\
             List.length (Store.getAllEntries s') = List.length (Store.getAllEntries s1))
    as (s' & H & Hsame & Hix & Hlen).
  { unfold Migrate.handover_migrate.
    destruct (Migrate.oldEntries old) as [|files|message] eqn:O;
      [| |by destruct (Hlist message)];
      rewrite M; fold r2;
      (destruct (0 <? Migrate.entriesMigrated r2)%nat eqn:Pos;
       [apply Nat.ltb_lt in Pos; unfold Migrate.answered, Store.rebuildIndex, Store.withLock;
        rewrite Hlock, Hfault; cbn [Store.rebuildIndexBody];
        eexists; split; [reflexivity|]; split; [lia|]; split; [|reflexivity];
        intros _; eexists; split; [reflexivity|]; split; reflexivity
       |apply Nat.ltb_ge in Pos; exists s1; split; [reflexivity|];
        split; [intros _; apply Same; lia|]; split; [lia|reflexivity]]). }
  exists r2, s'. split; [exact H|]. split; [lia|].
  split; [rewrite Ep2, Ep1, Pm; cbn; intuition congruence|].
  split; [rewrite Ef2, Ef1, Fm; cbn; intuition congruence|].
  split; [intros e; rewrite Ee, in_app_iff, I1, I2; reflexivity|].
  split.
  { intros C1 C2 C3. rewrite Ee.
    destruct errs1 as [|e1 ?].
    - destruct errs2 as [|e2 ?]; [reflexivity|].
      destruct (proj1 (I2 e2) (or_introl eq_refl)) as (_ & m & _ & [F|(_ & _ & F)]);
        congruence.
    - destruct (proj1 (I1 e1) (or_introl eq_refl)) as (_ & _ & m & F & _). congruence. }
  split; [exact Hsame|]. split; [exact Hix|]. rewrite Hlen. lia.
Qed.

Lemma migrate_report_and_index_witness :
  exists report s',
    Migrate.handover_migrate Sample.alwaysAcquired Sample.oldData Sample.newData
      Sample.addedOnce = Some (report, s') /\
    Migrate.errors report = [] /\
    Migrate.profileMigrated report = true.
Proof.
  destruct (migrate_report_and_index Sample.alwaysAcquired Sample.oldData Sample.newData
              Sample.addedOnce) as (report & s' & H & _ & P & _ & _ & E & _).
  - intros message. discriminate.
  - intros k name f e [[= <- <-]|[]] [= <-]. reflexivity.
  - intros k. reflexivity.
  - intros k. reflexivity.
  - exists report, s'. split; [exact H|]. split; [by apply E|].
    apply P. repeat split.
Defined.

(** X8.  Whatever the locks and the store calls do, a run of
    [handover_migrate] that returns accounts for every readable file of
    an old entries directory that is missing or can be listed once: as
    migrated, as skipped, or by an error message "Failed to migrate
    entry" when [addEntry] threw, after which the loop went on with the
    next file.  The errors of the entries come first; the others are at
    most three: of a profile copy that threw, of a feedback copy that
    threw, and of a final [rebuildIndex] that threw, which is only called
    when an entry was migrated.  When no store call throws otherwise than
    by the lock timeout and no entry was migrated, the store is as it
    was.  When the old entries directory cannot be listed, the report
    holds that error alone and the store is as it was. *)
Theorem migrate_accounts_for_every_file (calls : nat -> Migrate.Call)
    (old : Migrate.OldData) (new : Migrate.NewData)
    (s s' : Store.State) (report : Migrate.MigrationReport) :
  Migrate.handover_migrate calls old new s = Some (report, s') ->
  (forall message,
      Migrate.oldEntries old = Migrate.NotListable message ->
      report = Migrate.pushError ("Migration failed: " +:+ message) Migrate.emptyReport /\
      s' = s) /\
  ((forall message, Migrate.oldEntries old <> Migrate.NotListable message) ->
   (exists entryErrors otherErrors,
      Migrate.errors report = entryErrors ++ otherErrors /\
      (Migrate.entriesMigrated report + Migrate.entriesSkipped report
       + List.length entryErrors)%nat
        = MigrateSpec.readable (Migrate.listed old) /\
      Forall MigrateSpec.entryError entryErrors /\
      (List.length otherErrors <= 3)%nat /\
      Forall (fun e => MigrateSpec.profileError old new e \/
                       MigrateSpec.feedbackError old new e \/
                       MigrateSpec.rebuildError report e) otherErrors) /\
   ((forall k, Migrate.c_fault (calls k) = None) ->
    Migrate.entriesMigrated report = 0%nat -> s' = s)).
Proof.
  unfold Migrate.handover_migrate. intros H. split.
  { intros message O. rewrite O in H. by injection H as <- <-. }
  intros Hlist.
  assert (match Migrate.migrateEntries calls 0 (Migrate.listed old) Migrate.emptyReport s with
          | Some (report0, s0, n) =>
              let report1 := Migrate.migrateProfile old new report0 in
              let report2 := Migrate.migrateFeedback old new report1 in
              if (0 <? Migrate.entriesMigrated report2)%nat then
                match
                  Migrate.answered (calls n)
                    (Store.rebuildIndex (Migrate.c_lock (calls n))
                       (Migrate.c_now (calls n)) s0)
                with
                | (Migrate.Completed _, s1) => Some (report2, s1)
                | (Migrate.Threw message, s1) =>
                    Some (Migrate.pushError ("Migration failed: " +:+ message) report2, s1)
                | (Migrate.Hangs, _) => None
                end
              else Some (report2, s0)
          | None => None
          end = Some (report, s')) as H'.
  { destruct (Migrate.oldEntries old) as [|files|message] eqn:O;
      [exact H|exact H|by destruct (Hlist message)]. }
  clear H.
  destruct (Migrate.migrateEntries calls 0 (Migrate.listed old) Migrate.emptyReport s)
    as [[[r s1] n]|] eqn:M; [|discriminate].
  destruct (migrateEntries_accounts _ _ _ _ _ _ _ _ M) as (errs & E & F & A & _ & _ & _).
  cbn in E, A. cbv zeta in H'.
  destruct (migrateProfile_spec old new r) as (Em1 & Es1 & _ & _ & errs1 & Ee1 & L1 & I1).
  destruct (migrateFeedback_spec old new (Migrate.migrateProfile old new r))
    as (Em2 & Es2 & _ & _ & errs2 & Ee2 & L2 & I2).
  set (r2 := Migrate.migrateFeedback old new (Migrate.migrateProfile old new r)) in *.
  assert (Migrate.errors r2 = errs ++ errs1 ++ errs2) as Ee.
  { rewrite Ee2, Ee1, E, app_assoc. reflexivity. }
  assert (forall r3 : Migrate.MigrationReport,
             Forall (fun e => MigrateSpec.profileError old new e \/
                              MigrateSpec.feedbackError old new e \/
                              MigrateSpec.rebuildError r3 e) (errs1 ++ errs2)) as Fo.
  { intros r3. apply Forall_forall. intros e He. apply list_elem_of_In, in_app_iff in He.
    destruct He as [He|He]; [left; by apply I1 | right; left; by apply I2]. }
  destruct (0 <? Migrate.entriesMigrated r2)%nat eqn:Pos.
  - apply Nat.ltb_lt in Pos. unfold Migrate.answered, Store.rebuildIndex, Store.withLock in H'.
    assert (forall message s2,
               Some (Migrate.pushError ("Migration failed: " +:+ message) r2, s2)
               = Some (report, s') ->
               (exists entryErrors otherErrors,
                   Migrate.errors report = entryErrors ++ otherErrors /\
                   (Migrate.entriesMigrated report + Migrate.entriesSkipped report
                    + List.length entryErrors)%nat
                   = MigrateSpec.readable (Migrate.listed old) /\
                   Forall MigrateSpec.entryError entryErrors /\
                   (List.length otherErrors <= 3)%nat /\
                   Forall (fun e => MigrateSpec.profileError old new e \/
                                    MigrateSpec.feedbackError old new e \/
                                    MigrateSpec.rebuildError report e) otherErrors) /\
               ((forall k, Migrate.c_fault (calls k) = None) ->
                Migrate.entriesMigrated report = 0%nat -> s' = s)) as Threw.
    { intros message s2 [= <- <-]. split; [|cbn; lia].
      exists errs, ((errs1 ++ errs2) ++ ["Migration failed: " +:+ message]).
      cbn [Migrate.pushError Migrate.errors Migrate.entriesMigrated Migrate.entriesSkipped].
      rewrite Ee. split; [by rewrite <- !app_assoc|]. split; [lia|]. split; [exact F|].
      split; [rewrite !length_app; simpl; lia|].
      apply Forall_app. split; [apply Fo|]. apply Forall_singleton. right. right.
      split; [exact Pos|]. by exists message. }
    destruct (Migrate.c_lock (calls n)).
    + cbn [Store.rebuildIndexBody] in H'.
      destruct (Migrate.c_fault (calls n)) as [[message behind]|]; [by apply (Threw message behind)|].
      injection H' as <- <-. split; [|lia].
      exists errs, (errs1 ++ errs2). split; [exact Ee|]. split; [lia|]. split; [exact F|].
      split; [rewrite length_app; lia|apply Fo].
    + by apply (Threw Migrate.lockError s1).
    + discriminate.
  - apply Nat.ltb_ge in Pos. injection H' as <- <-. split.
    + exists errs, (errs1 ++ errs2). split; [exact Ee|]. split; [lia|]. split; [exact F|].
      split; [rewrite length_app; lia|apply Fo].
    + intros Hfault _.
      destruct (migrateEntries_state _ _ _ _ _ _ _ _ Hfault M) as (Same & _).
      apply Same. cbn. lia.
Qed.

(** With no data directory of the plugin and a lock that is never free,
    the one old entry and the old profile each give an error. *)
Lemma migrate_accounts_for_every_file_witness :
  Migrate.handover_migrate Sample.neverAcquired Sample.oldData Sample.noDataDir
    Sample.addedOnce
  = Some ({| Migrate.entriesMigrated := 0; Migrate.entriesSkipped := 0;
             Migrate.profileMigrated := false; Migrate.feedbackMigrated := false;
             Migrate.errors :=
               ["Failed to migrate entry u1.json: Error: Failed to acquire file lock: timeout";
                "Failed to migrate profile: Error: ENOENT: no such file or directory"] |},
          Sample.addedOnce) /\
  exists entryErrors otherErrors,
    ["Failed to migrate entry u1.json: Error: Failed to acquire file lock: timeout";
     "Failed to migrate profile: Error: ENOENT: no such file or directory"]
    = entryErrors ++ otherErrors /\
    List.length entryErrors = MigrateSpec.readable (Migrate.listed Sample.oldData).
Proof.
  assert (Migrate.handover_migrate Sample.neverAcquired Sample.oldData Sample.noDataDir
            Sample.addedOnce
          = Some ({| Migrate.entriesMigrated := 0; Migrate.entriesSkipped := 0;
                     Migrate.profileMigrated := false; Migrate.feedbackMigrated := false;
                     Migrate.errors :=
                       ["Failed to migrate entry u1.json: Error: Failed to acquire file lock: timeout";
                        "Failed to migrate profile: Error: ENOENT: no such file or directory"] |},
                  Sample.addedOnce)) as H by (vm_compute; reflexivity).
  split; [exact H|].
  destruct (migrate_accounts_for_every_file _ _ _ _ _ _ H) as [_ [(ee & oe & E & A & _) _]].
  - intros message. discriminate.
  - exists ee, oe. split; [exact E|exact A].
Defined.


(** ** Gap engine: the rows of the knowledge map *)

Section SetFacts.
Context {K : Type} (eqb : K -> K -> bool).
Hypothesis eqb_spec : forall a b, eqb a b = true <-> a = b.

Lemma setAdd_NoDup (l : list K) k : NoDup l -> NoDup (Js.setAdd eqb l k).
Proof.
  intros ND. unfold Js.setAdd, Js.setHas. destruct (existsb (eqb k) l) eqn:E; [done|].
  apply NoDup_app. split; [done|]. split; [|apply NoDup_singleton].
  intros x Hx Hk. apply list_elem_of_singleton in Hk. subst x.
  assert (existsb (eqb k) l = true); [|congruence].
  apply existsb_exists. exists k. split; [by apply list_elem_of_In|].
  by apply eqb_spec.
Qed.

Lemma setAdds_NoDup (l acc : list K) :
  NoDup acc -> NoDup (fold_left (Js.setAdd eqb) l acc).
Proof.
  revert acc. induction l as [|k l IH]; intros acc ND; simpl; [done|].
  apply IH. by apply setAdd_NoDup.
Qed.

Lemma setAdds_In (l acc : list K) x :
  In x (fold_left (Js.setAdd eqb) l acc) <-> In x acc \/ In x l.
Proof.
  revert acc. induction l as [|k l IH]; intros acc; simpl; [tauto|].
  rewrite IH, (setAdd_In eqb eqb_spec). intuition.
Qed.

Lemma mapSet_keys_In {V} (m : list (K * V)) k v x :
  In x (map fst (Js.mapSet eqb m k v)) <-> In x (map fst m) \/ x = k.
Proof.
  destruct (Js.mapGet eqb m k) as [v0|] eqn:G.
  - rewrite mapSet_keys_present by (done || congruence). split; [tauto|].
    intros [H| ->]; [done|].
    apply (mapGet_In eqb eqb_spec) in G. by apply (in_map fst) in G.
  - rewrite (mapSet_keys_fresh eqb _ _ _ G), in_app_iff. simpl. intuition.
Qed.

(** Counting with [get(k) ?? 0) + 1]. *)
Lemma bumps_count (l : list K) (m : list (K * nat)) c :
  default 0%nat (Js.mapGet eqb (fold_left (Gap.bump eqb) l m) c)
  = (default 0%nat (Js.mapGet eqb m c)
     + List.length (List.filter (fun k => eqb k c) l))%nat.
Proof.
  revert m. induction l as [|k l IH]; intros m; simpl; [lia|].
  rewrite IH. unfold Gap.bump at 1. rewrite (mapGet_mapSet eqb eqb_spec).
  destruct (eqb k c) eqn:E; simpl; [|lia].
  apply eqb_spec in E. rewrite E. lia.
Qed.

Lemma bumps_keys (l : list K) (m : list (K * nat)) x :
  In x (map fst (fold_left (Gap.bump eqb) l m)) <-> In x (map fst m) \/ In x l.
Proof.
  revert m. induction l as [|k l IH]; intros m; simpl; [tauto|].
  rewrite IH. unfold Gap.bump at 1. rewrite mapSet_keys_In. intuition.
Qed.

Lemma bumps_NoDup (l : list K) (m : list (K * nat)) :
  NoDup (map fst m) -> NoDup (map fst (fold_left (Gap.bump eqb) l m)).
Proof.
  revert m. induction l as [|k l IH]; intros m ND; simpl; [done|].
  apply IH. unfold Gap.bump. by apply (mapSet_NoDup eqb eqb_spec).
Qed.

Lemma filter_absent (l : list K) c :
  ~ In c l -> List.filter (fun k => eqb k c) l = [].
Proof.
  induction l as [|k l IH]; simpl; [done|]. intros N.
  destruct (eqb k c) eqn:E.
  - apply eqb_spec in E. destruct N. by left.
  - apply IH. tauto.
Qed.

(** A key without repetition in [l] is counted at most once. *)
Lemma filter_NoDup_le (l : list K) c :
  NoDup l -> (List.length (List.filter (fun k => eqb k c) l) <= 1)%nat.
Proof.
  induction 1 as [|k l Hk _ IH]; simpl; [lia|].
  destruct (eqb k c) eqn:E; [|exact IH]. apply eqb_spec in E. subst k.
  rewrite filter_absent; [simpl; lia|].
  intros Hin. apply Hk. by apply list_elem_of_In.
Qed.

End SetFacts.


Section KnowledgeMapFacts.
Import Gap.

Lemma fold_left_invariant {A B} (P : A -> Prop) (f : A -> B -> A) (l : list B) acc :
  P acc -> (forall a x, P a -> P (f a x)) -> P (fold_left f l acc).
Proof.
  intros H0 Hstep. revert acc H0. induction l as [|x l IH]; intros acc H0; simpl; auto.
Qed.

Lemma matchedCategories_NoDup entries question :
  NoDup (matchedCategories entries question).
Proof.
  unfold matchedCategories.
  set (byEntries := fold_left _ entries []).
  assert (NoDup byEntries) as ND.
  { apply fold_left_invariant; [constructor|]. intros a e Ha.
    destruct (existsb _ _); [|done]. by apply (setAdd_NoDup _ categoryEqb_spec). }
  destruct (List.length byEntries =? 0)%nat; [|exact ND].
  apply fold_left_invariant; [exact ND|]. intros a c Ha.
  destruct (Js.includes _ _); [|done]. by apply (setAdd_NoDup _ categoryEqb_spec).
Qed.

Lemma countQuestions_le (questions : list string) entries counts c :
  (default 0%nat
     (Js.mapGet categoryEqb
        (fold_left
           (fun counts question =>
              fold_left (bump categoryEqb) (matchedCategories entries question) counts)
           questions counts) c)
   <= default 0%nat (Js.mapGet categoryEqb counts c) + List.length questions)%nat.
Proof.
  revert counts. induction questions as [|q questions IH]; intros counts; simpl; [lia|].
  etransitivity; [apply IH|]. rewrite (bumps_count _ categoryEqb_spec).
  pose proof (filter_NoDup_le _ categoryEqb_spec (matchedCategories entries q) c
                (matchedCategories_NoDup entries q)).
  lia.
Qed.

Lemma topics_In entries m c t :
  In t
    (default []
       (Js.mapGet categoryEqb
          (fold_left
             (fun m entry =>
                let old := default [] (Js.mapGet categoryEqb m (category entry)) in
                Js.mapSet categoryEqb m (category entry)
                  (Js.setAdd String.eqb old (title entry)))
             entries m) c)) <->
  In t (default [] (Js.mapGet categoryEqb m c)) \/
  exists e, In e entries /\ category e = c /\ title e = t.
Proof.
  revert m. induction entries as [|e entries IH]; intros m; cbn [fold_left].
  - split; [tauto|]. intros [H|(e & [] & _)]. exact H.
  - rewrite IH. cbv zeta. rewrite (mapGet_mapSet _ categoryEqb_spec).
    destruct (categoryEqb (category e) c) eqn:E.
    + apply categoryEqb_spec in E. subst c. cbn [from_option Datatypes.id].
      rewrite (setAdd_In _ string_eqb_spec). split.
      * intros [[H| ->]|(e' & He' & Hc & Ht)]; [by left|right|right].
        -- exists e. split; [by left|done].
        -- exists e'. split; [by right|done].
      * intros [H|(e' & [<-|He'] & Hc & Ht)]; [by left; left| |].
        -- left. right. done.
        -- right. exists e'. auto.
    + split.
      * intros [H|(e' & He' & Hc & Ht)]; [by left|]. right. exists e'.
        split; [by right|done].
      * intros [H|(e' & [<-|He'] & Hc & Ht)]; [by left| |].
        -- apply categoryEqb_spec in Hc. congruence.
        -- right. exists e'. auto.
Qed.

Lemma topics_NoDup entries m :
  (forall c, NoDup (default [] (Js.mapGet categoryEqb m c))) ->
  forall c,
    NoDup
      (default []
         (Js.mapGet categoryEqb
            (fold_left
               (fun m entry =>
                  let old := default [] (Js.mapGet categoryEqb m (category entry)) in
                  Js.mapSet categoryEqb m (category entry)
                    (Js.setAdd String.eqb old (title entry)))
               entries m) c)).
Proof.
  intros H0.
  apply (fold_left_invariant
           (fun m : list (KnowledgeCategory * list string) =>
              forall c, NoDup (default [] (Js.mapGet categoryEqb m c)))); [exact H0|].
  intros a e Ha c. cbv zeta. rewrite (mapGet_mapSet _ categoryEqb_spec).
  destruct (categoryEqb (category e) c); [|apply Ha].
  cbn [from_option Datatypes.id]. apply (setAdd_NoDup _ string_eqb_spec). apply Ha.
Qed.

Lemma sum_pointwise {A} (f g : A -> nat) (l : list A) :
  list_sum (map (fun x => (f x + g x)%nat) l)
  = (list_sum (map f l) + list_sum (map g l))%nat.
Proof. induction l as [|x l IH]; simpl; lia. Qed.

Lemma sum_indicator (cats : list KnowledgeCategory) x :
  NoDup cats -> In x cats ->
  list_sum (map (fun c => if categoryEqb x c then 1%nat else 0%nat) cats) = 1%nat.
Proof.
  induction 1 as [|c cats Hc ND IH]; [done|]. intros [->|Hin]; simpl.
  - rewrite (proj2 (categoryEqb_spec x x) eq_refl).
    assert (list_sum (map (fun c => if categoryEqb x c then 1%nat else 0%nat) cats) = 0%nat)
      as ->; [|done].
    clear IH ND. induction cats as [|c cats IH]; [done|]. simpl.
    destruct (categoryEqb x c) eqn:E.
    + apply categoryEqb_spec in E. subst c. destruct Hc. apply list_elem_of_In. by left.
    + apply IH. intros H. apply Hc. apply list_elem_of_In. right.
      by apply list_elem_of_In.
  - destruct (categoryEqb x c) eqn:E.
    + apply categoryEqb_spec in E. subst c. destruct Hc. by apply list_elem_of_In.
    + by apply IH.
Qed.

Lemma counts_add_up (entries : list KnowledgeEntry) (cats : list KnowledgeCategory) :
  NoDup cats -> (forall e, In e entries -> In (category e) cats) ->
  list_sum
    (map (fun c => List.length (List.filter (fun e => categoryEqb (category e) c) entries))
       cats)
  = List.length entries.
Proof.
  intros ND. induction entries as [|e entries IH]; intros Hin.
  - simpl. clear. induction cats; simpl; done.
  - transitivity
      (list_sum
         (map (fun c =>
                 ((if categoryEqb (category e) c then 1 else 0)
                  + List.length
                      (List.filter (fun e => categoryEqb (category e) c) entries))%nat)
            cats)).
    + f_equal. apply map_ext. intros c. simpl.
      by destruct (categoryEqb (category e) c).
    + rewrite sum_pointwise, sum_indicator, IH; [done| |done|].
      * intros e' H. apply Hin. by right.
      * apply Hin. by left.
Qed.

Lemma entryCounts_keys (entries : list KnowledgeEntry) m0 c :
  In c (map fst
          (fold_left (fun m entry => bump categoryEqb m (category entry)) entries m0))
  <-> In c (map fst m0) \/ exists e, In e entries /\ category e = c.
Proof.
  revert m0. induction entries as [|e entries IH]; intros m0; simpl.
  - split; [tauto|]. intros [H|(e & [] & _)]. exact H.
  - rewrite IH. unfold bump at 1. rewrite (mapSet_keys_In _ categoryEqb_spec).
    split.
    + intros [[H| ->]|(e' & He' & Hc)]; [by left|right|right].
      * exists e. auto.
      * exists e'. auto.
    + intros [H|(e' & [<-|He'] & Hc)]; [by left; left| |].
      * left. by right.
      * right. exists e'. auto.
Qed.

End KnowledgeMapFacts.

(** X9.  The knowledge map has one row per category, without
    repetition: the required and the nice-to-have categories of the
    handover type and every category that has an entry.  The topics of
    a row are the titles of the entries of its category, each once; its
    question count is at most the number of user questions of the
    sessions; and the entry counts of the rows add up to the number of
    entries. *)
Theorem knowledge_map_rows (entries : list KnowledgeEntry)
    (sessions : list Session) (handoverType : HandoverType) :
  NoDup (map Gap.km_category (Gap.buildKnowledgeMap entries sessions handoverType)) /\
  (forall c,
     In c (map Gap.km_category (Gap.buildKnowledgeMap entries sessions handoverType)) <->
     In c (Gap.REQUIRED_CATEGORIES handoverType) \/
     In c (Gap.NICE_TO_HAVE_CATEGORIES handoverType) \/
     exists e, In e entries /\ category e = c) /\
  (forall item,
     In item (Gap.buildKnowledgeMap entries sessions handoverType) ->
     NoDup (Gap.topics item) /\
     (forall t,
        In t (Gap.topics item) <->
        exists e, In e entries /\ category e = Gap.km_category item /\ title e = t) /\
     (Gap.questionsAsked item <= List.length (Gap.userQuestions sessions))%nat) /\
  list_sum (map Gap.entryCount (Gap.buildKnowledgeMap entries sessions handoverType))
    = List.length entries.
Proof.
  unfold Gap.buildKnowledgeMap. cbv zeta.
  set (entryCounts :=
         fold_left (fun m entry => Gap.bump Gap.categoryEqb m (category entry)) entries []).
  set (cats :=
         fold_left (Js.setAdd Gap.categoryEqb)
           ((Gap.REQUIRED_CATEGORIES handoverType
             ++ Gap.NICE_TO_HAVE_CATEGORIES handoverType) ++ map fst entryCounts) []).
  assert (NoDup cats) as ND by (apply (setAdds_NoDup _ categoryEqb_spec); constructor).
  assert (forall c, In c (map fst entryCounts) <-> exists e, In e entries /\ category e = c)
    as Keys.
  { intros c. unfold entryCounts. rewrite entryCounts_keys. simpl. tauto. }
  assert (forall c, In c cats <->
            In c (Gap.REQUIRED_CATEGORIES handoverType) \/
            In c (Gap.NICE_TO_HAVE_CATEGORIES handoverType) \/
            exists e, In e entries /\ category e = c) as Cats.
  { intros c. unfold cats. rewrite (setAdds_In _ categoryEqb_spec), !in_app_iff, Keys.
    simpl. tauto. }
  rewrite !map_map. cbn [Gap.km_category Gap.entryCount]. rewrite map_id.
  split; [exact ND|]. split; [exact Cats|]. split.
  - intros item Hin. apply in_map_iff in Hin as (c & <- & Hc).
    cbn [Gap.topics Gap.km_category Gap.questionsAsked]. split; [|split].
    + apply topics_NoDup. intros c'. simpl. constructor.
    + intros t. rewrite topics_In. simpl. tauto.
    + unfold Gap.countQuestionsByCategory.
      etransitivity; [apply countQuestions_le|]. simpl. lia.
  - erewrite map_ext; [apply (counts_add_up entries cats ND)|].
    + intros e He. apply Cats. right. right. by exists e.
    + intros c. unfold entryCounts. rewrite bump_count. simpl. reflexivity.
Qed.


(** ** Gap engine: overall coverage and topic coverage *)

Section OverallCoverageFacts.
Import Gap GapSpec.

Lemma count_fold {A} (f : A -> bool) (l : list A) (n : nat) :
  fold_left (fun k x => if f x then (k + 1)%nat else k) l n
  = (n + List.length (List.filter f l))%nat.
Proof.
  revert n. induction l as [|x l IH]; intros n; simpl; [lia|].
  rewrite IH. destruct (f x); simpl; lia.
Qed.

Lemma filter_length_le {A} (f : A -> bool) (l : list A) :
  (List.length (List.filter f l) <= List.length l)%nat.
Proof. induction l as [|x l IH]; simpl; [lia|]. destruct (f x); simpl; lia. Qed.

Lemma filter_length_all {A} (f : A -> bool) (l : list A) :
  List.length (List.filter f l) = List.length l <-> forall x, In x l -> f x = true.
Proof.
  induction l as [|x l IH]; simpl; [by split|].
  pose proof (filter_length_le f l). destruct (f x) eqn:E; simpl.
  - split.
    + intros H0 y [<-|Hy]; [done|]. apply IH; [lia|done].
    + intros H0. f_equal. apply IH. auto.
  - split; [lia|]. intros H0. rewrite H0 in E by auto. discriminate.
Qed.

Lemma filter_length_none {A} (f : A -> bool) (l : list A) :
  List.length (List.filter f l) = 0%nat <-> forall x, In x l -> f x = false.
Proof.
  induction l as [|x l IH]; simpl; [by split|].
  destruct (f x) eqn:E; simpl.
  - split; [lia|]. intros H0. rewrite H0 in E by auto. discriminate.
  - rewrite IH. split; [intros H0 y [<-|Hy]; auto | auto].
Qed.

Lemma hasEntry_spec entries c :
  hasEntry entries c = true <-> exists e, In e entries /\ category e = c.
Proof.
  unfold hasEntry. rewrite existsb_exists. split.
  - intros (e & He & E). apply categoryEqb_spec in E. eauto.
  - intros (e & He & E). exists e. split; [done|]. by apply categoryEqb_spec.
Qed.

Lemma hasEntry_count entries c :
  hasEntry entries c
  = (0 <? List.length (List.filter (fun e => categoryEqb (category e) c) entries))%nat.
Proof.
  unfold hasEntry. induction entries as [|e entries IH]; simpl; [done|].
  destruct (categoryEqb (category e) c); simpl; [done|exact IH].
Qed.

(** The row of a category is the first one that [find] meets. *)
Lemma find_row {A} (row : KnowledgeCategory -> A) (cat : A -> KnowledgeCategory)
    (cats : list KnowledgeCategory) c :
  (forall x, cat (row x) = x) -> In c cats ->
  List.find (fun m => categoryEqb (cat m) c) (map row cats) = Some (row c).
Proof.
  intros Hrow. induction cats as [|x cats IH]; [done|]. simpl. rewrite Hrow.
  destruct (categoryEqb x c) eqn:E.
  - apply categoryEqb_spec in E. by subst.
  - intros [->|H]; [|by apply IH].
    rewrite (proj2 (categoryEqb_spec c c) eq_refl) in E. discriminate.
Qed.

Lemma overall_percent_bounds (k n : nat) :
  (0 < n)%nat -> (k <= n)%nat ->
  0 <= Js.round (inject_Z (Z.of_nat k) / inject_Z (Z.of_nat n) * 100) <= 100.
Proof.
  intros Hn Hk. unfold Js.round.
  assert (0 <= inject_Z (Z.of_nat k) / inject_Z (Z.of_nat n) * 100 <= 100)%Q as [L U].
  { assert (0 < inject_Z (Z.of_nat n))%Q as Pn.
    { change 0%Q with (inject_Z 0). rewrite <- Zlt_Qlt. lia. }
    assert (0 <= inject_Z (Z.of_nat k))%Q as Pk.
    { change 0%Q with (inject_Z 0). rewrite <- Zle_Qle. lia. }
    assert (inject_Z (Z.of_nat k) <= inject_Z (Z.of_nat n))%Q as Le.
    { rewrite <- Zle_Qle. lia. }
    revert Pn Pk Le.
    generalize (inject_Z (Z.of_nat k)) as a, (inject_Z (Z.of_nat n)) as b.
    intros a b Pn Pk Le. split.
    - apply Qmult_le_0_compat; [|done]. apply Qle_shift_div_l; [done|]. lra.
    - assert (a / b <= 1)%Q as H1.
      { apply Qle_shift_div_r; [done|]. lra. }
      revert H1. generalize (a / b)%Q. intros q H1. lra. }
  revert L U. generalize (inject_Z (Z.of_nat k) / inject_Z (Z.of_nat n) * 100)%Q.
  intros q L U. split.
  - change 0 with (Qfloor 0). apply Qfloor_resp_le. lra.
  - change 100 with (Qfloor (100 + (1 # 2))). apply Qfloor_resp_le. lra.
Qed.

Lemma overall_percent_extremes (k n : nat) :
  n = 4%nat \/ n = 6%nat -> (k <= n)%nat ->
  (Js.round (inject_Z (Z.of_nat k) / inject_Z (Z.of_nat n) * 100) = 100 <-> k = n) /\
  (Js.round (inject_Z (Z.of_nat k) / inject_Z (Z.of_nat n) * 100) = 0 <-> k = 0%nat).
Proof.
  intros [-> | ->] Hk.
  - do 5 (destruct k as [|k]; [vm_compute; split; split; congruence|]). lia.
  - do 7 (destruct k as [|k]; [vm_compute; split; split; congruence|]). lia.
Qed.

Lemma coveredCount_fold (mapItems : list KnowledgeMapItem)
    (required : list KnowledgeCategory) (n : nat) :
  fold_left
    (fun coveredCount cat =>
       match List.find (fun m => categoryEqb (km_category m) cat) mapItems with
       | Some item =>
           if (0 <? entryCount item)%nat then (coveredCount + 1)%nat else coveredCount
       | None => coveredCount
       end)
    required n
  = (n + List.length
           (List.filter
              (fun cat =>
                 match List.find (fun m => categoryEqb (km_category m) cat) mapItems with
                 | Some item => (0 <? entryCount item)%nat
                 | None => false
                 end)
              required))%nat.
Proof.
  revert n. induction required as [|cat required IH]; intros n; simpl; [lia|].
  rewrite IH.
  destruct (List.find (fun m => categoryEqb (km_category m) cat) mapItems) as [item|];
    [destruct (0 <? entryCount item)%nat|]; simpl; lia.
Qed.

Lemma knowledgeMap_find entries sessions handoverType c :
  In c (REQUIRED_CATEGORIES handoverType) ->
  exists item,
    List.find (fun m => categoryEqb (km_category m) c)
      (buildKnowledgeMap entries sessions handoverType) = Some item /\
    entryCount item
    = List.length (List.filter (fun e => categoryEqb (category e) c) entries).
Proof.
  intros Hc. unfold buildKnowledgeMap. cbv zeta.
  eexists. split.
  - apply (find_row _ km_category); [reflexivity|].
    apply (setAdds_In _ categoryEqb_spec). right.
    rewrite !in_app_iff. by left; left.
  - cbn [entryCount]. rewrite bump_count. reflexivity.
Qed.

Lemma required_length handoverType :
  List.length (REQUIRED_CATEGORIES handoverType) = 4%nat \/
  List.length (REQUIRED_CATEGORIES handoverType) = 6%nat.
Proof. destruct handoverType; simpl; auto. Qed.

End OverallCoverageFacts.

(** X10.  The overall coverage is a percentage between 0 and 100 for any
    list of map items.  For the knowledge map built from the entries it
    is the rounded share of the required categories of the handover type
    that have an entry: 100 exactly when each required category has one,
    0 exactly when none has; sessions, nice-to-have categories and the
    number of entries per category have no influence. *)
Theorem overall_coverage (entries : list KnowledgeEntry) (sessions : list Session)
    (handoverType : HandoverType) (mapItems : list Gap.KnowledgeMapItem) :
  0 <= Gap.calculateOverallCoverage mapItems handoverType <= 100 /\
  Gap.calculateOverallCoverage
    (Gap.buildKnowledgeMap entries sessions handoverType) handoverType
  = Js.round
      (inject_Z (Z.of_nat (GapSpec.coveredRequired entries handoverType))
       / inject_Z (Z.of_nat (List.length (Gap.REQUIRED_CATEGORIES handoverType))) * 100) /\
  (Gap.calculateOverallCoverage
     (Gap.buildKnowledgeMap entries sessions handoverType) handoverType = 100
   <-> forall c, In c (Gap.REQUIRED_CATEGORIES handoverType) ->
         exists e, In e entries /\ category e = c) /\
  (Gap.calculateOverallCoverage
     (Gap.buildKnowledgeMap entries sessions handoverType) handoverType = 0
   <-> forall c e, In c (Gap.REQUIRED_CATEGORIES handoverType) ->
         In e entries -> category e <> c).
Proof.
  assert (forall items,
            Gap.calculateOverallCoverage items handoverType
            = Js.round
                (inject_Z
                   (Z.of_nat
                      (List.length
                         (List.filter
                            (fun cat =>
                               match
                                 List.find
                                   (fun m => Gap.categoryEqb (Gap.km_category m) cat) items
                               with
                               | Some item => (0 <? Gap.entryCount item)%nat
                               | None => false
                               end)
                            (Gap.REQUIRED_CATEGORIES handoverType))))
                 / inject_Z (Z.of_nat (List.length (Gap.REQUIRED_CATEGORIES handoverType)))
                 * 100)) as Calc.
  { intros items. unfold Gap.calculateOverallCoverage. cbv zeta.
    rewrite coveredCount_fold.
    destruct (required_length handoverType) as [-> | ->]; reflexivity. }
  assert (Gap.calculateOverallCoverage
            (Gap.buildKnowledgeMap entries sessions handoverType) handoverType
          = Js.round
              (inject_Z (Z.of_nat (GapSpec.coveredRequired entries handoverType))
               / inject_Z (Z.of_nat (List.length (Gap.REQUIRED_CATEGORIES handoverType)))
               * 100)) as Built.
  { rewrite Calc. unfold GapSpec.coveredRequired. do 6 f_equal.
    apply filter_ext_in. intros c Hc.
    destruct (knowledgeMap_find entries sessions handoverType c Hc) as (item & -> & ->).
    symmetry. apply hasEntry_count. }
  pose proof (filter_length_le (GapSpec.hasEntry entries)
                (Gap.REQUIRED_CATEGORIES handoverType)) as Le.
  destruct (overall_percent_extremes _ _ (required_length handoverType) Le) as [Top Bottom].
  split; [|split; [exact Built|split]].
  - rewrite Calc. apply overall_percent_bounds.
    + destruct (required_length handoverType) as [-> | ->]; lia.
    + apply filter_length_le.
  - rewrite Built. unfold GapSpec.coveredRequired in *. rewrite Top.
    rewrite filter_length_all. split.
    + intros H c Hc. by apply hasEntry_spec, H.
    + intros H c Hc. by apply hasEntry_spec, H.
  - rewrite Built. unfold GapSpec.coveredRequired in *. rewrite Bottom.
    rewrite filter_length_none. split.
    + intros H c e Hc He E. specialize (H c Hc).
      assert (GapSpec.hasEntry entries c = true); [|congruence].
      apply hasEntry_spec. eauto.
    + intros H c Hc. destruct (GapSpec.hasEntry entries c) eqn:E; [|done].
      apply hasEntry_spec in E as (e & He & Ec). by destruct (H c e).
Qed.


Section TopicCoverageFacts.
Import Gap GapSpec.

Lemma knowledgeMap_item entries sessions handoverType item :
  In item (buildKnowledgeMap entries sessions handoverType) ->
  entryCount item
  = List.length (List.filter (fun e => categoryEqb (category e) (km_category item)) entries) /\
  coverage item = categoryCoverage (entryCount item) (questionsAsked item) /\
  (forall t,
     In t (topics item) <->
     exists e, In e entries /\ category e = km_category item /\ title e = t).
Proof.
  unfold buildKnowledgeMap. cbv zeta. intros Hin.
  apply in_map_iff in Hin as (c & <- & _).
  cbn [entryCount coverage topics km_category questionsAsked].
  split; [by rewrite bump_count|]. split; [reflexivity|].
  intros t. rewrite topics_In. simpl. tauto.
Qed.



Lemma filter_length_pos {A} (f : A -> bool) (l : list A) x :
  In x l -> f x = true -> (0 < List.length (List.filter f l))%nat.
Proof.
  intros Hin Hf. assert (In x (List.filter f l)) as H by (by apply filter_In).
  destruct (List.filter f l); [done|simpl; lia].
Qed.





End TopicCoverageFacts.



(** ** The coverage bars of the [map] command *)

Section MapCommandFacts.
Import MapCommand.

Lemma filled_low coverage : (coverage <= 102)%nat -> 0 <= filled coverage <= 20.
Proof.
  intros H. unfold filled, Js.round, BAR_WIDTH.
  assert (0 <= inject_Z (Z.of_nat coverage) <= 102)%Q as [L U].
  { split; [change 0%Q with (inject_Z 0)|change 102%Q with (inject_Z 102)];
      rewrite <- Zle_Qle; lia. }
  revert L U. generalize (inject_Z (Z.of_nat coverage)). intros q L U. split.
  - change 0 with (Qfloor 0). apply Qfloor_resp_le. unfold Qdiv.
    change (/ 100)%Q with (1 # 100)%Q. change (inject_Z 20) with 20%Q. lra.
  - apply Z.le_trans with (Qfloor (209 # 10)); [|done]. apply Qfloor_resp_le.
    unfold Qdiv. change (/ 100)%Q with (1 # 100)%Q. change (inject_Z 20) with 20%Q. lra.
Qed.

Lemma filled_high coverage : (103 <= coverage)%nat -> 21 <= filled coverage.
Proof.
  intros H. unfold filled, Js.round, BAR_WIDTH.
  assert (103 <= inject_Z (Z.of_nat coverage))%Q as L.
  { change 103%Q with (inject_Z 103). rewrite <- Zle_Qle. lia. }
  revert L. generalize (inject_Z (Z.of_nat coverage)). intros q L.
  apply Z.le_trans with (Qfloor (211 # 10)); [done|]. apply Qfloor_resp_le.
  unfold Qdiv. change (/ 100)%Q with (1 # 100)%Q. change (inject_Z 20) with 20%Q. lra.
Qed.

Lemma bar_cells coverage cells :
  bar coverage = Some cells ->
  0 <= filled coverage <= 20 /\
  cells = List.repeat FullBlock (Z.to_nat (filled coverage))
          ++ List.repeat LightShade (Z.to_nat (20 - filled coverage)).
Proof.
  unfold bar, repeatCell, empty, BAR_WIDTH.
  destruct (filled coverage <? 0) eqn:F; [discriminate|].
  destruct (20 - filled coverage <? 0) eqn:E; [discriminate|].
  intros [= <-]. apply Z.ltb_ge in F, E. split; [lia|reflexivity].
Qed.

Lemma coverage_tens entryCount questions :
  exists k, (k <= 10)%nat /\ Gap.categoryCoverage entryCount questions = (10 * k)%nat.
Proof.
  unfold Gap.categoryCoverage.
  destruct (0 <? entryCount)%nat; [|exists 0%nat; split; [lia|reflexivity]].
  destruct (Nat.min_spec 80 (entryCount * 20)) as [[He ->]|[He ->]];
    (destruct (0 <? questions)%nat;
     [destruct (Nat.min_spec 20 (questions * 10)) as [[Hq ->]|[Hq ->]]|]).
  - exists 10%nat. split; lia.
  - exists (8 + questions)%nat. split; lia.
  - exists 8%nat. split; lia.
  - exists (2 * entryCount + 2)%nat. split; lia.
  - exists (2 * entryCount + questions)%nat. split; lia.
  - exists (2 * entryCount)%nat. split; lia.
Qed.

End MapCommandFacts.

(** X12.  The coverage bar of the [map] command can be drawn exactly for
    a coverage of at most 102: beyond that the count of light cells is
    negative and [repeat] throws.  A bar that is drawn has 20 cells, the
    full ones first.  Every row of the knowledge map gets its bar, with
    one full cell per 5 points of coverage, and the rows are printed
    from the highest coverage to the lowest. *)
Theorem map_bars_are_drawn (entries : list KnowledgeEntry)
    (sessions : list Session) (handoverType : HandoverType) :
  (forall coverage,
     (exists cells, MapCommand.bar coverage = Some cells) <-> (coverage <= 102)%nat) /\
  (forall coverage cells,
     MapCommand.bar coverage = Some cells ->
     List.length cells = 20%nat /\
     cells = List.repeat MapCommand.FullBlock (Z.to_nat (MapCommand.filled coverage))
             ++ List.repeat MapCommand.LightShade
                  (20 - Z.to_nat (MapCommand.filled coverage))) /\
  (forall item,
     In item (Gap.buildKnowledgeMap entries sessions handoverType) ->
     In (Gap.km_category item,
         Some (List.repeat MapCommand.FullBlock (Gap.coverage item / 5)
               ++ List.repeat MapCommand.LightShade (20 - Gap.coverage item / 5)))
        (MapCommand.bars (Gap.buildKnowledgeMap entries sessions handoverType))) /\
  StronglySorted (fun a b => (Gap.coverage b <= Gap.coverage a)%nat)
    (Js.sort MapCommand.moreCovered
       (Gap.buildKnowledgeMap entries sessions handoverType)).
Proof.
  split; [|split; [|split]].
  - intros coverage. split.
    + intros (cells & B). apply bar_cells in B as [R _].
      destruct (le_lt_dec coverage 102) as [H|H]; [exact H|].
      pose proof (filled_high coverage). lia.
    + intros H. pose proof (filled_low coverage H) as R.
      unfold MapCommand.bar, MapCommand.repeatCell, MapCommand.empty, MapCommand.BAR_WIDTH.
      destruct (MapCommand.filled coverage <? 0) eqn:F; [apply Z.ltb_lt in F; lia|].
      destruct (20 - MapCommand.filled coverage <? 0) eqn:E; [apply Z.ltb_lt in E; lia|].
      eauto.
  - intros coverage cells B. apply bar_cells in B as [R ->].
    rewrite length_app, !repeat_length.
    replace (Z.to_nat (20 - MapCommand.filled coverage))
      with (20 - Z.to_nat (MapCommand.filled coverage))%nat by lia.
    split; [lia|reflexivity].
  - intros item Hin. unfold MapCommand.bars. apply in_map_iff. exists item. split.
    + f_equal.
      destruct (knowledgeMap_item _ _ _ _ Hin) as (_ & -> & _).
      destruct (coverage_tens (Gap.entryCount item) (Gap.questionsAsked item))
        as (k & Hk & ->).
      do 11 (destruct k as [|k]; [vm_compute; reflexivity|]). lia.
    + apply (Permutation_in _ (Permutation_sym (sort_perm _ _))). exact Hin.
  - eapply sorted_weaken with (P := fun _ => True);
      [apply Forall_forall; done| |apply sort_sorted].
    + intros x y _ _. unfold Js.ordered, MapCommand.moreCovered.
      intros H. apply Nat.ltb_ge in H. exact H.
    + intros a b. unfold MapCommand.moreCovered. intros H.
      apply Nat.ltb_lt in H. apply Nat.ltb_ge. lia.
    + intros a b c. unfold Js.ordered, MapCommand.moreCovered.
      rewrite !Nat.ltb_ge. lia.
Qed.


(** ** Feedback analyzer: tokens *)

Section TokenFacts.
Import Analyzer PatternSpec.

Lemma splitSpaces_chars (q : ascii -> bool) inSep cur s t :
  Js.anyChar q cur = false ->
  Js.anyChar (fun c => q c && negb (Js.isSpace c)) s = false ->
  In t (Js.splitSpaces inSep cur s) -> Js.anyChar q t = false.
Proof.
  revert inSep cur. induction s as [|c s IH]; intros inSep cur Hcur Hs; simpl.
  - intros [<-|[]]. exact Hcur.
  - simpl in Hs. apply orb_false_iff in Hs as [Hc Hs].
    destruct (Js.isSpace c) eqn:Sp.
    + destruct inSep.
      * by apply IH.
      * intros [<-|H]; [exact Hcur|]. by apply (IH true "").
    + apply IH; [|exact Hs]. rewrite anyChar_append. simpl.
      rewrite Hcur. simpl in Hc. rewrite andb_true_r in Hc. by rewrite Hc.
Qed.

Lemma keepChar_kept c :
  negb (isTokenChar (keepChar c)) && negb (Js.isSpace (keepChar c)) = false.
Proof.
  unfold keepChar, isTokenChar.
  destruct (((97 <=? Js.code c) && (Js.code c <=? 122)
             || (48 <=? Js.code c) && (Js.code c <=? 57))%N) eqn:T.
  - simpl. rewrite T. reflexivity.
  - simpl. destruct (Js.isSpace c) eqn:Sp.
    + rewrite T, Sp. reflexivity.
    + reflexivity.
Qed.

Lemma stripPunctuation_chars s :
  Js.anyChar (fun c => negb (isTokenChar c) && negb (Js.isSpace c)) (stripPunctuation s)
  = false.
Proof.
  induction s as [|c s IH]; [reflexivity|]. simpl. by rewrite keepChar_kept, IH.
Qed.

End TokenFacts.

(** X13.  Every token that [tokenize] returns has at least three
    characters, all of them lower-case letters or digits, and is not a
    stop word. *)
Theorem tokens_are_plain_words (text t : string) :
  In t (Analyzer.tokenize text) ->
  (3 <= String.length t)%nat /\
  PatternSpec.plainWord t /\
  ~ In t Analyzer.stopWords.
Proof.
  unfold Analyzer.tokenize. intros H. apply filter_In in H as [Hin Hf].
  apply andb_true_iff in Hf as [Hlen Hstop]. split; [|split].
  - apply Nat.ltb_lt in Hlen. lia.
  - unfold PatternSpec.plainWord.
    apply (splitSpaces_chars _ false "" _ t eq_refl (stripPunctuation_chars _) Hin).
  - intros Hs. apply arrayIncludes_In in Hs. rewrite Hs in Hstop. discriminate.
Qed.

Lemma tokens_are_plain_words_witness :
  (3 <= String.length "deployment")%nat /\
  PatternSpec.plainWord "deployment" /\
  ~ In "deployment" Analyzer.stopWords.
Proof.
  apply (tokens_are_plain_words "How does deployment WORK?").
  vm_compute. auto.
Defined.


(** ** Feedback analyzer: term frequency and question patterns *)

Section FrequencyFacts.
Import Analyzer PatternSpec.

Lemma unique_NoDup l : NoDup (unique l).
Proof. apply (setAdds_NoDup _ string_eqb_spec). constructor. Qed.

Lemma unique_In l x : In x (unique l) <-> In x l.
Proof. unfold unique. rewrite (setAdds_In _ string_eqb_spec). simpl. tauto. Qed.

Lemma count_in_unique l t :
  List.length (List.filter (fun k => String.eqb k t) (unique l))
  = if Js.arrayIncludes l t then 1%nat else 0%nat.
Proof.
  destruct (Js.arrayIncludes l t) eqn:E.
  - apply arrayIncludes_In in E. apply (proj2 (unique_In _ _)) in E.
    pose proof (filter_NoDup_le _ string_eqb_spec (unique l) t (unique_NoDup l)).
    pose proof (filter_length_pos (fun k => String.eqb k t) (unique l) t E
                  (String.eqb_refl t)).
    lia.
  - rewrite (filter_absent _ string_eqb_spec); [reflexivity|].
    intros H. apply (proj1 (unique_In _ _)) in H.
    apply (proj2 (arrayIncludes_In _ _)) in H.
    congruence.
Qed.

Lemma termFrequency_counts questions freq0 t :
  default 0%nat
    (Js.mapGet String.eqb
       (fold_left
          (fun freq q => fold_left (Gap.bump String.eqb) (unique (tokenize q)) freq)
          questions freq0) t)
  = (default 0%nat (Js.mapGet String.eqb freq0 t) + documentFrequency questions t)%nat.
Proof.
  revert freq0. unfold documentFrequency, questionsAbout.
  induction questions as [|q questions IH]; intros freq0; simpl; [lia|].
  rewrite IH, (bumps_count _ string_eqb_spec), count_in_unique.
  destruct (Js.arrayIncludes (tokenize q) t); simpl; lia.
Qed.

Lemma termFrequency_keys questions freq0 t :
  In t (map fst
          (fold_left
             (fun freq q => fold_left (Gap.bump String.eqb) (unique (tokenize q)) freq)
             questions freq0))
  <-> In t (map fst freq0) \/ (0 < documentFrequency questions t)%nat.
Proof.
  revert freq0. unfold documentFrequency, questionsAbout.
  induction questions as [|q questions IH]; intros freq0; simpl.
  - split; [tauto|]. intros [H|H]; [done|lia].
  - rewrite IH, (bumps_keys _ string_eqb_spec), unique_In.
    destruct (Js.arrayIncludes (tokenize q) t) eqn:E; simpl.
    + apply arrayIncludes_In in E. split; [intros _; right; lia | tauto].
    + split; [intros [[H|H]|H]; [by left| |by right] | tauto].
      apply (proj2 (arrayIncludes_In _ _)) in H. congruence.
Qed.

Lemma termFrequency_NoDup questions freq0 :
  NoDup (map fst freq0) ->
  NoDup (map fst
           (fold_left
              (fun freq q => fold_left (Gap.bump String.eqb) (unique (tokenize q)) freq)
              questions freq0)).
Proof.
  revert freq0. induction questions as [|q questions IH]; intros freq0 ND; simpl; [done|].
  apply IH. by apply (bumps_NoDup _ string_eqb_spec).
Qed.

Lemma termFrequency_spec questions t n :
  In (t, n) (buildTermFrequency questions)
  <-> n = documentFrequency questions t /\ (0 < n)%nat.
Proof.
  unfold buildTermFrequency.
  pose proof (termFrequency_counts questions [] t) as C.
  pose proof (termFrequency_keys questions [] t) as K.
  pose proof (termFrequency_NoDup questions [] (NoDup_nil_2 (A := string))) as ND.
  simpl in C, K. split.
  - intros Hin. pose proof (In_mapGet _ string_eqb_spec _ _ _ ND Hin) as G.
    rewrite G in C. simpl in C. subst n. split; [reflexivity|].
    apply (in_map fst) in Hin. apply K in Hin. tauto.
  - intros [-> Pos].
    assert (In t (map fst
                    (fold_left
                       (fun freq q =>
                          fold_left (Gap.bump String.eqb) (unique (tokenize q)) freq)
                       questions []))) as Hin by (apply K; by right).
    apply in_map_iff in Hin as ([t' n'] & E & Hin). simpl in E. subst t'.
    pose proof (In_mapGet _ string_eqb_spec _ _ _ ND Hin) as G.
    rewrite G in C. simpl in C. by subst n'.
Qed.

End FrequencyFacts.

(** X14.  [buildTermFrequency] counts documents: it holds each term
    once, a term is present exactly when some question has it among its
    tokens, and its count is the number of such questions, however
    often the term occurs inside one question. *)
Theorem term_frequency_counts_questions (questions : list string) :
  NoDup (map fst (Analyzer.buildTermFrequency questions)) /\
  (forall t n,
     In (t, n) (Analyzer.buildTermFrequency questions) <->
     n = PatternSpec.documentFrequency questions t /\ (0 < n)%nat) /\
  (forall t n,
     In (t, n) (Analyzer.buildTermFrequency questions) ->
     (n <= List.length questions)%nat /\
     exists q, In q questions /\ In t (Analyzer.tokenize q)).
Proof.
  split; [|split].
  - apply termFrequency_NoDup. constructor.
  - apply termFrequency_spec.
  - intros t n Hin. apply termFrequency_spec in Hin as [-> Pos]. split.
    + apply filter_length_le.
    + unfold PatternSpec.documentFrequency in Pos.
      destruct (PatternSpec.questionsAbout questions t) as [|q qs] eqn:E; [simpl in Pos; lia|].
      assert (In q (PatternSpec.questionsAbout questions t)) as Hq by (rewrite E; by left).
      apply filter_In in Hq as [Hq Ht]. apply arrayIncludes_In in Ht. eauto.
Qed.


Section PatternFacts.
Import Analyzer PatternSpec.

Lemma arrayIncludes_cons x l t :
  Js.arrayIncludes (x :: l) t = String.eqb t x || Js.arrayIncludes l t.
Proof. reflexivity. Qed.

Lemma themes_get questions m terms themes0 t :
  Js.mapGet String.eqb
    (fold_left
       (fun themes term =>
          if (m <=? documentFrequency questions term)%nat
          then Js.mapSet String.eqb themes term (questionsAbout questions term)
          else themes)
       terms themes0) t
  = if Js.arrayIncludes terms t && (m <=? documentFrequency questions t)%nat
    then Some (questionsAbout questions t)
    else Js.mapGet String.eqb themes0 t.
Proof.
  revert themes0.
  induction terms as [|term terms IH]; intros themes0; [reflexivity|].
  cbn [fold_left]. rewrite IH, arrayIncludes_cons.
  destruct (Js.arrayIncludes terms t && (m <=? documentFrequency questions t)%nat)
    eqn:Later.
  - apply andb_true_iff in Later as [-> ->]. by rewrite orb_true_r.
  - destruct (String.eqb t term) eqn:E.
    + apply String.eqb_eq in E. subst term. cbn [orb andb].
      destruct (m <=? documentFrequency questions t)%nat eqn:C; [|reflexivity].
      rewrite (mapGet_mapSet _ string_eqb_spec), String.eqb_refl. reflexivity.
    + cbn [orb]. rewrite Later.
      destruct (m <=? documentFrequency questions term)%nat; [|reflexivity].
      rewrite (mapGet_mapSet _ string_eqb_spec), (String.eqb_sym term t), E.
      reflexivity.
Qed.

Lemma themes_NoDup questions m terms :
  NoDup
    (map fst
       (fold_left
          (fun themes term =>
             if (m <=? documentFrequency questions term)%nat
             then Js.mapSet String.eqb themes term (questionsAbout questions term)
             else themes)
          terms [])).
Proof.
  apply (fold_left_invariant
           (fun themes : list (string * list string) => NoDup (map fst themes)));
    [constructor|].
  intros themes term ND.
  destruct (m <=? _)%nat; [|exact ND]. by apply (mapSet_NoDup _ string_eqb_spec).
Qed.

Lemma moreFrequent_asym a b : moreFrequent a b = true -> moreFrequent b a = false.
Proof. unfold moreFrequent. rewrite Nat.ltb_lt, Nat.ltb_ge. lia. Qed.

Lemma moreFrequent_trans a b c :
  Js.ordered moreFrequent a b -> Js.ordered moreFrequent b c ->
  Js.ordered moreFrequent a c.
Proof. unfold Js.ordered, moreFrequent. rewrite !Nat.ltb_ge. lia. Qed.

Lemma morePopular_asym a b : morePopular a b = true -> morePopular b a = false.
Proof. unfold morePopular. rewrite Nat.ltb_lt, Nat.ltb_ge. lia. Qed.

Lemma morePopular_trans a b c :
  Js.ordered morePopular a b -> Js.ordered morePopular b c ->
  Js.ordered morePopular a c.
Proof. unfold Js.ordered, morePopular. rewrite !Nat.ltb_ge. lia. Qed.

Lemma frequentTerms_In questions m t :
  (0 < m)%nat ->
  Js.arrayIncludes
    (map fst
       (Js.sort moreFrequent
          (List.filter (fun tc => (m <=? snd tc)%nat) (buildTermFrequency questions)))) t
  && (m <=? documentFrequency questions t)%nat
  = (m <=? documentFrequency questions t)%nat.
Proof.
  intros Pos. destruct (m <=? documentFrequency questions t)%nat eqn:C;
    [|by rewrite andb_false_r].
  rewrite andb_true_r. apply arrayIncludes_In, in_map_iff.
  exists (t, documentFrequency questions t). split; [reflexivity|].
  apply (Permutation_in _ (Permutation_sym (sort_perm _ _))).
  apply filter_In. split; [|exact C].
  apply termFrequency_spec. split; [reflexivity|]. apply Nat.leb_le in C. lia.
Qed.

Lemma themes_spec questions t ms :
  In (t, ms)
    (groupQuestionsByTheme questions (buildTermFrequency questions)
       (minFrequencyOf questions))
  <-> ms = questionsAbout questions t /\
      (minFrequencyOf questions <= documentFrequency questions t)%nat.
Proof.
  set (m := minFrequencyOf questions).
  set (terms :=
         map fst
           (Js.sort moreFrequent
              (List.filter (fun tc => (m <=? snd tc)%nat) (buildTermFrequency questions)))).
  change (groupQuestionsByTheme questions (buildTermFrequency questions) m)
    with (fold_left
            (fun themes term =>
               if (m <=? documentFrequency questions term)%nat
               then Js.mapSet String.eqb themes term (questionsAbout questions term)
               else themes)
            terms []).
  pose proof (themes_NoDup questions m terms) as ND.
  pose proof (themes_get questions m terms [] t) as G.
  unfold terms in G at 2. rewrite frequentTerms_In in G by (unfold m, minFrequencyOf; lia).
  cbn [Js.mapGet] in G. split.
  - intros Hin. pose proof (In_mapGet _ string_eqb_spec _ _ _ ND Hin) as G'.
    rewrite G' in G.
    destruct (m <=? documentFrequency questions t)%nat eqn:C; [|discriminate].
    injection G as ->. split; [reflexivity|]. by apply Nat.leb_le.
  - intros [-> C]. apply Nat.leb_le in C. rewrite C in G.
    by apply (mapGet_In _ string_eqb_spec).
Qed.

End PatternFacts.

(** X15.  [detectQuestionPatterns] reports a term exactly when the
    number of user questions that hold it among their tokens reaches
    max(2, a tenth of the number of user questions, rounded down).  Each
    term is reported once; its frequency is that number of questions,
    its example questions are the first five of them in session order,
    it names at most three categories and its average rating is 0.  The
    patterns are in descending order of frequency, and there is none
    when the sessions hold no user question. *)
Theorem question_patterns (sessions : list Session) :
  (forall t,
     PatternSpec.isPattern (Analyzer.detectQuestionPatterns sessions) t <->
     (Analyzer.minFrequencyOf (Analyzer.extractUserQuestions sessions)
      <= PatternSpec.documentFrequency (Analyzer.extractUserQuestions sessions) t)%nat) /\
  (forall p,
     In p (Analyzer.detectQuestionPatterns sessions) ->
     Analyzer.frequency p
     = PatternSpec.documentFrequency (Analyzer.extractUserQuestions sessions)
         (Analyzer.qp_pattern p) /\
     (2 <= Analyzer.frequency p)%nat /\
     Analyzer.exampleQuestions p
     = firstn 5
         (PatternSpec.questionsAbout (Analyzer.extractUserQuestions sessions)
            (Analyzer.qp_pattern p)) /\
     (List.length (Analyzer.qp_categories p) <= 3)%nat /\
     Analyzer.averageRating p = 0%Q) /\
  NoDup (map Analyzer.qp_pattern (Analyzer.detectQuestionPatterns sessions)) /\
  StronglySorted (fun a b => (Analyzer.frequency b <= Analyzer.frequency a)%nat)
    (Analyzer.detectQuestionPatterns sessions) /\
  (Analyzer.extractUserQuestions sessions = [] ->
   Analyzer.detectQuestionPatterns sessions = []).
Proof.
  unfold Analyzer.detectQuestionPatterns. cbv zeta.
  set (questions := Analyzer.extractUserQuestions sessions).
  destruct (List.length questions =? 0)%nat eqn:Empty.
  - apply Nat.eqb_eq in Empty. destruct questions; [|discriminate].
    split; [|split; [|split; [|split]]].
    + intros t. split; [by intros (p & [] & _)|].
      unfold Analyzer.minFrequencyOf, PatternSpec.documentFrequency. simpl. lia.
    + intros p [].
    + constructor.
    + constructor.
    + reflexivity.
  - set (themes :=
           Analyzer.groupQuestionsByTheme questions
             (Analyzer.buildTermFrequency questions) (Analyzer.minFrequencyOf questions)).
    set (mk := fun tm : string * list string => _).
    assert (forall p, In p (Js.sort Analyzer.morePopular (map mk themes)) <->
                      exists t,
                        (Analyzer.minFrequencyOf questions
                         <= PatternSpec.documentFrequency questions t)%nat /\
                        p = mk (t, PatternSpec.questionsAbout questions t)) as Hin.
    { intros p. split.
      - intros H. apply (Permutation_in _ (sort_perm _ _)) in H.
        apply in_map_iff in H as ([t ms] & <- & H).
        apply themes_spec in H as [-> C]. by exists t.
      - intros (t & C & ->).
        apply (Permutation_in _ (Permutation_sym (sort_perm _ _))).
        apply in_map. by apply themes_spec. }
    split; [|split; [|split; [|split]]].
    + intros t. unfold PatternSpec.isPattern. split.
      * intros (p & Hp & <-). apply Hin in Hp as (t' & C & ->). exact C.
      * intros C. exists (mk (t, PatternSpec.questionsAbout questions t)).
        split; [|reflexivity]. apply Hin. by exists t.
    + intros p Hp. apply Hin in Hp as (t & C & ->). unfold mk. cbn.
      split; [reflexivity|]. split; [|split; [reflexivity|split; [|reflexivity]]].
      * unfold PatternSpec.documentFrequency, Analyzer.minFrequencyOf in C. lia.
      * rewrite length_map. unfold Js.slice0. rewrite length_firstn. lia.
    + rewrite (Permutation_map _ (sort_perm _ _)), map_map.
      change (map (fun x => Analyzer.qp_pattern (mk x)) themes) with (map fst themes).
      set (m := Analyzer.minFrequencyOf questions).
      set (terms :=
             map fst
               (Js.sort Analyzer.moreFrequent
                  (List.filter (fun tc => (m <=? snd tc)%nat)
                     (Analyzer.buildTermFrequency questions)))).
      apply (themes_NoDup questions m terms).
    + eapply sorted_weaken with (P := fun _ => True);
        [apply Forall_forall; done| |apply sort_sorted].
      * intros x y _ _. unfold Js.ordered, Analyzer.morePopular.
        intros H. by apply Nat.ltb_ge in H.
      * apply morePopular_asym.
      * apply morePopular_trans.
    + intros E. rewrite E in Empty. discriminate.
Qed.


(** ** Feedback statistics *)

Section StatisticsFacts.
Import Analyzer.

Lemma ratings_split (history : list Feedback) :
  (List.length (List.filter ratedPositive history)
   + List.length (List.filter ratedNegative history))%nat = List.length history.
Proof.
  induction history as [|f history IH]; [reflexivity|].
  simpl. unfold ratedPositive at 1, ratedNegative at 1.
  destruct (rating f); simpl; lia.
Qed.

Lemma share_bounds (p t : nat) :
  (0 < t)%nat -> (p <= t)%nat ->
  (0 <= inject_Z (Z.of_nat p) / inject_Z (Z.of_nat t) <= 1)%Q /\
  (inject_Z (Z.of_nat p) / inject_Z (Z.of_nat t) == 1 <-> p = t)%Q /\
  (inject_Z (Z.of_nat p) / inject_Z (Z.of_nat t) == 0 <-> p = 0%nat)%Q.
Proof.
  intros Ht Hp.
  assert (0 < inject_Z (Z.of_nat t))%Q as Pt.
  { change 0%Q with (inject_Z 0). rewrite <- Zlt_Qlt. lia. }
  assert (0 <= inject_Z (Z.of_nat p))%Q as Pp.
  { change 0%Q with (inject_Z 0). rewrite <- Zle_Qle. lia. }
  assert (inject_Z (Z.of_nat p) <= inject_Z (Z.of_nat t))%Q as Le.
  { rewrite <- Zle_Qle. lia. }
  assert (forall q, inject_Z (Z.of_nat p) / inject_Z (Z.of_nat t) == q
                    <-> inject_Z (Z.of_nat p) == q * inject_Z (Z.of_nat t))%Q as Eq.
  { intros q. split; intros H.
    - rewrite <- H. field. lra.
    - rewrite H. field. lra. }
  split; [split|split].
  - apply Qle_shift_div_l; [done|]. lra.
  - apply Qle_shift_div_r; [done|]. lra.
  - rewrite Eq, Qmult_1_l, inject_Z_injective. lia.
  - rewrite Eq, Qmult_0_l. change 0%Q with (inject_Z 0).
    rewrite inject_Z_injective. lia.
Qed.

Lemma round_percent (q : Q) :
  (0 <= q <= 1)%Q -> 0 <= Js.round (Js.double (Js.double q * 100)) <= 100.
Proof.
  intros [L U].
  assert (0 <= Js.double q <= 1)%Q as [L1 U1].
  { split.
    - change 0%Q with (Js.double 0). apply double_mono; [apply Qle_refl|exact L].
    - change 1%Q with (Js.double 1). by apply double_mono. }
  assert (0 <= Js.double (Js.double q * 100) <= 100)%Q as [L2 U2].
  { split.
    - change 0%Q with (Js.double 0). apply double_mono; [apply Qle_refl|lra].
    - apply Qle_trans with (Js.double 100); [apply double_mono; lra|].
      assert (Js.double 100 = 100%Q) as -> by (vm_compute; reflexivity).
      apply Qle_refl. }
  revert L2 U2. generalize (Js.double (Js.double q * 100)). intros p L2 U2.
  unfold Js.round. split.
  - apply Z.le_trans with (Qfloor 0); [done|]. apply Qfloor_resp_le. lra.
  - apply Z.le_trans with (Qfloor (100 + (1 # 2))); [|done]. apply Qfloor_resp_le. lra.
Qed.

(** 29 positive ratings out of 200: the share 0.145 is held as a double
    just below it, and the percentage printed is 14. *)
Example rate_percent_of_doubles :
  Js.round (Js.double (Js.double (29 # 200) * 100)) = 14 /\
  Js.round ((29 # 200) * 100) = 15.
Proof. split; vm_compute; reflexivity. Qed.

End StatisticsFacts.

(** X16.  In the summary of [analyzeFeedback] and in the statistics of
    [getFeedbackStats] the positive and the negative ratings add up to
    the number of feedback entries, and the satisfaction rate is their
    exact share of positives: between 0 and 1, 0 for an empty history,
    1 exactly when a non-empty history has no negative rating.  The
    percentage printed for it lies between 0 and 100.  The summary
    lists at most ten common issues and at most ten top patterns, and
    both functions give the same numbers. *)
Theorem feedback_statistics (feedbackHistory : list Feedback)
    (sessions : list Session) :
  (Analyzer.positiveCount (Analyzer.analyzeFeedback feedbackHistory sessions)
   + Analyzer.fs_negativeCount (Analyzer.analyzeFeedback feedbackHistory sessions))%nat
  = Analyzer.totalInteractions (Analyzer.analyzeFeedback feedbackHistory sessions) /\
  Analyzer.totalInteractions (Analyzer.analyzeFeedback feedbackHistory sessions)
  = List.length feedbackHistory /\
  (0 <= Analyzer.satisfactionRate (Analyzer.analyzeFeedback feedbackHistory sessions)
     <= 1)%Q /\
  (feedbackHistory = [] ->
   Analyzer.satisfactionRate (Analyzer.analyzeFeedback feedbackHistory sessions) = 0%Q) /\
  (feedbackHistory <> [] ->
   (Analyzer.satisfactionRate (Analyzer.analyzeFeedback feedbackHistory sessions) == 1
    <-> Analyzer.fs_negativeCount (Analyzer.analyzeFeedback feedbackHistory sessions)
        = 0%nat)%Q) /\
  (List.length (Analyzer.commonIssues (Analyzer.analyzeFeedback feedbackHistory sessions))
   <= 10)%nat /\
  (List.length (Analyzer.topPatterns (Analyzer.analyzeFeedback feedbackHistory sessions))
   <= 10)%nat /\
  Collector.getFeedbackStats feedbackHistory
  = {| Collector.gs_total :=
         Analyzer.totalInteractions (Analyzer.analyzeFeedback feedbackHistory sessions);
       Collector.gs_positive :=
         Analyzer.positiveCount (Analyzer.analyzeFeedback feedbackHistory sessions);
       Collector.gs_negative :=
         Analyzer.fs_negativeCount (Analyzer.analyzeFeedback feedbackHistory sessions);
       Collector.gs_rate :=
         Analyzer.satisfactionRate (Analyzer.analyzeFeedback feedbackHistory sessions) |} /\
  0 <= Collector.ratePercent (Collector.getFeedbackStats feedbackHistory) <= 100.
Proof.
  pose proof (ratings_split feedbackHistory) as Split.
  assert (0 <= Analyzer.satisfactionRate (Analyzer.analyzeFeedback feedbackHistory sessions)
            <= 1)%Q as Range.
  { cbn. destruct feedbackHistory as [|f history]; [cbn; lra|].
    change (0 <? List.length (f :: history))%nat with true. cbv iota.
    apply share_bounds; [simpl; lia|]. lia. }
  split; [exact Split|]. split; [reflexivity|]. split; [exact Range|].
  split; [by intros ->|]. split; [|split; [|split; [|split; [reflexivity|]]]].
  - intros N. cbn. destruct feedbackHistory as [|f history]; [done|].
    change (0 <? List.length (f :: history))%nat with true. cbv iota.
    destruct (share_bounds
                (List.length (List.filter Analyzer.ratedPositive (f :: history)))
                (List.length (f :: history))) as (_ & One & _); [simpl; lia|lia|].
    rewrite One. lia.
  - cbn. unfold Analyzer.findCommonPhrases.
    destruct (List.length _ =? 0)%nat; [simpl; lia|].
    rewrite length_map. unfold Js.slice0. rewrite length_firstn. lia.
  - cbn. rewrite length_map. unfold Js.slice0. rewrite length_firstn. lia.
  - apply round_percent. exact Range.
Qed.


(** ** Feedback analyzer: what a weak area records *)

Section WeakAreaFacts.
Import Analyzer AnalyzerSpec WeakAreaSpec.

Variable allowed : string -> Prop.

Lemma recordTerm_kept question fbs topicStats term :
  allKept allowed topicStats -> allowed question ->
  In term (firstn 3 (tokenize question)) ->
  allKept allowed (recordTerm question fbs topicStats term).
Proof.
  intros Hall Hq Hterm t st. unfold recordTerm.
  rewrite (mapGet_mapSet _ string_eqb_spec).
  destruct (String.eqb term t) eqn:E; [|apply Hall].
  apply String.eqb_eq in E. subst t.
  set (old := default noStats (Js.mapGet String.eqb topicStats term)).
  assert ((st_negative old <= st_total old)%nat /\
          (List.length (st_questions old) <= 5)%nat /\
          NoDup (st_questions old) /\
          (forall q, In q (st_questions old) ->
                     allowed q /\ In term (firstn 3 (tokenize q))) /\
          (st_questions old = [] \/ (1 <= List.length (st_questions old))%nat))
    as (Hn & Hlen & Hnd & Hmem & Hne).
  { unfold old. destruct (Js.mapGet String.eqb topicStats term) as [st0|] eqn:G; simpl.
    - destruct (Hall _ _ G) as (A & B & C & D).
      split; [exact A|]. split; [lia|]. split; [exact C|]. split; [exact D|].
      right. lia.
    - split; [lia|]. split; [lia|]. split; [constructor|]. split; [done|by left]. }
  destruct (rate_fold fbs old) as [Tot Neg].
  pose proof (filter_length_le isNegative fbs) as Fl.
  assert (st_questions (fold_left rate fbs old) = st_questions old) as Qs.
  { clear. generalize old. induction fbs as [|fb fbs IH]; intros o; [done|].
    simpl. by rewrite IH. }
  destruct (negb (Js.arrayIncludes (st_questions (fold_left rate fbs old)) question)
            && (List.length (st_questions (fold_left rate fbs old)) <? 5)%nat) eqn:Push;
    intros [= <-]; unfold kept; cbn [st_negative st_total st_questions]; rewrite ?Qs.
  - rewrite Qs in Push. apply andb_true_iff in Push as [Hnew Hroom].
    apply negb_true_iff in Hnew. apply Nat.ltb_lt in Hroom.
    split; [lia|]. rewrite length_app. simpl. split; [lia|]. split.
    + apply NoDup_app. split; [done|]. split; [|apply NoDup_singleton].
      intros x Hx Hx'. apply list_elem_of_singleton in Hx'. subst x.
      apply list_elem_of_In, arrayIncludes_In in Hx. congruence.
    + intros q Hin. apply in_app_iff in Hin as [Hin|[<-|[]]]; [by apply Hmem|done].
  - rewrite Qs in Push. split; [lia|]. split; [|split; [done|exact Hmem]].
    split; [|lia]. destruct Hne as [E|H]; [|exact H].
    rewrite E in Push. discriminate.
Qed.

Lemma topicStatistics_kept (qfs : list (string * list Feedback)) topicStats :
  allKept allowed topicStats -> (forall qf, In qf qfs -> allowed (fst qf)) ->
  allKept allowed
    (fold_left
       (fun topicStats qf =>
          fold_left (recordTerm (fst qf) (snd qf)) (Js.slice0 (tokenize (fst qf)) 3)
            topicStats)
       qfs topicStats).
Proof.
  revert topicStats. induction qfs as [|qf qfs IH]; intros topicStats Hall Hq; [done|].
  cbn [fold_left]. apply IH; [|intros x Hx; apply Hq; by right].
  assert (allowed (fst qf)) as Hqf by (apply Hq; by left).
  unfold Js.slice0.
  assert (forall x, In x (firstn 3 (tokenize (fst qf))) ->
                    In x (firstn 3 (tokenize (fst qf)))) as Hsub by done.
  revert Hsub. generalize (firstn 3 (tokenize (fst qf))) at 1 3. intros terms.
  revert topicStats Hall. induction terms as [|term terms IHt]; intros topicStats Hall Hsub;
    [done|].
  cbn [fold_left]. apply IHt; [|intros x Hx; apply Hsub; by right].
  apply recordTerm_kept; [done|done|]. apply Hsub. by left.
Qed.

End WeakAreaFacts.

Lemma filter_keys_NoDup {A B} (f : A * B -> bool) (l : list (A * B)) :
  NoDup (map fst l) -> NoDup (map fst (List.filter f l)).
Proof.
  induction l as [|x l IH]; simpl; [done|]. intros ND.
  apply NoDup_cons in ND as [Hx ND]. destruct (f x); simpl; [|by apply IH].
  apply NoDup_cons. split; [|by apply IH].
  intros Hin. apply Hx. apply list_elem_of_In in Hin. apply list_elem_of_In.
  apply in_map_iff in Hin as (y & E & Hy). apply filter_In in Hy as [Hy _].
  apply in_map_iff. by exists y.
Qed.

(** X17.  Every weak area that [identifyWeakAreas] reports has at least
    one negative rating and no more negative ratings than ratings; it
    carries between one and five sample questions, no question twice,
    each of them a question that received feedback and names the topic
    among its first three tokens.  No topic is reported twice. *)
Theorem weak_area_records (getTime : string -> option Z)
    (feedbackHistory : list Feedback) (sessions : list Session) :
  (forall area,
     In area (Analyzer.identifyWeakAreas getTime feedbackHistory sessions) ->
     (1 <= Analyzer.negativeCount area <= Analyzer.totalCount area)%nat /\
     (1 <= List.length (Analyzer.sampleQuestions area) <= 5)%nat /\
     NoDup (Analyzer.sampleQuestions area) /\
     (forall q,
        In q (Analyzer.sampleQuestions area) ->
        In (Analyzer.topic area) (firstn 3 (Analyzer.tokenize q)) /\
        exists fbs,
          In (q, fbs)
            (Analyzer.matchFeedbackToQuestions getTime feedbackHistory sessions))) /\
  NoDup (map Analyzer.topic
           (Analyzer.identifyWeakAreas getTime feedbackHistory sessions)).
Proof.
  unfold Analyzer.identifyWeakAreas. cbv zeta.
  pose proof (topicStatistics_NoDup getTime feedbackHistory sessions) as ND.
  set (qfs := Analyzer.matchFeedbackToQuestions getTime feedbackHistory sessions).
  set (allowed := fun q : string => exists fbs, In (q, fbs) qfs).
  assert (WeakAreaSpec.allKept allowed
            (Analyzer.topicStatistics getTime feedbackHistory sessions)) as K.
  { unfold Analyzer.topicStatistics. fold qfs. apply topicStatistics_kept.
    - intros t st G. discriminate.
    - intros [q fbs] Hin. by exists fbs. }
  split.
  - intros area Hin. apply (Permutation_in _ (sort_perm _ _)) in Hin.
    apply in_map_iff in Hin as ([t st] & <- & Hin).
    apply filter_In in Hin as [Hin W]. cbn [snd] in W.
    pose proof (In_mapGet _ string_eqb_spec _ _ _ ND Hin) as G.
    destruct (K _ _ G) as (Hn & Hlen & Hnd & Hmem).
    unfold Analyzer.toWeakArea. cbn.
    split; [|split; [exact Hlen|split; [exact Hnd|]]].
    + split; [|exact Hn]. apply isWeak_spec in W as [T R].
      destruct (Analyzer.st_negative st) as [|n]; [|lia]. exfalso.
      unfold AnalyzerSpec.ratio in R. simpl in R.
      assert (inject_Z 0 / inject_Z (Z.of_nat (Analyzer.st_total st)) == 0)%Q as Z0.
      { unfold Qdiv. change (inject_Z 0) with 0%Q. ring. }
      change (inject_Z (Z.of_nat 0)) with (inject_Z 0) in R. rewrite Z0 in R.
      revert R. apply Qlt_not_le. reflexivity.
    + intros q Hq. destruct (Hmem q Hq) as [A T]. split; [exact T | exact A].
  - rewrite (Permutation_map _ (sort_perm _ _)), map_map.
    change (map (fun x => Analyzer.topic (Analyzer.toWeakArea x))) with (map (@fst string Analyzer.Stats)).
    by apply filter_keys_NoDup.
Qed.


(** ** File lock: waiting time and the marker *)

Section LockFacts.
Import FileLock.

Lemma acquire_sleep_interval start env a :
  In a (snd (acquire start env)) -> LockContract.isSleep a = true -> a = Sleep 50.
Proof.
  induction env as [|o env IH]; simpl; [tauto|].
  destruct (t_loop o - start <? LOCK_TIMEOUT_MS); [|simpl; tauto].
  destruct (acquire start env) as [r tr]. simpl in IH.
  destruct (found o) as [| |time].
  - destruct (wx_ok o); simpl.
    + intros [<-|[]]. discriminate.
    + intros [<-|[<-|H]]; [discriminate|reflexivity|auto].
  - simpl. intros [<-|H]; [discriminate|auto].
  - destruct (stale (t_body o) time); [destruct (unlink_ok o)|]; simpl.
    + intros [<-|H]; [discriminate|auto].
    + intros [<-|[<-|H]]; [discriminate|discriminate|auto].
    + intros [<-|H]; [reflexivity|auto].
Qed.

Lemma acquire_marker start env :
  match fst (acquire start env) with
  | Acquired =>
      exists tr t,
        snd (acquire start env) = tr ++ [WriteMarker t] /\
        forall a t', In a tr -> a <> WriteMarker t'
  | _ => forall a t', In a (snd (acquire start env)) -> a <> WriteMarker t'
  end.
Proof.
  induction env as [|o env IH]; simpl; [tauto|].
  destruct (t_loop o - start <? LOCK_TIMEOUT_MS); [|simpl; tauto].
  assert (forall pre : list Action,
            (forall a t', In a pre -> a <> WriteMarker t') ->
            match fst (acquire start env) with
            | Acquired =>
                exists tr t,
                  pre ++ snd (acquire start env) = tr ++ [WriteMarker t] /\
                  forall a t', In a tr -> a <> WriteMarker t'
            | _ => forall a t', In a (pre ++ snd (acquire start env)) -> a <> WriteMarker t'
            end) as Step.
  { intros pre Hpre. destruct (fst (acquire start env)).
    - destruct IH as (tr & t & -> & Htr). exists (pre ++ tr), t.
      split; [by rewrite app_assoc|].
      intros a t' Hin. apply in_app_iff in Hin as [H|H]; auto.
    - intros a t' Hin. apply in_app_iff in Hin as [H|H]; auto.
    - intros a t' Hin. apply in_app_iff in Hin as [H|H]; auto. }
  clear IH. destruct (acquire start env) as [r tr]. cbn [fst snd] in Step.
  destruct (found o) as [| |time].
  - destruct (wx_ok o); cbn [fst snd].
    + exists [], (t_body o). split; [reflexivity|]. intros a t' [].
    + apply (Step [WriteFailed; Sleep LOCK_RETRY_MS]).
      intros a t' [<-|[<-|[]]]; discriminate.
  - cbn [fst snd]. apply (Step [Unlink]). intros a t' [<-|[]]. discriminate.
  - destruct (stale (t_body o) time); [destruct (unlink_ok o)|]; cbn [fst snd].
    + apply (Step [Unlink]). intros a t' [<-|[]]. discriminate.
    + apply (Step [Unlink; Unlink]). intros a t' [<-|[<-|[]]]; discriminate.
    + apply (Step [Sleep LOCK_RETRY_MS]). intros a t' [<-|[]]. discriminate.
Qed.

End LockFacts.

(** X18.  When the clock never runs backwards and every sleep moves it
    on by at least the 50 ms asked for ([LockContract.clockAdvances]),
    [acquire] sleeps at most 100 times before it returns or throws.
    Whatever the clock does, every sleep asks for 50 ms, and [acquire]
    writes the marker file at most once, as its last action, and
    exactly when it returns: a call that throws the timeout, or that is
    still waiting, has written no marker. *)
Theorem acquire_waits_and_writes (start : Z) (env : list FileLock.Turn) :
  (LockContract.clockAdvances start start env ->
   (LockContract.countSleeps (snd (FileLock.acquire start env)) <= 100)%nat) /\
  (forall a,
     In a (snd (FileLock.acquire start env)) -> LockContract.isSleep a = true ->
     a = FileLock.Sleep 50) /\
  (fst (FileLock.acquire start env) = FileLock.Acquired <->
   exists tr t, snd (FileLock.acquire start env) = tr ++ [FileLock.WriteMarker t]) /\
  (forall tr t,
     snd (FileLock.acquire start env) = tr ++ [FileLock.WriteMarker t] ->
     forall a t', In a tr -> a <> FileLock.WriteMarker t') /\
  (fst (FileLock.acquire start env) <> FileLock.Acquired ->
   forall a t', In a (snd (FileLock.acquire start env)) -> a <> FileLock.WriteMarker t').
Proof.
  pose proof (acquire_marker start env) as M.
  split; [apply acquire_sleeps_at_most_100|].
  split; [apply acquire_sleep_interval|].
  assert (forall tr t,
            snd (FileLock.acquire start env) = tr ++ [FileLock.WriteMarker t] ->
            fst (FileLock.acquire start env) = FileLock.Acquired) as Back.
  { intros tr t E. destruct (fst (FileLock.acquire start env)); [reflexivity| |];
      (exfalso; apply (M (FileLock.WriteMarker t) t); [|reflexivity];
       rewrite E; apply in_app_iff; right; by left). }
  split; [split|split].
  - intros E. rewrite E in M. destruct M as (tr & t & H & _). eauto.
  - intros (tr & t & E). by apply (Back tr t).
  - intros tr t E. rewrite (Back tr t E) in M.
    destruct M as (tr' & t0 & E' & Htr). rewrite E in E'.
    apply app_inj_tail in E' as [-> _]. exact Htr.
  - intros N. destruct (fst (FileLock.acquire start env)); [done|exact M|exact M].
Qed.

Lemma acquire_waits_and_writes_witness :
  (LockContract.countSleeps (snd (FileLock.acquire 0 Sample.heldTurns)) <= 100)%nat.
Proof.
  apply (acquire_waits_and_writes 0 Sample.heldTurns).
  simpl. unfold FileLock.LOCK_RETRY_MS. lia.
Defined.


(** ** Line files: what was appended is read back *)

Section LineFileFacts.
Import FileUtils FileSpec.

Lemma splitChar_nonempty sep cur s : Js.splitChar sep cur s <> [].
Proof.
  revert cur. induction s as [|c s IH]; intros cur; simpl; [done|].
  destruct (Ascii.eqb c sep); [done|apply IH].
Qed.

Lemma splitChar_no_sep sep cur a b :
  Js.anyChar (Ascii.eqb sep) a = false ->
  Js.splitChar sep cur (a +:+ b) = Js.splitChar sep (cur +:+ a) b.
Proof.
  revert cur. induction a as [|c a IH]; intros cur H.
  - by rewrite append_nil, append_empty_r.
  - simpl in H. apply orb_false_iff in H as [Hc Ha].
    rewrite append_cons. cbn [Js.splitChar].
    rewrite Ascii.eqb_sym, Hc. rewrite IH by done. f_equal.
    rewrite append_assoc. by rewrite append_cons, append_nil.
Qed.

Lemma splitChar_append sep cur a b ps lastp :
  Js.splitChar sep cur a = ps ++ [lastp] ->
  Js.splitChar sep cur (a +:+ b) = ps ++ Js.splitChar sep lastp b.
Proof.
  revert cur ps. induction a as [|c a IH]; intros cur ps.
  - rewrite append_nil. cbn [Js.splitChar]. intros E.
    destruct ps as [|p ps]; [by injection E as ->|].
    destruct ps; discriminate.
  - rewrite append_cons. cbn [Js.splitChar]. destruct (Ascii.eqb c sep).
    + intros E. destruct ps as [|p ps].
      * injection E as _ E. by destruct (splitChar_nonempty sep "" a).
      * injection E as -> E. cbn [app]. f_equal. by apply IH.
    + apply IH.
Qed.

Lemma split_line sep line :
  Js.anyChar (Ascii.eqb sep) line = false ->
  Js.splitChar sep "" (line +:+ String sep "") = [line; ""].
Proof.
  intros H. rewrite splitChar_no_sep by done. rewrite append_nil.
  cbn [Js.splitChar]. by rewrite Ascii.eqb_refl.
Qed.

Lemma written_split lines raw ps :
  Forall singleLine lines ->
  Js.splitChar LF "" raw = ps ++ [""] ->
  exists raw',
    fold_left appendLine lines (Some raw) = Some raw' /\
    Js.splitChar LF "" raw' = (ps ++ lines) ++ [""].
Proof.
  intros Hl. revert raw ps. induction Hl as [|line lines [_ Hline] _ IH]; intros raw ps E.
  - exists raw. by rewrite app_nil_r.
  - cbn [fold_left]. unfold appendLine at 2. cbn [default from_option Datatypes.id].
    destruct (IH (raw +:+ (line +:+ String LF "")) (ps ++ [line])) as (raw' & F & S).
    + rewrite (splitChar_append _ _ _ _ _ _ E), (split_line _ _ Hline).
      by rewrite <- app_assoc.
    + exists raw'. split; [exact F|]. rewrite S. by rewrite <- (app_assoc ps [line]).
Qed.

Lemma nonempty_lines lines :
  Forall singleLine lines ->
  List.filter (fun piece => negb (String.eqb piece "")) (lines ++ [""]) = lines.
Proof.
  induction 1 as [|line lines [Hne _] _ IH]; [reflexivity|]. simpl.
  apply String.eqb_neq in Hne. rewrite Hne. simpl. by rewrite IH.
Qed.

End LineFileFacts.

(** X19.  A file built by [appendLine] alone is read back by [readLines]
    as the lines that were appended, in order, provided each of them is
    not empty and holds no line feed; so the interaction count of the
    status tool is the number of interactions that were logged. *)
Theorem lines_are_read_back (lines : list string) :
  Forall FileSpec.singleLine lines ->
  FileUtils.readLines (FileSpec.written lines) = lines /\
  FileUtils.interactionCount (FileSpec.written lines) = List.length lines /\
  (forall line,
     FileSpec.singleLine line ->
     FileUtils.readLines (FileUtils.appendLine (FileSpec.written lines) line)
     = FileUtils.readLines (FileSpec.written lines) ++ [line]).
Proof.
  assert (forall ls, Forall FileSpec.singleLine ls ->
                     FileUtils.readLines (FileSpec.written ls) = ls) as Back.
  { intros ls Hl. unfold FileSpec.written. destruct ls as [|l ls]; [reflexivity|].
    change (fold_left FileUtils.appendLine (l :: ls) None)
      with (fold_left FileUtils.appendLine (l :: ls) (Some "")).
    destruct (written_split (l :: ls) "" [] Hl eq_refl) as (raw' & -> & S).
    unfold FileUtils.readLines. rewrite S. by apply nonempty_lines. }
  intros Hl. split; [by apply Back|]. split.
  - unfold FileUtils.interactionCount. by rewrite Back.
  - intros line Hline. rewrite (Back lines Hl).
    assert (FileUtils.appendLine (FileSpec.written lines) line
            = FileSpec.written (lines ++ [line])) as ->.
    { unfold FileSpec.written. by rewrite fold_left_app. }
    apply Back. apply Forall_app. split; [done|by constructor].
Qed.

Lemma lines_are_read_back_witness :
  FileUtils.readLines (FileSpec.written ["first"; "second"]) = ["first"; "second"].
Proof.
  apply (lines_are_read_back ["first"; "second"]).
  constructor; [split; [discriminate|reflexivity]|].
  constructor; [split; [discriminate|reflexivity]|].
  constructor.
Defined.


(** ** Q&A responder: citations *)

Section CitationFacts.
Import QA.

Lemma citedId_sound s group :
  citedId s = Some group ->
  Js.anyChar (Ascii.eqb "]") group = false /\
  exists rest, s = group +:+ "]" +:+ rest.
Proof.
  revert group. induction s as [|c s IH]; intros group; simpl; [discriminate|].
  destruct (Ascii.eqb c "]") eqn:E.
  - intros [= <-]. apply Ascii.eqb_eq in E. subst c. split; [reflexivity|].
    exists s. by rewrite append_nil.
  - destruct (citedId s) as [g|]; [|discriminate]. intros [= <-].
    destruct (IH g eq_refl) as (N & rest & ->). split.
    + cbn [Js.anyChar]. by rewrite Ascii.eqb_sym, E, N.
    + exists rest. by rewrite append_cons.
Qed.

Lemma citedId_complete group rest :
  Js.anyChar (Ascii.eqb "]") group = false ->
  citedId (group +:+ "]" +:+ rest) = Some group.
Proof.
  induction group as [|c group IH]; intros N.
  - rewrite append_nil. reflexivity.
  - cbn [Js.anyChar] in N. apply orb_false_iff in N as [Nc N].
    rewrite append_cons. cbn [citedId]. rewrite Ascii.eqb_sym, Nc.
    by rewrite IH.
Qed.

Lemma citationPattern_sound s group :
  citationPattern s = Some group ->
  group <> "" /\ exists rest, s = "[" +:+ group +:+ "]" +:+ rest.
Proof.
  unfold citationPattern. destruct s as [|c s]; [discriminate|].
  destruct (Ascii.eqb c "[") eqn:E; [|discriminate]. apply Ascii.eqb_eq in E. subst c.
  destruct (citedId s) as [g|] eqn:G; [|discriminate].
  destruct (String.eqb g "") eqn:Eg; [discriminate|]. intros [= <-].
  apply String.eqb_neq in Eg. split; [exact Eg|].
  apply citedId_sound in G as (_ & rest & ->). exists rest.
  by rewrite append_cons, append_nil.
Qed.

Lemma citedIds_sound skip s group :
  In group (citedIds skip s) ->
  group <> "" /\ RankerSpec.contains s ("[" +:+ group +:+ "]").
Proof.
  revert skip. induction s as [|c s IH]; intros skip; cbn [citedIds]; [intros []|].
  assert (forall k, In group (citedIds k s) ->
                    group <> "" /\ RankerSpec.contains (String c s) ("[" +:+ group +:+ "]"))
    as Later.
  { intros k H. destruct (IH k H) as (N & pre & post & ->). split; [exact N|].
    exists (String c pre), post. by rewrite append_cons. }
  destruct skip as [|skip]; [|apply Later].
  destruct (citationPattern (String c s)) as [g|] eqn:P; [|apply Later].
  intros [<-|H]; [|by apply (Later _ H)].
  apply citationPattern_sound in P as (N & rest & ->). split; [exact N|].
  exists "", rest. by rewrite append_nil, !append_assoc.
Qed.

Lemma citedIds_no_bracket skip s :
  Js.anyChar (Ascii.eqb "[") s = false -> citedIds skip s = [].
Proof.
  revert skip. induction s as [|c s IH]; intros skip; [done|].
  cbn [Js.anyChar citedIds citationPattern].
  intros N. apply orb_false_iff in N as [Nc N].
  destruct skip; [|by apply IH]. rewrite Ascii.eqb_sym, Nc. by apply IH.
Qed.

Lemma citedIds_first pre group post :
  Js.anyChar (Ascii.eqb "[") pre = false ->
  group <> "" -> Js.anyChar (Ascii.eqb "]") group = false ->
  In group (citedIds 0 (pre +:+ "[" +:+ group +:+ "]" +:+ post)).
Proof.
  intros Npre Ng Nb. induction pre as [|c pre IH].
  - rewrite append_nil, append_cons, append_nil. cbn [citedIds citationPattern].
    rewrite Ascii.eqb_refl, citedId_complete by done.
    apply String.eqb_neq in Ng. rewrite Ng. by left.
  - cbn [Js.anyChar] in Npre. apply orb_false_iff in Npre as [Nc Npre].
    rewrite append_cons. cbn [citedIds citationPattern].
    rewrite Ascii.eqb_sym, Nc. by apply IH.
Qed.

Lemma substring_length n s :
  String.length (substring 0 n s) = Nat.min n (String.length s).
Proof.
  revert s. induction n as [|n IH]; intros s; destruct s as [|c s]; simpl; auto.
Qed.

Lemma excerptOf_spec text :
  (String.length (excerptOf text) <= 203)%nat /\
  ((String.length text <= 200)%nat -> excerptOf text = text) /\
  ((200 < String.length text)%nat -> excerptOf text = substring 0 200 text +:+ "...").
Proof.
  unfold excerptOf. destruct (200 <? String.length text)%nat eqn:L.
  - apply Nat.ltb_lt in L. split; [|split; [lia|done]].
    rewrite length_append, substring_length.
    change (String.length "...") with 3%nat. lia.
  - apply Nat.ltb_ge in L. split; [lia|]. split; [done|lia].
Qed.

End CitationFacts.

Lemma flat_map_keys_NoDup {A B} (key : B -> A) (f : A -> list B) (l : list A) :
  NoDup l ->
  (forall x c, In c (f x) -> key c = x) ->
  (forall x, (List.length (f x) <= 1)%nat) ->
  NoDup (map key (flat_map f l)).
Proof.
  intros ND Hkey Hone. induction ND as [|x l Hx ND IH]; [constructor|].
  simpl. rewrite map_app. apply NoDup_app. split; [|split; [|exact IH]].
  - specialize (Hone x). destruct (f x) as [|c [|c' cs]]; simpl in *;
      [constructor|apply NoDup_singleton|lia].
  - intros k Hk Hk'. apply Hx.
    apply list_elem_of_In, in_map_iff in Hk as (c & E & Hc).
    apply list_elem_of_In, in_map_iff in Hk' as (c' & E' & Hc').
    apply in_flat_map in Hc' as (y & Hy & Hc').
    rewrite (Hkey _ _ Hc) in E. rewrite (Hkey _ _ Hc') in E'. subst y k.
    by apply list_elem_of_In.
Qed.

(** X20.  Every citation that [parseCitations] returns refers to an
    entry that was passed in: its id stands in square brackets in the
    answer, title and source are the entry's, and the excerpt is the
    content, cut to 200 characters followed by "..." when it is longer
    (at most 203 characters).  No entry is cited twice, an answer
    without an opening bracket cites nothing, and the first bracketed
    id of an answer is cited when it is the id of an entry. *)
Theorem citations_refer_to_entries (answer : string) (entries : list KnowledgeEntry) :
  (forall c,
     In c (QA.parseCitations answer entries) ->
     RankerSpec.contains answer ("[" +:+ entryId c +:+ "]") /\
     (String.length (excerpt c) <= 203)%nat /\
     exists e,
       In e entries /\ id e = entryId c /\ c_title c = title e /\
       c_source c = source e /\ excerpt c = QA.excerptOf (content e) /\
       ((String.length (content e) <= 200)%nat -> excerpt c = content e)) /\
  NoDup (map entryId (QA.parseCitations answer entries)) /\
  (Js.anyChar (Ascii.eqb "[") answer = false -> QA.parseCitations answer entries = []) /\
  (forall pre x post e,
     answer = pre +:+ "[" +:+ x +:+ "]" +:+ post ->
     Js.anyChar (Ascii.eqb "[") pre = false ->
     x <> "" -> Js.anyChar (Ascii.eqb "]") x = false ->
     In e entries -> id e = x ->
     exists c, In c (QA.parseCitations answer entries) /\ entryId c = x).
Proof.
  unfold QA.parseCitations. cbv zeta.
  set (cited := fold_left (Js.setAdd String.eqb) (QA.citedIds 0 answer) []).
  assert (forall x, In x cited <-> In x (QA.citedIds 0 answer)) as Cited.
  { intros x. unfold cited. rewrite (setAdds_In _ string_eqb_spec). simpl. tauto. }
  set (f := fun entryId0 : string => _).
  assert (forall x c, In c (f x) ->
            entryId c = x /\
            exists e, In e entries /\ id e = x /\ c_title c = title e /\
                      c_source c = source e /\ excerpt c = QA.excerptOf (content e))
    as Hf.
  { intros x c. unfold f.
    destruct (List.find (fun e => String.eqb (id e) x) entries) as [e|] eqn:F; [|intros []].
    apply find_some in F as [He Hid]. apply String.eqb_eq in Hid.
    intros [<-|[]]. cbn. split; [exact Hid|]. exists e. repeat split; done. }
  split; [|split; [|split]].
  - intros c Hc. apply in_flat_map in Hc as (x & Hx & Hc).
    destruct (Hf x c Hc) as (Hid & e & He & Hide & Ht & Hs & Hex).
    apply Cited, citedIds_sound in Hx as [_ Hx]. rewrite Hid.
    split; [exact Hx|]. split.
    + rewrite Hex. apply excerptOf_spec.
    + exists e. repeat split; try done.
      intros L. rewrite Hex. by apply excerptOf_spec.
  - apply flat_map_keys_NoDup.
    + apply (setAdds_NoDup _ string_eqb_spec). constructor.
    + intros x c Hc. by destruct (Hf x c Hc).
    + intros x. unfold f. destruct (List.find _ entries); simpl; lia.
  - intros N. unfold cited. by rewrite citedIds_no_bracket.
  - intros pre x post e -> Npre Nx Nb He Hid.
    assert (In x cited) as Hx by (apply Cited; by apply citedIds_first).
    destruct (List.find (fun e0 => String.eqb (id e0) x) entries) as [e0|] eqn:F.
    + eexists. split.
      * apply in_flat_map. exists x. split; [exact Hx|]. unfold f. rewrite F. by left.
      * cbn. apply find_some in F as [_ F]. by apply String.eqb_eq in F.
    + exfalso. pose proof (find_none _ _ F e He) as N. cbn in N.
      rewrite Hid, String.eqb_refl in N. discriminate.
Qed.


(** ** Relevance ranker: what a search returns *)

Section SearchFacts2.
Import Ranker RankerSpec SearchSpec.

Lemma weight_hit hit w : 0 < w -> 0 <= weight hit w /\ (0 < weight hit w <-> hit = true).
Proof. intros Hw. unfold weight. destruct hit; split; try lia; split; done || lia. Qed.

Lemma termPoints_hit e term :
  0 <= termPoints e term /\
  (0 < termPoints e term <->
   RankerSpec.contains (Js.toLowerCase (title e)) term \/
   RankerSpec.contains (Js.toLowerCase (content e)) term \/
   In term (map Js.toLowerCase (tags e)) \/
   RankerSpec.contains (categoryName (category e)) term).
Proof.
  unfold termPoints.
  destruct (weight_hit (Js.includes (Js.toLowerCase (title e)) term) 3) as [A1 B1]; [lia|].
  destruct (weight_hit (Js.includes (Js.toLowerCase (content e)) term) 1) as [A2 B2]; [lia|].
  destruct (weight_hit (Js.arrayIncludes (map Js.toLowerCase (tags e)) term) 4)
    as [A3 B3]; [lia|].
  destruct (weight_hit (Js.includes (categoryName (category e)) term) 2) as [A4 B4]; [lia|].
  rewrite <- !includes_contains, <- arrayIncludes_In, <- B1, <- B2, <- B3, <- B4.
  split; lia.
Qed.

Lemma termsPoints_hit e terms :
  0 <= fold_right (fun term acc => termPoints e term + acc) 0 terms /\
  (0 < fold_right (fun term acc => termPoints e term + acc) 0 terms <->
   exists term,
     In term terms /\
     (RankerSpec.contains (Js.toLowerCase (title e)) term \/
      RankerSpec.contains (Js.toLowerCase (content e)) term \/
      In term (map Js.toLowerCase (tags e)) \/
      RankerSpec.contains (categoryName (category e)) term)).
Proof.
  induction terms as [|t terms [IH0 IH]]; simpl.
  { split; [lia|]. split; [lia|]. by intros (? & [] & _). }
  destruct (termPoints_hit e t) as [T0 T]. split; [lia|]. split.
  - intros H. destruct (Z.eq_dec (termPoints e t) 0) as [E|N].
    + destruct (proj1 IH) as (term & Hin & Hh); [lia|].
      exists term. split; [by right|done].
    + exists t. split; [by left|]. apply T. lia.
  - intros (term & [<-|Hin] & Hh).
    + apply T in Hh. lia.
    + assert (0 < foldr (fun term acc => termPoints e term + acc) 0 terms); [|lia].
      apply IH. by exists term.
Qed.

Lemma finalScore_hit query e :
  (0 < finalScore query e)%Q <-> (0 < confidence e)%Q /\ hits query e.
Proof.
  unfold finalScore, rawPoints, hits. cbv zeta.
  set (q := Js.toLowerCase query).
  destruct (weight_hit (Js.includes (Js.toLowerCase (title e)) q) 10) as [A1 B1]; [lia|].
  destruct (weight_hit (Js.includes (Js.toLowerCase (content e)) q) 5) as [A2 B2]; [lia|].
  destruct (termsPoints_hit e (queryTerms q)) as [A3 B3].
  rewrite <- !includes_contains, <- B1, <- B2, <- B3.
  set (raw := weight _ 10 + weight _ 5 + fold_right _ 0 (queryTerms q)) in *.
  assert (0 <= raw) as R0 by (unfold raw; lia).
  assert (0 < raw <->
          0 < weight (Js.includes (Js.toLowerCase (title e)) q) 10 \/
          0 < weight (Js.includes (Js.toLowerCase (content e)) q) 5 \/
          0 < foldr (fun term acc => termPoints e term + acc) 0 (queryTerms q)) as <-
    by (unfold raw; lia).
  clearbody raw. rewrite double_sign, <- (double_sign (confidence e)).
  generalize (Js.double (confidence e)). intros c. split.
  - intros Pos.
    assert (0 < raw) as R.
    { destruct (Z.eq_dec raw 0) as [E|N]; [|lia]. rewrite E in Pos.
      change (inject_Z 0) with 0%Q in Pos.
      assert (0 * c == 0)%Q as Z0 by ring. rewrite Z0 in Pos.
      by apply Qlt_irrefl in Pos. }
    split; [|done].
    assert (0 < inject_Z raw)%Q as Rq.
    { change 0%Q with (inject_Z 0). by rewrite <- Zlt_Qlt. }
    revert Pos Rq. generalize (inject_Z raw). intros a Pos Rq.
    destruct (Qlt_le_dec 0 c) as [H|H]; [exact H|]. exfalso.
    assert (0 <= a * - c)%Q as N by (apply Qmult_le_0_compat; lra).
    assert (a * c == - (a * - c))%Q as E by ring.
    rewrite E in Pos. lra.
  - intros [C R]. apply Qmult_lt_0_compat; [|done].
    change 0%Q with (inject_Z 0). by rewrite <- Zlt_Qlt.
Qed.

Lemma firstn_In {A} (n : nat) (l : list A) x : In x (firstn n l) -> In x l.
Proof.
  revert n. induction l as [|y l IH]; intros [|n]; simpl; try tauto.
  intros [H|H]; [by left|right; eauto].
Qed.

Lemma firstn_firstn_le {A} (a b : nat) (l : list A) :
  (a <= b)%nat -> firstn a (firstn b l) = firstn a l.
Proof. intros H. rewrite firstn_firstn. f_equal. lia. Qed.

Lemma ranked_entries query entries :
  map s_entry
    (Js.sort before
       (List.filter positive
          (map (scoreEntry (Js.toLowerCase query) (queryTerms (Js.toLowerCase query)))
             entries)))
  ≡ₚ List.filter (scoresPositive query) entries.
Proof. rewrite <- scored_positive. apply Permutation_map, sort_perm. Qed.

Lemma scoresPositive_hit query e :
  scoresPositive query e = true <-> (0 < confidence e)%Q /\ hits query e.
Proof.
  rewrite <- finalScore_hit. unfold scoresPositive.
  destruct (0 ?= finalScore query e)%Q eqn:E.
  - apply Qeq_alt in E. split; [discriminate | intros H; lra].
  - by apply Qlt_alt in E.
  - apply Qgt_alt in E. split; [discriminate | intros H; lra].
Qed.

End SearchFacts2.

(** X21. What a search returns.  [findRelevantEntries] returns at most
    [limit] entries, all taken from the entries it was given, and none
    twice when these are distinct; asking for fewer results gives the
    first results of the longer answer.  When the query has a term of
    three characters or more, every returned entry has a positive
    confidence and holds the query or one of its terms (in its title,
    content, tags or category, case ignored); and when the limit is at
    least the number of entries, every such entry is returned. *)
Theorem search_returns_the_hits query entries limit :
  let result := Ranker.findRelevantEntries query entries limit in
  (List.length result <= limit)%nat /\
  (forall e, In e result -> In e entries) /\
  (NoDup entries -> NoDup result) /\
  (forall fewer, (fewer <= limit)%nat ->
     Ranker.findRelevantEntries query entries fewer = firstn fewer result) /\
  (Ranker.queryTerms (Js.toLowerCase query) <> [] ->
   (forall e, In e result -> (0 < confidence e)%Q /\ SearchSpec.hits query e) /\
   ((List.length entries <= limit)%nat ->
    forall e, In e entries -> (0 < confidence e)%Q -> SearchSpec.hits query e ->
              In e result)).
Proof.
  intros result. subst result. unfold Ranker.findRelevantEntries. cbv zeta.
  set (terms := Ranker.queryTerms (Js.toLowerCase query)).
  set (ranked := Js.sort Ranker.before _).
  pose proof (ranked_entries query entries) as P. fold terms ranked in P.
  unfold Js.slice0.
  destruct (List.length terms =? 0)%nat eqn:E.
  - apply Nat.eqb_eq in E. destruct terms; [|done].
    split; [rewrite length_firstn; lia|].
    split; [intros e; apply firstn_In|].
    split.
    { intros ND. apply (sublist_NoDup _ entries); [exact ND|apply sublist_take]. }
    split; [intros fewer H; by rewrite firstn_firstn_le|]. done.
  - rewrite <- !firstn_map.
    split; [rewrite length_firstn; lia|].
    split.
    { intros e He. apply firstn_In in He. apply list_elem_of_In in He.
      rewrite P in He. apply list_elem_of_In, filter_In in He. tauto. }
    split.
    { intros ND. apply (sublist_NoDup _ (map Ranker.s_entry ranked)); [|apply sublist_take].
      rewrite P. apply (sublist_NoDup _ entries); [exact ND|apply filter_sublist]. }
    split; [intros fewer H; by rewrite <- firstn_map, firstn_firstn_le|].
    intros _. split.
    + intros e He. apply firstn_In in He. apply list_elem_of_In in He.
      rewrite P in He. apply list_elem_of_In, filter_In in He as [_ He].
      by apply scoresPositive_hit.
    + intros Hl e He C Hh. rewrite firstn_all2.
      * apply list_elem_of_In. rewrite P. apply list_elem_of_In, filter_In.
        split; [done|]. by apply scoresPositive_hit.
      * rewrite (Permutation_length P).
        etransitivity; [apply filter_length_le|done].
Qed.



(** ** Feedback analyzer: which feedback is matched to which question *)

Section MatchFacts.
Import Analyzer MatchSpec.
Variable getTime : string -> option Z.

Lemma find_rev_spec {A} (p : A -> bool) (l : list A) m :
  List.find p (rev l) = Some m <->
  exists j, nth_error l j = Some m /\ p m = true /\
            forall k m', (j < k)%nat -> nth_error l k = Some m' -> p m' = false.
Proof.
  induction l as [|x l IH] using rev_ind.
  - simpl. split; [done|]. intros (j & H & _). by destruct j.
  - rewrite rev_app_distr. simpl. destruct (p x) eqn:Px.
    + split.
      * intros [= <-]. exists (List.length l). split.
        { rewrite nth_error_app2; [|lia]. by rewrite Nat.sub_diag. }
        split; [done|]. intros k m' Hk Hn.
        assert (nth_error (l ++ [x]) k = None) as N; [|congruence].
        apply nth_error_None. rewrite length_app. simpl. lia.
      * intros (j & Hj & Pm & Later).
        destruct (Nat.lt_ge_cases j (List.length l)) as [Lt|Ge].
        { rewrite (Later (List.length l) x Lt) in Px; [done|].
          rewrite nth_error_app2; [|lia]. by rewrite Nat.sub_diag. }
        rewrite nth_error_app2 in Hj; [|lia].
        destruct (j - List.length l)%nat as [|d]; simpl in Hj; [congruence|].
        by destruct d.
    + rewrite IH. split.
      * intros (j & Hj & Pm & Later). exists j.
        split; [rewrite nth_error_app1; [done|]; apply nth_error_Some; congruence|].
        split; [done|]. intros k m' Hk Hn.
        destruct (Nat.lt_ge_cases k (List.length l)) as [Lt|Ge].
        { rewrite nth_error_app1 in Hn; [|done]. eauto. }
        rewrite nth_error_app2 in Hn; [|lia].
        destruct (k - List.length l)%nat as [|d]; simpl in Hn; [congruence|].
        by destruct d.
      * intros (j & Hj & Pm & Later).
        destruct (Nat.lt_ge_cases j (List.length l)) as [Lt|Ge].
        { exists j. rewrite nth_error_app1 in Hj; [|done].
          split; [done|]. split; [done|]. intros k m' Hk Hn.
          apply (Later k m' Hk). rewrite nth_error_app1; [done|].
          apply nth_error_Some. congruence. }
        rewrite nth_error_app2 in Hj; [|lia].
        destruct (j - List.length l)%nat as [|d]; simpl in Hj; [congruence|].
        by destruct d.
Qed.

Lemma isUser_role m : isUser m = true <-> role m = user.
Proof. unfold isUser. by destruct (role m). Qed.

Lemma isUser_assistant m : isUser m = false <-> role m = assistant.
Proof. unfold isUser. by destruct (role m). Qed.

Lemma preceding_spec messages i q :
  findPrecedingUserMessage messages i = Some q <->
  exists j m, nearestUserMessage messages i j m /\ msg_content m = q.
Proof.
  unfold findPrecedingUserMessage, nearestUserMessage. split.
  - destruct (List.find _ _) as [m|] eqn:F; [|done]. simpl. intros [= <-].
    apply find_rev_spec in F as (j & Hj & Pm & Later).
    rewrite nth_error_firstn in Hj.
    destruct (j <? i)%nat eqn:Lt; [|done]. apply Nat.ltb_lt in Lt.
    exists j, m. split; [|done]. split; [done|]. split; [done|].
    split; [by apply isUser_role|]. intros k m' Hk Hn.
    apply isUser_assistant, (Later k); [lia|].
    rewrite nth_error_firstn. by rewrite (proj2 (Nat.ltb_lt k i)); [|lia].
  - intros (j & m & (Lt & Hj & Hu & Later) & <-).
    assert (List.find isUser (rev (firstn i messages)) = Some m) as ->; [|done].
    apply find_rev_spec. exists j. rewrite nth_error_firstn.
    rewrite (proj2 (Nat.ltb_lt j i) Lt). split; [done|].
    split; [by apply isUser_role|]. intros k m' Hk Hn.
    rewrite nth_error_firstn in Hn. destruct (k <? i)%nat eqn:Lk; [|done].
    apply Nat.ltb_lt in Lk. apply isUser_assistant, (Later k); [lia|done].
Qed.

Lemma messageIdIs_spec s f : messageIdIs s f = true <-> messageId f = Some s.
Proof.
  unfold messageIdIs. destruct (messageId f) as [x|]; [|done].
  rewrite String.eqb_eq. split; congruence.
Qed.

Lemma attach_In m u fbs q (fb : Feedback) :
  In fb (default [] (Js.mapGet String.eqb (attach m u fbs) q)) <->
  In fb (default [] (Js.mapGet String.eqb m q)) \/
  (u = Some q /\ q <> "" /\ In fb fbs).
Proof.
  unfold attach. destruct u as [s|]; [|by intuition].
  destruct (String.eqb s "") eqn:E.
  - apply String.eqb_eq in E. subst s. split; [tauto|].
    intros [H|([= <-] & N & _)]; [done|]. by destruct N.
  - apply String.eqb_neq in E.
    rewrite (mapGet_mapSet _ string_eqb_spec).
    destruct (String.eqb s q) eqn:Q.
    + apply String.eqb_eq in Q. subst s. cbn [from_option Datatypes.id].
      rewrite in_app_iff. intuition.
    + apply String.eqb_neq in Q. split; [tauto|].
      intros [H|([= ->] & _)]; [done|]. by destruct Q.
Qed.

Lemma attach_kept m u (fbs : list Feedback) :
  fbs <> [] ->
  (NoDup (map fst m) /\
   forall q l, Js.mapGet String.eqb m q = Some l -> q <> "" /\ l <> []) ->
  NoDup (map fst (attach m u fbs)) /\
  forall q l, Js.mapGet String.eqb (attach m u fbs) q = Some l -> q <> "" /\ l <> [].
Proof.
  intros Hf [ND Hm]. unfold attach. destruct u as [s|]; [|done].
  destruct (String.eqb s "") eqn:E; [done|]. apply String.eqb_neq in E.
  split; [by apply (mapSet_NoDup _ string_eqb_spec)|].
  intros q l. rewrite (mapGet_mapSet _ string_eqb_spec).
  destruct (String.eqb s q) eqn:Q; [|apply Hm].
  apply String.eqb_eq in Q. subst s. intros [= <-]. split; [done|].
  intros N. apply app_eq_nil in N as [_ N]. done.
Qed.

Lemma nearby_In fh mt u m q (fb : Feedback) :
  In fb
    (default []
       (Js.mapGet String.eqb
          (fold_left
             (fun qf f =>
                if near mt (getTime (fb_timestamp f)) then attach qf u [f] else qf)
             fh m) q)) <->
  In fb (default [] (Js.mapGet String.eqb m q)) \/
  (u = Some q /\ q <> "" /\ In fb fh /\ near mt (getTime (fb_timestamp fb)) = true).
Proof.
  revert m. induction fh as [|f fh IH]; intros m; simpl; [by intuition|].
  rewrite IH. destruct (near mt (getTime (fb_timestamp f))) eqn:N.
  - rewrite attach_In. simpl. split.
    + intros [[H|(A & B & [<-|[]])]|(A & B & C & D)]; auto 10.
    + intros [H|(A & B & [<-|C] & D)]; auto 10.
  - split.
    + intros [H|(A & B & C & D)]; auto 10.
    + intros [H|(A & B & [<-|C] & D)]; [auto|congruence|auto 10].
Qed.

Lemma matchMessage_In fh messages m i msg q (fb : Feedback) :
  In fb (default [] (Js.mapGet String.eqb (matchMessage getTime fh messages m i msg) q)) <->
  In fb (default [] (Js.mapGet String.eqb m q)) \/
  (q <> "" /\ role msg = assistant /\
   findPrecedingUserMessage messages i = Some q /\ brings getTime fh i msg fb).
Proof.
  unfold matchMessage, brings.
  destruct (isUser msg) eqn:U.
  { apply isUser_role in U. split; [tauto|]. intros [H|(_ & A & _)]; [done|congruence]. }
  apply isUser_assistant in U.
  destruct (feedback msg) as [inline|].
  { rewrite attach_In. simpl. intuition. }
  destruct (0 <? _)%nat eqn:L.
  - apply Nat.ltb_lt in L. rewrite attach_In, filter_In, messageIdIs_spec. split.
    + intros [H|(A & B & C & D)]; auto 10.
    + intros [H|(A & B & C & D & [E|[E _]])]; [tauto|tauto|]. exfalso.
      destruct (List.filter _ fh) as [|f l] eqn:F; [simpl in L; lia|].
      assert (In f (List.filter (messageIdIs (indexString i)) fh)) as Hf
        by (rewrite F; by left).
      apply filter_In in Hf as [Hf Hid]. apply messageIdIs_spec in Hid.
      by apply (E f).
  - apply Nat.ltb_ge in L.
    assert (forall f, In f fh -> messageId f <> Some (indexString i)) as None.
    { intros f Hf Hid.
      assert (In f (List.filter (messageIdIs (indexString i)) fh)) as Hin
        by (apply filter_In; split; [done | by apply messageIdIs_spec]).
      destruct (List.filter _ fh); [done | simpl in L; lia]. }
    rewrite nearby_In. split.
    + intros [H|(A & B & C & D)]; auto 10.
    + intros [H|(A & B & C & D & [E|[_ E]])]; [tauto| |tauto].
      by destruct (None fb D).
Qed.

Lemma matchMessage_kept fh messages m i msg :
  (NoDup (map fst m) /\
   forall q l, Js.mapGet String.eqb m q = Some l -> q <> "" /\ l <> []) ->
  NoDup (map fst (matchMessage getTime fh messages m i msg)) /\
  forall q l,
    Js.mapGet String.eqb (matchMessage getTime fh messages m i msg) q = Some l ->
    q <> "" /\ l <> [].
Proof.
  intros J. unfold matchMessage. destruct (isUser msg); [done|].
  destruct (feedback msg) as [inline|]; [by apply attach_kept|].
  destruct (0 <? _)%nat eqn:L.
  - apply attach_kept; [|done]. intros E. rewrite E in L. done.
  - apply (fold_left_invariant
             (fun m => NoDup (map fst m) /\
                forall q l, Js.mapGet String.eqb m q = Some l -> q <> "" /\ l <> []));
      [done|].
    intros a f Ja. destruct (near _ _); [by apply attach_kept | done].
Qed.

Lemma matchMessages_In fh messages rest m i q (fb : Feedback) :
  In fb
    (default [] (Js.mapGet String.eqb (matchMessages getTime fh messages m i rest) q)) <->
  In fb (default [] (Js.mapGet String.eqb m q)) \/
  (q <> "" /\
   exists k msg,
     nth_error rest k = Some msg /\ role msg = assistant /\
     findPrecedingUserMessage messages (i + k) = Some q /\
     brings getTime fh (i + k) msg fb).
Proof.
  revert m i. induction rest as [|msg rest IH]; intros m i; simpl.
  { split; [tauto|]. intros [H|(_ & k & x & H & _)]; [done|]. by destruct k. }
  rewrite IH, matchMessage_In. split.
  - intros [[H|(A & B & C & D)]|(A & k & x & B & C & D & E)]; [tauto| |].
    + right. split; [done|]. exists 0%nat, msg. by rewrite Nat.add_0_r.
    + right. split; [done|]. exists (S k), x.
      by rewrite Nat.add_succ_r.
  - intros [H|(A & k & x & B & C & D & E)]; [tauto|]. destruct k as [|k].
    + simpl in B. injection B as <-. rewrite Nat.add_0_r in D, E. tauto.
    + right. split; [done|]. exists k, x. rewrite Nat.add_succ_r in D, E. done.
Qed.

Lemma matchMessages_kept fh messages rest m i :
  (NoDup (map fst m) /\
   forall q l, Js.mapGet String.eqb m q = Some l -> q <> "" /\ l <> []) ->
  NoDup (map fst (matchMessages getTime fh messages m i rest)) /\
  forall q l,
    Js.mapGet String.eqb (matchMessages getTime fh messages m i rest) q = Some l ->
    q <> "" /\ l <> [].
Proof.
  revert m i. induction rest as [|msg rest IH]; intros m i J; simpl; [done|].
  by apply IH, matchMessage_kept.
Qed.

Lemma matchSessions_In fh sessions m q (fb : Feedback) :
  In fb
    (default []
       (Js.mapGet String.eqb
          (fold_left
             (fun qf session =>
                matchMessages getTime fh (messages session) qf 0%nat (messages session))
             sessions m) q)) <->
  In fb (default [] (Js.mapGet String.eqb m q)) \/
  (q <> "" /\
   exists session i msg,
     In session sessions /\
     nth_error (messages session) i = Some msg /\ role msg = assistant /\
     findPrecedingUserMessage (messages session) i = Some q /\
     brings getTime fh i msg fb).
Proof.
  revert m. induction sessions as [|s sessions IH]; intros m; simpl.
  { split; [tauto|]. by intros [H|(_ & ? & ? & ? & [] & _)]. }
  rewrite IH, matchMessages_In. simpl. split.
  - intros [[H|(A & k & x & B)]|(A & s' & k & x & B & C)]; [tauto| |].
    + right. split; [done|]. exists s, k, x. tauto.
    + right. split; [done|]. exists s', k, x. tauto.
  - intros [H|(A & s' & k & x & [<-|B] & C)]; [tauto| |].
    + left. right. split; [done|]. by exists k, x.
    + right. split; [done|]. by exists s', k, x.
Qed.

End MatchFacts.

(** X22. Which feedback is matched to which question.  The map built
    by [matchFeedbackToQuestions] has distinct, non-empty questions as
    keys and a non-empty list of feedback under each.  A feedback is
    listed under a question exactly when the question is not empty and
    some assistant message of some session brings that feedback and
    has a user message reading the question as its nearest preceding
    user message; the message brings its own feedback when it has
    one, otherwise the recorded feedback whose message id is its index
    in the session, and when there is none the recorded feedback
    given less than 60 seconds from the message. *)
Theorem feedback_is_matched_to_questions (getTime : string -> option Z)
    (feedbackHistory : list Feedback) (sessions : list Session) :
  let questionFeedback :=
    Analyzer.matchFeedbackToQuestions getTime feedbackHistory sessions in
  NoDup (map fst questionFeedback) /\
  (forall q fbs, Js.mapGet String.eqb questionFeedback q = Some fbs ->
                 q <> "" /\ fbs <> []) /\
  (forall q fb,
     In fb (default [] (Js.mapGet String.eqb questionFeedback q)) <->
     q <> "" /\ MatchSpec.attributed getTime feedbackHistory sessions q fb) /\
  (forall messages i q,
     Analyzer.findPrecedingUserMessage messages i = Some q <->
     exists j m, MatchSpec.nearestUserMessage messages i j m /\ msg_content m = q).
Proof.
  intros questionFeedback. subst questionFeedback.
  unfold Analyzer.matchFeedbackToQuestions.
  assert (NoDup (map fst
            (fold_left
               (fun qf session =>
                  Analyzer.matchMessages getTime feedbackHistory (messages session) qf
                    0%nat (messages session))
               sessions [])) /\
          forall q l,
            Js.mapGet String.eqb
              (fold_left
                 (fun qf session =>
                    Analyzer.matchMessages getTime feedbackHistory (messages session) qf
                      0%nat (messages session))
                 sessions []) q = Some l -> q <> "" /\ l <> []) as [ND Hm].
  { apply (fold_left_invariant
             (fun m => NoDup (map fst m) /\
                forall q l, Js.mapGet String.eqb m q = Some l -> q <> "" /\ l <> [])).
    - split; [constructor | done].
    - intros a s Ja. by apply matchMessages_kept. }
  split; [done|]. split; [done|]. split; [|apply preceding_spec].
  intros q fb. rewrite matchSessions_In. unfold MatchSpec.attributed. simpl. split.
  - intros [[]|(A & s & i & msg & B & C & D & E & F)]. split; [done|].
    apply preceding_spec in E as (j & m & E1 & E2).
    exists s, i, msg, j, m. tauto.
  - intros (A & s & i & msg & j & m & B & C & D & E & F & G). right.
    split; [done|]. exists s, i, msg. repeat split; try done.
    apply preceding_spec. by exists j, m.
Qed.


(** ** Q&A responder: the cleaned answer *)

Section CleanFacts.
Import QA QASpec AnswerSpec.

Lemma literalCI_straddle lit post t :
  Js.anyChar (fun a => Ascii.eqb (Js.lowerChar a) newline) lit = false ->
  literalCI lit post = None ->
  literalCI lit (post +:+ String newline t) = None.
Proof.
  revert post. induction lit as [|a lit IH]; intros post NL; [done|].
  cbn [Js.anyChar] in NL. apply orb_false_iff in NL as [Na NL].
  destruct post as [|b post].
  - intros _. rewrite append_nil. cbn [literalCI].
    change (Js.lowerChar newline) with newline. by rewrite Na.
  - rewrite append_cons. cbn [literalCI].
    destruct (Ascii.eqb (Js.lowerChar a) (Js.lowerChar b)); [|done].
    destruct (literalCI lit post) as [[m rest]|] eqn:L; [done|].
    intros _. by rewrite (IH post NL L).
Qed.

Lemma removeFirst_skip matchHere body t :
  (forall pre c post, body = pre +:+ String c post ->
                      matchHere (String c post +:+ t) = None) ->
  removeFirst matchHere (body +:+ t) = body +:+ removeFirst matchHere t.
Proof.
  induction body as [|c body IH]; intros H; [done|].
  rewrite append_cons.
  assert (matchHere (String c (body +:+ t)) = None) as N by apply (H "" c body eq_refl).
  cbn [removeFirst]. rewrite N. rewrite append_cons. f_equal. apply IH.
  intros pre c' post ->. apply (H (String c pre)). by rewrite append_cons.
Qed.

Lemma hasLineStarting_split lit pre c post :
  hasLineStarting lit (pre +:+ String c post) = false ->
  c = newline -> literalCI lit post = None.
Proof.
  induction pre as [|x pre IH]; intros H ->.
  - rewrite append_nil in H. cbn [hasLineStarting] in H.
    apply orb_false_iff in H as [H _]. rewrite Ascii.eqb_refl in H.
    by destruct (literalCI lit post).
  - rewrite append_cons in H. cbn [hasLineStarting] in H.
    apply orb_false_iff in H as [_ H]. by apply IH.
Qed.

Lemma confidenceLine_absent body t :
  hasLineStarting "CONFIDENCE:" body = false ->
  forall pre c post, body = pre +:+ String c post ->
    confidenceLine (String c post +:+ String newline t) = None.
Proof.
  intros H pre c post ->. rewrite append_cons. cbn [confidenceLine].
  destruct (Ascii.eqb c newline) eqn:E; [|done]. apply Ascii.eqb_eq in E.
  rewrite literalCI_straddle; [done|reflexivity|].
  by apply (hasLineStarting_split _ pre c).
Qed.

Lemma followUpsLine_absent body t :
  hasLineStarting "FOLLOW_UPS:" body = false ->
  forall pre c post, body = pre +:+ String c post ->
    followUpsLine (String c post +:+ String newline t) = None.
Proof.
  intros H pre c post ->. rewrite append_cons. cbn [followUpsLine].
  destruct (Ascii.eqb c newline) eqn:E; [|done]. apply Ascii.eqb_eq in E.
  rewrite literalCI_straddle; [done|reflexivity|].
  by apply (hasLineStarting_split _ pre c).
Qed.

Lemma append_nil_r (s : string) : s +:+ "" = s.
Proof. induction s as [|c s IH]; [done|]. by rewrite append_cons, IH. Qed.

Lemma confidenceLine_untouched body :
  hasLineStarting "CONFIDENCE:" body = false ->
  removeFirst confidenceLine body = body.
Proof.
  intros H. rewrite <- (append_nil_r body) at 1. rewrite removeFirst_skip.
  - simpl. apply append_nil_r.
  - intros pre c post ->. rewrite append_nil_r. cbn [confidenceLine].
    destruct (Ascii.eqb c newline) eqn:E; [|done]. apply Ascii.eqb_eq in E.
    by rewrite (hasLineStarting_split _ pre c post H E).
Qed.

Lemma followUpsLine_untouched body :
  hasLineStarting "FOLLOW_UPS:" body = false ->
  removeFirst followUpsLine body = body.
Proof.
  intros H. rewrite <- (append_nil_r body) at 1. rewrite removeFirst_skip.
  - simpl. apply append_nil_r.
  - intros pre c post ->. rewrite append_nil_r. cbn [followUpsLine].
    destruct (Ascii.eqb c newline) eqn:E; [|done]. apply Ascii.eqb_eq in E.
    by rewrite (hasLineStarting_split _ pre c post H E).
Qed.

Lemma append_cancel (a b c : string) : a +:+ b = a +:+ c -> b = c.
Proof.
  induction a as [|x a IH]; [done|]. rewrite !append_cons. intros [= H]. auto.
Qed.

Lemma afterLevel_complete level t :
  isLevel level -> afterLevel (level +:+ t) = Some t.
Proof.
  intros L. pose proof (levelGroup_complete level t L) as G.
  unfold levelGroup in G. unfold afterLevel.
  destruct (literalCI "low" (level +:+ t)) as [[m rest]|] eqn:L1.
  { injection G as ->. apply literalCI_sound in L1 as [E _].
    by rewrite (append_cancel _ _ _ E). }
  destruct (literalCI "medium" (level +:+ t)) as [[m rest]|] eqn:L2.
  { injection G as ->. apply literalCI_sound in L2 as [E _].
    by rewrite (append_cancel _ _ _ E). }
  destruct (literalCI "high" (level +:+ t)) as [[m rest]|] eqn:L3; [|done].
  simpl in G. injection G as ->. apply literalCI_sound in L3 as [E _].
  simpl. by rewrite (append_cancel _ _ _ E).
Qed.

Lemma confidenceLine_complete m w level t :
  sameLetters m "CONFIDENCE:" -> allSpaces w = true -> isLevel level ->
  confidenceLine (confidenceLineOf m w level +:+ t) = Some t.
Proof.
  intros S W L. unfold confidenceLineOf. rewrite append_cons.
  cbn [confidenceLine]. rewrite Ascii.eqb_refl, !append_assoc.
  rewrite (literalCI_complete _ _ _ S).
  apply spacesThen_greedy; [exact W| |by apply afterLevel_complete].
  destruct (isLevel_shape level L) as [N B].
  destruct level; [done|]. by rewrite append_cons.
Qed.

Lemma lineTail_line group : oneLine group = true -> lineTail group = "".
Proof.
  induction group as [|c group IH]; [done|]. simpl. intros O.
  apply andb_true_iff in O as [T O]. apply negb_true_iff in T. rewrite T. auto.
Qed.

Lemma followUpsLine_complete m w questions :
  sameLetters m "FOLLOW_UPS:" -> allSpaces w = true ->
  questions <> "" -> startsBlank questions = false -> oneLine questions = true ->
  followUpsLine (followUpsLineOf m w questions) = Some "".
Proof.
  intros S W N B O. unfold followUpsLineOf. cbn [followUpsLine].
  rewrite Ascii.eqb_refl, (literalCI_complete _ _ _ S).
  apply spacesThen_greedy; [exact W|exact B|].
  unfold afterLine.
  rewrite <- (append_nil_r questions) at 1.
  rewrite (lineHead_line questions "" O eq_refl), (lineTail_line _ O).
  by destruct questions.
Qed.

Lemma cleanAnswer_formatted body m w level m' w' questions :
  hasLineStarting "CONFIDENCE:" body = false ->
  hasLineStarting "FOLLOW_UPS:" body = false ->
  sameLetters m "CONFIDENCE:" -> allSpaces w = true -> isLevel level ->
  sameLetters m' "FOLLOW_UPS:" -> allSpaces w' = true ->
  questions <> "" -> startsBlank questions = false -> oneLine questions = true ->
  cleanAnswer (body +:+ confidenceLineOf m w level +:+ followUpsLineOf m' w' questions)
  = Js.trim body.
Proof.
  intros Hc Hf Hm Hw Hl Hm' Hw' Q1 Q2 Q3. unfold cleanAnswer.
  rewrite removeFirst_skip.
  2:{ unfold AnswerSpec.confidenceLineOf at 1. rewrite append_cons.
      by apply confidenceLine_absent. }
  assert (QA.removeFirst QA.confidenceLine
            (AnswerSpec.confidenceLineOf m w level
             +:+ AnswerSpec.followUpsLineOf m' w' questions)
          = AnswerSpec.followUpsLineOf m' w' questions) as ->.
  { unfold AnswerSpec.confidenceLineOf at 1. rewrite append_cons.
    cbn [QA.removeFirst].
    change (String QA.newline
              ((m +:+ w +:+ level) +:+ AnswerSpec.followUpsLineOf m' w' questions))
      with (AnswerSpec.confidenceLineOf m w level
            +:+ AnswerSpec.followUpsLineOf m' w' questions).
    by rewrite confidenceLine_complete. }
  rewrite removeFirst_skip.
  2:{ unfold AnswerSpec.followUpsLineOf at 1. by apply followUpsLine_absent. }
  assert (QA.removeFirst QA.followUpsLine (AnswerSpec.followUpsLineOf m' w' questions)
          = "") as ->.
  { unfold AnswerSpec.followUpsLineOf at 1. cbn [QA.removeFirst].
    change (String QA.newline (m' +:+ w' +:+ questions))
      with (AnswerSpec.followUpsLineOf m' w' questions).
    by rewrite followUpsLine_complete. }
  by rewrite append_nil_r.
Qed.

End CleanFacts.

(** X23. The cleaned answer.  Let [body] be an answer none of whose
    lines after the first starts with CONFIDENCE: or FOLLOW_UPS: (in
    whatever case).  [cleanAnswer] of [body] alone, of [body] followed
    by a confidence line (CONFIDENCE:, white space, a level), and of
    [body] followed by a confidence line and a line of follow-up
    questions (FOLLOW_UPS:, white space, a non-empty line that does
    not start with white space) is in each case [body] without its
    leading and trailing white space: the marker lines are removed
    and nothing else. *)
Theorem clean_answer_removes_the_markers
    (body m w level m' w' questions : string)
    (Hc : AnswerSpec.hasLineStarting "CONFIDENCE:" body = false)
    (Hf : AnswerSpec.hasLineStarting "FOLLOW_UPS:" body = false)
    (Hm : QASpec.sameLetters m "CONFIDENCE:") (Hw : QASpec.allSpaces w = true)
    (Hl : QASpec.isLevel level)
    (Hm' : QASpec.sameLetters m' "FOLLOW_UPS:") (Hw' : QASpec.allSpaces w' = true)
    (Hq : questions <> "" /\ QASpec.startsBlank questions = false /\
          QASpec.oneLine questions = true) :
  QA.cleanAnswer body = Js.trim body /\
  QA.cleanAnswer (body +:+ AnswerSpec.confidenceLineOf m w level) = Js.trim body /\
  QA.cleanAnswer
    (body +:+ AnswerSpec.confidenceLineOf m w level
          +:+ AnswerSpec.followUpsLineOf m' w' questions) = Js.trim body.
Proof.
  destruct Hq as (Q1 & Q2 & Q3). unfold QA.cleanAnswer. repeat split.
  - by rewrite confidenceLine_untouched, followUpsLine_untouched.
  - rewrite <- (append_nil_r (AnswerSpec.confidenceLineOf m w level)).
    rewrite removeFirst_skip.
    2:{ unfold AnswerSpec.confidenceLineOf at 1. rewrite append_cons.
        by apply confidenceLine_absent. }
    assert (QA.removeFirst QA.confidenceLine (AnswerSpec.confidenceLineOf m w level +:+ "")
            = "") as ->.
    { unfold AnswerSpec.confidenceLineOf at 1. rewrite append_cons.
      cbn [QA.removeFirst].
      change (String QA.newline ((m +:+ w +:+ level) +:+ ""))
        with (AnswerSpec.confidenceLineOf m w level +:+ "").
      by rewrite confidenceLine_complete. }
    by rewrite append_nil_r, followUpsLine_untouched.
  - by apply cleanAnswer_formatted.
Qed.

Lemma clean_answer_removes_the_markers_witness :
  QA.cleanAnswer
    ("Run the deploy script [e1]." +:+ AnswerSpec.confidenceLineOf "Confidence:" " " "high"
     +:+ AnswerSpec.followUpsLineOf "FOLLOW_UPS:" " " "Who owns it? | Where are the logs?")
  = "Run the deploy script [e1].".
Proof.
  refine (eq_trans
            (proj2 (proj2
               (clean_answer_removes_the_markers
                  "Run the deploy script [e1]." "Confidence:" " " "high"
                  "FOLLOW_UPS:" " " "Who owns it? | Where are the logs?"
                  _ _ _ _ _ _ _ _))) _).
  - reflexivity.
  - reflexivity.
  - reflexivity.
  - reflexivity.
  - right. right. reflexivity.
  - reflexivity.
  - reflexivity.
  - split; [discriminate|]. split; reflexivity.
  - vm_compute. reflexivity.
Defined.


(** ** The search tools of the plugin *)

Section SearchToolFacts.
Import Gap SearchTools.

Lemma findRelevantEntries_submseteq query entries limit :
  Ranker.findRelevantEntries query entries limit ⊆+ entries.
Proof.
  unfold Ranker.findRelevantEntries. cbv zeta. unfold Js.slice0.
  destruct (List.length _ =? 0)%nat.
  - apply sublist_submseteq, sublist_take.
  - rewrite <- firstn_map. etransitivity; [apply sublist_submseteq, sublist_take|].
    rewrite ranked_entries. apply sublist_submseteq, filter_sublist.
Qed.

Lemma submseteq_keys_NoDup {A B} (key : A -> B) (l k : list A) :
  l ⊆+ k -> NoDup (map key k) -> NoDup (map key l).
Proof.
  intros S ND. apply (fmap_submseteq key) in S.
  apply submseteq_sublist_l in S as (l2 & S & P).
  apply (sublist_NoDup _ l2); [|exact S]. rewrite P. exact ND.
Qed.

Lemma submseteq_In {A} (l k : list A) x : l ⊆+ k -> In x l -> In x k.
Proof.
  intros S H. apply list_elem_of_In. apply list_elem_of_In in H.
  by apply (elem_of_submseteq l k).
Qed.

Lemma snippetOf_excerptOf text : snippetOf text = QA.excerptOf text.
Proof.
  unfold snippetOf, QA.excerptOf. destruct (200 <? String.length text)%nat eqn:L; [done|].
  apply Nat.ltb_ge in L. rewrite append_nil_r. clear -L.
  assert (forall n s, (String.length s <= n)%nat -> substring 0 n s = s) as H.
  { induction n as [|n IH]; intros [|c s]; simpl; try done; [lia|].
    intros Hl. f_equal. apply IH. lia. }
  by apply H.
Qed.

Lemma topicSummary_fold (entries : list KnowledgeEntry) m0 :
  fold_left (fun summary entry => bump categoryEqb summary (category entry)) entries m0
  = fold_left (bump categoryEqb) (map category entries) m0.
Proof. revert m0. induction entries as [|e entries IH]; intros m0; simpl; auto. Qed.

Lemma topicSummary_count entries c :
  default 0%nat (Js.mapGet categoryEqb (getTopicSummary entries) c)
  = List.length (List.filter (fun e => categoryEqb (category e) c) entries).
Proof.
  unfold getTopicSummary. rewrite topicSummary_fold.
  rewrite (bumps_count _ categoryEqb_spec). simpl.
  by rewrite filter_map_swap, length_map.
Qed.

Lemma topicSummary_keys entries c :
  In c (map fst (getTopicSummary entries)) <-> exists e, In e entries /\ category e = c.
Proof.
  unfold getTopicSummary. rewrite entryCounts_keys. simpl. tauto.
Qed.

Lemma topicSummary_NoDup entries : NoDup (map fst (getTopicSummary entries)).
Proof.
  unfold getTopicSummary. rewrite topicSummary_fold.
  apply (bumps_NoDup _ categoryEqb_spec). constructor.
Qed.

Lemma topicSummary_row entries c n :
  In (c, n) (getTopicSummary entries) <->
  (0 < n)%nat /\
  n = List.length (List.filter (fun e => categoryEqb (category e) c) entries).
Proof.
  split.
  - intros H.
    assert (exists e, In e entries /\ category e = c) as (e & He & Hc).
    { apply topicSummary_keys. by apply (in_map fst) in H. }
    apply (In_mapGet _ categoryEqb_spec _ _ _ (topicSummary_NoDup entries)) in H.
    pose proof (topicSummary_count entries c) as C. rewrite H in C. simpl in C.
    split; [|done]. rewrite C. apply (filter_length_pos _ _ e He).
    by apply categoryEqb_spec.
  - intros [Pos ->].
    destruct (Js.mapGet categoryEqb (getTopicSummary entries) c) as [n|] eqn:G.
    + pose proof (topicSummary_count entries c) as C. rewrite G in C. simpl in C.
      rewrite <- C. by apply (mapGet_In _ categoryEqb_spec).
    + pose proof (topicSummary_count entries c) as C. rewrite G in C. simpl in C. lia.
Qed.

Lemma topicSummary_total entries :
  list_sum (map snd (getTopicSummary entries)) = List.length entries.
Proof.
  rewrite <- (counts_add_up entries (map fst (getTopicSummary entries))).
  - rewrite map_map. f_equal. apply map_ext_in. intros [c n] H.
    apply topicSummary_row in H as [_ ->]. done.
  - apply topicSummary_NoDup.
  - intros e He. apply topicSummary_keys. by exists e.
Qed.

End SearchToolFacts.

(** X24. The topic summary.  [handover_topic_summary] lists each
    category once; a category is listed with the count [n] exactly when
    [n] is the number of stored entries of that category and is not
    zero, so a category without entries is not listed; and the counts
    add up to [totalEntries], the number of stored entries. *)
Theorem topic_summary_counts (s : Store.State) :
  let answer := SearchTools.handover_topic_summary s in
  NoDup (map fst (fst answer)) /\
  (forall c n,
     In (c, n) (fst answer) <->
     (0 < n)%nat /\
     n = List.length
           (List.filter (fun e => Gap.categoryEqb (category e) c)
              (Store.getAllEntries s))) /\
  list_sum (map snd (fst answer)) = snd answer /\
  snd answer = List.length (Store.getAllEntries s).
Proof.
  intros answer. subst answer. unfold SearchTools.handover_topic_summary. simpl.
  split; [apply topicSummary_NoDup|]. split; [apply topicSummary_row|].
  split; [apply topicSummary_total|done].
Qed.

(** X25. The answer of the search tool.  In a store whose records are
    stored under their own ids, [handover_search] returns at most
    [limit] results and reports their number as [count]; no id is
    returned twice; and every result is the projection of the entry
    that [getEntry] returns for its id, with a snippet of at most 203
    characters that is the same text as the excerpt a citation of
    that entry carries: the content itself when it has at most 200
    characters. *)
Theorem search_tool_answer (query : string) (limit : nat) (s : Store.State)
    (W : StoreSpec.wellNamed s) :
  let answer := SearchTools.handover_search query limit s in
  snd answer = List.length (fst answer) /\
  (snd answer <= limit)%nat /\
  NoDup (map SearchTools.r_id (fst answer)) /\
  forall r, In r (fst answer) ->
    exists e,
      Store.getEntry (SearchTools.r_id r) s = Some e /\
      r = SearchTools.format e /\
      SearchTools.snippet r = QA.excerptOf (content e) /\
      (String.length (SearchTools.snippet r) <= 203)%nat /\
      ((String.length (content e) <= 200)%nat -> SearchTools.snippet r = content e).
Proof.
  intros answer. subst answer. unfold SearchTools.handover_search. simpl.
  pose proof (findRelevantEntries_submseteq query (Store.getAllEntries s) limit) as S.
  split; [done|]. split.
  { rewrite length_map.
    unfold Ranker.findRelevantEntries. cbv zeta. unfold Js.slice0.
    destruct (List.length _ =? 0)%nat; rewrite ?length_map, length_firstn; lia. }
  split.
  { rewrite map_map. simpl.
    apply (submseteq_keys_NoDup id _ _ S), wellNamed_ids_NoDup, W. }
  intros r Hr. apply in_map_iff in Hr as (e & <- & He). exists e.
  apply (submseteq_In _ _ _ S) in He.
  split; [by apply wellNamed_getEntry|]. split; [done|]. simpl.
  rewrite snippetOf_excerptOf.
  destruct (excerptOf_spec (content e)) as (A & B & _). done.
Qed.

Lemma search_tool_answer_witness :
  snd (SearchTools.handover_search "auth design" 10 Sample.addedOnce)
  = List.length (fst (SearchTools.handover_search "auth design" 10 Sample.addedOnce)).
Proof.
  assert (StoreSpec.wellNamed Sample.addedOnce) as W.
  { intros name e L.
    assert (Store.entryFiles Sample.addedOnce
            = {[ "u1" := Store.Readable
                           (Store.stamped "t1" "u1" (Sample.authDesign "" "first")) ]})
      as E by (vm_compute; reflexivity).
    rewrite E in L. apply lookup_singleton_Some in L as [<- [= <-]]. reflexivity. }
  exact (proj1 (search_tool_answer "auth design" 10 Sample.addedOnce W)).
Defined.


(** ** The store of the command-line tool *)

Section CliStoreFacts.
Import Store StoreSpec.

Lemma cli_addEntry_body now uuid entry s :
  findDuplicate entry s = None ->
  addEntryBody now uuid entry s
  = ({| r_id := id (stamped now uuid entry); deduplicated := false |},
     CliStore.addEntry now uuid entry s).
Proof. intros F. unfold addEntryBody, CliStore.addEntry. by rewrite F. Qed.

Lemma cli_addEntry_scan now uuid entry s :
  getEntry (id (stamped now uuid entry)) s = None ->
  getAllEntries (CliStore.addEntry now uuid entry s)
  ≡ₚ stamped now uuid entry :: getAllEntries s.
Proof.
  intros G. unfold CliStore.addEntry. cbv zeta. rewrite scan_writeIndex.
  by apply scan_write_fresh.
Qed.

Lemma cli_addEntry_invariant now uuid entry s :
  getEntry (id (stamped now uuid entry)) s = None ->
  invariant s -> invariant (CliStore.addEntry now uuid entry s).
Proof.
  intros G [W (ix & Hix & P & T)].
  pose proof (cli_addEntry_scan now uuid entry s G) as Q. split.
  - intros name e L. unfold CliStore.addEntry in L. simpl in L.
    destruct (decide (orElse (id entry) uuid = name)) as [<-|N].
    + rewrite lookup_insert_eq in L. by injection L as <-.
    + rewrite lookup_insert_ne in L by done. by apply W.
  - eexists. split; [reflexivity|]. split.
    + unfold scannedEntries. rewrite Q. simpl. unfold getIndex. simpl. rewrite Hix.
      rewrite <- Permutation_cons_append. constructor. exact P.
    + rewrite (Permutation_length Q). simpl. unfold getIndex. simpl. rewrite Hix.
      rewrite length_app. simpl. rewrite (Permutation_length P). unfold scannedEntries.
      rewrite length_map. lia.
Qed.

End CliStoreFacts.

(** X26. The store of the command-line tool never deduplicates.  When
    the id of the entry (its own, or the generated one when it has none)
    is a plain file name (no slash, no NUL, at most 100 characters), its
    [addEntry] always stores the entry, with missing id and dates filled
    in: [getEntry] of that id returns it and [getEntry] of every other
    plain file name is untouched.  When the plugin's store finds no
    duplicate, its
    [addEntry] does exactly the same.  When the id is not in use, the
    number of records grows by one and an index that corresponded to
    the records still does; if moreover a record with the same title
    (case ignored) and source was already there, both records are kept
    side by side, where the plugin's store would have left the files
    as they were. *)
Theorem cli_addEntry_never_deduplicates (now uuid : string) (entry : KnowledgeEntry)
    (s : Store.State) :
  StoreSpec.plainId (id (Store.stamped now uuid entry)) = true ->
  let stored := Store.stamped now uuid entry in
  let s' := CliStore.addEntry now uuid entry s in
  Store.getEntry (id stored) s' = Some stored /\
  (forall name, StoreSpec.plainId name = true -> name <> id stored ->
     Store.getEntry name s' = Store.getEntry name s) /\
  (Store.findDuplicate entry s = None ->
   Store.addEntry FileLock.Acquired now uuid entry s
   = (Store.Returned {| Store.r_id := id stored; Store.deduplicated := false |}, s')) /\
  (Store.getEntry (id stored) s = None ->
   List.length (Store.getAllEntries s') = S (List.length (Store.getAllEntries s)) /\
   (StoreSpec.invariant s -> StoreSpec.invariant s') /\
   forall d, StoreSpec.wellNamed s -> Store.findDuplicate entry s = Some d ->
     snd (Store.addEntry FileLock.Acquired now uuid entry s) = s /\
     In d (Store.getAllEntries s') /\ In stored (Store.getAllEntries s') /\
     d <> stored /\ StoreSpec.dedupKey d = StoreSpec.dedupKey stored).
Proof.
  intros _ stored s'. subst stored s'. split.
  { unfold CliStore.addEntry. cbv zeta. by rewrite getEntry_writeIndex, getEntry_writeEntry. }
  split.
  { intros name _ N. unfold CliStore.addEntry, Store.getEntry. simpl.
    by rewrite lookup_insert_ne. }
  split.
  { intros F. unfold Store.addEntry, Store.withLock.
    by rewrite (cli_addEntry_body _ _ _ _ F). }
  intros G. pose proof (cli_addEntry_scan now uuid entry s G) as Q.
  split; [by rewrite (Permutation_length Q)|].
  split; [by apply cli_addEntry_invariant|].
  intros d W F. destruct (findDuplicate_stored entry s d W F) as [Gd K].
  split.
  { unfold Store.addEntry, Store.withLock.
    by rewrite (addEntryBody_duplicate _ _ _ _ _ F). }
  split.
  { apply list_elem_of_In. rewrite Q. apply list_elem_of_In. right.
    by apply (getEntry_scan s (id d)). }
  split.
  { apply list_elem_of_In. rewrite Q. apply list_elem_of_In. by left. }
  split; [|by rewrite K].
  intros ->. rewrite G in Gd. discriminate.
Qed.

Lemma cli_addEntry_never_deduplicates_witness :
  StoreSpec.plainId "u1" = true /\
  Store.getEntry "u1" (CliStore.addEntry "t1" "u1" (Sample.authDesign "" "first") Sample.fresh)
  = Some (Store.stamped "t1" "u1" (Sample.authDesign "" "first")).
Proof.
  split; [reflexivity|].
  apply (cli_addEntry_never_deduplicates "t1" "u1" (Sample.authDesign "" "first")
           Sample.fresh).
  reflexivity.
Defined.


(** ** Q&A responder: the result built from a response *)

Section ResultFacts.
Import QA QASpec AnswerSpec.

Lemma mentions_none lit s :
  mentions lit s = false ->
  forall pre suf, s = pre +:+ suf -> literalCI lit suf = None.
Proof.
  induction s as [|c s IH]; cbn [mentions]; intros H pre suf E.
  - destruct pre; [|discriminate]. rewrite append_nil in E. subst suf.
    by destruct (literalCI lit "").
  - destruct (literalCI lit (String c s)) eqn:L; [discriminate|].
    destruct pre as [|x pre].
    + rewrite append_nil in E. by subst suf.
    + rewrite append_cons in E. injection E as _ E. by apply (IH H pre).
Qed.

Lemma literalCI_app lit s m rest x :
  literalCI lit s = Some (m, rest) -> literalCI lit (s +:+ x) = Some (m, rest +:+ x).
Proof.
  revert s m rest. induction lit as [|a lit IH]; intros s m rest; cbn [literalCI].
  - by intros [= <- <-].
  - destruct s as [|b s]; [discriminate|]. rewrite append_cons.
    destruct (Ascii.eqb (Js.lowerChar a) (Js.lowerChar b)); [|discriminate].
    destruct (literalCI lit s) as [[m' rest']|] eqn:L; [|discriminate].
    intros [= <- <-]. by rewrite (IH _ _ _ L).
Qed.

Lemma mentions_app lit s x : mentions lit (s +:+ x) = false -> mentions lit s = false.
Proof.
  induction s as [|c s IH].
  - intros H. simpl. destruct lit; [|done].
    rewrite append_nil in H. by destruct x.
  - rewrite append_cons. cbn [mentions].
    destruct (literalCI lit (String c s)) as [[m rest]|] eqn:L.
    + rewrite <- append_cons, (literalCI_app _ _ _ _ x L). discriminate.
    + destruct (literalCI lit (String c (s +:+ x))); [discriminate|]. exact IH.
Qed.

Lemma mentions_lines lit s : mentions lit s = false -> hasLineStarting lit s = false.
Proof.
  intros H. induction s as [|c s IH]; [done|].
  cbn [hasLineStarting].
  rewrite (mentions_none lit _ H (String c "") s eq_refl), andb_false_r. simpl.
  apply IH. cbn [mentions] in H. by destruct (literalCI lit (String c s)).
Qed.

(** No match of [lit] starts in [text] when [text] does not mention it
    and a line feed follows. *)
Lemma literal_absent lit text t p1 p2 :
  Js.anyChar (fun a => Ascii.eqb (Js.lowerChar a) newline) lit = false ->
  mentions lit text = false ->
  text +:+ String newline "" = p1 +:+ p2 -> p2 <> "" ->
  literalCI lit (p2 +:+ t) = None.
Proof.
  intros NL H E N.
  assert (exists q, p2 = q +:+ String newline "" /\ text = p1 +:+ q) as (q & -> & ->).
  { clear -E N. revert p1 E. induction text as [|c text IH]; intros p1 E.
    - rewrite append_nil in E. destruct p1 as [|x p1].
      + rewrite append_nil in E. subst p2. by exists "".
      + rewrite append_cons in E. injection E as _ E.
        destruct p1; [|discriminate]. rewrite append_nil in E. by subst p2.
    - rewrite append_cons in E. destruct p1 as [|x p1].
      + rewrite append_nil in E. subst p2. exists (String c text).
        by rewrite append_cons.
      + rewrite append_cons in E. injection E as <- E.
        destruct (IH p1 E) as (q & -> & ->). exists q. by rewrite append_cons. }
  rewrite append_assoc. rewrite append_cons, append_nil.
  apply literalCI_straddle; [exact NL|]. by apply (mentions_none lit _ H p1).
Qed.

End ResultFacts.

(** X27. The result of the responder for a response in the requested
    format.  Let the response be an answer that mentions neither
    CONFIDENCE: nor FOLLOW_UPS:, then a confidence line, then a line
    of follow-up questions.  The result that [execute] builds has the
    answer without the two marker lines and without surrounding white
    space; its citations are those of that answer alone, so an id in
    brackets among the follow-up questions is not cited; its
    confidence is 0.3, 0.6 or 0.9 for the level low, medium or high;
    and its follow-up questions are the non-empty trimmed pieces of
    the questions line, split at the pipes. *)
Theorem responder_result_of_formatted_response
    (body m w level m' w' questions : string) (knowledgeEntries : list KnowledgeEntry)
    (Hc : AnswerSpec.mentions "CONFIDENCE:" body = false)
    (Hf : AnswerSpec.mentions "FOLLOW_UPS:"
            (body +:+ AnswerSpec.confidenceLineOf m w level) = false)
    (Hm : QASpec.sameLetters m "CONFIDENCE:") (Hw : QASpec.allSpaces w = true)
    (Hl : QASpec.isLevel level)
    (Hm' : QASpec.sameLetters m' "FOLLOW_UPS:") (Hw' : QASpec.allSpaces w' = true)
    (Hq : questions <> "" /\ QASpec.startsBlank questions = false /\
          QASpec.oneLine questions = true) :
  let result :=
    QA.resultOf
      (body +:+ AnswerSpec.confidenceLineOf m w level
            +:+ AnswerSpec.followUpsLineOf m' w' questions)
      knowledgeEntries in
  QA.answer result = Js.trim body /\
  QA.qa_citations result = QA.parseCitations (Js.trim body) knowledgeEntries /\
  (QASpec.sameLetters level "low" -> QA.qa_confidence result = 3 # 10) /\
  (QASpec.sameLetters level "medium" -> QA.qa_confidence result = 6 # 10) /\
  (QASpec.sameLetters level "high" -> QA.qa_confidence result = 9 # 10) /\
  QA.suggestedFollowUps result = QASpec.questionsOf questions.
Proof.
  destruct Hq as (Q1 & Q2 & Q3). intros result. subst result. unfold QA.resultOf.
  cbv zeta. cbn [QA.answer QA.qa_citations QA.qa_confidence QA.suggestedFollowUps].
  assert (QA.cleanAnswer
            (body +:+ AnswerSpec.confidenceLineOf m w level
                  +:+ AnswerSpec.followUpsLineOf m' w' questions) = Js.trim body) as ->.
  { apply cleanAnswer_formatted; try done.
    - by apply mentions_lines.
    - by apply mentions_lines, (mentions_app _ _ _ Hf). }
  split; [done|]. split; [done|].
  assert (QA.exec QA.confidencePattern
            (body +:+ AnswerSpec.confidenceLineOf m w level
                  +:+ AnswerSpec.followUpsLineOf m' w' questions) = Some level) as E.
  { assert (body +:+ AnswerSpec.confidenceLineOf m w level
                 +:+ AnswerSpec.followUpsLineOf m' w' questions
            = (body +:+ String QA.newline "")
              +:+ m +:+ w +:+ level +:+ AnswerSpec.followUpsLineOf m' w' questions) as ->.
    { unfold AnswerSpec.confidenceLineOf. rewrite !append_assoc, !append_cons.
      by rewrite ?append_assoc. }
    apply exec_first; [by apply confidencePattern_complete|].
    intros p1 p2 E N. unfold QA.confidencePattern.
    by rewrite (literal_absent "CONFIDENCE:" body _ p1 p2 eq_refl Hc E N). }
  assert (QA.exec QA.followUpsPattern
            (body +:+ AnswerSpec.confidenceLineOf m w level
                  +:+ AnswerSpec.followUpsLineOf m' w' questions) = Some questions) as X.
  { assert (body +:+ AnswerSpec.confidenceLineOf m w level
                 +:+ AnswerSpec.followUpsLineOf m' w' questions
            = ((body +:+ AnswerSpec.confidenceLineOf m w level) +:+ String QA.newline "")
              +:+ m' +:+ w' +:+ questions +:+ "") as ->.
    { unfold AnswerSpec.followUpsLineOf. rewrite !append_assoc, !append_cons.
      by rewrite ?append_assoc, ?append_nil_r. }
    apply exec_first; [by apply followUpsPattern_complete|].
    intros p1 p2 E' N. unfold QA.followUpsPattern.
    by rewrite (literal_absent "FOLLOW_UPS:" _ _ p1 p2 eq_refl Hf E' N). }
  unfold QA.parseConfidence, QA.parseFollowUps, QASpec.questionsOf. rewrite E, X.
  split; [|split; [|split]]; [| | |apply nonempty_filter];
    unfold QASpec.sameLetters; intros ->; reflexivity.
Qed.

Lemma responder_result_of_formatted_response_witness :
  QA.answer
    (QA.resultOf
       ("Run the deploy script [e1]."
        +:+ AnswerSpec.confidenceLineOf "CONFIDENCE:" " " "High"
        +:+ AnswerSpec.followUpsLineOf "FOLLOW_UPS:" " " "Who owns [e2]? | Where are the logs?")
       [Sample.authDesign "e1" "first"; Sample.authDesign "e2" "second"])
  = "Run the deploy script [e1].".
Proof.
  refine (eq_trans
            (proj1
               (responder_result_of_formatted_response
                  "Run the deploy script [e1]." "CONFIDENCE:" " " "High"
                  "FOLLOW_UPS:" " " "Who owns [e2]? | Where are the logs?"
                  [Sample.authDesign "e1" "first"; Sample.authDesign "e2" "second"]
                  _ _ _ _ _ _ _ _)) _).
  - reflexivity.
  - reflexivity.
  - reflexivity.
  - reflexivity.
  - right. right. reflexivity.
  - reflexivity.
  - reflexivity.
  - split; [discriminate|]. split; reflexivity.
  - vm_compute. reflexivity.
Defined.


(** ** File utilities: the project root *)

Section ProjectRootFacts.
Import Files FilesSpec.

Lemma encloses_cons root c (p : Path) :
  encloses root (c :: p) <-> root = c :: p \/ encloses root p.
Proof.
  unfold encloses. split.
  - intros ([|x below] & E); simpl in E.
    + by left.
    + injection E as -> ->. right. by exists below.
  - intros [->|(below & ->)]; [by exists [] | by exists (c :: below)].
Qed.

Lemma encloses_length root (p : Path) :
  encloses root p -> (List.length root <= List.length p)%nat.
Proof. intros (below & ->). rewrite length_app. lia. Qed.

Lemma encloses_nil root : encloses root [] <-> root = [].
Proof.
  unfold encloses. split.
  - intros (below & E). symmetry in E. by apply app_eq_nil in E as [_ ->].
  - intros ->. by exists [].
Qed.

Lemma getProjectRoot_found hasHandover cwd root :
  getProjectRoot hasHandover cwd = Some root <->
  encloses root cwd /\ hasHandover root = true /\
  forall p, encloses p cwd -> hasHandover p = true ->
            (List.length p <= List.length root)%nat.
Proof.
  induction cwd as [|c parent IH]; cbn [getProjectRoot].
  - destruct (hasHandover []) eqn:H.
    + split.
      * intros [= <-]. split; [by exists []|]. split; [done|].
        intros p Hp _. apply encloses_nil in Hp. by subst p.
      * intros (E & _). apply encloses_nil in E. by subst root.
    + split; [done|]. intros (E & Hr & _). apply encloses_nil in E. congruence.
  - destruct (hasHandover (c :: parent)) eqn:H.
    + split.
      * intros [= <-]. split; [by exists []|]. split; [done|].
        intros p Hp _. by apply encloses_length.
      * intros (E & Hr & Near). apply encloses_cons in E as [->|E]; [done|].
        apply encloses_length in E.
        specialize (Near (c :: parent) (ex_intro _ [] eq_refl) H). simpl in Near. lia.
    + rewrite IH. split.
      * intros (E & Hr & Near). split; [apply encloses_cons; by right|].
        split; [done|]. intros p Hp Hh.
        apply encloses_cons in Hp as [->|Hp]; [congruence|]. by apply Near.
      * intros (E & Hr & Near). apply encloses_cons in E as [->|E]; [congruence|].
        split; [done|]. split; [done|]. intros p Hp Hh. apply Near; [|done].
        apply encloses_cons. by right.
Qed.

Lemma getProjectRoot_none hasHandover cwd :
  getProjectRoot hasHandover cwd = None <->
  forall p, encloses p cwd -> hasHandover p = false.
Proof.
  induction cwd as [|c parent IH]; cbn [getProjectRoot].
  - destruct (hasHandover []) eqn:H.
    + split; [done|]. intros N. rewrite (N [] (ex_intro _ [] eq_refl)) in H. done.
    + split; [|done]. intros _ p Hp. apply encloses_nil in Hp. by subst p.
  - destruct (hasHandover (c :: parent)) eqn:H.
    + split; [done|]. intros N.
      rewrite (N (c :: parent) (ex_intro _ [] eq_refl)) in H. done.
    + rewrite IH. split.
      * intros N p Hp. apply encloses_cons in Hp as [->|Hp]; [done|]. by apply N.
      * intros N p Hp. apply N. apply encloses_cons. by right.
Qed.

End ProjectRootFacts.

(** X28. The project root is the nearest enclosing directory that holds
    a [.handover] directory.  [getProjectRoot] returns a directory
    exactly when that directory is the working directory or lies above
    it, holds [.handover], and no directory holding [.handover] lies
    between it and the working directory; it returns null exactly when
    neither the working directory nor any directory above it, up to
    the root, holds [.handover]. *)
Theorem project_root_is_nearest (hasHandover : Files.Path -> bool) (cwd : Files.Path) :
  (forall root,
     Files.getProjectRoot hasHandover cwd = Some root <->
     FilesSpec.encloses root cwd /\ hasHandover root = true /\
     forall p, FilesSpec.encloses p cwd -> hasHandover p = true ->
               (List.length p <= List.length root)%nat) /\
  (Files.getProjectRoot hasHandover cwd = None <->
   forall p, FilesSpec.encloses p cwd -> hasHandover p = false).
Proof.
  split; [intros root; apply getProjectRoot_found | apply getProjectRoot_none].
Qed.


(** ** File utilities: listing the files of a directory *)

Section StringOrderFacts.

Lemma string_compare_antisym (a b : string) :
  String.compare a b = CompOpp (String.compare b a).
Proof. apply String.compare_antisym. Qed.

Lemma ascii_compare_trans_lt (a b c : ascii) :
  Ascii.compare a b = Lt -> Ascii.compare b c = Lt -> Ascii.compare a c = Lt.
Proof.
  unfold Ascii.compare. rewrite !N.compare_lt_iff. apply N.lt_trans.
Qed.

Lemma ascii_compare_eq (a b : ascii) : Ascii.compare a b = Eq -> a = b.
Proof. apply Ascii.compare_eq_iff. Qed.

Lemma ascii_compare_refl (a : ascii) : Ascii.compare a a = Eq.
Proof. unfold Ascii.compare. apply N.compare_refl. Qed.

Lemma string_compare_trans_lt (a b c : string) :
  String.compare a b = Lt -> String.compare b c = Lt -> String.compare a c = Lt.
Proof.
  revert b c. induction a as [|x a IH]; intros [|y b] [|z c]; simpl; try done.
  destruct (Ascii.compare x y) eqn:Exy; try done.
  - apply ascii_compare_eq in Exy. subst y.
    destruct (Ascii.compare x z) eqn:Exz; try done. apply IH.
  - destruct (Ascii.compare y z) eqn:Eyz; try done.
    + apply ascii_compare_eq in Eyz. subst z. by rewrite Exy.
    + by rewrite (ascii_compare_trans_lt _ _ _ Exy Eyz).
Qed.

Lemma string_compare_eq (a b : string) : String.compare a b = Eq -> a = b.
Proof. apply String.compare_eq_iff. Qed.

Lemma ltb_asym (a b : string) : String.ltb a b = true -> String.ltb b a = false.
Proof.
  unfold String.ltb. rewrite (string_compare_antisym b a).
  by destruct (String.compare a b).
Qed.

Lemma ltb_ordered_trans (a b c : string) :
  Js.ordered String.ltb a b -> Js.ordered String.ltb b c -> Js.ordered String.ltb a c.
Proof.
  unfold Js.ordered, String.ltb. intros Hab Hbc.
  destruct (String.compare c a) eqn:Eca; try done. exfalso.
  destruct (String.compare b a) eqn:Eba; try done.
  - apply string_compare_eq in Eba. subst b. by rewrite Eca in Hbc.
  - destruct (String.compare c b) eqn:Ecb; try done.
    + apply string_compare_eq in Ecb. subst c. congruence.
    + rewrite (string_compare_antisym b a) in Eba.
      destruct (String.compare a b) eqn:Eab; try done.
      pose proof (string_compare_trans_lt _ _ _ Eca Eab) as H. congruence.
Qed.

Lemma ordered_leb (a b : string) : Js.ordered String.ltb a b <-> String.leb a b = true.
Proof.
  unfold Js.ordered, String.ltb, String.leb. rewrite (string_compare_antisym b a).
  by destruct (String.compare a b).
Qed.

End StringOrderFacts.

Section ListFilesFacts.
Import Files FilesSpec.

Lemma Node_induction (P : Node -> Prop) :
  P File -> P Failing ->
  (forall entries, Forall (fun en => P (snd en)) entries -> P (Dir entries)) ->
  forall node, P node.
Proof.
  intros HF HX HD.
  refine (fix go (node : Node) : P node :=
            match node with
            | File => HF
            | Failing => HX
            | Dir entries =>
                HD entries
                  ((fix all (l : list (string * Node)) : Forall (fun en => P (snd en)) l :=
                      match l with
                      | [] => @List.Forall_nil _ (fun en => P (snd en))
                      | (e, n) :: l' =>
                          @List.Forall_cons _ (fun en => P (snd en)) (e, n) l'
                            (go n) (all l')
                      end) entries)
            end).
Qed.

Lemma reaches_nil names : ~ reaches [] names.
Proof. intros H. inversion H as [? ? Hin|? ? ? ? Hin]; destruct Hin. Qed.

Lemma reaches_cons e n rest names :
  reaches ((e, n) :: rest) names <->
  (n = File /\ names = [e]) \/
  (exists sub names',
     n = Dir sub /\ skipped e = false /\ reaches sub names' /\ names = e :: names') \/
  reaches rest names.
Proof.
  split.
  - intros H. inversion H as [? e' Hin|? e' sub names' Hin Hs Hr]; subst.
    + destruct Hin as [[= -> ->]|Hin]; [by left|]. right. right. by constructor.
    + destruct Hin as [[= -> ->]|Hin].
      * right. left. by exists sub, names'.
      * right. right. by apply (reaches_dir _ e' sub).
  - intros [[-> ->]|[(sub & names' & -> & Hs & Hr & ->)|H]].
    + constructor. by left.
    + apply (reaches_dir _ e sub); [by left|done|done].
    + inversion H as [? e' Hin|? e' sub names' Hin Hs Hr]; subst.
      * constructor. by right.
      * apply (reaches_dir _ e' sub); [by right|done|done].
Qed.

Lemma walk_In_from entries :
  Forall
    (fun en =>
       forall prefix results entry p,
         In p (visit prefix results entry (snd en)) <->
         In p results \/
         (snd en = File /\ p = relativePath prefix entry) \/
         exists sub names,
           snd en = Dir sub /\ skipped entry = false /\ reaches sub names /\
           p = fold_left relativePath names (relativePath prefix entry))
    entries ->
  forall prefix results p,
    In p (walk entries prefix results) <->
    In p results \/
    exists names, reaches entries names /\ p = fold_left relativePath names prefix.
Proof.
  induction 1 as [|[e n] rest Hn _ IH]; intros prefix results p.
  - simpl. split; [tauto|]. intros [H|(names & H & _)]; [done|].
    by destruct (reaches_nil names).
  - unfold walk. cbn [fold_left]. fold (walk rest prefix (visit prefix results e n)).
    rewrite IH. simpl in Hn. rewrite Hn. split.
    + intros [[H|[[-> ->]|(sub & names & -> & Hs & Hr & ->)]]|(names & Hr & ->)].
      * by left.
      * right. exists [e]. split; [|done]. apply reaches_cons. by left.
      * right. exists (e :: names). split; [|done]. apply reaches_cons.
        right. left. by exists sub, names.
      * right. exists names. split; [|done]. apply reaches_cons. by right; right.
    + intros [H|(names & Hr & ->)]; [by left; left|].
      apply reaches_cons in Hr as [[-> ->]|[(sub & names' & -> & Hs & Hr & ->)|Hr]].
      * left. right. by left.
      * left. right. right. by exists sub, names'.
      * right. by exists names.
Qed.

Lemma visit_In node :
  forall prefix results entry p,
    In p (visit prefix results entry node) <->
    In p results \/
    (node = File /\ p = relativePath prefix entry) \/
    exists sub names,
      node = Dir sub /\ skipped entry = false /\ reaches sub names /\
      p = fold_left relativePath names (relativePath prefix entry).
Proof.
  induction node as [| |entries IH] using Node_induction; intros prefix results entry p.
  - cbn [visit]. rewrite in_app_iff. simpl. split.
    + intros [H|[<-|[]]]; [by left|]. right. by left.
    + intros [H|[[_ ->]|(sub & names & E & _)]]; [by left|by right; left|done].
  - cbn [visit]. split; [by left|].
    intros [H|[[E _]|(sub & names & E & _)]]; done.
  - cbn [visit]. destruct (skipped entry) eqn:S.
    + split; [by left|].
      intros [H|[[E _]|(sub & names & E & Hs & _)]]; done.
    + fold (walk entries (relativePath prefix entry) results).
      rewrite (walk_In_from entries IH). split.
      * intros [H|(names & Hr & ->)]; [by left|]. right. right. by exists entries, names.
      * intros [H|[[E _]|(sub & names & [= <-] & _ & Hr & ->)]]; [by left|done|].
        right. by exists names.
Qed.

Lemma walk_In entries prefix results p :
  In p (walk entries prefix results) <->
  In p results \/
  exists names, reaches entries names /\ p = fold_left relativePath names prefix.
Proof.
  apply walk_In_from. apply Forall_forall. intros en _. apply visit_In.
Qed.

Lemma concat_cons (x y : string) (names : list string) :
  String.concat "/" (x :: y :: names) = x +:+ "/" +:+ String.concat "/" (y :: names).
Proof. reflexivity. Qed.

Lemma relativePath_from prefix names :
  prefix <> "" ->
  fold_left relativePath names prefix = String.concat "/" (prefix :: names).
Proof.
  revert prefix. induction names as [|n names IH]; intros prefix N; [done|].
  cbn [fold_left]. unfold relativePath at 2.
  destruct (String.eqb prefix "") eqn:E; [by apply String.eqb_eq in E|].
  rewrite IH by (by destruct prefix). rewrite concat_cons.
  destruct names as [|n' names]; [done|].
  by rewrite !concat_cons, !append_assoc.
Qed.

End ListFilesFacts.

(** X29. What [listFiles] lists.  Without a pattern, [listFiles] of a
    path where nothing exists is the empty list, and the call throws
    exactly when the path holds something that cannot be listed as a
    directory.  For a directory whose entries have non-empty names the
    result is in ascending order of code units and holds exactly the
    paths, joined with [/], that lead to a file through directories
    whose names neither start with a dot nor are [node_modules]: a
    hidden file is listed, but nothing inside a hidden directory or
    inside [node_modules], and nothing of a subdirectory that cannot be
    examined. *)
Theorem listFiles_lists_the_visible_files (entries : list (string * Files.Node))
    (Hnames : Forall (fun en => fst en <> "") entries) :
  Files.listFiles None = Some [] /\
  (forall dir, Files.listFiles dir = None <->
               dir = Some Files.File \/ dir = Some Files.Failing) /\
  exists result,
    Files.listFiles (Some (Files.Dir entries)) = Some result /\
    StronglySorted (fun a b => String.leb a b = true) result /\
    forall p,
      In p result <->
      exists names, FilesSpec.reaches entries names /\ p = String.concat "/" names.
Proof.
  split; [done|]. split.
  { intros [[| |]|]; simpl; split; try done; try tauto; intros [H|H]; done. }
  eexists. split; [reflexivity|]. split.
  - apply (sorted_weaken (fun _ => True) (Js.ordered String.ltb)).
    + by apply Forall_forall.
    + intros a b _ _. apply ordered_leb.
    + apply (sort_sorted String.ltb ltb_asym ltb_ordered_trans).
  - intros p. rewrite <- !list_elem_of_In.
    rewrite (sort_perm String.ltb). rewrite list_elem_of_In, walk_In. simpl.
    assert (forall names, FilesSpec.reaches entries names ->
              fold_left Files.relativePath names "" = String.concat "/" names) as J.
    { intros names Hr.
      assert (exists e names', names = e :: names' /\ e <> "") as (e & names' & -> & N).
      { inversion Hr as [? e Hin|? e sub names' Hin _ _]; subst.
        - exists e, []. split; [done|].
          rewrite Forall_forall in Hnames. apply list_elem_of_In in Hin.
          apply (Hnames _ Hin).
        - exists e, names'. split; [done|].
          rewrite Forall_forall in Hnames. apply list_elem_of_In in Hin.
          apply (Hnames _ Hin). }
      cbn [fold_left]. change (Files.relativePath "" e) with e.
      by apply relativePath_from. }
    split.
    + intros [[]|(names & Hr & ->)]. exists names. split; [done|]. by apply J.
    + intros (names & Hr & ->). right. exists names. split; [done|].
      symmetry. by apply J.
Qed.

Lemma listFiles_lists_the_visible_files_witness :
  exists result,
    Files.listFiles
      (Some (Files.Dir
         [("src", Files.Dir [("b.ts", Files.File);
                             (".cache", Files.Dir [("x", Files.File)]);
                             ("a.ts", Files.File)]);
          (".git", Files.Dir [("config", Files.File)]);
          ("node_modules", Files.Dir [("m.js", Files.File)]);
          ("locked", Files.Failing);
          (".env", Files.File);
          ("README.md", Files.File)])) = Some result /\
    result = [".env"; "README.md"; "src/a.ts"; "src/b.ts"] /\
    In "src/a.ts" result.
Proof.
  destruct (listFiles_lists_the_visible_files
              [("src", Files.Dir [("b.ts", Files.File);
                                  (".cache", Files.Dir [("x", Files.File)]);
                                  ("a.ts", Files.File)]);
               (".git", Files.Dir [("config", Files.File)]);
               ("node_modules", Files.Dir [("m.js", Files.File)]);
               ("locked", Files.Failing);
               (".env", Files.File);
               ("README.md", Files.File)])
    as (_ & _ & result & E & _ & M).
  { repeat constructor; discriminate. }
  exists result. split; [exact E|]. split.
  - vm_compute in E. by injection E as <-.
  - apply M. exists ["src"; "a.ts"]. split; [|reflexivity].
    apply (FilesSpec.reaches_dir _ "src"
             [("b.ts", Files.File); (".cache", Files.Dir [("x", Files.File)]);
              ("a.ts", Files.File)]);
      [by left | reflexivity |].
    constructor. simpl. tauto.
Defined.
